(** * Prospect Miner: lead store, identity and stage logic

    A shallow embedding of the TypeScript sources
    ([state/lead-service.ts], [state/run-service.ts], [state/database.ts],
    [stages/base-stage.ts] and the stage classes) together with the
    properties of the specification that are checked against them.

    Conventions of the embedding:
    - a JavaScript string is a [string] of ASCII characters; the built-ins
      [toLowerCase], [trim], [includes] and [join] are their restrictions to
      that alphabet;
    - integers (timestamps, counts, day numbers) are [Z]; score weights and
      thresholds are rationals [Q];
    - an optional property of an object read from the store is [Null] (the
      driver returns [null] for SQL NULL), of an object literal [Undefined];
    - the table [leads] is the list of its rows in rowid (insertion) order;
      a SELECT without ORDER BY answers in the order of the index that
      serves it: by rowid under one value of [status], by the column for
      a range of [cooldown_until], by [status] and then rowid for a list
      of statuses; a JSON text column holds the value it serialises;
    - the table [runs] is the sequence of the statements run against it;
      the staging table and the files of the output stage are left out;
    - [Date.now()] reads an oracle held by the world, one reading per call
      (the calls of the rate limiter and of the logger are not counted);
    - statements against the store and log calls always succeed; what can
      throw is a source handler, and a property lookup in [statusMap]. *)

From Stdlib Require Import ZArith List String Ascii Bool Lia QArith Qround.
Import ListNotations.
Open Scope string_scope.
Open Scope list_scope.
Open Scope Z_scope.

(* ================================================================== *)
(** ** JavaScript strings (ASCII) *)

Module Js.

Definition code (c : ascii) : Z := Z.of_N (N_of_ascii c).

Definition isUpper (c : ascii) : bool := (65 <=? code c) && (code c <=? 90).

Definition lowerChar (c : ascii) : ascii :=
  if isUpper c then ascii_of_N (N_of_ascii c + 32) else c.

(** [String.prototype.toLowerCase] *)
Definition toLowerCase (s : string) : string :=
  string_of_list_ascii (map lowerChar (list_ascii_of_string s)).

(** The white space of [trim] and of the regular-expression class [\s]:
    TAB, LF, VT, FF, CR and SPACE. *)
Definition isSpace (c : ascii) : bool :=
  ((9 <=? code c) && (code c <=? 13)) || (code c =? 32).

(** The regular-expression class [\w]: letters, digits and underscore. *)
Definition isWordChar (c : ascii) : bool :=
  ((48 <=? code c) && (code c <=? 57)) ||
  ((65 <=? code c) && (code c <=? 90)) ||
  ((97 <=? code c) && (code c <=? 122)) || (code c =? 95).

Fixpoint dropSpaces (l : list ascii) : list ascii :=
  match l with
  | c :: r => if isSpace c then dropSpaces r else l
  | [] => []
  end.

Definition trimChars (l : list ascii) : list ascii :=
  rev (dropSpaces (rev (dropSpaces l))).

(** [String.prototype.trim] *)
Definition trim (s : string) : string :=
  string_of_list_ascii (trimChars (list_ascii_of_string s)).

Fixpoint startsWith (p l : list ascii) : bool :=
  match p, l with
  | [], _ => true
  | a :: p', b :: l' => Ascii.eqb a b && startsWith p' l'
  | _ :: _, [] => false
  end.

Fixpoint includesChars (l p : list ascii) : bool :=
  startsWith p l ||
  match l with
  | [] => false
  | _ :: r => includesChars r p
  end.

(** [String.prototype.includes] *)
Definition includes (s sub : string) : bool :=
  includesChars (list_ascii_of_string s) (list_ascii_of_string sub).

(** [Array.prototype.join] *)
Fixpoint join (sep : string) (l : list string) : string :=
  match l with
  | [] => ""
  | [x] => x
  | x :: r => String.append x (String.append sep (join sep r))
  end.

(** [String.prototype.substring (0, n)] *)
Fixpoint substring0 (n : nat) (s : string) : string :=
  match n, s with
  | S k, String c r => String c (substring0 k r)
  | _, _ => ""
  end.

(** A value that may be missing: [undefined], [null], or present. *)
Inductive opt (A : Type) : Type :=
| Undefined
| Null
| Val (a : A).
Arguments Undefined {A}.
Arguments Null {A}.
Arguments Val {A} a.

(** Truthiness of an optional string: the empty string is falsy too. *)
Definition truthyStr (o : opt string) : bool :=
  match o with
  | Val s => negb (String.eqb s "")
  | _ => false
  end.

(** [o || d] on an optional string. *)
Definition orStr (o : opt string) (d : string) : string :=
  match o with
  | Val s => if String.eqb s "" then d else s
  | _ => d
  end.

(** What the statement wrapper binds for a parameter
    ([sanitizeParams]: [undefined] becomes [null]). *)
Definition toSql {A} (o : opt A) : option A :=
  match o with
  | Val a => Some a
  | _ => None
  end.

(** What the driver hands back for a column. *)
Definition ofSql {A} (o : option A) : opt A :=
  match o with
  | Some a => Val a
  | None => Null
  end.

(** [x !== undefined] *)
Definition notUndefined {A} (o : opt A) : bool :=
  match o with
  | Undefined => false
  | _ => true
  end.

End Js.

(* ================================================================== *)
(** ** SHA-256 ([crypto.createHash('sha256')], FIPS 180-4) on 32-bit words *)

Module Sha256.

Definition mask32 : Z := 0xFFFFFFFF.
Definition w32 (x : Z) : Z := Z.land x mask32.
Definition add32 (a b : Z) : Z := w32 (a + b).
Definition rotr (n x : Z) : Z :=
  Z.lor (Z.shiftr x n) (w32 (Z.shiftl x (32 - n))).
Definition shr (n x : Z) : Z := Z.shiftr x n.
Definition not32 (x : Z) : Z := Z.lxor x mask32.

Definition Ch (x y z : Z) : Z := Z.lxor (Z.land x y) (Z.land (not32 x) z).
Definition Maj (x y z : Z) : Z :=
  Z.lxor (Z.lxor (Z.land x y) (Z.land x z)) (Z.land y z).
Definition bsig0 (x : Z) : Z := Z.lxor (Z.lxor (rotr 2 x) (rotr 13 x)) (rotr 22 x).
Definition bsig1 (x : Z) : Z := Z.lxor (Z.lxor (rotr 6 x) (rotr 11 x)) (rotr 25 x).
Definition ssig0 (x : Z) : Z := Z.lxor (Z.lxor (rotr 7 x) (rotr 18 x)) (shr 3 x).
Definition ssig1 (x : Z) : Z := Z.lxor (Z.lxor (rotr 17 x) (rotr 19 x)) (shr 10 x).

(** The constants are taken from the first primes, as the standard
    defines them: the first 32 bits of the fractional part of the cube
    root (round constants) and of the square root (initial hash value). *)
Definition isPrime (n : Z) : bool :=
  (2 <=? n) &&
  forallb (fun d => (n <? d * d) || negb (n mod d =? 0))
          (map Z.of_nat (seq 2 (Z.to_nat n - 2))).

Definition firstPrimes (k : nat) : list Z :=
  firstn k (filter isPrime (map Z.of_nat (seq 2 400))).

(** Integer cube root of a number below 2^105, bit by bit. *)
Definition cubeRoot (n : Z) : Z :=
  fold_left (fun r i =>
               let c := r + Z.shiftl 1 (Z.of_nat i) in
               if c * c * c <=? n then c else r)
            (rev (seq 0 35)) 0.

Definition K : list Z :=
  Eval vm_compute in
    map (fun p => w32 (cubeRoot (Z.shiftl p 96))) (firstPrimes 64).

Definition initialWords : list Z :=
  Eval vm_compute in
    map (fun p => w32 (Z.sqrt (Z.shiftl p 64))) (firstPrimes 8).

(** The eight working variables / the hash value. *)
Record state := St { ha : Z; hb : Z; hc : Z; hd : Z; he : Z; hf : Z; hg : Z; hh : Z }.

Definition H0 : state :=
  let h i := nth i initialWords 0 in
  St (h 0%nat) (h 1%nat) (h 2%nat) (h 3%nat) (h 4%nat) (h 5%nat) (h 6%nat) (h 7%nat).

(** Padding: a 1 bit, zeros up to 56 mod 64 bytes, the bit length on 8 bytes. *)
Definition be_bytes (n : nat) (x : Z) : list Z :=
  map (fun i => Z.land (Z.shiftr x (8 * Z.of_nat (n - 1 - i))) 0xFF) (seq 0 n).

Definition pad (msg : list Z) : list Z :=
  let len := Z.of_nat (List.length msg) in
  let zeros := Z.to_nat ((55 - len) mod 64) in
  (msg ++ [0x80] ++ repeat 0 zeros ++ be_bytes 8 (8 * len))%list.

Fixpoint words (n : nat) (bs : list Z) : list Z :=
  match n, bs with
  | S k, b0 :: b1 :: b2 :: b3 :: r =>
      (Z.shiftl b0 24 + Z.shiftl b1 16 + Z.shiftl b2 8 + b3) :: words k r
  | _, _ => []
  end.

Fixpoint blocks (n : nat) (ws : list Z) : list (list Z) :=
  match n with
  | O => []
  | S k =>
      match ws with
      | [] => []
      | _ => firstn 16 ws :: blocks k (skipn 16 ws)
      end
  end.

(** Message schedule, most recent word first. *)
Fixpoint schedule (n : nat) (rw : list Z) : list Z :=
  match n with
  | O => rw
  | S k =>
      let w := add32 (add32 (ssig1 (nth 1 rw 0)) (nth 6 rw 0))
                     (add32 (ssig0 (nth 14 rw 0)) (nth 15 rw 0)) in
      schedule k (w :: rw)
  end.

Definition round (s : state) (kw : Z * Z) : state :=
  let (k, w) := kw in
  let t1 := add32 (add32 (add32 (hh s) (bsig1 (he s))) (add32 (Ch (he s) (hf s) (hg s)) k)) w in
  let t2 := add32 (bsig0 (ha s)) (Maj (ha s) (hb s) (hc s)) in
  St (add32 t1 t2) (ha s) (hb s) (hc s) (add32 (hd s) t1) (he s) (hf s) (hg s).

Definition compress (h : state) (block : list Z) : state :=
  let w := rev (schedule 48 (rev block)) in
  let s := fold_left round (combine K w) h in
  St (add32 (ha h) (ha s)) (add32 (hb h) (hb s)) (add32 (hc h) (hc s))
     (add32 (hd h) (hd s)) (add32 (he h) (he s)) (add32 (hf h) (hf s))
     (add32 (hg h) (hg s)) (add32 (hh h) (hh s)).

Definition hash (msg : list Z) : state :=
  let bs := pad msg in
  let ws := words (List.length bs) bs in
  fold_left compress (blocks (List.length ws) ws) H0.

Definition hexDigit (x : Z) : ascii :=
  let d := Z.land x 15 in
  ascii_of_N (Z.to_N (if d <? 10 then 48 + d else 87 + d)).

Definition hex8 (x : Z) (rest : string) : string :=
  String (hexDigit (Z.shiftr x 28)) (String (hexDigit (Z.shiftr x 24))
  (String (hexDigit (Z.shiftr x 20)) (String (hexDigit (Z.shiftr x 16))
  (String (hexDigit (Z.shiftr x 12)) (String (hexDigit (Z.shiftr x 8))
  (String (hexDigit (Z.shiftr x 4)) (String (hexDigit x) rest))))))).

(** [digest('hex')]: 64 lower-case hexadecimal characters. *)
Definition hexOfState (s : state) : string :=
  hex8 (ha s) (hex8 (hb s) (hex8 (hc s) (hex8 (hd s)
  (hex8 (he s) (hex8 (hf s) (hex8 (hg s) (hex8 (hh s) ""))))))).

(** [createHash('sha256').update(s).digest('hex')] *)
Definition hexdigest (s : string) : string :=
  hexOfState (hash (map Js.code (list_ascii_of_string s))).

End Sha256.

(* ================================================================== *)
(** ** Identity ([state/lead-service.ts]) *)

(** [generateLeadId]: stable id from the canonical business data. *)
Definition generateLeadId (canonicalName : string)
    (city state country : Js.opt string) : string :=
  let components :=
    Js.join "|"
      [ Js.trim (Js.toLowerCase canonicalName);
        Js.trim (Js.toLowerCase (Js.orStr city ""));
        Js.trim (Js.toLowerCase (Js.orStr state ""));
        Js.trim (Js.toLowerCase (Js.orStr country "us")) ] in
  Js.substring0 16 (Sha256.hexdigest components).


(** [canonicalizeName]: lower-case, drop every character that is neither a
    word character nor white space, collapse white-space runs to one space,
    delete the listed words where they stand as whole words, trim. *)
Definition keepChar (c : ascii) : bool := Js.isWordChar c || Js.isSpace c.

(** [inRun] tells that the previous character was white space. *)
Fixpoint collapseSpaces (inRun : bool) (l : list ascii) : list ascii :=
  match l with
  | [] => []
  | c :: r =>
      if Js.isSpace c then
        if inRun then collapseSpaces true r else " "%char :: collapseSpaces true r
      else c :: collapseSpaces false r
  end.

Definition suffixWords : list string :=
  ["llc"; "inc"; "corp"; "ltd"; "co"; "company"; "the"].

Definition isSuffixWord (w : list ascii) : bool :=
  existsb (String.eqb (Js.toLowerCase (string_of_list_ascii w))) suffixWords.

(** [cur] is the word being read, reversed. *)
Fixpoint dropSuffixWords (cur : list ascii) (l : list ascii) : list ascii :=
  let flush := if isSuffixWord (rev cur) then [] else rev cur in
  match l with
  | [] => flush
  | c :: r =>
      if Js.isWordChar c then dropSuffixWords (c :: cur) r
      else (flush ++ c :: dropSuffixWords [] r)%list
  end.

Definition canonicalizeName (name : string) : string :=
  let lowered := list_ascii_of_string (Js.toLowerCase name) in
  let cleaned := filter keepChar lowered in
  let spaced := collapseSpaces false cleaned in
  string_of_list_ascii (Js.trimChars (dropSuffixWords [] spaced)).

(* ================================================================== *)
(** ** Types ([state/types.ts]) *)

Inductive AngleType :=
| no_website | outdated_website | low_reviews | poor_ratings
| no_online_booking | founder_led.

Inductive ContactResult :=
| sent | opened | bounced_hard | bounced_soft | no_reply | replied.

Inductive ExclusionReason :=
| bad_fit | duplicate_brand | competitor | manually_excluded
| invalid_contact | out_of_geo | wrong_industry.

Inductive FailureType :=
| captcha_block | no_contact_page | site_timeout | bounce_hard | bounce_soft
| rate_limited | dns_error | ssl_error | page_not_found | parse_error
| unknown_failure.

Inductive LeadStatus :=
| st_new | st_collected | st_filtered | st_enriched | st_scored | st_output
| st_excluded | st_cooldown.

Definition AngleType_eqb (a b : AngleType) : bool :=
  match a, b with
  | no_website, no_website | outdated_website, outdated_website
  | low_reviews, low_reviews | poor_ratings, poor_ratings
  | no_online_booking, no_online_booking | founder_led, founder_led => true
  | _, _ => false
  end.

Definition LeadStatus_eqb (a b : LeadStatus) : bool :=
  match a, b with
  | st_new, st_new | st_collected, st_collected | st_filtered, st_filtered
  | st_enriched, st_enriched | st_scored, st_scored | st_output, st_output
  | st_excluded, st_excluded | st_cooldown, st_cooldown => true
  | _, _ => false
  end.

(** [reviewCount] and [rating] are not part of the interface; the score
    stage reads them from the stored object through a cast. *)
Record SourceMetadata := {
  directories : list string;
  geos : list string;
  tags : list string;
  originalSource : Js.opt string;
  discoveryRunId : Js.opt string;
  sm_reviewCount : Js.opt Q;
  sm_rating : Js.opt Q
}.

(** A date string, with what [new Date(text).getTime()] makes of it
    ([None] is NaN). *)
Record DateText := {
  dt_text : string;
  dt_instant : option Z
}.

Record EnrichmentData := {
  emails : list string;
  phones : list string;
  socialLinks : list (string * string);
  hasOnlineBooking : bool;
  lastWebsiteUpdate : Js.opt DateText;
  pageTitle : Js.opt string;
  metaDescription : Js.opt string;
  technologies : Js.opt (list string);
  employeeCount : Js.opt Z;
  linkedinCompanyUrl : Js.opt string;
  linkedinEmployeeCount : Js.opt Z;
  founderLinkedin : Js.opt string
}.

Record EnrichmentFailure := {
  ef_type : FailureType;
  ef_source : string;
  ef_timestamp : Z;
  ef_message : Js.opt string
}.

(** A reason token of the score; the tokens that embed a number carry it. *)
Inductive ScoreReason :=
| plus_email_found | minus_no_email | plus_phone_found | minus_no_phone
| plus_no_website_angle | plus_has_website | plus_outdated_website_angle
| plus_no_booking_angle | plus_low_reviews_angle | plus_review_count (n : Q)
| plus_poor_rating_angle (r : Q) | plus_good_rating (r : Q)
| plus_founder_led_angle.

(** The [Lead] interface. *)
Record Lead := {
  leadId : string;
  businessName : string;
  canonicalName : string;
  address : Js.opt string;
  city : Js.opt string;
  state : Js.opt string;
  postalCode : Js.opt string;
  country : Js.opt string;
  phone : Js.opt string;
  email : Js.opt string;
  website : Js.opt string;
  firstSeenAt : Z;
  lastSeenAt : Z;
  lastContactAttempt : Js.opt Z;
  lastContactResult : Js.opt ContactResult;
  excludedReason : Js.opt ExclusionReason;
  cooldownUntil : Js.opt Z;
  activeAngles : list AngleType;
  exhaustedAngles : list AngleType;
  sourceMetadata : SourceMetadata;
  enrichmentData : Js.opt EnrichmentData;
  enrichmentFailures : list EnrichmentFailure;
  score : Js.opt Z;
  scoreReasons : Js.opt (list ScoreReason);
  status : LeadStatus;
  lastOutputAt : Js.opt Z;
  createdAt : Z;
  updatedAt : Z
}.

(** [RawBusinessData], as parsed from the staging table. *)
Record RawBusinessData := {
  raw_name : string;
  raw_address : Js.opt string;
  raw_city : Js.opt string;
  raw_state : Js.opt string;
  raw_postalCode : Js.opt string;
  raw_country : Js.opt string;
  raw_phone : Js.opt string;
  raw_email : Js.opt string;
  raw_website : Js.opt string;
  raw_rating : Js.opt Q;
  raw_reviewCount : Js.opt Q;
  raw_categories : Js.opt (list string);
  raw_sourceUrl : Js.opt string
}.

Record RawDiscovery := {
  rd_id : Z;
  rd_runId : string;
  rd_source : string;
  rd_rawData : RawBusinessData;
  rd_discoveredAt : Z;
  rd_processed : bool
}.

(* ================================================================== *)
(** ** The table [leads] ([state/database.ts]) *)

(** One row of [leads]; [None] is SQL NULL. The JSON text columns hold the
    value they serialise. *)
Record Row := {
  lead_id : string;
  business_name : string;
  canonical_name : string;
  address_ : option string;
  city_ : option string;
  state_ : option string;
  postal_code : option string;
  country_ : option string;
  phone_ : option string;
  email_ : option string;
  website_ : option string;
  first_seen_at : Z;
  last_seen_at : Z;
  last_contact_attempt : option Z;
  last_contact_result : option ContactResult;
  excluded_reason : option ExclusionReason;
  cooldown_until : option Z;
  active_angles : list AngleType;
  exhausted_angles : list AngleType;
  source_metadata : SourceMetadata;
  enrichment_data : option EnrichmentData;
  enrichment_failures : list EnrichmentFailure;
  score_ : option Z;
  score_reasons : option (list ScoreReason);
  status_ : LeadStatus;
  last_output_at : option Z;
  created_at : Z;
  updated_at : Z
}.

(** [rowToLead]: NULL columns come back as [null]; the two JSON columns
    guarded by a conditional come back as [undefined]. *)
Definition rowToLead (row : Row) : Lead := {|
  leadId := lead_id row;
  businessName := business_name row;
  canonicalName := canonical_name row;
  address := Js.ofSql (address_ row);
  city := Js.ofSql (city_ row);
  state := Js.ofSql (state_ row);
  postalCode := Js.ofSql (postal_code row);
  country := Js.ofSql (country_ row);
  phone := Js.ofSql (phone_ row);
  email := Js.ofSql (email_ row);
  website := Js.ofSql (website_ row);
  firstSeenAt := first_seen_at row;
  lastSeenAt := last_seen_at row;
  lastContactAttempt := Js.ofSql (last_contact_attempt row);
  lastContactResult := Js.ofSql (last_contact_result row);
  excludedReason := Js.ofSql (excluded_reason row);
  cooldownUntil := Js.ofSql (cooldown_until row);
  activeAngles := active_angles row;
  exhaustedAngles := exhausted_angles row;
  sourceMetadata := source_metadata row;
  enrichmentData :=
    match enrichment_data row with Some d => Js.Val d | None => Js.Undefined end;
  enrichmentFailures := enrichment_failures row;
  score := Js.ofSql (score_ row);
  scoreReasons :=
    match score_reasons row with Some d => Js.Val d | None => Js.Undefined end;
  status := status_ row;
  lastOutputAt := Js.ofSql (last_output_at row);
  createdAt := created_at row;
  updatedAt := updated_at row
|}.

(** ** The table [runs] ([state/run-service.ts])

    The table is kept as the sequence of statements issued against it; each
    statement that writes counters is one observation of the run. *)
Inductive RunWrite :=
| RunStart (runId stage : string) (startedAt : Z)
| RunProgress (runId : string) (processed passed failed : Z)
| RunComplete (runId : string) (completedAt processed passed failed : Z)
| RunFail (runId : string) (completedAt : Z) (errorMessage : string) (processed : Z).

(** The fields of a stage object ([stages/base-stage.ts]). *)
Record StageObj := {
  processed : Z;
  passed : Z;
  failed : Z;
  errors : list string;
  run : option string
}.

(** The state of the process: the tables, the running stage object, and
    the clock ([clock w n] is what the [n]-th call of [Date.now()] reads). *)
Record World := {
  leads : list Row;
  runLog : list RunWrite;
  this : StageObj;
  ticks : nat;
  clock : nat -> Z
}.

(** Computations over the world. *)
Definition M (A : Type) : Type := World -> A * World.

Definition ret {A} (a : A) : M A := fun w => (a, w).
Definition bind {A B} (m : M A) (k : A -> M B) : M B :=
  fun w => let (a, w') := m w in k a w'.

Notation "x <- m ;; k" := (bind m (fun x => k))
  (at level 61, m at next level, right associativity).
Notation "m ;;; k" := (bind m (fun _ => k))
  (at level 61, right associativity).

(** [Date.now()] *)
Definition dateNow : M Z := fun w =>
  (clock w (ticks w),
   {| leads := leads w; runLog := runLog w; this := this w;
      ticks := S (ticks w); clock := clock w |}).

Definition readLeads : M (list Row) := fun w => (leads w, w).

Definition writeLeads (f : list Row -> list Row) : M unit := fun w =>
  (tt, {| leads := f (leads w); runLog := runLog w; this := this w;
          ticks := ticks w; clock := clock w |}).

Definition readThis : M StageObj := fun w => (this w, w).

Definition writeThis (f : StageObj -> StageObj) : M unit := fun w =>
  (tt, {| leads := leads w; runLog := runLog w; this := f (this w);
          ticks := ticks w; clock := clock w |}).

(** One statement run against [runs]. *)
Definition writeRun (x : RunWrite) : M unit := fun w =>
  (tt, {| leads := leads w; runLog := (runLog w ++ [x])%list; this := this w;
          ticks := ticks w; clock := clock w |}).

(** [for (const x of xs) body(x)] *)
Fixpoint forEach {A} (xs : list A) (body : A -> M unit) : M unit :=
  match xs with
  | [] => ret tt
  | x :: r => body x ;;; forEach r body
  end.

(** [UPDATE leads SET ... WHERE lead_id = ?] *)
Definition updateWhereId (id : string) (f : Row -> Row) (rows : list Row) : list Row :=
  map (fun r => if String.eqb (lead_id r) id then f r else r) rows.

(** [SELECT * FROM leads WHERE lead_id = ?], first row *)
Definition selectById (id : string) (rows : list Row) : option Row :=
  find (fun r => String.eqb (lead_id r) id) rows.

(** Column assignments of the [SET] clauses. *)
Definition set_status (v : LeadStatus) (r : Row) : Row := {|
  lead_id := lead_id r; business_name := business_name r;
  canonical_name := canonical_name r; address_ := address_ r;
  city_ := city_ r; state_ := state_ r; postal_code := postal_code r;
  country_ := country_ r; phone_ := phone_ r; email_ := email_ r;
  website_ := website_ r; first_seen_at := first_seen_at r;
  last_seen_at := last_seen_at r;
  last_contact_attempt := last_contact_attempt r;
  last_contact_result := last_contact_result r;
  excluded_reason := excluded_reason r; cooldown_until := cooldown_until r;
  active_angles := active_angles r; exhausted_angles := exhausted_angles r;
  source_metadata := source_metadata r; enrichment_data := enrichment_data r;
  enrichment_failures := enrichment_failures r; score_ := score_ r;
  score_reasons := score_reasons r; status_ := v;
  last_output_at := last_output_at r; created_at := created_at r;
  updated_at := updated_at r |}.

Definition set_updated_at (v : Z) (r : Row) : Row := {|
  lead_id := lead_id r; business_name := business_name r;
  canonical_name := canonical_name r; address_ := address_ r;
  city_ := city_ r; state_ := state_ r; postal_code := postal_code r;
  country_ := country_ r; phone_ := phone_ r; email_ := email_ r;
  website_ := website_ r; first_seen_at := first_seen_at r;
  last_seen_at := last_seen_at r;
  last_contact_attempt := last_contact_attempt r;
  last_contact_result := last_contact_result r;
  excluded_reason := excluded_reason r; cooldown_until := cooldown_until r;
  active_angles := active_angles r; exhausted_angles := exhausted_angles r;
  source_metadata := source_metadata r; enrichment_data := enrichment_data r;
  enrichment_failures := enrichment_failures r; score_ := score_ r;
  score_reasons := score_reasons r; status_ := status_ r;
  last_output_at := last_output_at r; created_at := created_at r;
  updated_at := v |}.

Definition set_excluded_reason (v : option ExclusionReason) (r : Row) : Row := {|
  lead_id := lead_id r; business_name := business_name r;
  canonical_name := canonical_name r; address_ := address_ r;
  city_ := city_ r; state_ := state_ r; postal_code := postal_code r;
  country_ := country_ r; phone_ := phone_ r; email_ := email_ r;
  website_ := website_ r; first_seen_at := first_seen_at r;
  last_seen_at := last_seen_at r;
  last_contact_attempt := last_contact_attempt r;
  last_contact_result := last_contact_result r; excluded_reason := v;
  cooldown_until := cooldown_until r; active_angles := active_angles r;
  exhausted_angles := exhausted_angles r;
  source_metadata := source_metadata r; enrichment_data := enrichment_data r;
  enrichment_failures := enrichment_failures r; score_ := score_ r;
  score_reasons := score_reasons r; status_ := status_ r;
  last_output_at := last_output_at r; created_at := created_at r;
  updated_at := updated_at r |}.

Definition set_cooldown_until (v : option Z) (r : Row) : Row := {|
  lead_id := lead_id r; business_name := business_name r;
  canonical_name := canonical_name r; address_ := address_ r;
  city_ := city_ r; state_ := state_ r; postal_code := postal_code r;
  country_ := country_ r; phone_ := phone_ r; email_ := email_ r;
  website_ := website_ r; first_seen_at := first_seen_at r;
  last_seen_at := last_seen_at r;
  last_contact_attempt := last_contact_attempt r;
  last_contact_result := last_contact_result r;
  excluded_reason := excluded_reason r; cooldown_until := v;
  active_angles := active_angles r; exhausted_angles := exhausted_angles r;
  source_metadata := source_metadata r; enrichment_data := enrichment_data r;
  enrichment_failures := enrichment_failures r; score_ := score_ r;
  score_reasons := score_reasons r; status_ := status_ r;
  last_output_at := last_output_at r; created_at := created_at r;
  updated_at := updated_at r |}.

Definition set_active_angles (v : list AngleType) (r : Row) : Row := {|
  lead_id := lead_id r; business_name := business_name r;
  canonical_name := canonical_name r; address_ := address_ r;
  city_ := city_ r; state_ := state_ r; postal_code := postal_code r;
  country_ := country_ r; phone_ := phone_ r; email_ := email_ r;
  website_ := website_ r; first_seen_at := first_seen_at r;
  last_seen_at := last_seen_at r;
  last_contact_attempt := last_contact_attempt r;
  last_contact_result := last_contact_result r;
  excluded_reason := excluded_reason r; cooldown_until := cooldown_until r;
  active_angles := v; exhausted_angles := exhausted_angles r;
  source_metadata := source_metadata r; enrichment_data := enrichment_data r;
  enrichment_failures := enrichment_failures r; score_ := score_ r;
  score_reasons := score_reasons r; status_ := status_ r;
  last_output_at := last_output_at r; created_at := created_at r;
  updated_at := updated_at r |}.

Definition set_exhausted_angles (v : list AngleType) (r : Row) : Row := {|
  lead_id := lead_id r; business_name := business_name r;
  canonical_name := canonical_name r; address_ := address_ r;
  city_ := city_ r; state_ := state_ r; postal_code := postal_code r;
  country_ := country_ r; phone_ := phone_ r; email_ := email_ r;
  website_ := website_ r; first_seen_at := first_seen_at r;
  last_seen_at := last_seen_at r;
  last_contact_attempt := last_contact_attempt r;
  last_contact_result := last_contact_result r;
  excluded_reason := excluded_reason r; cooldown_until := cooldown_until r;
  active_angles := active_angles r; exhausted_angles := v;
  source_metadata := source_metadata r; enrichment_data := enrichment_data r;
  enrichment_failures := enrichment_failures r; score_ := score_ r;
  score_reasons := score_reasons r; status_ := status_ r;
  last_output_at := last_output_at r; created_at := created_at r;
  updated_at := updated_at r |}.

Definition set_enrichment_data (v : option EnrichmentData) (r : Row) : Row := {|
  lead_id := lead_id r; business_name := business_name r;
  canonical_name := canonical_name r; address_ := address_ r;
  city_ := city_ r; state_ := state_ r; postal_code := postal_code r;
  country_ := country_ r; phone_ := phone_ r; email_ := email_ r;
  website_ := website_ r; first_seen_at := first_seen_at r;
  last_seen_at := last_seen_at r;
  last_contact_attempt := last_contact_attempt r;
  last_contact_result := last_contact_result r;
  excluded_reason := excluded_reason r; cooldown_until := cooldown_until r;
  active_angles := active_angles r; exhausted_angles := exhausted_angles r;
  source_metadata := source_metadata r; enrichment_data := v;
  enrichment_failures := enrichment_failures r; score_ := score_ r;
  score_reasons := score_reasons r; status_ := status_ r;
  last_output_at := last_output_at r; created_at := created_at r;
  updated_at := updated_at r |}.

Definition set_enrichment_failures (v : list EnrichmentFailure) (r : Row) : Row := {|
  lead_id := lead_id r; business_name := business_name r;
  canonical_name := canonical_name r; address_ := address_ r;
  city_ := city_ r; state_ := state_ r; postal_code := postal_code r;
  country_ := country_ r; phone_ := phone_ r; email_ := email_ r;
  website_ := website_ r; first_seen_at := first_seen_at r;
  last_seen_at := last_seen_at r;
  last_contact_attempt := last_contact_attempt r;
  last_contact_result := last_contact_result r;
  excluded_reason := excluded_reason r; cooldown_until := cooldown_until r;
  active_angles := active_angles r; exhausted_angles := exhausted_angles r;
  source_metadata := source_metadata r; enrichment_data := enrichment_data r;
  enrichment_failures := v; score_ := score_ r;
  score_reasons := score_reasons r; status_ := status_ r;
  last_output_at := last_output_at r; created_at := created_at r;
  updated_at := updated_at r |}.

Definition set_score (v : option Z) (r : Row) : Row := {|
  lead_id := lead_id r; business_name := business_name r;
  canonical_name := canonical_name r; address_ := address_ r;
  city_ := city_ r; state_ := state_ r; postal_code := postal_code r;
  country_ := country_ r; phone_ := phone_ r; email_ := email_ r;
  website_ := website_ r; first_seen_at := first_seen_at r;
  last_seen_at := last_seen_at r;
  last_contact_attempt := last_contact_attempt r;
  last_contact_result := last_contact_result r;
  excluded_reason := excluded_reason r; cooldown_until := cooldown_until r;
  active_angles := active_angles r; exhausted_angles := exhausted_angles r;
  source_metadata := source_metadata r; enrichment_data := enrichment_data r;
  enrichment_failures := enrichment_failures r; score_ := v;
  score_reasons := score_reasons r; status_ := status_ r;
  last_output_at := last_output_at r; created_at := created_at r;
  updated_at := updated_at r |}.

Definition set_score_reasons (v : option (list ScoreReason)) (r : Row) : Row := {|
  lead_id := lead_id r; business_name := business_name r;
  canonical_name := canonical_name r; address_ := address_ r;
  city_ := city_ r; state_ := state_ r; postal_code := postal_code r;
  country_ := country_ r; phone_ := phone_ r; email_ := email_ r;
  website_ := website_ r; first_seen_at := first_seen_at r;
  last_seen_at := last_seen_at r;
  last_contact_attempt := last_contact_attempt r;
  last_contact_result := last_contact_result r;
  excluded_reason := excluded_reason r; cooldown_until := cooldown_until r;
  active_angles := active_angles r; exhausted_angles := exhausted_angles r;
  source_metadata := source_metadata r; enrichment_data := enrichment_data r;
  enrichment_failures := enrichment_failures r; score_ := score_ r;
  score_reasons := v; status_ := status_ r;
  last_output_at := last_output_at r; created_at := created_at r;
  updated_at := updated_at r |}.

Definition set_last_output_at (v : option Z) (r : Row) : Row := {|
  lead_id := lead_id r; business_name := business_name r;
  canonical_name := canonical_name r; address_ := address_ r;
  city_ := city_ r; state_ := state_ r; postal_code := postal_code r;
  country_ := country_ r; phone_ := phone_ r; email_ := email_ r;
  website_ := website_ r; first_seen_at := first_seen_at r;
  last_seen_at := last_seen_at r;
  last_contact_attempt := last_contact_attempt r;
  last_contact_result := last_contact_result r;
  excluded_reason := excluded_reason r; cooldown_until := cooldown_until r;
  active_angles := active_angles r; exhausted_angles := exhausted_angles r;
  source_metadata := source_metadata r; enrichment_data := enrichment_data r;
  enrichment_failures := enrichment_failures r; score_ := score_ r;
  score_reasons := score_reasons r; status_ := status_ r;
  last_output_at := v; created_at := created_at r; updated_at := updated_at r |}.

(** ** Partial leads ([Partial<Lead> & { leadId: string }])

    A key of the object literal is either absent or present; a present key
    of an optional property may still hold [undefined]. *)
Inductive prop (A : Type) : Type :=
| Absent
| Present (v : A).
Arguments Absent {A}.
Arguments Present {A} v.

(** [{ ...existing, ...lead }] on one key. *)
Definition spread {A} (existing : A) (p : prop A) : A :=
  match p with
  | Present v => v
  | Absent => existing
  end.

(** Reading a key of the literal: an absent key reads [undefined]. *)
Definition readKey {A} (p : prop (Js.opt A)) : Js.opt A :=
  match p with
  | Present v => v
  | Absent => Js.Undefined
  end.

Record PartialLead := {
  p_leadId : string;
  p_businessName : prop string;
  p_canonicalName : prop string;
  p_address : prop (Js.opt string);
  p_city : prop (Js.opt string);
  p_state : prop (Js.opt string);
  p_postalCode : prop (Js.opt string);
  p_country : prop (Js.opt string);
  p_phone : prop (Js.opt string);
  p_email : prop (Js.opt string);
  p_website : prop (Js.opt string);
  p_firstSeenAt : prop Z;
  p_lastSeenAt : prop Z;
  p_lastContactAttempt : prop (Js.opt Z);
  p_lastContactResult : prop (Js.opt ContactResult);
  p_excludedReason : prop (Js.opt ExclusionReason);
  p_cooldownUntil : prop (Js.opt Z);
  p_activeAngles : prop (list AngleType);
  p_exhaustedAngles : prop (list AngleType);
  p_sourceMetadata : prop SourceMetadata;
  p_enrichmentData : prop (Js.opt EnrichmentData);
  p_enrichmentFailures : prop (list EnrichmentFailure);
  p_score : prop (Js.opt Z);
  p_scoreReasons : prop (Js.opt (list ScoreReason));
  p_status : prop LeadStatus;
  p_lastOutputAt : prop (Js.opt Z);
  p_createdAt : prop Z;
  p_updatedAt : prop Z
}.

(** The literal [{ leadId }]. *)
Definition onlyId (id : string) : PartialLead := {|
  p_leadId := id;
  p_businessName := Absent; p_canonicalName := Absent; p_address := Absent;
  p_city := Absent; p_state := Absent; p_postalCode := Absent;
  p_country := Absent; p_phone := Absent; p_email := Absent;
  p_website := Absent; p_firstSeenAt := Absent; p_lastSeenAt := Absent;
  p_lastContactAttempt := Absent; p_lastContactResult := Absent;
  p_excludedReason := Absent; p_cooldownUntil := Absent;
  p_activeAngles := Absent; p_exhaustedAngles := Absent;
  p_sourceMetadata := Absent; p_enrichmentData := Absent;
  p_enrichmentFailures := Absent; p_score := Absent;
  p_scoreReasons := Absent; p_status := Absent; p_lastOutputAt := Absent;
  p_createdAt := Absent; p_updatedAt := Absent |}.

(** The literal [{ leadId, email }]. *)
Definition idWithEmail (id : string) (v : Js.opt string) : PartialLead := {|
  p_leadId := id; p_businessName := Absent; p_canonicalName := Absent;
  p_address := Absent; p_city := Absent; p_state := Absent;
  p_postalCode := Absent; p_country := Absent; p_phone := Absent;
  p_email := Present v; p_website := Absent; p_firstSeenAt := Absent;
  p_lastSeenAt := Absent; p_lastContactAttempt := Absent;
  p_lastContactResult := Absent; p_excludedReason := Absent;
  p_cooldownUntil := Absent; p_activeAngles := Absent;
  p_exhaustedAngles := Absent; p_sourceMetadata := Absent;
  p_enrichmentData := Absent; p_enrichmentFailures := Absent;
  p_score := Absent; p_scoreReasons := Absent; p_status := Absent;
  p_lastOutputAt := Absent; p_createdAt := Absent; p_updatedAt := Absent |}.

(** The literal [{ leadId, phone }]. *)
Definition idWithPhone (id : string) (v : Js.opt string) : PartialLead := {|
  p_leadId := id; p_businessName := Absent; p_canonicalName := Absent;
  p_address := Absent; p_city := Absent; p_state := Absent;
  p_postalCode := Absent; p_country := Absent; p_phone := Present v;
  p_email := Absent; p_website := Absent; p_firstSeenAt := Absent;
  p_lastSeenAt := Absent; p_lastContactAttempt := Absent;
  p_lastContactResult := Absent; p_excludedReason := Absent;
  p_cooldownUntil := Absent; p_activeAngles := Absent;
  p_exhaustedAngles := Absent; p_sourceMetadata := Absent;
  p_enrichmentData := Absent; p_enrichmentFailures := Absent;
  p_score := Absent; p_scoreReasons := Absent; p_status := Absent;
  p_lastOutputAt := Absent; p_createdAt := Absent; p_updatedAt := Absent |}.

(** The literal [{ leadId, cooldownUntil }]. *)
Definition idWithCooldownUntil (id : string) (v : Js.opt Z) : PartialLead := {|
  p_leadId := id; p_businessName := Absent; p_canonicalName := Absent;
  p_address := Absent; p_city := Absent; p_state := Absent;
  p_postalCode := Absent; p_country := Absent; p_phone := Absent;
  p_email := Absent; p_website := Absent; p_firstSeenAt := Absent;
  p_lastSeenAt := Absent; p_lastContactAttempt := Absent;
  p_lastContactResult := Absent; p_excludedReason := Absent;
  p_cooldownUntil := Present v; p_activeAngles := Absent;
  p_exhaustedAngles := Absent; p_sourceMetadata := Absent;
  p_enrichmentData := Absent; p_enrichmentFailures := Absent;
  p_score := Absent; p_scoreReasons := Absent; p_status := Absent;
  p_lastOutputAt := Absent; p_createdAt := Absent; p_updatedAt := Absent |}.

(* ================================================================== *)
(** ** The lead service ([state/lead-service.ts]) *)

(** [getById] *)
Definition getById (id : string) : M (option Lead) :=
  rows <- readLeads ;;
  ret (option_map rowToLead (selectById id rows)).

(** The [SET] clause of the update branch of [upsert]: every column but
    [lead_id], [first_seen_at] and [created_at]. *)
Definition upsertAssign (u : Lead) (r : Row) : Row := {|
  lead_id := lead_id r;
  business_name := businessName u;
  canonical_name := canonicalName u;
  address_ := Js.toSql (address u);
  city_ := Js.toSql (city u);
  state_ := Js.toSql (state u);
  postal_code := Js.toSql (postalCode u);
  country_ := Js.toSql (country u);
  phone_ := Js.toSql (phone u);
  email_ := Js.toSql (email u);
  website_ := Js.toSql (website u);
  first_seen_at := first_seen_at r;
  last_seen_at := lastSeenAt u;
  last_contact_attempt := Js.toSql (lastContactAttempt u);
  last_contact_result := Js.toSql (lastContactResult u);
  excluded_reason := Js.toSql (excludedReason u);
  cooldown_until := Js.toSql (cooldownUntil u);
  active_angles := activeAngles u;
  exhausted_angles := exhaustedAngles u;
  source_metadata := sourceMetadata u;
  enrichment_data := Js.toSql (enrichmentData u);
  enrichment_failures := enrichmentFailures u;
  score_ := Js.toSql (score u);
  score_reasons := Js.toSql (scoreReasons u);
  status_ := status u;
  last_output_at := Js.toSql (lastOutputAt u);
  created_at := created_at r;
  updated_at := updatedAt u
|}.

(** The row of the [INSERT] of [upsert]. *)
Definition insertRow (n : Lead) : Row := {|
  lead_id := leadId n;
  business_name := businessName n;
  canonical_name := canonicalName n;
  address_ := Js.toSql (address n);
  city_ := Js.toSql (city n);
  state_ := Js.toSql (state n);
  postal_code := Js.toSql (postalCode n);
  country_ := Js.toSql (country n);
  phone_ := Js.toSql (phone n);
  email_ := Js.toSql (email n);
  website_ := Js.toSql (website n);
  first_seen_at := firstSeenAt n;
  last_seen_at := lastSeenAt n;
  last_contact_attempt := Js.toSql (lastContactAttempt n);
  last_contact_result := Js.toSql (lastContactResult n);
  excluded_reason := Js.toSql (excludedReason n);
  cooldown_until := Js.toSql (cooldownUntil n);
  active_angles := activeAngles n;
  exhausted_angles := exhaustedAngles n;
  source_metadata := sourceMetadata n;
  enrichment_data := Js.toSql (enrichmentData n);
  enrichment_failures := enrichmentFailures n;
  score_ := Js.toSql (score n);
  score_reasons := Js.toSql (scoreReasons n);
  status_ := status n;
  last_output_at := Js.toSql (lastOutputAt n);
  created_at := createdAt n;
  updated_at := updatedAt n
|}.

(** [{ ...existing, ...lead, lastSeenAt: now, updatedAt: now }] *)
Definition mergeLead (existing : Lead) (lead : PartialLead) (now : Z) : Lead := {|
  leadId := p_leadId lead;
  businessName := spread (businessName existing) (p_businessName lead);
  canonicalName := spread (canonicalName existing) (p_canonicalName lead);
  address := spread (address existing) (p_address lead);
  city := spread (city existing) (p_city lead);
  state := spread (state existing) (p_state lead);
  postalCode := spread (postalCode existing) (p_postalCode lead);
  country := spread (country existing) (p_country lead);
  phone := spread (phone existing) (p_phone lead);
  email := spread (email existing) (p_email lead);
  website := spread (website existing) (p_website lead);
  firstSeenAt := spread (firstSeenAt existing) (p_firstSeenAt lead);
  lastSeenAt := now;
  lastContactAttempt := spread (lastContactAttempt existing) (p_lastContactAttempt lead);
  lastContactResult := spread (lastContactResult existing) (p_lastContactResult lead);
  excludedReason := spread (excludedReason existing) (p_excludedReason lead);
  cooldownUntil := spread (cooldownUntil existing) (p_cooldownUntil lead);
  activeAngles := spread (activeAngles existing) (p_activeAngles lead);
  exhaustedAngles := spread (exhaustedAngles existing) (p_exhaustedAngles lead);
  sourceMetadata := spread (sourceMetadata existing) (p_sourceMetadata lead);
  enrichmentData := spread (enrichmentData existing) (p_enrichmentData lead);
  enrichmentFailures := spread (enrichmentFailures existing) (p_enrichmentFailures lead);
  score := spread (score existing) (p_score lead);
  scoreReasons := spread (scoreReasons existing) (p_scoreReasons lead);
  status := spread (status existing) (p_status lead);
  lastOutputAt := spread (lastOutputAt existing) (p_lastOutputAt lead);
  createdAt := spread (createdAt existing) (p_createdAt lead);
  updatedAt := now
|}.

(** [x || d] on a key of a required property. *)
Definition orDefault {A} (p : prop A) (d : A) : A := spread d p.

Definition orDefaultStr (p : prop string) (d : string) : string :=
  match p with
  | Present v => if String.eqb v "" then d else v
  | Absent => d
  end.

Definition emptySourceMetadata : SourceMetadata := {|
  directories := []; geos := []; tags := [];
  originalSource := Js.Undefined; discoveryRunId := Js.Undefined;
  sm_reviewCount := Js.Undefined; sm_rating := Js.Undefined |}.

(** The object literal of the insert branch of [upsert]. *)
Definition newLeadOf (lead : PartialLead) (now : Z) : Lead := {|
  leadId := p_leadId lead;
  businessName := orDefaultStr (p_businessName lead) "";
  canonicalName := orDefaultStr (p_canonicalName lead) "";
  address := readKey (p_address lead);
  city := readKey (p_city lead);
  state := readKey (p_state lead);
  postalCode := readKey (p_postalCode lead);
  country := readKey (p_country lead);
  phone := readKey (p_phone lead);
  email := readKey (p_email lead);
  website := readKey (p_website lead);
  firstSeenAt := now;
  lastSeenAt := now;
  lastContactAttempt := readKey (p_lastContactAttempt lead);
  lastContactResult := readKey (p_lastContactResult lead);
  excludedReason := readKey (p_excludedReason lead);
  cooldownUntil := readKey (p_cooldownUntil lead);
  activeAngles := orDefault (p_activeAngles lead) [];
  exhaustedAngles := orDefault (p_exhaustedAngles lead) [];
  sourceMetadata := orDefault (p_sourceMetadata lead) emptySourceMetadata;
  enrichmentData := readKey (p_enrichmentData lead);
  enrichmentFailures := orDefault (p_enrichmentFailures lead) [];
  score := readKey (p_score lead);
  scoreReasons := readKey (p_scoreReasons lead);
  status := orDefault (p_status lead) st_new;
  lastOutputAt := readKey (p_lastOutputAt lead);
  createdAt := now;
  updatedAt := now
|}.

(** [upsert]: insert or update based on [lead_id]. *)
Definition upsert (lead : PartialLead) : M Lead :=
  now <- dateNow ;;
  existing <- getById (p_leadId lead) ;;
  match existing with
  | Some ex =>
      let updated := mergeLead ex lead now in
      writeLeads (updateWhereId (leadId updated) (upsertAssign updated)) ;;;
      ret updated
  | None =>
      let newLead := newLeadOf lead now in
      writeLeads (fun rows => (rows ++ [insertRow newLead])%list) ;;;
      ret newLead
  end.

(** [limit ? ... LIMIT ? : ...]: a falsy limit selects the statement without
    a [LIMIT] clause; a negative [LIMIT] puts no bound. *)
Definition applyLimit {A} (limit : Js.opt Z) (l : list A) : list A :=
  match limit with
  | Js.Val n => if n <=? 0 then l else firstn (Z.to_nat n) l
  | _ => l
  end.

(** [getExpiredCooldowns] *)
Definition cooldownExpired (now : Z) (r : Row) : bool :=
  match cooldown_until r with
  | Some t => t <? now
  | None => false
  end.

(** The order of [idx_leads_cooldown]: by [cooldown_until], [NULL] first,
    rows with the same value in rowid order. *)
Definition cooldownLe (a b : Row) : bool :=
  match cooldown_until a, cooldown_until b with
  | None, _ => true
  | Some _, None => false
  | Some x, Some y => x <=? y
  end.

Fixpoint insertByCooldown (r : Row) (l : list Row) : list Row :=
  match l with
  | [] => [r]
  | x :: l' =>
      if cooldownLe r x then r :: l
      else x :: insertByCooldown r l'
  end.

Definition sortByCooldown (l : list Row) : list Row :=
  fold_right insertByCooldown [] l.

(** The statement has no ORDER BY clause; its condition is a range of
    [cooldown_until], which the index on that column serves, so the rows
    come in the order of the index and [LIMIT] cuts that order. *)
Definition getExpiredCooldowns (limit : Js.opt Z) : M (list Lead) :=
  now <- dateNow ;;
  rows <- readLeads ;;
  ret (map rowToLead
         (applyLimit limit (sortByCooldown (filter (cooldownExpired now) rows)))).

(** What [statusMap[stage]] evaluates to: an own entry, a member inherited
    from [Object.prototype] (truthy, but without [map]), or [undefined]. *)
Inductive MapEntry :=
| OwnEntry (statuses : list LeadStatus)
| InheritedMember
| NoEntry.

Definition objectPrototypeNames : list string :=
  [ "constructor"; "hasOwnProperty"; "isPrototypeOf"; "propertyIsEnumerable";
    "toLocaleString"; "toString"; "valueOf"; "__proto__";
    "__defineGetter__"; "__defineSetter__"; "__lookupGetter__";
    "__lookupSetter__" ].

Definition statusMap (stage : string) : MapEntry :=
  if String.eqb stage "collect" then OwnEntry [st_new]
  else if String.eqb stage "filter" then OwnEntry [st_collected]
  else if String.eqb stage "enrich" then OwnEntry [st_filtered]
  else if String.eqb stage "score" then OwnEntry [st_enriched]
  else if String.eqb stage "output" then OwnEntry [st_scored]
  else if existsb (String.eqb stage) objectPrototypeNames then InheritedMember
  else NoEntry.

(** The [WHERE] clause of [getLeadsForStage]. *)
Definition stageEligible (statuses : list LeadStatus) (now : Z) (r : Row) : bool :=
  existsb (LeadStatus_eqb (status_ r)) statuses &&
  match excluded_reason r with None => true | Some _ => false end &&
  match cooldown_until r with None => true | Some t => t <? now end.

(** A call returns, throws, or never comes back. *)
Inductive Completion (A : Type) : Type :=
| Returned (a : A)
| Thrown (message : string)
| Diverges.
Arguments Returned {A} a.
Arguments Thrown {A} message.
Arguments Diverges {A}.

(** [getLeadsForStage] *)
Definition getLeadsForStage (stage : string) (limit : Js.opt Z)
  : M (Completion (list Lead)) :=
  match statusMap stage with
  | NoEntry => ret (Returned [])
  | InheritedMember => ret (Thrown "TypeError: statuses.map is not a function")
  | OwnEntry statuses =>
      now <- dateNow ;;
      rows <- readLeads ;;
      ret (Returned (map rowToLead
             (applyLimit limit (filter (stageEligible statuses now) rows))))
  end.

(** [updateStatus] *)
Definition updateStatus (id : string) (s : LeadStatus) : M unit :=
  now <- dateNow ;;
  writeLeads (updateWhereId id (fun r => set_updated_at now (set_status s r))).

(** [exclude] *)
Definition exclude (id : string) (reason : ExclusionReason) : M unit :=
  now <- dateNow ;;
  writeLeads (updateWhereId id (fun r =>
    set_updated_at now (set_status st_excluded (set_excluded_reason (Some reason) r)))).

(** [setCooldown] *)
Definition setCooldown (id : string) (until : Z) : M unit :=
  now <- dateNow ;;
  writeLeads (updateWhereId id (fun r =>
    set_updated_at now (set_status st_cooldown (set_cooldown_until (Some until) r)))).

(** [updateAngles] *)
Definition updateAngles (id : string) (active exhausted : list AngleType) : M unit :=
  now <- dateNow ;;
  writeLeads (updateWhereId id (fun r =>
    set_updated_at now (set_exhausted_angles exhausted (set_active_angles active r)))).

(** [updateEnrichment] *)
Definition updateEnrichment (id : string) (data : EnrichmentData) : M unit :=
  now <- dateNow ;;
  writeLeads (updateWhereId id (fun r =>
    set_updated_at now (set_enrichment_data (Some data) r))).

(** [updateScore] *)
Definition updateScore (id : string) (sc : Z) (reasons : list ScoreReason) : M unit :=
  now <- dateNow ;;
  writeLeads (updateWhereId id (fun r =>
    set_updated_at now (set_score_reasons (Some reasons) (set_score (Some sc) r)))).

(** [markOutput] *)
Definition markOutput (id : string) : M unit :=
  now <- dateNow ;;
  writeLeads (updateWhereId id (fun r =>
    set_updated_at now (set_last_output_at (Some now) (set_status st_output r)))).

(** The object literal [createFromRaw] hands to [upsert]. *)
Definition partialOfRaw (raw : RawBusinessData) (source runId : string) : PartialLead :=
  {|
    p_leadId := generateLeadId (canonicalizeName (raw_name raw))
                  (raw_city raw) (raw_state raw) (raw_country raw);
    p_businessName := Present (raw_name raw);
    p_canonicalName := Present (canonicalizeName (raw_name raw));
    p_address := Present (raw_address raw);
    p_city := Present (raw_city raw);
    p_state := Present (raw_state raw);
    p_postalCode := Present (raw_postalCode raw);
    p_country := Present (Js.Val (Js.orStr (raw_country raw) "US"));
    p_phone := Present (raw_phone raw);
    p_email := Present (raw_email raw);
    p_website := Present (raw_website raw);
    p_firstSeenAt := Absent;
    p_lastSeenAt := Absent;
    p_lastContactAttempt := Absent;
    p_lastContactResult := Absent;
    p_excludedReason := Absent;
    p_cooldownUntil := Absent;
    p_activeAngles := Absent;
    p_exhaustedAngles := Absent;
    p_sourceMetadata := Present {|
      directories := [source];
      geos :=
        match raw_city raw with
        | Js.Val c =>
            if String.eqb c "" then []
            else [String.append c (String.append ", " (Js.orStr (raw_state raw) ""))]
        | _ => []
        end;
      tags := match raw_categories raw with Js.Val l => l | _ => [] end;
      originalSource := Js.Val source;
      discoveryRunId := Js.Val runId;
      sm_reviewCount := Js.Undefined;
      sm_rating := Js.Undefined |};
    p_enrichmentData := Absent;
    p_enrichmentFailures := Absent;
    p_score := Absent;
    p_scoreReasons := Absent;
    p_status := Present st_new;
    p_lastOutputAt := Absent;
    p_createdAt := Absent;
    p_updatedAt := Absent
  |}.

(** [createFromRaw] *)
Definition createFromRaw (raw : RawBusinessData) (source runId : string) : M Lead :=
  upsert (partialOfRaw raw source runId).

(* ================================================================== *)
(** ** Configuration ([config/types.ts]) *)

(** A JavaScript value, as a filter rule or a field path may meet it. *)
#[local] Unset Elimination Schemes.
Inductive JsVal :=
| JUndefined
| JNull
| JBool (b : bool)
| JNum (q : Q)
| JStr (s : string)
| JArr (items : list JsVal)
| JObj (fields : list (string * JsVal))
| JFunction (name : string).
#[local] Set Elimination Schemes.

(** The operators of a filter rule; [op_other] is any other text, which the
    [switch] sends to its [default] branch. *)
Inductive Operator :=
| op_equals | op_not_equals | op_contains | op_not_contains
| op_greater_than | op_less_than | op_is_null | op_not_null | op_regex
| op_other (name : string).

Record FilterRule := {
  field : string;
  operator : Operator;
  value : JsVal;
  reason : ExclusionReason
}.

Record GeoConfig := {
  geo_city : string;
  geo_state : string
}.

Record SourceConfig := {
  src_name : string;
  src_type : string;
  src_enabled : bool;
  src_rateLimit : Js.opt Z;
  src_categories : Js.opt (list string);
  src_geos : Js.opt (list GeoConfig)
}.

Record Config := {
  sources : list SourceConfig;
  filters_rules : list FilterRule;
  filters_excludeCategories : list string;
  filters_excludeKeywords : list string;
  cooldowns_defaultDays : Z;
  weights_hasEmail : Q;
  weights_hasPhone : Q;
  weights_hasWebsite : Q;
  weights_reviewCount : Q;
  weights_rating : Q;
  thresholds_minScore : Q;
  thresholds_lowReviewCount : Q;
  thresholds_poorRatingThreshold : Q;
  thresholds_outdatedWebsiteDays : Q;
  angleWeights : AngleType -> Q;
  refresh_enabled : bool;
  refresh_checkIntervalHours : Z;
  refresh_cooldownExpiryCheckEnabled : bool;
  refresh_signalChangeCheckEnabled : bool;
  refresh_resetExhaustedAngles : bool;
  pipeline_batchSize : Z;
  pipeline_maxLeadsPerRun : Z
}.

(** [DEFAULT_CONFIG] ([config/index.ts]) *)
Definition DEFAULT_CONFIG : Config := {|
  sources := [];
  filters_rules := [];
  filters_excludeCategories := [];
  filters_excludeKeywords := [];
  cooldowns_defaultDays := 30;
  weights_hasEmail := 30%Q;
  weights_hasPhone := 20%Q;
  weights_hasWebsite := 10%Q;
  weights_reviewCount := 15%Q;
  weights_rating := 15%Q;
  thresholds_minScore := 20%Q;
  thresholds_lowReviewCount := 10%Q;
  thresholds_poorRatingThreshold := (7 # 2)%Q;
  thresholds_outdatedWebsiteDays := 365%Q;
  angleWeights := fun a =>
    match a with
    | no_website => 25%Q
    | outdated_website => 20%Q
    | low_reviews => 15%Q
    | poor_ratings => 15%Q
    | no_online_booking => 20%Q
    | founder_led => 25%Q
    end;
  refresh_enabled := true;
  refresh_checkIntervalHours := 24;
  refresh_cooldownExpiryCheckEnabled := true;
  refresh_signalChangeCheckEnabled := true;
  refresh_resetExhaustedAngles := false;
  pipeline_batchSize := 100;
  pipeline_maxLeadsPerRun := 500
|}.

(** [limit || this.config.pipeline.maxLeadsPerRun], as every stage
    constructor computes its limit. *)
Definition stageLimit (cfg : Config) (limit : Js.opt Z) : Js.opt Z :=
  match limit with
  | Js.Val n => if n =? 0 then Js.Val (pipeline_maxLeadsPerRun cfg) else Js.Val n
  | _ => Js.Val (pipeline_maxLeadsPerRun cfg)
  end.

(* ================================================================== *)
(** ** The run service and the base stage
       ([state/run-service.ts], [stages/base-stage.ts]) *)

Definition setProcessed (v : Z) (t : StageObj) : StageObj :=
  {| processed := v; passed := passed t; failed := failed t;
     errors := errors t; run := run t |}.
Definition setPassed (v : Z) (t : StageObj) : StageObj :=
  {| processed := processed t; passed := v; failed := failed t;
     errors := errors t; run := run t |}.
Definition setFailed (v : Z) (t : StageObj) : StageObj :=
  {| processed := processed t; passed := passed t; failed := v;
     errors := errors t; run := run t |}.
Definition pushError (m : string) (t : StageObj) : StageObj :=
  {| processed := processed t; passed := passed t; failed := failed t;
     errors := (errors t ++ [m])%list; run := run t |}.
Definition setRun (r : option string) (t : StageObj) : StageObj :=
  {| processed := processed t; passed := passed t; failed := failed t;
     errors := errors t; run := r |}.

(** A stage object as its constructor leaves it. *)
Definition newStage : StageObj :=
  {| processed := 0; passed := 0; failed := 0; errors := []; run := None |}.

(** [this.processed++], [this.passed++], [this.failed++],
    [this.passed += count] *)
Definition incProcessed : M unit := writeThis (fun t => setProcessed (processed t + 1) t).
Definition incPassed : M unit := writeThis (fun t => setPassed (passed t + 1) t).
Definition incFailed : M unit := writeThis (fun t => setFailed (failed t + 1) t).
Definition addPassed (count : Z) : M unit := writeThis (fun t => setPassed (passed t + count) t).

(** [runService.start]; [newRunId] is the identifier [generateRunId] draws
    (it reads the clock once). *)
Definition runService_start (newRunId stage : string) : M string :=
  _ <- dateNow ;;
  startedAt <- dateNow ;;
  writeRun (RunStart newRunId stage startedAt) ;;;
  ret newRunId.

(** [runService.complete] *)
Definition runService_complete (runId : string) (p pa f : Z) : M unit :=
  now <- dateNow ;;
  writeRun (RunComplete runId now p pa f).

(** [runService.fail] *)
Definition runService_fail (runId errorMessage : string) (p : Z) : M unit :=
  now <- dateNow ;;
  writeRun (RunFail runId now errorMessage p).

(** [runService.updateProgress] *)
Definition runService_updateProgress (runId : string) (p pa f : Z) : M unit :=
  writeRun (RunProgress runId p pa f).

(** [BaseStage.updateProgress] *)
Definition updateProgress : M unit :=
  t <- readThis ;;
  match run t with
  | Some runId => runService_updateProgress runId (processed t) (passed t) (failed t)
  | None => ret tt
  end.

(** [BaseStage.recordError] *)
Definition recordError (message : string) : M unit :=
  writeThis (pushError message) ;;;
  incFailed ;;;
  updateProgress.

Record StageResult := {
  success : bool;
  res_processed : Z;
  res_passed : Z;
  res_failed : Z;
  res_errors : list string
}.

Definition resultOf (ok : bool) (t : StageObj) : StageResult :=
  {| success := ok; res_processed := processed t; res_passed := passed t;
     res_failed := failed t; res_errors := errors t |}.

(** [BaseStage.runStage], around the [execute] of a subclass. *)
Definition runStage (stageName newRunId : string) (execute : M (Completion unit))
  : M (Completion StageResult) :=
  runId <- runService_start newRunId stageName ;;
  writeThis (setRun (Some runId)) ;;;
  c <- execute ;;
  match c with
  | Returned _ =>
      t <- readThis ;;
      runService_complete runId (processed t) (passed t) (failed t) ;;;
      t' <- readThis ;;
      ret (Returned (resultOf true t'))
  | Thrown errorMessage =>
      writeThis (pushError errorMessage) ;;;
      t <- readThis ;;
      runService_fail runId errorMessage (processed t) ;;;
      t' <- readThis ;;
      ret (Returned (resultOf false t'))
  | Diverges => ret Diverges
  end.

(** [if (this.processed % n === 0) this.updateProgress()] *)
Definition progressEvery (n : Z) : M unit :=
  t <- readThis ;;
  if processed t mod n =? 0 then updateProgress else ret tt.

(* ================================================================== *)
(** ** The score stage ([stages/score/index.ts]) *)

Definition Qltb (a b : Q) : bool := negb (Qle_bool b a).

Definition msPerDay : Z := 24 * 60 * 60 * 1000.

Record ScoreResult := {
  sr_score : Z;
  sr_reasons : list ScoreReason;
  sr_angles : list AngleType
}.

(** The running total of [scoreLead] with its two arrays. *)
Record Tally := {
  total : Q;
  reasons : list ScoreReason;
  angles : list AngleType
}.

Definition addReason (w : Q) (r : ScoreReason) (t : Tally) : Tally :=
  {| total := total t + w; reasons := (reasons t ++ [r])%list; angles := angles t |}.

Definition addAngle (a : AngleType) (w : Q) (r : ScoreReason) (t : Tally) : Tally :=
  {| total := total t + w; reasons := (reasons t ++ [r])%list;
     angles := (angles t ++ [a])%list |}.

(** [o && o.length > 0] on a list held by the enrichment data. *)
Definition hasEnriched (f : EnrichmentData -> list string) (d : Js.opt EnrichmentData) : bool :=
  match d with
  | Js.Val e => match f e with [] => false | _ => true end
  | _ => false
  end.

(** [isOutdatedWebsite]; the clock is read only when a last-update string is there. *)
Definition isOutdatedWebsite (cfg : Config) (lead : Lead) : M bool :=
  match enrichmentData lead with
  | Js.Val e =>
      match lastWebsiteUpdate e with
      | Js.Val d =>
          if String.eqb (dt_text d) "" then ret false
          else
            now <- dateNow ;;
            match dt_instant d with
            | Some updateDate =>
                let daysSinceUpdate :=
                  (inject_Z (now - updateDate) / inject_Z msPerDay)%Q in
                ret (Qltb (thresholds_outdatedWebsiteDays cfg) daysSinceUpdate)
            | None => ret false
            end
      | _ => ret false
      end
  | _ => ret false
  end.

(** [getReviewCount], [getRating]: [null] when the property is missing. *)
Definition getReviewCount (lead : Lead) : option Q :=
  Js.toSql (sm_reviewCount (sourceMetadata lead)).

Definition getRating (lead : Lead) : option Q :=
  Js.toSql (sm_rating (sourceMetadata lead)).

(** [isFounderLed] *)
Definition isFounderLed (lead : Lead) : bool :=
  match enrichmentData lead with
  | Js.Val e =>
      Js.truthyStr (founderLinkedin e) ||
      match employeeCount e with
      | Js.Val n => negb (n =? 0) && (n <=? 10)
      | _ => false
      end
  | _ => false
  end.

(** [Math.min(100, Math.max(0, Math.round(score)))] *)
Definition normalizeScore (x : Q) : Z :=
  Z.min 100 (Z.max 0 (Qfloor (x + (1 # 2)))).

Definition Qmin (a b : Q) : Q := if Qle_bool a b then a else b.

(** [scoreLead] *)
Definition scoreLead (cfg : Config) (lead : Lead) : M ScoreResult :=
  let t0 := {| total := 0; reasons := []; angles := [] |} in
  let t1 :=
    if Js.truthyStr (email lead) || hasEnriched emails (enrichmentData lead)
    then addReason (weights_hasEmail cfg) plus_email_found t0
    else addReason 0 minus_no_email t0 in
  let t2 :=
    if Js.truthyStr (phone lead) || hasEnriched phones (enrichmentData lead)
    then addReason (weights_hasPhone cfg) plus_phone_found t1
    else addReason 0 minus_no_phone t1 in
  t3 <- (if negb (Js.truthyStr (website lead))
         then ret (addAngle no_website (angleWeights cfg no_website) plus_no_website_angle t2)
         else
           let t := addReason (weights_hasWebsite cfg) plus_has_website t2 in
           outdated <- isOutdatedWebsite cfg lead ;;
           ret (if outdated
                then addAngle outdated_website (angleWeights cfg outdated_website)
                       plus_outdated_website_angle t
                else t)) ;;
  let t4 :=
    match enrichmentData lead with
    | Js.Val e =>
        if hasOnlineBooking e then t3
        else addAngle no_online_booking (angleWeights cfg no_online_booking)
               plus_no_booking_angle t3
    | _ => t3
    end in
  let t5 :=
    match getReviewCount lead with
    | Some reviewCount =>
        if Qltb reviewCount (thresholds_lowReviewCount cfg)
        then addAngle low_reviews (angleWeights cfg low_reviews) plus_low_reviews_angle t4
        else addReason (Qmin (reviewCount / 10) (weights_reviewCount cfg))
               (plus_review_count reviewCount) t4
    | None => t4
    end in
  let t6 :=
    match getRating lead with
    | Some rating =>
        if Qltb rating (thresholds_poorRatingThreshold cfg)
        then addAngle poor_ratings (angleWeights cfg poor_ratings)
               (plus_poor_rating_angle rating) t5
        else addReason ((rating / 5) * weights_rating cfg) (plus_good_rating rating) t5
    | None => t5
    end in
  let t7 :=
    if isFounderLed lead
    then addAngle founder_led (angleWeights cfg founder_led) plus_founder_led_angle t6
    else t6 in
  ret {| sr_score := normalizeScore (total t7);
         sr_reasons := reasons t7;
         sr_angles := angles t7 |}.

(** [result.angles.filter(angle => !lead.exhaustedAngles.includes(angle))] *)
Definition remainingAngles (result : ScoreResult) (lead : Lead) : list AngleType :=
  filter (fun a => negb (existsb (AngleType_eqb a) (exhaustedAngles lead)))
         (sr_angles result).

(** One turn of the loop of [ScoreStage.execute]. No operation of the body
    throws here, so its [catch] clause is not entered; the two [continue]
    statements skip the progress report at the end of the turn. *)
Definition scoreTurn (cfg : Config) (lead : Lead) : M unit :=
  incProcessed ;;;
  result <- scoreLead cfg lead ;;
  if Qltb (inject_Z (sr_score result)) (thresholds_minScore cfg) then
    exclude (leadId lead) bad_fit ;;;
    incFailed
  else
    let active := remainingAngles result lead in
    match active with
    | [] =>
        now <- dateNow ;;
        let cooldownUntil := now + cooldowns_defaultDays cfg * msPerDay in
        setCooldown (leadId lead) cooldownUntil ;;;
        incFailed
    | _ =>
        updateScore (leadId lead) (sr_score result) (sr_reasons result) ;;;
        updateAngles (leadId lead) active (exhaustedAngles lead) ;;;
        updateStatus (leadId lead) st_scored ;;;
        incPassed ;;;
        progressEvery 100
    end.

(** The selection every lead stage starts with, then its loop. *)
Definition overStageLeads (stage : string) (limit : Js.opt Z)
    (turn : Lead -> M unit) : M (Completion unit) :=
  c <- getLeadsForStage stage limit ;;
  match c with
  | Returned selected => forEach selected turn ;;; ret (Returned tt)
  | Thrown m => ret (Thrown m)
  | Diverges => ret Diverges
  end.

(** [ScoreStage.execute] *)
Definition ScoreStage_execute (cfg : Config) (limit : Js.opt Z) : M (Completion unit) :=
  overStageLeads "score" (stageLimit cfg limit) (scoreTurn cfg).

(* ================================================================== *)
(** ** The filter stage ([stages/filter/index.ts]) *)

(** Services of the JavaScript runtime that a rule may call on values of any
    type: conversion to string and to number ([None] is NaN), the
    regular-expression engine ([None]: the pattern does not compile), and
    the member a value inherits from its prototype under a given name. *)
Record Runtime := {
  rt_String : JsVal -> string;
  rt_Number : JsVal -> option Q;
  rt_regexTest : JsVal -> string -> option bool;
  rt_inherited : JsVal -> string -> JsVal
}.

Definition jsOpt {A} (f : A -> JsVal) (o : Js.opt A) : JsVal :=
  match o with
  | Js.Undefined => JUndefined
  | Js.Null => JNull
  | Js.Val a => f a
  end.

Definition jsInt (z : Z) : JsVal := JNum (inject_Z z).
Definition jsStrings (l : list string) : JsVal := JArr (map JStr l).

Definition AngleType_text (a : AngleType) : string :=
  match a with
  | no_website => "no_website"
  | outdated_website => "outdated_website"
  | low_reviews => "low_reviews"
  | poor_ratings => "poor_ratings"
  | no_online_booking => "no_online_booking"
  | founder_led => "founder_led"
  end.

Definition ContactResult_text (c : ContactResult) : string :=
  match c with
  | sent => "sent"
  | opened => "opened"
  | bounced_hard => "bounced_hard"
  | bounced_soft => "bounced_soft"
  | no_reply => "no_reply"
  | replied => "replied"
  end.

Definition ExclusionReason_text (e : ExclusionReason) : string :=
  match e with
  | bad_fit => "bad_fit"
  | duplicate_brand => "duplicate_brand"
  | competitor => "competitor"
  | manually_excluded => "manually_excluded"
  | invalid_contact => "invalid_contact"
  | out_of_geo => "out_of_geo"
  | wrong_industry => "wrong_industry"
  end.

Definition FailureType_text (f : FailureType) : string :=
  match f with
  | captcha_block => "captcha_block"
  | no_contact_page => "no_contact_page"
  | site_timeout => "site_timeout"
  | bounce_hard => "bounce_hard"
  | bounce_soft => "bounce_soft"
  | rate_limited => "rate_limited"
  | dns_error => "dns_error"
  | ssl_error => "ssl_error"
  | page_not_found => "page_not_found"
  | parse_error => "parse_error"
  | unknown_failure => "unknown"
  end.

Definition LeadStatus_text (s : LeadStatus) : string :=
  match s with
  | st_new => "new"
  | st_collected => "collected"
  | st_filtered => "filtered"
  | st_enriched => "enriched"
  | st_scored => "scored"
  | st_output => "output"
  | st_excluded => "excluded"
  | st_cooldown => "cooldown"
  end.

(** The text of a reason token. *)
Definition ScoreReason_text (rt : Runtime) (r : ScoreReason) : string :=
  let num (q : Q) := rt_String rt (JNum q) in
  match r with
  | plus_email_found => "+email_found"
  | minus_no_email => "-no_email"
  | plus_phone_found => "+phone_found"
  | minus_no_phone => "-no_phone"
  | plus_no_website_angle => "+no_website_angle"
  | plus_has_website => "+has_website"
  | plus_outdated_website_angle => "+outdated_website_angle"
  | plus_no_booking_angle => "+no_booking_angle"
  | plus_low_reviews_angle => "+low_reviews_angle"
  | plus_review_count n => String.append "+review_count(" (String.append (num n) ")")
  | plus_poor_rating_angle q =>
      String.append "+poor_rating_angle(" (String.append (num q) ")")
  | plus_good_rating q => String.append "+good_rating(" (String.append (num q) ")")
  | plus_founder_led_angle => "+founder_led_angle"
  end.

(** Own properties whose value is [undefined] are left out, as a JSON text
    column loses them. *)
Definition jsonFields (l : list (string * JsVal)) : JsVal :=
  JObj (filter (fun kv => match snd kv with JUndefined => false | _ => true end) l).

Definition SourceMetadata_js (m : SourceMetadata) : JsVal :=
  jsonFields
    [ ("directories", jsStrings (directories m));
      ("geos", jsStrings (geos m));
      ("tags", jsStrings (tags m));
      ("originalSource", jsOpt JStr (originalSource m));
      ("discoveryRunId", jsOpt JStr (discoveryRunId m));
      ("reviewCount", jsOpt JNum (sm_reviewCount m));
      ("rating", jsOpt JNum (sm_rating m)) ].

Definition EnrichmentData_js (e : EnrichmentData) : JsVal :=
  jsonFields
    [ ("emails", jsStrings (emails e));
      ("phones", jsStrings (phones e));
      ("socialLinks", JObj (map (fun kv => (fst kv, JStr (snd kv))) (socialLinks e)));
      ("hasOnlineBooking", JBool (hasOnlineBooking e));
      ("lastWebsiteUpdate", jsOpt (fun d => JStr (dt_text d)) (lastWebsiteUpdate e));
      ("pageTitle", jsOpt JStr (pageTitle e));
      ("metaDescription", jsOpt JStr (metaDescription e));
      ("technologies", jsOpt jsStrings (technologies e));
      ("employeeCount", jsOpt jsInt (employeeCount e));
      ("linkedinCompanyUrl", jsOpt JStr (linkedinCompanyUrl e));
      ("linkedinEmployeeCount", jsOpt jsInt (linkedinEmployeeCount e));
      ("founderLinkedin", jsOpt JStr (founderLinkedin e)) ].

Definition EnrichmentFailure_js (f : EnrichmentFailure) : JsVal :=
  jsonFields
    [ ("type", JStr (FailureType_text (ef_type f)));
      ("source", JStr (ef_source f));
      ("timestamp", jsInt (ef_timestamp f));
      ("message", jsOpt JStr (ef_message f)) ].

(** The lead object as a value, for access by property name. *)
Definition Lead_js (rt : Runtime) (l : Lead) : JsVal :=
  JObj
    [ ("leadId", JStr (leadId l));
      ("businessName", JStr (businessName l));
      ("canonicalName", JStr (canonicalName l));
      ("address", jsOpt JStr (address l));
      ("city", jsOpt JStr (city l));
      ("state", jsOpt JStr (state l));
      ("postalCode", jsOpt JStr (postalCode l));
      ("country", jsOpt JStr (country l));
      ("phone", jsOpt JStr (phone l));
      ("email", jsOpt JStr (email l));
      ("website", jsOpt JStr (website l));
      ("firstSeenAt", jsInt (firstSeenAt l));
      ("lastSeenAt", jsInt (lastSeenAt l));
      ("lastContactAttempt", jsOpt jsInt (lastContactAttempt l));
      ("lastContactResult", jsOpt (fun c => JStr (ContactResult_text c)) (lastContactResult l));
      ("excludedReason", jsOpt (fun e => JStr (ExclusionReason_text e)) (excludedReason l));
      ("cooldownUntil", jsOpt jsInt (cooldownUntil l));
      ("activeAngles", jsStrings (map AngleType_text (activeAngles l)));
      ("exhaustedAngles", jsStrings (map AngleType_text (exhaustedAngles l)));
      ("sourceMetadata", SourceMetadata_js (sourceMetadata l));
      ("enrichmentData", jsOpt EnrichmentData_js (enrichmentData l));
      ("enrichmentFailures", JArr (map EnrichmentFailure_js (enrichmentFailures l)));
      ("score", jsOpt jsInt (score l));
      ("scoreReasons",
         jsOpt (fun rs => jsStrings (map (ScoreReason_text rt) rs)) (scoreReasons l));
      ("status", JStr (LeadStatus_text (status l)));
      ("lastOutputAt", jsOpt jsInt (lastOutputAt l));
      ("createdAt", jsInt (createdAt l));
      ("updatedAt", jsInt (updatedAt l)) ].

Fixpoint assocJs (k : string) (l : list (string * JsVal)) : option JsVal :=
  match l with
  | [] => None
  | (k', v) :: r => if String.eqb k k' then Some v else assocJs k r
  end.

(** A canonical array index: decimal digits without a leading zero. *)
Fixpoint digitsValue (acc : nat) (l : list ascii) : option nat :=
  match l with
  | [] => Some acc
  | c :: r =>
      let d := Js.code c - 48 in
      if (0 <=? d) && (d <=? 9)
      then digitsValue (10 * acc + Z.to_nat d) r
      else None
  end.

Definition arrayIndex (part : string) : option nat :=
  match list_ascii_of_string part with
  | [] => None
  | [c] => digitsValue 0 [c]
  | c :: r => if Js.code c =? 48 then None else digitsValue 0 (c :: r)
  end.

(** [value[part]]: own properties first, then the prototype chain. *)
Definition member (rt : Runtime) (v : JsVal) (part : string) : JsVal :=
  match v with
  | JObj fields =>
      match assocJs part fields with
      | Some x => x
      | None => rt_inherited rt v part
      end
  | JArr items =>
      if String.eqb part "length" then jsInt (Z.of_nat (List.length items))
      else match arrayIndex part with
           | Some i => nth i items JUndefined
           | None => rt_inherited rt v part
           end
  | JStr s =>
      if String.eqb part "length" then jsInt (Z.of_nat (String.length s))
      else match arrayIndex part with
           | Some i =>
               match String.get i s with
               | Some c => JStr (String c EmptyString)
               | None => JUndefined
               end
           | None => rt_inherited rt v part
           end
  | _ => rt_inherited rt v part
  end.

(** [field.split('.')] *)
Fixpoint splitDots (cur : list ascii) (l : list ascii) : list string :=
  match l with
  | [] => [string_of_list_ascii (rev cur)]
  | c :: r =>
      if Ascii.eqb c "."%char
      then string_of_list_ascii (rev cur) :: splitDots [] r
      else splitDots (c :: cur) r
  end.

Fixpoint walk (rt : Runtime) (v : JsVal) (parts : list string) : JsVal :=
  match parts with
  | [] => v
  | part :: r =>
      match v with
      | JNull | JUndefined => JNull
      | _ => walk rt (member rt v part) r
      end
  end.

(** [getFieldValue] *)
Definition getFieldValue (rt : Runtime) (lead : Lead) (fld : string) : JsVal :=
  walk rt (Lead_js rt lead) (splitDots [] (list_ascii_of_string fld)).

(** [a === b]: primitives by value; an object is identical to itself only,
    and no object of a lead is the object of a rule. *)
Definition strictEquals (a b : JsVal) : bool :=
  match a, b with
  | JUndefined, JUndefined => true
  | JNull, JNull => true
  | JBool x, JBool y => Bool.eqb x y
  | JNum x, JNum y => Qeq_bool x y
  | JStr x, JStr y => String.eqb x y
  | _, _ => false
  end.

Definition stringOf (rt : Runtime) (v : JsVal) : string :=
  match v with
  | JStr s => s
  | _ => rt_String rt v
  end.

Definition numberOf (rt : Runtime) (v : JsVal) : option Q :=
  match v with
  | JNum q => Some q
  | _ => rt_Number rt v
  end.

(** [evaluateRule] *)
Definition evaluateRule (rt : Runtime) (lead : Lead) (rule : FilterRule) : bool :=
  let v := getFieldValue rt lead (field rule) in
  match operator rule with
  | op_equals => strictEquals v (value rule)
  | op_not_equals => negb (strictEquals v (value rule))
  | op_contains =>
      match v with
      | JStr s => Js.includes (Js.toLowerCase s) (Js.toLowerCase (stringOf rt (value rule)))
      | _ => false
      end
  | op_not_contains =>
      match v with
      | JStr s =>
          negb (Js.includes (Js.toLowerCase s) (Js.toLowerCase (stringOf rt (value rule))))
      | _ => false
      end
  | op_greater_than =>
      match v with
      | JNum x =>
          match numberOf rt (value rule) with Some y => Qltb y x | None => false end
      | _ => false
      end
  | op_less_than =>
      match v with
      | JNum x =>
          match numberOf rt (value rule) with Some y => Qltb x y | None => false end
      | _ => false
      end
  | op_is_null => match v with JNull | JUndefined => true | _ => false end
  | op_not_null => match v with JNull | JUndefined => false | _ => true end
  | op_regex =>
      match v with
      | JStr s =>
          match rt_regexTest rt (value rule) s with Some b => b | None => false end
      | _ => false
      end
  | op_other _ => false
  end.

(** [evaluateLead]; [excludeCategories] and [excludeKeywords] arrive
    lower-cased. *)
Definition evaluateLead (rt : Runtime) (lead : Lead) (rules : list FilterRule)
    (excludeCategories excludeKeywords : list string) : option ExclusionReason :=
  match excludedReason lead with
  | Js.Val r => Some r
  | _ =>
      if existsb (fun category =>
                    existsb (String.eqb (Js.toLowerCase category)) excludeCategories)
                 (tags (sourceMetadata lead))
      then Some bad_fit
      else
        let lowerName := Js.toLowerCase (businessName lead) in
        if existsb (fun keyword => Js.includes lowerName keyword) excludeKeywords
        then Some bad_fit
        else option_map reason (find (evaluateRule rt lead) rules)
  end.

(** One turn of the loop of [FilterStage.execute]. *)
Definition filterTurn (rt : Runtime) (cfg : Config) (lead : Lead) : M unit :=
  let rules := filters_rules cfg in
  let excludeCategories := map Js.toLowerCase (filters_excludeCategories cfg) in
  let excludeKeywords := map Js.toLowerCase (filters_excludeKeywords cfg) in
  incProcessed ;;;
  match evaluateLead rt lead rules excludeCategories excludeKeywords with
  | Some exclusionReason =>
      exclude (leadId lead) exclusionReason ;;;
      incFailed
  | None =>
      inCooldown <-
        match cooldownUntil lead with
        | Js.Val until =>
            if until =? 0 then ret false
            else now <- dateNow ;; ret (now <? until)
        | _ => ret false
        end ;;
      if (inCooldown : bool) then incFailed
      else updateStatus (leadId lead) st_filtered ;;; incPassed
  end ;;;
  progressEvery 100.

(** [FilterStage.execute] *)
Definition FilterStage_execute (rt : Runtime) (cfg : Config) (limit : Js.opt Z)
  : M (Completion unit) :=
  overStageLeads "filter" (stageLimit cfg limit) (filterTurn rt cfg).

(* ================================================================== *)
(** ** The collect stage ([stages/collect/index.ts]) *)

(** [chunk]: with a size that is not positive the loop of the source never
    ends on a non-empty array. *)
Fixpoint chunkFuel {A} (fuel size : nat) (l : list A) : list (list A) :=
  match fuel with
  | O => []
  | S f =>
      match l with
      | [] => []
      | _ => firstn size l :: chunkFuel f size (skipn size l)
      end
  end.

Definition chunk {A} (l : list A) (size : Z) : option (list (list A)) :=
  match l with
  | [] => Some []
  | _ => if size <=? 0 then None
         else Some (chunkFuel (List.length l) (Z.to_nat size) l)
  end.

(** One turn of the inner loop of [CollectStage.execute]; [seenIds] is
    threaded through. Marking the staging rows as processed is left out:
    the staging table is not part of the world. *)
Definition collectTurn (runId : string) (seenIds : list string)
    (discovery : RawDiscovery) : M (list string) :=
  incProcessed ;;;
  let raw := rd_rawData discovery in
  let canonical := canonicalizeName (raw_name raw) in
  let id := generateLeadId canonical (raw_city raw) (raw_state raw) (raw_country raw) in
  if existsb (String.eqb id) seenIds then ret seenIds
  else
    createFromRaw raw (rd_source discovery) runId ;;;
    updateStatus id st_collected ;;;
    incPassed ;;;
    ret (id :: seenIds).

Fixpoint collectBatch (runId : string) (seenIds : list string)
    (batch : list RawDiscovery) : M (list string) :=
  match batch with
  | [] => ret seenIds
  | d :: r =>
      seen' <- collectTurn runId seenIds d ;;
      collectBatch runId seen' r
  end.

Fixpoint collectBatches (runId : string) (seenIds : list string)
    (batches : list (list RawDiscovery)) : M unit :=
  match batches with
  | [] => ret tt
  | b :: r =>
      seen' <- collectBatch runId seenIds b ;;
      updateProgress ;;;
      collectBatches runId seen' r
  end.

(** [BaseStage.getRunId] *)
Definition getRunId : M string :=
  t <- readThis ;;
  ret (match run t with Some id => id | None => "unknown" end).

(** [CollectStage.execute], on the rows [getUnprocessed] returned. *)
Definition CollectStage_execute (cfg : Config) (discoveries : list RawDiscovery)
  : M (Completion unit) :=
  match chunk discoveries (pipeline_batchSize cfg) with
  | None => ret Diverges
  | Some batches =>
      runId <- getRunId ;;
      collectBatches runId [] batches ;;;
      ret (Returned tt)
  end.

(* ================================================================== *)
(** ** The enrich stage ([stages/enrich/index.ts]) *)

(** What [scrapeWebsite] comes back with: the data of the site, or nothing,
    after logging a failure when the fetch reported a failure type. *)
Record WebsiteData := {
  wd_emails : list string;
  wd_phones : list string;
  wd_hasOnlineBooking : bool;
  wd_pageTitle : Js.opt string;
  wd_socialLinks : list (string * string)
}.

Inductive Scrape :=
| Scraped (data : WebsiteData)
| NotScraped (failure : option (FailureType * Js.opt string)).

(** [[...new Set(l)]] *)
Fixpoint dedupe (seen : list string) (l : list string) : list string :=
  match l with
  | [] => []
  | x :: r =>
      if existsb (String.eqb x) seen then dedupe seen r
      else x :: dedupe (x :: seen) r
  end.

(** [Object.assign(target, source)] on the social links. *)
Fixpoint assignLinks (target source : list (string * string)) : list (string * string) :=
  match source with
  | [] => target
  | (k, v) :: r =>
      let target' :=
        if existsb (fun kv => String.eqb (fst kv) k) target
        then map (fun kv => if String.eqb (fst kv) k then (k, v) else kv) target
        else (target ++ [(k, v)])%list in
      assignLinks target' r
  end.

Fixpoint dropTrailingSlashes (rl : list ascii) : list ascii :=
  match rl with
  | c :: r => if Ascii.eqb c "/"%char then dropTrailingSlashes r else rl
  | [] => []
  end.

(** [normalizeUrl] *)
Definition normalizeUrl (url : string) : string :=
  if String.eqb url "" then ""
  else
    let n := Js.trim (Js.toLowerCase url) in
    let l := list_ascii_of_string n in
    let withScheme :=
      if Js.startsWith (list_ascii_of_string "http://") l
         || Js.startsWith (list_ascii_of_string "https://") l
      then l else (list_ascii_of_string "https://" ++ l)%list in
    string_of_list_ascii (rev (dropTrailingSlashes (rev withScheme))).

(** [addEnrichmentFailure] *)
Definition addEnrichmentFailure (id : string) (failure : EnrichmentFailure) : M unit :=
  lead <- getById id ;;
  match lead with
  | None => ret tt
  | Some l =>
      let failures := (enrichmentFailures l ++ [failure])%list in
      now <- dateNow ;;
      writeLeads (updateWhereId id (fun r =>
        set_updated_at now (set_enrichment_failures failures r)))
  end.

Definition blankEnrichment : EnrichmentData := {|
  emails := []; phones := []; socialLinks := []; hasOnlineBooking := false;
  lastWebsiteUpdate := Js.Undefined; pageTitle := Js.Undefined;
  metaDescription := Js.Undefined; technologies := Js.Undefined;
  employeeCount := Js.Undefined; linkedinCompanyUrl := Js.Undefined;
  linkedinEmployeeCount := Js.Undefined; founderLinkedin := Js.Undefined |}.

Definition mergeWebsiteData (e : EnrichmentData) (w : WebsiteData) : EnrichmentData := {|
  emails := dedupe [] (emails e ++ wd_emails w);
  phones := dedupe [] (phones e ++ wd_phones w);
  socialLinks := assignLinks (socialLinks e) (wd_socialLinks w);
  hasOnlineBooking := hasOnlineBooking e || wd_hasOnlineBooking w;
  lastWebsiteUpdate := lastWebsiteUpdate e;
  pageTitle := if Js.truthyStr (wd_pageTitle w) then wd_pageTitle w else pageTitle e;
  metaDescription := metaDescription e;
  technologies := technologies e;
  employeeCount := employeeCount e;
  linkedinCompanyUrl := linkedinCompanyUrl e;
  linkedinEmployeeCount := linkedinEmployeeCount e;
  founderLinkedin := founderLinkedin e |}.

(** [enrichLead]; [scrape] answers for the page fetches of a site. *)
Definition enrichLead (scrape : string -> Scrape) (lead : Lead) : M unit :=
  let start :=
    match enrichmentData lead with
    | Js.Val e => e
    | _ => blankEnrichment
    end in
  data <-
    (if Js.truthyStr (website lead) then
       let url := normalizeUrl (Js.orStr (website lead) "") in
       match scrape url with
       | Scraped w => ret (mergeWebsiteData start w)
       | NotScraped (Some (failureType, message)) =>
           now <- dateNow ;;
           addEnrichmentFailure (leadId lead)
             {| ef_type := failureType; ef_source := url;
                ef_timestamp := now; ef_message := message |} ;;;
           ret start
       | NotScraped None => ret start
       end
     else ret start) ;;
  updateEnrichment (leadId lead) data ;;;
  (match emails data with
   | first :: _ =>
       if Js.truthyStr (email lead) then ret tt
       else upsert (idWithEmail (leadId lead) (Js.Val first)) ;;; ret tt
   | [] => ret tt
   end) ;;;
  (match phones data with
   | first :: _ =>
       if Js.truthyStr (phone lead) then ret tt
       else upsert (idWithPhone (leadId lead) (Js.Val first)) ;;; ret tt
   | [] => ret tt
   end) ;;;
  updateStatus (leadId lead) st_enriched.

(** One turn of the loop of [EnrichStage.execute]. *)
Definition enrichTurn (scrape : string -> Scrape) (lead : Lead) : M unit :=
  incProcessed ;;;
  enrichLead scrape lead ;;;
  incPassed ;;;
  progressEvery 10.

(** [EnrichStage.execute] *)
Definition EnrichStage_execute (scrape : string -> Scrape) (cfg : Config)
    (limit : Js.opt Z) : M (Completion unit) :=
  overStageLeads "enrich" (stageLimit cfg limit) (enrichTurn scrape).

(* ================================================================== *)
(** ** The output stage ([stages/output/index.ts]) *)

(** [minScore || this.config.scoring.thresholds.minScore] *)
Definition outputMinScore (cfg : Config) (minScore : Js.opt Q) : Q :=
  match minScore with
  | Js.Val m => if Qeq_bool m 0 then thresholds_minScore cfg else m
  | _ => thresholds_minScore cfg
  end.

(** [(lead.score || 0) >= this.minScore] *)
Definition meetsMinScore (m : Q) (lead : Lead) : bool :=
  Qle_bool m (inject_Z (match score lead with Js.Val s => s | _ => 0 end)).

(** One turn of the state-update loop of [OutputStage.execute]. *)
Definition outputTurn (cfg : Config) (lead : Lead) : M unit :=
  incProcessed ;;;
  markOutput (leadId lead) ;;;
  now <- dateNow ;;
  let cooldownUntil := now + cooldowns_defaultDays cfg * msPerDay in
  setCooldown (leadId lead) cooldownUntil ;;;
  incPassed.

(** [OutputStage.execute]. The files it writes are not part of the world,
    and writing them is taken to succeed: where it does not, [execute]
    throws before any lead is marked, which [runStage] answers as it
    answers any [execute] that throws. *)
Definition OutputStage_execute (cfg : Config) (limit : Js.opt Z) (minScore : Js.opt Q)
  : M (Completion unit) :=
  c <- getLeadsForStage "output" (stageLimit cfg limit) ;;
  match c with
  | Returned allLeads =>
      let selected := filter (meetsMinScore (outputMinScore cfg minScore)) allLeads in
      match selected with
      | [] => ret (Returned tt)
      | _ =>
          _ <- dateNow ;;
          forEach selected (outputTurn cfg) ;;;
          ret (Returned tt)
      end
  | Thrown m => ret (Thrown m)
  | Diverges => ret Diverges
  end.

(* ================================================================== *)
(** ** The refresh stage ([stages/refresh/index.ts]) *)

(** [Object.keys(data).length]: the four required keys and every optional
    key the stored object holds. *)
Definition countKey {A} (o : Js.opt A) : nat :=
  match o with
  | Js.Undefined => 0
  | _ => 1
  end.

Definition enrichmentKeys (e : EnrichmentData) : nat :=
  (4 + countKey (lastWebsiteUpdate e) + countKey (pageTitle e)
   + countKey (metaDescription e) + countKey (technologies e)
   + countKey (employeeCount e) + countKey (linkedinCompanyUrl e)
   + countKey (linkedinEmployeeCount e) + countKey (founderLinkedin e))%nat.

(** The re-entry status the expired-cooldown sweep computes for a lead. *)
Definition reentryStatus (lead : Lead) : LeadStatus :=
  let newStatus := st_collected in
  let newStatus :=
    match enrichmentData lead with
    | Js.Val e => if (0 <? enrichmentKeys e)%nat then st_enriched else newStatus
    | _ => newStatus
    end in
  if Js.notUndefined (score lead) then st_enriched else newStatus.

(** One turn of the loop of [processExpiredCooldowns]. *)
Definition expiredTurn (cfg : Config) (lead : Lead) : M unit :=
  incProcessed ;;;
  upsert (idWithCooldownUntil (leadId lead) Js.Undefined) ;;;
  let newStatus := reentryStatus lead in
  (if refresh_resetExhaustedAngles cfg
   then updateAngles (leadId lead) [] []
   else ret tt) ;;;
  updateStatus (leadId lead) newStatus ;;;
  incPassed.

(** [processExpiredCooldowns] *)
Definition processExpiredCooldowns (cfg : Config) (limit : Js.opt Z) : M (list string) :=
  expiredLeads <- getExpiredCooldowns limit ;;
  forEach expiredLeads (expiredTurn cfg) ;;;
  ret (map leadId expiredLeads).

(** [checkSignalChanges]: no change is ever detected. *)
Definition checkSignalChanges (cfg : Config) (lead : Lead) : bool := false.

(** One turn of the loop of [processSignalChanges]. *)
Definition signalTurn (cfg : Config) (lead : Lead) : M unit :=
  incProcessed ;;;
  if checkSignalChanges cfg lead then
    upsert (idWithCooldownUntil (leadId lead) Js.Undefined) ;;;
    updateStatus (leadId lead) st_filtered ;;;
    incPassed
  else
    upsert (onlyId (leadId lead)) ;;; ret tt.

Definition staleOutput (cutoffTime : Z) (r : Row) : bool :=
  existsb (LeadStatus_eqb (status_ r)) [st_output; st_cooldown] &&
  (updated_at r <? cutoffTime).

(** The rows [WHERE status IN ('output', 'cooldown') AND updated_at < ?]
    answers, in the order of [idx_leads_status]: the statuses of the list
    in ascending order, rows of one status in rowid order. *)
Definition staleRows (cutoffTime : Z) (rows : list Row) : list Row :=
  (filter (fun r => LeadStatus_eqb (status_ r) st_cooldown && staleOutput cutoffTime r) rows
   ++ filter (fun r => LeadStatus_eqb (status_ r) st_output && staleOutput cutoffTime r) rows)%list.

(** [this.limit || 100] *)
Definition limitOr100 (limit : Js.opt Z) : Js.opt Z :=
  match limit with
  | Js.Val n => if n =? 0 then Js.Val 100 else Js.Val n
  | _ => Js.Val 100
  end.

(** [processSignalChanges]; [LIMIT ?] is always part of this statement. *)
Definition limitRows {A} (limit : Js.opt Z) (l : list A) : list A :=
  match limit with
  | Js.Val n => if n <? 0 then l else firstn (Z.to_nat n) l
  | _ => l
  end.

Definition processSignalChanges (cfg : Config) (limit : Js.opt Z) : M (list string) :=
  now <- dateNow ;;
  let cutoffTime := now - refresh_checkIntervalHours cfg * 60 * 60 * 1000 in
  rows <- readLeads ;;
  let selected :=
    map rowToLead (limitRows (limitOr100 limit) (staleRows cutoffTime rows)) in
  forEach selected (signalTurn cfg) ;;;
  ret (map leadId (filter (checkSignalChanges cfg) selected)).

(** [RefreshStage.execute] *)
Definition RefreshStage_execute (cfg : Config) (limit : Js.opt Z) : M (Completion unit) :=
  if negb (refresh_enabled cfg) then ret (Returned tt)
  else
    (if refresh_cooldownExpiryCheckEnabled cfg
     then processExpiredCooldowns cfg (stageLimit cfg limit) ;;; ret tt
     else ret tt) ;;;
    (if refresh_signalChangeCheckEnabled cfg
     then processSignalChanges cfg (stageLimit cfg limit) ;;; ret tt
     else ret tt) ;;;
    ret (Returned tt).

(* ================================================================== *)
(** ** The discover stage ([stages/discover/index.ts]) *)

(** What the generator of a source handler does when it is resumed: the
    listed steps in order, then it is done. *)
Inductive GenStep :=
| Yield (business : RawBusinessData)
| Throw (message : string).

Definition SourceHandler : Type := SourceConfig -> Js.opt Z -> list GenStep.

(** [rawDiscoveryService.addBulk]: one clock reading, one row per record;
    the staging table is not part of the world. *)
Definition addBulk (records : list RawBusinessData) : M Z :=
  _ <- dateNow ;;
  ret (Z.of_nat (List.length records)).

(** [limit && n >= limit] *)
Definition reached (limit : Js.opt Z) (n : Z) : bool :=
  match limit with
  | Js.Val l => negb (l =? 0) && (l <=? n)
  | _ => false
  end.

(** The [for await] loop over one source, with the flush after it and the
    [catch] around both. [batch] is the pending batch, [total] the count
    stored so far in this run. *)
Fixpoint sourceLoop (cfg : Config) (limit : Js.opt Z) (steps : list GenStep)
    (batch : list RawBusinessData) (total : Z) : M Z :=
  let flush :=
    match batch with
    | [] => ret total
    | _ =>
        count <- addBulk batch ;;
        addPassed count ;;;
        ret (total + count)
    end in
  match steps with
  | [] => flush
  | Throw message :: _ => recordError message ;;; ret total
  | Yield business :: rest =>
      let batch1 := (batch ++ [business])%list in
      incProcessed ;;;
      st <-
        (if pipeline_batchSize cfg <=? Z.of_nat (List.length batch1) then
           count <- addBulk batch1 ;;
           addPassed count ;;;
           updateProgress ;;;
           ret ([], total + count)
         else ret (batch1, total)) ;;
      let (batch2, total2) := (st : list RawBusinessData * Z) in
      if reached limit (total2 + Z.of_nat (List.length batch2)) then
        match batch2 with
        | [] => ret total2
        | _ =>
            count <- addBulk batch2 ;;
            addPassed count ;;;
            ret (total2 + count)
        end
      else sourceLoop cfg limit rest batch2 total2
  end.

(** The loop over the sources. *)
Fixpoint sourcesLoop (cfg : Config) (handlers : string -> option SourceHandler)
    (limit : Js.opt Z) (srcs : list SourceConfig) (total : Z) : M unit :=
  match srcs with
  | [] => ret tt
  | source :: rest =>
      if reached limit total then ret tt
      else
        match handlers (src_type source) with
        | None => sourcesLoop cfg handlers limit rest total
        | Some handler =>
            let remaining :=
              match limit with
              | Js.Val l => if l =? 0 then Js.Undefined else Js.Val (l - total)
              | _ => Js.Undefined
              end in
            total' <- sourceLoop cfg limit (handler source remaining) [] total ;;
            sourcesLoop cfg handlers limit rest total'
        end
  end.

(** [DiscoverStage.execute] *)
Definition DiscoverStage_execute (cfg : Config) (handlers : string -> option SourceHandler)
    (sourceName : Js.opt string) (limit : Js.opt Z) : M (Completion unit) :=
  let selected :=
    filter (fun s =>
              src_enabled s &&
              (negb (Js.truthyStr sourceName)
               || String.eqb (src_name s) (Js.orStr sourceName "")))
           (sources cfg) in
  sourcesLoop cfg handlers (stageLimit cfg limit) selected 0 ;;;
  ret (Returned tt).

(* ================================================================== *)
(** ** Vocabulary of the properties *)

(** The component of the hashed text that an optional attribute gives:
    the default when missing or empty, then lower-cased and trimmed. *)
Definition canonicalComponent (default : string) (o : Js.opt string) : string :=
  Js.trim (Js.toLowerCase (Js.orStr o default)).

Definition isHexChar (c : ascii) : bool :=
  ((48 <=? Js.code c) && (Js.code c <=? 57)) ||
  ((97 <=? Js.code c) && (Js.code c <=? 102)).

(** Number of rows that carry an id. *)
Definition countId (id : string) (rows : list Row) : nat :=
  List.length (filter (fun r => String.eqb (lead_id r) id) rows).

(** The table after [upsert] of a partial lead at time [now]. *)
Definition upserted (lead : PartialLead) (now : Z) (rows : list Row) : list Row :=
  match selectById (p_leadId lead) rows with
  | Some r0 =>
      updateWhereId (p_leadId lead)
        (upsertAssign (mergeLead (rowToLead r0) lead now)) rows
  | None => (rows ++ [insertRow (newLeadOf lead now)])%list
  end.

Definition markCollected (now : Z) (r : Row) : Row :=
  set_updated_at now (set_status st_collected r).

(** The id [createFromRaw] computes for a raw record. *)
Definition rawLeadId (raw : RawBusinessData) : string :=
  generateLeadId (canonicalizeName (raw_name raw))
    (raw_city raw) (raw_state raw) (raw_country raw).

(* ================================================================== *)
(** ** Sample data *)

Definition sampleClock (n : nat) : Z := 1700000000000 + 1000 * Z.of_nat n.

Definition sampleWorld (rows : list Row) : World :=
  {| leads := rows; runLog := []; this := newStage; ticks := 0; clock := sampleClock |}.

Definition sampleRaw : RawBusinessData := {|
  raw_name := "Pro Plumbing LLC";
  raw_address := Js.Val "100 Main Street";
  raw_city := Js.Val "Austin";
  raw_state := Js.Val "TX";
  raw_postalCode := Js.Undefined;
  raw_country := Js.Undefined;
  raw_phone := Js.Undefined;
  raw_email := Js.Undefined;
  raw_website := Js.Val "https://proplumbing.example";
  raw_rating := Js.Undefined;
  raw_reviewCount := Js.Undefined;
  raw_categories := Js.Val ["plumber"];
  raw_sourceUrl := Js.Undefined
|}.

Definition sampleDiscovery (n : Z) : RawDiscovery := {|
  rd_id := n; rd_runId := "run_a"; rd_source := "yelp"; rd_rawData := sampleRaw;
  rd_discoveredAt := 1699999999000; rd_processed := false |}.

(** A row as a first collection leaves it, at a given status. *)
Definition sampleRow (id name : string) (st : LeadStatus) : Row := {|
  lead_id := id;
  business_name := name;
  canonical_name := canonicalizeName name;
  address_ := None; city_ := Some "Austin"; state_ := Some "TX";
  postal_code := None; country_ := Some "US";
  phone_ := None; email_ := None; website_ := None;
  first_seen_at := 1600000000000; last_seen_at := 1600000000000;
  last_contact_attempt := None; last_contact_result := None;
  excluded_reason := None; cooldown_until := None;
  active_angles := []; exhausted_angles := [];
  source_metadata := emptySourceMetadata;
  enrichment_data := None; enrichment_failures := [];
  score_ := None; score_reasons := None;
  status_ := st; last_output_at := None;
  created_at := 1600000000000; updated_at := 1600000000000
|}.

(** A filtered lead with a site and no contact data, for [sampleRaw]. *)
Definition sampleSiteRow : Row := {|
  lead_id := rawLeadId sampleRaw;
  business_name := "Pro Plumbing LLC";
  canonical_name := "pro plumbing";
  address_ := Some "100 Main Street"; city_ := Some "Austin"; state_ := Some "TX";
  postal_code := None; country_ := Some "US";
  phone_ := None; email_ := None; website_ := Some "https://proplumbing.example";
  first_seen_at := 1600000000000; last_seen_at := 1600000000000;
  last_contact_attempt := None; last_contact_result := None;
  excluded_reason := None; cooldown_until := None;
  active_angles := []; exhausted_angles := [];
  source_metadata := emptySourceMetadata;
  enrichment_data := None; enrichment_failures := [];
  score_ := None; score_reasons := None;
  status_ := st_filtered; last_output_at := None;
  created_at := 1600000000000; updated_at := 1600000000000
|}.

Definition sampleScrape (url : string) : Scrape :=
  Scraped {| wd_emails := ["info@proplumbing.example"]; wd_phones := [];
             wd_hasOnlineBooking := false; wd_pageTitle := Js.Undefined;
             wd_socialLinks := [] |}.

(** The time [getLeadsForStage] compares cooldowns with. *)
Definition selectionTime (w : World) : Z := clock w (ticks w).

(** The rows a stage may take, in row order. *)
Definition eligibleRows (statuses : list LeadStatus) (now : Z) (rows : list Row) : list Row :=
  filter (stageEligible statuses now) rows.

(** A scored row with a given score. *)
Definition scoredRow (id name : string) (sc : Z) : Row :=
  set_score (Some sc) (set_active_angles [no_website] (sampleRow id name st_scored)).

(** A lead whose cooldown ran out, with no enrichment data and no score. *)
Definition cooledRow : Row :=
  set_cooldown_until (Some 1650000000000) (sampleRow "a1" "Acme" st_cooldown).

(** The spec's wording of the filter checks. *)
Definition carriesNoReason (lead : Lead) : Prop :=
  forall r, excludedReason lead <> Js.Val r.

(** Some source tag equals an excluded category, ignoring case. *)
Definition tagMatchesCategory (lead : Lead) (excludeCategories : list string) : bool :=
  existsb (fun tag =>
             existsb (fun c => String.eqb (Js.toLowerCase tag) (Js.toLowerCase c))
                     excludeCategories)
          (tags (sourceMetadata lead)).

(** Some excluded keyword occurs in the business name, ignoring case. *)
Definition keywordInName (lead : Lead) (excludeKeywords : list string) : bool :=
  existsb (fun k => Js.includes (Js.toLowerCase (businessName lead)) (Js.toLowerCase k))
          excludeKeywords.

(** The decision of the filter stage for a lead: [evaluateLead] on the
    configured lists, lower-cased as [execute] passes them. *)
Definition filterDecision (rt : Runtime) (cfg : Config) (lead : Lead)
  : option ExclusionReason :=
  evaluateLead rt lead (filters_rules cfg)
    (map Js.toLowerCase (filters_excludeCategories cfg))
    (map Js.toLowerCase (filters_excludeKeywords cfg)).

(** A runtime for examples: conversions of strings and numbers only, and a
    regular-expression engine that knows the pattern "^$" alone. *)
Definition sampleRuntime : Runtime := {|
  rt_String := fun v => match v with JStr s => s | _ => "" end;
  rt_Number := fun v => match v with JNum q => Some q | _ => None end;
  rt_regexTest := fun p s =>
    match p with
    | JStr "^$" => Some (String.eqb s "")
    | _ => None
    end;
  rt_inherited := fun _ _ => JUndefined
|}.

Definition sampleRules : list FilterRule :=
  [ {| field := "city"; operator := op_equals; value := JStr "Dallas";
       reason := out_of_geo |};
    {| field := "sourceMetadata.tags.length"; operator := op_less_than;
       value := JNum 1; reason := wrong_industry |};
    {| field := "businessName"; operator := op_contains; value := JStr "ACME";
       reason := competitor |} ].

(** The default configuration with a block list and three custom rules. *)
Definition sampleFilterConfig : Config := {|
  sources := [];
  filters_rules := sampleRules;
  filters_excludeCategories := ["Franchise"];
  filters_excludeKeywords := ["Casino"];
  cooldowns_defaultDays := cooldowns_defaultDays DEFAULT_CONFIG;
  weights_hasEmail := weights_hasEmail DEFAULT_CONFIG;
  weights_hasPhone := weights_hasPhone DEFAULT_CONFIG;
  weights_hasWebsite := weights_hasWebsite DEFAULT_CONFIG;
  weights_reviewCount := weights_reviewCount DEFAULT_CONFIG;
  weights_rating := weights_rating DEFAULT_CONFIG;
  thresholds_minScore := thresholds_minScore DEFAULT_CONFIG;
  thresholds_lowReviewCount := thresholds_lowReviewCount DEFAULT_CONFIG;
  thresholds_poorRatingThreshold := thresholds_poorRatingThreshold DEFAULT_CONFIG;
  thresholds_outdatedWebsiteDays := thresholds_outdatedWebsiteDays DEFAULT_CONFIG;
  angleWeights := angleWeights DEFAULT_CONFIG;
  refresh_enabled := true;
  refresh_checkIntervalHours := 24;
  refresh_cooldownExpiryCheckEnabled := true;
  refresh_signalChangeCheckEnabled := true;
  refresh_resetExhaustedAngles := false;
  pipeline_batchSize := 100;
  pipeline_maxLeadsPerRun := 500
|}.

(** The part of the world that no store statement touches. *)
Definition sameProcess (w w' : World) : Prop :=
  this w' = this w /\ runLog w' = runLog w /\ clock w' = clock w.

(** An enriched lead without a site whose only angle is exhausted. *)
Definition exhaustedRow : Row :=
  set_exhausted_angles [no_website] (sampleRow "a1" "Acme" st_enriched).

(* ================================================================== *)
(** ** Runs as the CLI starts them, and what the table [runs] shows *)

(** One command of the command line: the stage and the arguments of its
    constructor, with the collaborators of the stage. *)
Inductive StageCall :=
| CallDiscover (handlers : string -> option SourceHandler)
               (sourceName : Js.opt string) (limit : Js.opt Z)
| CallCollect (discoveries : list RawDiscovery)
| CallFilter (rt : Runtime) (limit : Js.opt Z)
| CallEnrich (scrape : string -> Scrape) (limit : Js.opt Z)
| CallScore (limit : Js.opt Z)
| CallOutput (limit : Js.opt Z) (minScore : Js.opt Q)
| CallRefresh (limit : Js.opt Z).

Definition stageNameOf (c : StageCall) : string :=
  match c with
  | CallDiscover _ _ _ => "discover"
  | CallCollect _ => "collect"
  | CallFilter _ _ => "filter"
  | CallEnrich _ _ => "enrich"
  | CallScore _ => "score"
  | CallOutput _ _ => "output"
  | CallRefresh _ => "refresh"
  end.

Definition executeOf (cfg : Config) (c : StageCall) : M (Completion unit) :=
  match c with
  | CallDiscover handlers sourceName limit =>
      DiscoverStage_execute cfg handlers sourceName limit
  | CallCollect discoveries => CollectStage_execute cfg discoveries
  | CallFilter rt limit => FilterStage_execute rt cfg limit
  | CallEnrich scrape limit => EnrichStage_execute scrape cfg limit
  | CallScore limit => ScoreStage_execute cfg limit
  | CallOutput limit minScore => OutputStage_execute cfg limit minScore
  | CallRefresh limit => RefreshStage_execute cfg limit
  end.

(** [new Stage(...).runStage()] *)
Definition runCall (cfg : Config) (c : StageCall) (newRunId : string)
  : M (Completion StageResult) :=
  runStage (stageNameOf c) newRunId (executeOf cfg c).

Definition isDiscover (c : StageCall) : bool :=
  match c with
  | CallDiscover _ _ _ => true
  | _ => false
  end.

(** The three counters of the row of a run: processed, passed, failed. *)
Definition Counters : Type := Z * Z * Z.

(** The counters of the row after one statement. *)
Definition rowAfter (c : Counters) (x : RunWrite) : Counters :=
  match x with
  | RunStart _ _ _ => (0, 0, 0)
  | RunProgress _ p pa f => (p, pa, f)
  | RunComplete _ _ p pa f => (p, pa, f)
  | RunFail _ _ _ p => (p, snd (fst c), snd c)
  end.

(** The successive states of the row under the statements of a run. *)
Fixpoint observations (c : Counters) (log : list RunWrite) : list Counters :=
  match log with
  | [] => []
  | x :: r => rowAfter c x :: observations (rowAfter c x) r
  end.

(** The row after all the statements of a log. *)
Definition finalRow (c : Counters) (log : list RunWrite) : Counters :=
  fold_left rowAfter log c.

Definition le3 (a b : Counters) : Prop :=
  fst (fst a) <= fst (fst b) /\ snd (fst a) <= snd (fst b) /\ snd a <= snd b.

(** Each state is at least the one before, starting from [prev]. *)
Fixpoint nondecreasing (prev : Counters) (l : list Counters) : Prop :=
  match l with
  | [] => True
  | c :: r => le3 prev c /\ nondecreasing c r
  end.

(** [passed + failed <= processed + e] *)
Definition balanced (e : Z) (c : Counters) : Prop :=
  snd (fst c) + snd c <= fst (fst c) + e.

Definition countersOf (t : StageObj) : Counters := (processed t, passed t, failed t).

Definition errorCount (t : StageObj) : Z := Z.of_nat (List.length (errors t)).

(** What holds of a running stage between two statements: the log since
    [base] shows non-decreasing rows that the counters in memory dominate,
    every row is balanced up to the errors recorded, and the counters in
    memory are balanced with [k] records taken but not yet counted as
    passed or failed. [clean] says that no error was recorded. *)
Definition Inv (base : list RunWrite) (k : nat) (clean : bool) (w : World) : Prop :=
  exists seg,
    runLog w = (base ++ seg)%list
    /\ nondecreasing (0, 0, 0) (observations (0, 0, 0) seg ++ [countersOf (this w)])
    /\ Forall (balanced (errorCount (this w))) (observations (0, 0, 0) seg)
    /\ passed (this w) + failed (this w) + Z.of_nat k
         <= processed (this w) + errorCount (this w)
    /\ (clean = true -> errors (this w) = []).

(** A computation that leaves the stage object and the run log alone. *)
Definition quiet {A} (m : M A) : Prop :=
  forall w, this (snd (m w)) = this w /\ runLog (snd (m w)) = runLog w.

(** A source handler whose generator throws when it is first resumed. *)
Definition failingHandler : SourceHandler :=
  fun _ _ => [Throw "connect ECONNREFUSED"].

Definition sampleSources : Config := {|
  sources := [ {| src_name := "yelp"; src_type := "directory"; src_enabled := true;
                  src_rateLimit := Js.Undefined;
                  src_categories := Js.Val ["plumber"];
                  src_geos := Js.Val [ {| geo_city := "Austin"; geo_state := "TX" |} ] |} ];
  filters_rules := [];
  filters_excludeCategories := [];
  filters_excludeKeywords := [];
  cooldowns_defaultDays := cooldowns_defaultDays DEFAULT_CONFIG;
  weights_hasEmail := weights_hasEmail DEFAULT_CONFIG;
  weights_hasPhone := weights_hasPhone DEFAULT_CONFIG;
  weights_hasWebsite := weights_hasWebsite DEFAULT_CONFIG;
  weights_reviewCount := weights_reviewCount DEFAULT_CONFIG;
  weights_rating := weights_rating DEFAULT_CONFIG;
  thresholds_minScore := thresholds_minScore DEFAULT_CONFIG;
  thresholds_lowReviewCount := thresholds_lowReviewCount DEFAULT_CONFIG;
  thresholds_poorRatingThreshold := thresholds_poorRatingThreshold DEFAULT_CONFIG;
  thresholds_outdatedWebsiteDays := thresholds_outdatedWebsiteDays DEFAULT_CONFIG;
  angleWeights := angleWeights DEFAULT_CONFIG;
  refresh_enabled := true;
  refresh_checkIntervalHours := 24;
  refresh_cooldownExpiryCheckEnabled := true;
  refresh_signalChangeCheckEnabled := true;
  refresh_resetExhaustedAngles := false;
  pipeline_batchSize := 100;
  pipeline_maxLeadsPerRun := 500
|}.

Definition sampleHandlers (type : string) : option SourceHandler :=
  if String.eqb type "directory" then Some failingHandler else None.

(** What a turn of the score loop leaves in the row [r1] of a lead that was
    stored as [r0], given the result of [scoreLead] and the clock reading
    [now] taken for the cooldown. *)
Definition scoreOutcome (cfg : Config) (r0 : Row) (result : ScoreResult) (now : Z)
    (r1 : Row) : Prop :=
  let active := remainingAngles result (rowToLead r0) in
  let minScore := thresholds_minScore cfg in
  ((inject_Z (sr_score result) < minScore)%Q ->
     excluded_reason r1 = Some bad_fit /\ status_ r1 = st_excluded)
  /\ ((minScore <= inject_Z (sr_score result))%Q -> active = [] ->
        excluded_reason r1 = None /\ status_ r1 = st_cooldown
        /\ cooldown_until r1 = Some (now + cooldowns_defaultDays cfg * msPerDay))
  /\ ((minScore <= inject_Z (sr_score result))%Q -> active <> [] ->
        status_ r1 = st_scored /\ excluded_reason r1 = None
        /\ cooldown_until r1 = cooldown_until r0
        /\ score_ r1 = Some (sr_score result)
        /\ score_reasons r1 = Some (sr_reasons result)
        /\ active_angles r1 = active
        /\ exhausted_angles r1 = exhausted_angles r0)
  /\ (status_ r1 = st_scored <->
        (minScore <= inject_Z (sr_score result))%Q /\ active <> []).

(* ================================================================== *)
(** ** The rest of the lead service ([state/lead-service.ts]) *)

Definition set_last_contact_attempt (v : option Z) (r : Row) : Row := {|
  lead_id := lead_id r; business_name := business_name r;
  canonical_name := canonical_name r; address_ := address_ r;
  city_ := city_ r; state_ := state_ r; postal_code := postal_code r;
  country_ := country_ r; phone_ := phone_ r; email_ := email_ r;
  website_ := website_ r; first_seen_at := first_seen_at r;
  last_seen_at := last_seen_at r; last_contact_attempt := v;
  last_contact_result := last_contact_result r;
  excluded_reason := excluded_reason r; cooldown_until := cooldown_until r;
  active_angles := active_angles r; exhausted_angles := exhausted_angles r;
  source_metadata := source_metadata r; enrichment_data := enrichment_data r;
  enrichment_failures := enrichment_failures r; score_ := score_ r;
  score_reasons := score_reasons r; status_ := status_ r;
  last_output_at := last_output_at r; created_at := created_at r;
  updated_at := updated_at r |}.

Definition set_last_contact_result (v : option ContactResult) (r : Row) : Row := {|
  lead_id := lead_id r; business_name := business_name r;
  canonical_name := canonical_name r; address_ := address_ r;
  city_ := city_ r; state_ := state_ r; postal_code := postal_code r;
  country_ := country_ r; phone_ := phone_ r; email_ := email_ r;
  website_ := website_ r; first_seen_at := first_seen_at r;
  last_seen_at := last_seen_at r;
  last_contact_attempt := last_contact_attempt r; last_contact_result := v;
  excluded_reason := excluded_reason r; cooldown_until := cooldown_until r;
  active_angles := active_angles r; exhausted_angles := exhausted_angles r;
  source_metadata := source_metadata r; enrichment_data := enrichment_data r;
  enrichment_failures := enrichment_failures r; score_ := score_ r;
  score_reasons := score_reasons r; status_ := status_ r;
  last_output_at := last_output_at r; created_at := created_at r;
  updated_at := updated_at r |}.

(** [getByCanonicalName]: the id is computed without a country. *)
Definition getByCanonicalName (canonicalName : string) (city state : Js.opt string)
  : M (option Lead) :=
  getById (generateLeadId canonicalName city state Js.Undefined).

(** [getByStatus] *)
Definition getByStatus (s : LeadStatus) (limit : Js.opt Z) : M (list Lead) :=
  rows <- readLeads ;;
  ret (map rowToLead
         (applyLimit limit (filter (fun r => LeadStatus_eqb (status_ r) s) rows))).

(** [updateContactResult] *)
Definition updateContactResult (id : string) (result : ContactResult) : M unit :=
  now <- dateNow ;;
  writeLeads (updateWhereId id (fun r =>
    set_updated_at now
      (set_last_contact_result (Some result) (set_last_contact_attempt (Some now) r)))).

(** [[...new Set(l)]] on angles: the first occurrence of each is kept. *)
Fixpoint uniqueAngles (seen : list AngleType) (l : list AngleType) : list AngleType :=
  match l with
  | [] => []
  | a :: r =>
      if existsb (AngleType_eqb a) seen then uniqueAngles seen r
      else a :: uniqueAngles (a :: seen) r
  end.

(** [exhaustAngle]: move an angle from active to exhausted. *)
Definition exhaustAngle (id : string) (angle : AngleType) : M unit :=
  lead <- getById id ;;
  match lead with
  | None => ret tt
  | Some l =>
      let active := filter (fun a => negb (AngleType_eqb a angle)) (activeAngles l) in
      let exhausted := uniqueAngles [] (exhaustedAngles l ++ [angle]) in
      updateAngles id active exhausted
  end.

(** The statuses in the order in which [GROUP BY status] lists them. *)
Definition statusesByText : list LeadStatus :=
  [st_collected; st_cooldown; st_enriched; st_excluded; st_filtered; st_new;
   st_output; st_scored].

Definition countStatus (s : LeadStatus) (rows : list Row) : Z :=
  Z.of_nat (List.length (filter (fun r => LeadStatus_eqb (status_ r) s) rows)).

(** [SELECT status, COUNT( * ) as count FROM leads GROUP BY status] *)
Definition statusGroups (rows : list Row) : list (LeadStatus * Z) :=
  filter (fun g => 0 <? snd g) (map (fun s => (s, countStatus s rows)) statusesByText).

(** [getStats]: the object with the key [total] and one key per status
    that has rows. *)
Definition getStats : M (list (string * Z)) :=
  rows <- readLeads ;;
  let groups := statusGroups rows in
  let total := fold_left (fun acc g => acc + snd g) groups 0 in
  ret (("total", total) :: map (fun g => (LeadStatus_text (fst g), snd g)) groups).

(** [stats[key]] *)
Fixpoint statOf (key : string) (stats : list (string * Z)) : option Z :=
  match stats with
  | [] => None
  | (k, v) :: r => if String.eqb k key then Some v else statOf key r
  end.

(** [count]: with a status, the rows of that status; without, all rows. *)
Definition count (s : option LeadStatus) : M Z :=
  rows <- readLeads ;;
  match s with
  | Some st => ret (countStatus st rows)
  | None => ret (Z.of_nat (List.length rows))
  end.

(** The statements of the lead service that write to the table. *)
Inductive ServiceCall :=
| DoUpsert (lead : PartialLead)
| DoCreateFromRaw (raw : RawBusinessData) (source runId : string)
| DoUpdateStatus (id : string) (s : LeadStatus)
| DoExclude (id : string) (reason : ExclusionReason)
| DoSetCooldown (id : string) (until : Z)
| DoUpdateContactResult (id : string) (result : ContactResult)
| DoUpdateAngles (id : string) (active exhausted : list AngleType)
| DoExhaustAngle (id : string) (angle : AngleType)
| DoUpdateEnrichment (id : string) (data : EnrichmentData)
| DoAddEnrichmentFailure (id : string) (failure : EnrichmentFailure)
| DoUpdateScore (id : string) (sc : Z) (rs : list ScoreReason)
| DoMarkOutput (id : string).

Definition perform (c : ServiceCall) : M unit :=
  match c with
  | DoUpsert lead => upsert lead ;;; ret tt
  | DoCreateFromRaw raw source runId => createFromRaw raw source runId ;;; ret tt
  | DoUpdateStatus id s => updateStatus id s
  | DoExclude id reason => exclude id reason
  | DoSetCooldown id until => setCooldown id until
  | DoUpdateContactResult id result => updateContactResult id result
  | DoUpdateAngles id active exhausted => updateAngles id active exhausted
  | DoExhaustAngle id angle => exhaustAngle id angle
  | DoUpdateEnrichment id data => updateEnrichment id data
  | DoAddEnrichmentFailure id failure => addEnrichmentFailure id failure
  | DoUpdateScore id sc rs => updateScore id sc rs
  | DoMarkOutput id => markOutput id
  end.

(** The id a call inserts when the table does not hold it. *)
Definition insertedId (c : ServiceCall) : option string :=
  match c with
  | DoUpsert lead => Some (p_leadId lead)
  | DoCreateFromRaw raw _ _ => Some (rawLeadId raw)
  | _ => None
  end.

(** Every reading of the clock is at least the one before. *)
Definition monotoneClock (w : World) : Prop :=
  forall n m, (n <= m)%nat -> clock w n <= clock w m.

(** The four time columns of a row are in order and not after [now]. *)
Definition wellStamped (now : Z) (r : Row) : Prop :=
  first_seen_at r <= last_seen_at r
  /\ created_at r <= updated_at r
  /\ last_seen_at r <= updated_at r
  /\ updated_at r <= now.

(** The columns a call never writes, and the two it never moves back. *)
Definition keepsIdentity (r r' : Row) : Prop :=
  lead_id r' = lead_id r
  /\ first_seen_at r' = first_seen_at r
  /\ created_at r' = created_at r.

(** What a write does to the time columns of a row it matches: it stamps
    [updated_at], and [last_seen_at] is kept or stamped as well. *)
Definition touches (now : Z) (r r' : Row) : Prop :=
  keepsIdentity r r'
  /\ updated_at r' = now
  /\ (last_seen_at r' = last_seen_at r \/ last_seen_at r' = now).

Definition set_last_seen_at (v : Z) (r : Row) : Row := {|
  lead_id := lead_id r; business_name := business_name r;
  canonical_name := canonical_name r; address_ := address_ r;
  city_ := city_ r; state_ := state_ r; postal_code := postal_code r;
  country_ := country_ r; phone_ := phone_ r; email_ := email_ r;
  website_ := website_ r; first_seen_at := first_seen_at r;
  last_seen_at := v; last_contact_attempt := last_contact_attempt r;
  last_contact_result := last_contact_result r;
  excluded_reason := excluded_reason r; cooldown_until := cooldown_until r;
  active_angles := active_angles r; exhausted_angles := exhausted_angles r;
  source_metadata := source_metadata r; enrichment_data := enrichment_data r;
  enrichment_failures := enrichment_failures r; score_ := score_ r;
  score_reasons := score_reasons r; status_ := status_ r;
  last_output_at := last_output_at r; created_at := created_at r;
  updated_at := updated_at r |}.

(** What a call of the service may do to the table between two worlds: one
    [UPDATE ... WHERE lead_id = ?] that stamps the rows it matches with the
    clock reading, then at most one inserted row, stamped with the same
    reading, under an id the table did not hold. *)
Definition stampedWrite (inserted : option string) (w w' : World) : Prop :=
  let now := clock w (ticks w) in
  clock w' = clock w
  /\ (ticks w' = ticks w \/ ticks w' = S (ticks w))
  /\ exists (id : string) (g : Row -> Row) (extra : list Row),
       (forall r, touches now r (g r))
       /\ leads w' = (updateWhereId id g (leads w) ++ extra)%list
       /\ ((extra = []
            /\ forall id', inserted = Some id' -> selectById id' (leads w) <> None) \/
           exists r, extra = [r] /\ inserted = Some (lead_id r)
                     /\ selectById (lead_id r) (leads w) = None
                     /\ first_seen_at r = now /\ last_seen_at r = now
                     /\ created_at r = now /\ updated_at r = now).

(** Two rows that differ at most in [last_seen_at] and [updated_at]. *)
Definition sameButSeen (r r' : Row) : Prop :=
  exists seen updated, r' = set_updated_at updated (set_last_seen_at seen r).

(** The leads [processSignalChanges] checks when it reads the clock at
    [now]. *)
Definition signalCandidates (cfg : Config) (limit : Js.opt Z) (now : Z) (rows : list Row)
  : list Row :=
  limitRows (limitOr100 limit)
    (staleRows (now - refresh_checkIntervalHours cfg * 60 * 60 * 1000) rows).

(** What a turn of the filter loop leaves of a lead stored as [r0]: the
    row [r1] and the change of the counters. *)
Definition filterOutcome (decision : option ExclusionReason) (r0 r1 : Row)
    (before after : StageObj) : Prop :=
  processed after = processed before + 1
  /\ exists now,
       match decision with
       | Some why =>
           r1 = set_updated_at now
                  (set_status st_excluded (set_excluded_reason (Some why) r0))
           /\ failed after = failed before + 1 /\ passed after = passed before
       | None =>
           r1 = set_updated_at now (set_status st_filtered r0)
           /\ passed after = passed before + 1 /\ failed after = failed before
       end.

(* ================================================================== *)
(** ** Vocabulary for the turns of the stage loops *)

Definition set_email (v : option string) (r : Row) : Row := {|
  lead_id := lead_id r; business_name := business_name r;
  canonical_name := canonical_name r; address_ := address_ r;
  city_ := city_ r; state_ := state_ r; postal_code := postal_code r;
  country_ := country_ r; phone_ := phone_ r; email_ := v;
  website_ := website_ r; first_seen_at := first_seen_at r;
  last_seen_at := last_seen_at r;
  last_contact_attempt := last_contact_attempt r;
  last_contact_result := last_contact_result r;
  excluded_reason := excluded_reason r; cooldown_until := cooldown_until r;
  active_angles := active_angles r; exhausted_angles := exhausted_angles r;
  source_metadata := source_metadata r; enrichment_data := enrichment_data r;
  enrichment_failures := enrichment_failures r; score_ := score_ r;
  score_reasons := score_reasons r; status_ := status_ r;
  last_output_at := last_output_at r; created_at := created_at r;
  updated_at := updated_at r |}.

Definition set_phone (v : option string) (r : Row) : Row := {|
  lead_id := lead_id r; business_name := business_name r;
  canonical_name := canonical_name r; address_ := address_ r;
  city_ := city_ r; state_ := state_ r; postal_code := postal_code r;
  country_ := country_ r; phone_ := v; email_ := email_ r;
  website_ := website_ r; first_seen_at := first_seen_at r;
  last_seen_at := last_seen_at r;
  last_contact_attempt := last_contact_attempt r;
  last_contact_result := last_contact_result r;
  excluded_reason := excluded_reason r; cooldown_until := cooldown_until r;
  active_angles := active_angles r; exhausted_angles := exhausted_angles r;
  source_metadata := source_metadata r; enrichment_data := enrichment_data r;
  enrichment_failures := enrichment_failures r; score_ := score_ r;
  score_reasons := score_reasons r; status_ := status_ r;
  last_output_at := last_output_at r; created_at := created_at r;
  updated_at := updated_at r |}.

(** The row an output turn leaves of a row [r0], with the three clock
    readings of the turn. *)
Definition exportedRow (cfg : Config) (t0 t1 t2 : Z) (r0 : Row) : Row :=
  set_updated_at t2
    (set_status st_cooldown
       (set_cooldown_until (Some (t1 + cooldowns_defaultDays cfg * msPerDay))
          (set_updated_at t0 (set_last_output_at (Some t0) (set_status st_output r0))))).

(** No stage of the pipeline selects the row, at whatever time. *)
Definition outOfPipeline (r : Row) : Prop :=
  forall stage statuses now,
    statusMap stage = OwnEntry statuses -> stageEligible statuses now r = false.

(** Every row stored under [id] is at status cooldown. *)
Definition inCooldown (id : string) (w : World) : Prop :=
  forall r, In r (leads w) -> lead_id r = id -> status_ r = st_cooldown.

(** No call of [getLeadsForStage] in the world [w] returns the lead [id]. *)
Definition heldBack (id : string) (w : World) : Prop :=
  forall stage limit selected,
    fst (getLeadsForStage stage limit w) = Returned selected ->
    ~ In id (map leadId selected).

(** The enrichment data [enrichLead] starts from. *)
Definition startData (lead : Lead) : EnrichmentData :=
  match enrichmentData lead with
  | Js.Val e => e
  | _ => blankEnrichment
  end.

(** The address [enrichLead] scrapes for a lead with a site. *)
Definition siteOf (lead : Lead) : string := normalizeUrl (Js.orStr (website lead) "").

(** The enrichment data [enrichLead] stores. *)
Definition scrapedData (scrape : string -> Scrape) (lead : Lead) : EnrichmentData :=
  if Js.truthyStr (website lead) then
    match scrape (siteOf lead) with
    | Scraped site => mergeWebsiteData (startData lead) site
    | NotScraped _ => startData lead
    end
  else startData lead.

(** The failures [enrichLead] logs, when it reads the clock at [now]. *)
Definition scrapeFailures (scrape : string -> Scrape) (lead : Lead) (now : Z)
  : list EnrichmentFailure :=
  if Js.truthyStr (website lead) then
    match scrape (siteOf lead) with
    | NotScraped (Some (failureType, message)) =>
        [ {| ef_type := failureType; ef_source := siteOf lead;
             ef_timestamp := now; ef_message := message |} ]
    | _ => []
    end
  else [].

(** The contact column after enrichment: a stored non-empty value stays,
    otherwise the first value found takes its place. *)
Definition promoted (stored : option string) (found : list string) : option string :=
  if Js.truthyStr (Js.ofSql stored) then stored
  else match found with
       | first :: _ => Some first
       | [] => stored
       end.

(** A row [r0] with the columns that enrichment writes replaced. *)
Definition enrichedRow (r0 : Row) (em ph : option string) (d : option EnrichmentData)
    (fl : list EnrichmentFailure) (st : LeadStatus) (seen updated : Z) : Row :=
  set_updated_at updated
    (set_last_seen_at seen
       (set_status st
          (set_phone ph
             (set_email em (set_enrichment_data d (set_enrichment_failures fl r0)))))).

(** What [enrichLead] leaves in the row [r1] of a lead stored as [r0]. *)
Definition enrichOutcome (scrape : string -> Scrape) (now : Z) (r0 r1 : Row) : Prop :=
  let lead := rowToLead r0 in
  let data := scrapedData scrape lead in
  exists seen updated,
    r1 = enrichedRow r0
           (promoted (email_ r0) (emails data))
           (promoted (phone_ r0) (phones data))
           (Some data)
           (enrichment_failures r0 ++ scrapeFailures scrape lead now)
           st_enriched seen updated.

(** The table holds, under the id of [r0], the row [r0] with the columns
    of enrichment as given, whatever the two stamps. *)
Definition holdsEnriched (w : World) (r0 : Row) (em ph : option string)
    (d : option EnrichmentData) (fl : list EnrichmentFailure) (st : LeadStatus) : Prop :=
  exists seen updated,
    selectById (lead_id r0) (leads w) = Some (enrichedRow r0 em ph d fl st seen updated).

(** The loop of [CollectStage.execute] between two discoveries: the ids
    seen in this run are distinct, the ids of the table are distinct, and
    every id seen has a row at status collected. *)
Definition collectedSoFar (seenIds : list string) (w : World) : Prop :=
  NoDup seenIds
  /\ NoDup (map lead_id (leads w))
  /\ forall id, In id seenIds ->
       exists r, selectById id (leads w) = Some r /\ status_ r = st_collected.

(** The identities among a list of discoveries. *)
Definition identitiesOf (ds : list RawDiscovery) (ids : list string) : Prop :=
  NoDup ids
  /\ forall id, In id ids <-> exists d, In d ds /\ rawLeadId (rd_rawData d) = id.

(* ================================================================== *)
(** ** Vocabulary for whole runs *)

(** Records counted as processed and not yet as passed or failed. *)
Definition drift (t : StageObj) : Z := processed t - passed t - failed t.

(** A computation that moves the drift of the stage object by [d] and
    leaves its errors and its run alone. *)
Definition driftBy {A} (d : Z) (m : M A) : Prop :=
  forall w,
    drift (this (snd (m w))) = drift (this w) + d
    /\ errors (this (snd (m w))) = errors (this w)
    /\ run (this (snd (m w))) = run (this w).

(** The stages whose loop decides every lead it takes. *)
Definition decidesEveryLead (c : StageCall) : bool :=
  match c with
  | CallFilter _ _ | CallEnrich _ _ | CallScore _ | CallOutput _ _ => true
  | _ => false
  end.

(* ================================================================== *)
(** ** Utilities ([lib/utils.ts]) *)

(** The regular-expression class [\d]. *)
Definition isDigit (c : ascii) : bool := (48 <=? Js.code c) && (Js.code c <=? 57).

(** [normalizePhone] *)
Definition normalizePhone (phone : string) : string :=
  let digits := filter isDigit (list_ascii_of_string phone) in
  if Nat.eqb (List.length digits) 10 then
    string_of_list_ascii ("+"%char :: "1"%char :: digits)
  else if Nat.eqb (List.length digits) 11
          && Js.startsWith (list_ascii_of_string "1") digits then
    string_of_list_ascii ("+"%char :: digits)
  else phone.

(** [normalizeEmail] *)
Definition normalizeEmail (email : string) : string := Js.trim (Js.toLowerCase email).

(** [isLikelyContactPage] *)
Definition isLikelyContactPage (url : string) (patterns : list string) : bool :=
  let lower := Js.toLowerCase url in
  existsb (fun pattern => Js.includes lower (Js.toLowerCase pattern)) patterns.

(** What a call of the function handed to [retry] does: it returns a
    value or throws an error. *)
Inductive Attempt (T E : Type) : Type :=
| Succeeds (value : T)
| Fails (error : E).
Arguments Succeeds {T E} value.
Arguments Fails {T E} error.

(** How [retry] ends, with the number of calls it made and the delays it
    slept, in order. [lastError] starts as [null]. *)
Record Retried (T E : Type) : Type := {
  outcome : Attempt T (option E);
  calls : nat;
  delays : list Z
}.
Arguments outcome {T E} r.
Arguments calls {T E} r.
Arguments delays {T E} r.

(** The loop of [retry] from [attempt] on; [fn n] is what the [n]-th call
    does. [fuel] bounds the turns left, [maxRetries - attempt + 1] of them. *)
Fixpoint retryFrom {T E} (fuel : nat) (fn : nat -> Attempt T E) (maxRetries baseDelay : Z)
    (attempt : nat) (lastError : option E) (slept : list Z) : Retried T E :=
  match fuel with
  | O => {| outcome := Fails lastError; calls := attempt; delays := slept |}
  | S f =>
      match fn attempt with
      | Succeeds v => {| outcome := Succeeds v; calls := S attempt; delays := slept |}
      | Fails e =>
          let slept' :=
            if Z.of_nat attempt <? maxRetries
            then (slept ++ [baseDelay * 2 ^ Z.of_nat attempt])%list
            else slept in
          retryFrom f fn maxRetries baseDelay (S attempt) (Some e) slept'
      end
  end.

(** [retry] *)
Definition retry {T E} (fn : nat -> Attempt T E) (maxRetries baseDelay : Z) : Retried T E :=
  retryFrom (Z.to_nat (maxRetries + 1)) fn maxRetries baseDelay 0 None [].

(** The state of a [RateLimiter]. *)
Record RateLimiter := {
  maxRequests : Z;
  windowMs : Z;
  queue : list Z
}.

(** One pass through the body of [acquire] at the clock reading [now]:
    the request is granted, or the limiter sleeps and calls itself again.
    The wait is not a number when the queue is empty. *)
Inductive Acquire :=
| Granted (limiter : RateLimiter)
| Sleeps (waitTime : option Z) (limiter : RateLimiter).

Definition acquireOnce (now : Z) (l : RateLimiter) : Acquire :=
  let kept := filter (fun time => now - time <? windowMs l) (queue l) in
  if maxRequests l <=? Z.of_nat (List.length kept) then
    Sleeps (match kept with
            | oldestTime :: _ => Some (windowMs l - (now - oldestTime) + 100)
            | [] => None
            end)
           {| maxRequests := maxRequests l; windowMs := windowMs l; queue := kept |}
  else
    Granted {| maxRequests := maxRequests l; windowMs := windowMs l;
               queue := (kept ++ [now])%list |}.

(** [acquire]: [readings n] is what the [n]-th reading of the clock by
    this limiter shows; the result is the time of the grant and the
    limiter after it. [fuel] bounds the number of passes. *)
Fixpoint acquire (fuel : nat) (readings : nat -> Z) (n : nat) (l : RateLimiter)
  : option (Z * RateLimiter) :=
  match fuel with
  | O => None
  | S f =>
      match acquireOnce (readings n) l with
      | Granted l' => Some (readings n, l')
      | Sleeps _ l' => acquire f readings (S n) l'
      end
  end.

(** The sleep of a pass at reading [n] lasts at least the time asked. *)
Definition sleepsLongEnough (readings : nat -> Z) (n : nat) (l : RateLimiter) : Prop :=
  forall waitTime l',
    acquireOnce (readings n) l = Sleeps (Some waitTime) l' ->
    readings n + waitTime <= readings (S n).

(* ================================================================== *)
(** ** Vocabulary for canonical names *)

(** A text of ASCII characters only. On such a text the character
    classes and the case mapping of this embedding are those of
    JavaScript; beyond it they are not ([toLowerCase], [\s] and [trim]
    of JavaScript know more letters and more white space). *)
Definition asciiText (s : string) : bool :=
  forallb (fun c => Js.code c <? 128) (list_ascii_of_string s).

(** The characters of a canonical name: lower-case letters, digits, the
    underscore and the space. *)
Definition canonicalChar (c : ascii) : bool :=
  (Js.isWordChar c && negb (Js.isUpper c)) || Ascii.eqb c " "%char.

(** The words of a text: its maximal runs of word characters, in order
    (an empty run stands between two neighbouring separators). [cur] is
    the word being read, reversed. *)
Fixpoint wordsFrom (cur : list ascii) (l : list ascii) : list (list ascii) :=
  match l with
  | [] => [rev cur]
  | c :: r =>
      if Js.isWordChar c then wordsFrom (c :: cur) r
      else rev cur :: wordsFrom [] r
  end.

Definition wordsOf (s : string) : list (list ascii) :=
  wordsFrom [] (list_ascii_of_string s).

(* ================================================================== *)
(** ** The files of the output stage ([stages/output/index.ts]) *)

Definition quoteChar : ascii := "034"%char.
Definition newlineChar : ascii := "010"%char.
Definition commaChar : ascii := ","%char.

(** [str.includes(',') || str.includes(quote) || str.includes(newline)] *)
Definition needsQuotes (l : list ascii) : bool :=
  existsb (fun c => Ascii.eqb c commaChar || Ascii.eqb c quoteChar || Ascii.eqb c newlineChar) l.

(** [str.replace(/quote/g, quote quote)] *)
Definition doubleQuotes (l : list ascii) : list ascii :=
  flat_map (fun c => if Ascii.eqb c quoteChar then [quoteChar; quoteChar] else [c]) l.

(** [escapeCsvValue] on the text of a value. *)
Definition escapeCsvText (l : list ascii) : list ascii :=
  if needsQuotes l then (quoteChar :: doubleQuotes l ++ [quoteChar])%list else l.

(** The text of a value in a cell: nothing for [null] and [undefined]. *)
Definition cellText (rt : Runtime) (value : JsVal) : string :=
  match value with
  | JNull | JUndefined => ""
  | _ => rt_String rt value
  end.

(** [escapeCsvValue] *)
Definition escapeCsvValue (rt : Runtime) (value : JsVal) : string :=
  string_of_list_ascii (escapeCsvText (list_ascii_of_string (cellText rt value))).

(** The loop of [getFieldValue] over the parts of a path; [None] is the
    early return of the empty string. *)
Fixpoint walkOrEmpty (rt : Runtime) (v : JsVal) (parts : list string) : option JsVal :=
  match parts with
  | [] => Some v
  | part :: r =>
      match v with
      | JNull | JUndefined => None
      | _ => walkOrEmpty rt (member rt v part) r
      end
  end.

(** [Array.prototype.join] on values. *)
Definition joinValues (rt : Runtime) (sep : string) (items : list JsVal) : string :=
  Js.join sep (map (cellText rt) items).

(** [OutputStage.getFieldValue] *)
Definition OutputStage_getFieldValue (rt : Runtime) (lead : Lead) (fld : string) : JsVal :=
  if String.eqb fld "activeAngles" then
    JStr (Js.join ";" (map AngleType_text (activeAngles lead)))
  else if String.eqb fld "scoreReasons" then
    JStr (Js.join ";" (map (ScoreReason_text rt)
                         (match scoreReasons lead with Js.Val rs => rs | _ => [] end)))
  else
    match walkOrEmpty rt (Lead_js rt lead) (splitDots [] (list_ascii_of_string fld)) with
    | None => JStr ""
    | Some (JArr items) => JStr (joinValues rt ";" items)
    | Some JNull | Some JUndefined => JStr ""
    | Some v => v
    end.

(** The header of [writeCsv]: the configured fields, then the two optional
    columns when asked for and not yet there. *)
Definition csvHeaders (fields : list string) (includeAngles includeReasons : bool)
  : list string :=
  let headers :=
    if includeAngles && negb (existsb (String.eqb "activeAngles") fields)
    then (fields ++ ["activeAngles"])%list else fields in
  if includeReasons && negb (existsb (String.eqb "scoreReasons") headers)
  then (headers ++ ["scoreReasons"])%list else headers.

(** The text [writeCsv] writes; [fields], [includeAngles] and
    [includeReasons] are the settings of [config.output]. *)
Definition writeCsv (rt : Runtime) (fields : list string)
    (includeAngles includeReasons : bool) (leads : list Lead) : string :=
  let headers := csvHeaders fields includeAngles includeReasons in
  let rows :=
    Js.join "," headers
    :: map (fun lead =>
              Js.join "," (map (fun fld =>
                                  escapeCsvValue rt (OutputStage_getFieldValue rt lead fld))
                               headers))
           leads in
  Js.join (String newlineChar EmptyString) rows.

(** A reader of comma-separated text, for comparison with what is written:
    fields are separated by commas and records by line feeds; a field that
    starts with a quote runs to the next single quote, and a doubled quote
    inside it stands for one quote. *)
Inductive CsvState := CsvPlain | CsvQuoted | CsvAfterQuote.

(** [fld] is the field being read, reversed; [row] the fields of the
    record being read, reversed; [rows] the records read, reversed. *)
Fixpoint readCsv (st : CsvState) (fld : list ascii) (row : list string)
    (rows : list (list string)) (l : list ascii) : list (list string) :=
  let field := string_of_list_ascii (rev fld) in
  match l with
  | [] => rev (rev (field :: row) :: rows)
  | c :: r =>
      match st with
      | CsvQuoted =>
          if Ascii.eqb c quoteChar then readCsv CsvAfterQuote fld row rows r
          else readCsv CsvQuoted (c :: fld) row rows r
      | _ =>
          if Ascii.eqb c commaChar then readCsv CsvPlain [] (field :: row) rows r
          else if Ascii.eqb c newlineChar
          then readCsv CsvPlain [] [] (rev (field :: row) :: rows) r
          else if Ascii.eqb c quoteChar then
            match st, fld with
            | CsvAfterQuote, _ => readCsv CsvQuoted (c :: fld) row rows r
            | _, [] => readCsv CsvQuoted [] row rows r
            | _, _ => readCsv CsvPlain (c :: fld) row rows r
            end
          else readCsv CsvPlain (c :: fld) row rows r
      end
  end.

Definition parseCsv (text : string) : list (list string) :=
  readCsv CsvPlain [] [] [] (list_ascii_of_string text).

(** A text that [escapeCsvValue] leaves as it is. *)
Definition plainText (s : string) : bool := negb (needsQuotes (list_ascii_of_string s)).

(** [Array.prototype.join] on texts given as lists of characters. *)
Fixpoint joinChars (sep : list ascii) (l : list (list ascii)) : list ascii :=
  match l with
  | [] => []
  | [x] => x
  | x :: r => (x ++ sep ++ joinChars sep r)%list
  end.

(* ================================================================== *)
(** ** The table [runs] as rows ([state/run-service.ts]) *)

(** The world in which [runStage] calls [execute]: the run is inserted
    and held by the stage object. *)
Definition started (stageName newRunId : string) (w0 : World) : World :=
  snd (writeThis (setRun (Some newRunId))
         (snd (runService_start newRunId stageName w0))).

Inductive RunStatus := run_running | run_completed | run_failed | run_cancelled.

(** A row of [runs]; the column [metadata] is left out. *)
Record RunRow := {
  run_id : string;
  run_stage : string;
  started_at : Z;
  completed_at : option Z;
  run_status : RunStatus;
  leads_processed : Z;
  leads_passed : Z;
  leads_failed : Z;
  error_message : option string
}.

Definition updateRun (id : string) (f : RunRow -> RunRow) (tbl : list RunRow) : list RunRow :=
  map (fun r => if String.eqb (run_id r) id then f r else r) tbl.

(** What one statement of the run service does to the table. *)
Definition applyRunWrite (x : RunWrite) (tbl : list RunRow) : list RunRow :=
  match x with
  | RunStart id stage startedAt =>
      (tbl ++ [ {| run_id := id; run_stage := stage; started_at := startedAt;
                   completed_at := None; run_status := run_running;
                   leads_processed := 0; leads_passed := 0; leads_failed := 0;
                   error_message := None |} ])%list
  | RunProgress id p pa f =>
      updateRun id (fun r =>
        {| run_id := run_id r; run_stage := run_stage r; started_at := started_at r;
           completed_at := completed_at r; run_status := run_status r;
           leads_processed := p; leads_passed := pa; leads_failed := f;
           error_message := error_message r |}) tbl
  | RunComplete id now p pa f =>
      updateRun id (fun r =>
        {| run_id := run_id r; run_stage := run_stage r; started_at := started_at r;
           completed_at := Some now; run_status := run_completed;
           leads_processed := p; leads_passed := pa; leads_failed := f;
           error_message := error_message r |}) tbl
  | RunFail id now message p =>
      updateRun id (fun r =>
        {| run_id := run_id r; run_stage := run_stage r; started_at := started_at r;
           completed_at := Some now; run_status := run_failed;
           leads_processed := p; leads_passed := leads_passed r;
           leads_failed := leads_failed r; error_message := Some message |}) tbl
  end.

(** The table after the statements of a log, from a given table. *)
Definition replayRuns (tbl : list RunRow) (log : list RunWrite) : list RunRow :=
  fold_left (fun t x => applyRunWrite x t) log tbl.

Definition runsTable (log : list RunWrite) : list RunRow := replayRuns [] log.

(** [RunService.getById] and [RunService.getRunning] on the rows. *)
Definition runById (id : string) (tbl : list RunRow) : option RunRow :=
  find (fun r => String.eqb (run_id r) id) tbl.

Definition RunStatus_eqb (a b : RunStatus) : bool :=
  match a, b with
  | run_running, run_running | run_completed, run_completed
  | run_failed, run_failed | run_cancelled, run_cancelled => true
  | _, _ => false
  end.

Definition getRunning (tbl : list RunRow) : list RunRow :=
  filter (fun r => RunStatus_eqb (run_status r) run_running) tbl.

(* ================================================================== *)
(** ** The staging table ([state/raw-discovery-service.ts]) *)

(** A row of [raw_discoveries]. The column [raw_data] holds the JSON text
    of the record; the row keeps the record that text encodes, which is
    the record written: its fields are texts and finite numbers, and a
    field left out is read back as missing. *)
Record StagedRow := {
  stg_id : Z;
  stg_run_id : string;
  stg_source : string;
  stg_raw_data : RawBusinessData;
  stg_discovered_at : Z;
  stg_processed : bool
}.

(** The table [raw_discoveries] in rowid order, with the next value of its
    [AUTOINCREMENT] key. *)
Record Staging := {
  staged : list StagedRow;
  nextId : Z
}.

(** [rowToRawDiscovery] *)
Definition rowToRawDiscovery (r : StagedRow) : RawDiscovery := {|
  rd_id := stg_id r; rd_runId := stg_run_id r; rd_source := stg_source r;
  rd_rawData := stg_raw_data r; rd_discoveredAt := stg_discovered_at r;
  rd_processed := stg_processed r |}.

(** The rows one [addBulk] inserts, from the key [id] on. *)
Fixpoint stagedFrom (id now : Z) (runId source : string) (records : list RawBusinessData)
  : list StagedRow :=
  match records with
  | [] => []
  | item :: r =>
      {| stg_id := id; stg_run_id := runId; stg_source := source; stg_raw_data := item;
         stg_discovered_at := now; stg_processed := false |}
      :: stagedFrom (id + 1) now runId source r
  end.

(** [RawDiscoveryService.addBulk], with the clock reading it takes. *)
Definition stagingAddBulk (now : Z) (runId source : string)
    (records : list RawBusinessData) (s : Staging) : Z * Staging :=
  (Z.of_nat (List.length records),
   {| staged := (staged s ++ stagedFrom (nextId s) now runId source records)%list;
      nextId := nextId s + Z.of_nat (List.length records) |}).

(** [WHERE processed = 0], with [AND run_id = ?] when a run is given. *)
Definition awaiting (runId : Js.opt string) (r : StagedRow) : bool :=
  negb (stg_processed r)
  && (if Js.truthyStr runId then String.eqb (stg_run_id r) (Js.orStr runId "") else true).

(** [ORDER BY discovered_at ASC]; rows of equal time stay in rowid order. *)
Fixpoint insertByTime (r : StagedRow) (l : list StagedRow) : list StagedRow :=
  match l with
  | [] => [r]
  | x :: l' =>
      if stg_discovered_at r <=? stg_discovered_at x then r :: l
      else x :: insertByTime r l'
  end.

Definition sortByTime (l : list StagedRow) : list StagedRow :=
  fold_right insertByTime [] l.

(** [RawDiscoveryService.getUnprocessed] *)
Definition getUnprocessed (runId : Js.opt string) (limit : Js.opt Z) (s : Staging)
  : list RawDiscovery :=
  map rowToRawDiscovery
    (applyLimit limit (sortByTime (filter (awaiting runId) (staged s)))).

Definition setProcessedFlag (r : StagedRow) : StagedRow := {|
  stg_id := stg_id r; stg_run_id := stg_run_id r; stg_source := stg_source r;
  stg_raw_data := stg_raw_data r; stg_discovered_at := stg_discovered_at r;
  stg_processed := true |}.

(** [RawDiscoveryService.markProcessedBulk] *)
Definition markProcessedBulk (ids : list Z) (s : Staging) : Staging :=
  {| staged := fold_left (fun rows id =>
                            map (fun r => if stg_id r =? id then setProcessedFlag r else r)
                                rows)
                         ids (staged s);
     nextId := nextId s |}.

(** [RawDiscoveryService.countUnprocessed] *)
Definition countUnprocessed (runId : Js.opt string) (s : Staging) : Z :=
  Z.of_nat (List.length (filter (awaiting runId) (staged s))).

(** Discoveries in the order of their time, oldest first. *)
Fixpoint oldestFirst (l : list RawDiscovery) : Prop :=
  match l with
  | [] => True
  | d :: r => Forall (fun d' => rd_discoveredAt d <= rd_discoveredAt d') r /\ oldestFirst r
  end.

(* ================================================================== *)
(** ** Vocabulary for the sweep of expired cooldowns *)

(** The row [r'] is [r] released from its cooldown as the sweep does it:
    no cooldown, status enriched, the angle lists emptied when the
    configuration asks for it, and new stamps. *)
Definition releasedRow (cfg : Config) (r r' : Row) : Prop :=
  exists seen updated,
    r' = set_updated_at updated
           (set_last_seen_at seen
              (set_status st_enriched
                 (set_cooldown_until None
                    (if refresh_resetExhaustedAngles cfg
                     then set_exhausted_angles [] (set_active_angles [] r)
                     else r)))).

(** Rows in the order of their cooldown times, earliest first. *)
Fixpoint byCooldown (l : list Row) : Prop :=
  match l with
  | [] => True
  | r :: rest => Forall (fun r' => cooldownLe r r' = true) rest /\ byCooldown rest
  end.

(** What a sweep leaves of a row, given the ids it took. *)
Definition sweptRow (cfg : Config) (taken : list string) (r r' : Row) : Prop :=
  if existsb (String.eqb (lead_id r)) taken then releasedRow cfg r r' else r' = r.

(* ================================================================== *)
(** ** Sample inputs *)

(** An [execute] that throws at once, as the output stage does when its
    directory cannot be made. *)
Definition failingExecute : M (Completion unit) :=
  ret (Thrown "EACCES: permission denied, mkdir").

(** Three enriched leads whose cooldowns ran out, the first stored with
    the latest time: a sweep with a limit of two takes the other two. *)
Definition cooledAt (until : Z) (id name : string) : Row :=
  set_enrichment_data (Some blankEnrichment)
    (set_cooldown_until (Some until) (sampleRow id name st_cooldown)).

Definition sweepRows : list Row :=
  [ cooledAt 1650000003000 "a1" "Acme";
    cooledAt 1650000001000 "b2" "Best";
    cooledAt 1650000002000 "c3" "Core" ].


(* ================================================================== *)
(** ** Leads past enrichment, and the data they hold *)

Definition advancedStatus (s : LeadStatus) : bool :=
  match s with
  | st_enriched | st_scored | st_output | st_cooldown => true
  | _ => false
  end.

(** The row is at status enriched or beyond, or holds a cooldown. *)
Definition pastEnrich (r : Row) : Prop :=
  advancedStatus (status_ r) = true \/ cooldown_until r <> None.

(** The table holds the id. *)
Definition stored (id : string) (rows : list Row) : Prop := In id (map lead_id rows).

(** The table holds the id, and every row under it holds enrichment data. *)
Definition dataUnder (id : string) (rows : list Row) : Prop :=
  stored id rows
  /\ forall r, In r rows -> lead_id r = id -> enrichment_data r <> None.

(** Every lead past enrichment holds enrichment data. *)
Definition dataBacked (rows : list Row) : Prop :=
  forall r, In r rows -> pastEnrich r -> dataUnder (lead_id r) rows.

(** A computation that takes a table with [P] to a table with [Q], and
    one that keeps a property of the table. *)
Definition movesRows (P Q : list Row -> Prop) {A} (m : M A) : Prop :=
  forall w, P (leads w) -> Q (leads (snd (m w))).

Definition keepsRows (P : list Row -> Prop) {A} (m : M A) : Prop := movesRows P P m.

(** A literal handed to [upsert] that names no enrichment data, no status
    but new and no cooldown but [undefined]. *)
Definition touchOnly (p : PartialLead) : Prop :=
  p_enrichmentData p = Absent
  /\ (p_status p = Absent \/ p_status p = Present st_new)
  /\ (p_cooldownUntil p = Absent \/ p_cooldownUntil p = Present Js.Undefined).

(** The stage object of a new run. *)
Definition withNewStage (w : World) : World :=
  {| leads := leads w; runLog := runLog w; this := newStage;
     ticks := ticks w; clock := clock w |}.

(** Stage runs one after the other, each on a stage object of its own. *)
Fixpoint runCalls (cfg : Config) (calls : list (StageCall * string)) (w : World) : World :=
  match calls with
  | [] => w
  | (c, newRunId) :: rest =>
      runCalls cfg rest (snd (runCall cfg c newRunId (withNewStage w)))
  end.

(** The re-entry status in the words of the specification: enriched for a
    lead with non-empty enrichment data or an assigned score, collected
    otherwise. *)
Definition hasEnrichment (r : Row) : bool :=
  match enrichment_data r with
  | Some e => (0 <? enrichmentKeys e)%nat
  | None => false
  end.

Definition hasScore (r : Row) : bool :=
  match score_ r with
  | Some _ => true
  | None => false
  end.

Definition specReentryStatus (r : Row) : LeadStatus :=
  if hasEnrichment r || hasScore r then st_enriched else st_collected.

(** What the specification asks of a swept row, given the ids the sweep
    took: the cooldown cleared and the status of [specReentryStatus]. *)
Definition resumedRow (taken : list string) (r r' : Row) : Prop :=
  if existsb (String.eqb (lead_id r)) taken
  then lead_id r' = lead_id r /\ cooldown_until r' = None
       /\ status_ r' = specReentryStatus r
  else r' = r.

(** A lead in cooldown, its time run out, with the data of an enrich run. *)
Definition cooledEnrichedRow : Row :=
  set_enrichment_data (Some blankEnrichment) cooledRow.

(* ================================================================== *)
(** * Properties *)

(** ** Identity *)

Lemma hexDigit_isHex (x : Z) : isHexChar (Sha256.hexDigit x) = true.
Proof.
  unfold Sha256.hexDigit.
  assert (H : 0 <= Z.land x 15 < 16).
  { change 15 with (Z.ones 4). rewrite Z.land_ones by lia.
    apply Z.mod_pos_bound. reflexivity. }
  remember (Z.land x 15) as d eqn:E. clear E.
  assert (C : d = 0 \/ d = 1 \/ d = 2 \/ d = 3 \/ d = 4 \/ d = 5 \/ d = 6 \/ d = 7 \/
              d = 8 \/ d = 9 \/ d = 10 \/ d = 11 \/ d = 12 \/ d = 13 \/ d = 14 \/ d = 15)
    by lia.
  repeat (destruct C as [-> | C]; [reflexivity |]). subst d. reflexivity.
Qed.

Lemma leadId_shape (s : Sha256.state) :
  let id := Js.substring0 16 (Sha256.hexOfState s) in
  String.length id = 16%nat /\ forallb isHexChar (list_ascii_of_string id) = true.
Proof.
  destruct s as [a b c d e f g h].
  unfold Sha256.hexOfState, Sha256.hex8. cbn [Sha256.ha Sha256.hb Js.substring0].
  split; [reflexivity |].
  cbn [list_ascii_of_string forallb].
  rewrite !hexDigit_isHex. reflexivity.
Qed.

(** C1. Two inputs whose canonicalized name, city, state and country agree
    (lower-cased and trimmed, a missing city or state read as the empty
    text and a missing country as "us") get the same lead id; the id is the
    first 16 characters of the hexadecimal SHA-256 digest of the four
    components joined by "|", so it is 16 hexadecimal characters long. *)
Theorem generateLeadId_deterministic
    (n1 n2 : string) (c1 s1 k1 c2 s2 k2 : Js.opt string)
    (Hname : Js.trim (Js.toLowerCase n1) = Js.trim (Js.toLowerCase n2))
    (Hcity : canonicalComponent "" c1 = canonicalComponent "" c2)
    (Hstate : canonicalComponent "" s1 = canonicalComponent "" s2)
    (Hcountry : canonicalComponent "us" k1 = canonicalComponent "us" k2) :
  generateLeadId n1 c1 s1 k1 = generateLeadId n2 c2 s2 k2
  /\ generateLeadId n1 c1 s1 k1 =
       Js.substring0 16
         (Sha256.hexdigest
            (Js.join "|"
               [ Js.trim (Js.toLowerCase n1); canonicalComponent "" c1;
                 canonicalComponent "" s1; canonicalComponent "us" k1 ]))
  /\ String.length (generateLeadId n1 c1 s1 k1) = 16%nat
  /\ forallb isHexChar (list_ascii_of_string (generateLeadId n1 c1 s1 k1)) = true.
Proof.
  unfold canonicalComponent in *.
  split.
  - unfold generateLeadId. rewrite Hname, Hcity, Hstate, Hcountry. reflexivity.
  - split; [reflexivity |].
    unfold generateLeadId, Sha256.hexdigest. apply leadId_shape.
Qed.

Lemma generateLeadId_deterministic_witness :
  generateLeadId "  Pro Plumbing " (Js.Val "Austin") (Js.Val " TX") Js.Undefined
  = generateLeadId "pro plumbing" (Js.Val "austin ") (Js.Val "tx") (Js.Val "US")
  /\ generateLeadId "  Pro Plumbing " (Js.Val "Austin") (Js.Val " TX") Js.Undefined
     = "28fd117c28341a7e".
Proof.
  split.
  - apply (generateLeadId_deterministic
             "  Pro Plumbing " "pro plumbing"
             (Js.Val "Austin") (Js.Val " TX") Js.Undefined
             (Js.Val "austin ") (Js.Val "tx") (Js.Val "US")); reflexivity.
  - vm_compute. reflexivity.
Defined.

(** ** The store: updates by id *)

Section UpdateById.

Variable id : string.
Variable f : Row -> Row.
Hypothesis f_keeps_id : forall r, lead_id (f r) = lead_id r.

Lemma updateWhereId_ids (rows : list Row) :
  map lead_id (updateWhereId id f rows) = map lead_id rows.
Proof.
  unfold updateWhereId. rewrite map_map. apply map_ext.
  intro r. destruct (String.eqb (lead_id r) id); [apply f_keeps_id | reflexivity].
Qed.

Lemma updateWhereId_length (rows : list Row) :
  List.length (updateWhereId id f rows) = List.length rows.
Proof. unfold updateWhereId. apply length_map. Qed.

Lemma selectById_updated (rows : list Row) :
  selectById id (updateWhereId id f rows) = option_map f (selectById id rows).
Proof.
  unfold selectById, updateWhereId.
  induction rows as [| r rows IH]; [reflexivity |].
  cbn [map find]. destruct (String.eqb (lead_id r) id) eqn:E.
  - rewrite f_keeps_id, E. reflexivity.
  - rewrite E. exact IH.
Qed.

Lemma selectById_other (other : string) (rows : list Row) :
  other <> id ->
  selectById other (updateWhereId id f rows) = selectById other rows.
Proof.
  intro Hne. unfold selectById, updateWhereId.
  induction rows as [| r rows IH]; [reflexivity |].
  cbn [map find]. destruct (String.eqb (lead_id r) id) eqn:E.
  - rewrite f_keeps_id. apply String.eqb_eq in E.
    destruct (String.eqb (lead_id r) other) eqn:E'.
    + apply String.eqb_eq in E'. congruence.
    + exact IH.
  - destruct (String.eqb (lead_id r) other); [reflexivity | exact IH].
Qed.

Lemma updateWhereId_nth (rows : list Row) (i : nat) (r : Row) :
  nth_error rows i = Some r ->
  nth_error (updateWhereId id f rows) i =
    Some (if String.eqb (lead_id r) id then f r else r).
Proof.
  intro H. unfold updateWhereId. rewrite nth_error_map, H. reflexivity.
Qed.

End UpdateById.

Lemma selectById_some_id (id : string) (rows : list Row) (r : Row) :
  selectById id rows = Some r -> lead_id r = id /\ In r rows.
Proof.
  unfold selectById. intro H. apply find_some in H. destruct H as [Hin He].
  apply String.eqb_eq in He. auto.
Qed.

Lemma selectById_none (id : string) (rows : list Row) :
  selectById id rows = None -> ~ In id (map lead_id rows).
Proof.
  unfold selectById. intros H Hin. apply in_map_iff in Hin.
  destruct Hin as [r [He Hr]].
  pose proof (find_none _ _ H r Hr) as Hn. cbn in Hn.
  rewrite He, String.eqb_refl in Hn. discriminate.
Qed.

Lemma selectById_app_new (id : string) (rows : list Row) (r : Row) :
  selectById id rows = None -> lead_id r = id ->
  selectById id (rows ++ [r]) = Some r.
Proof.
  unfold selectById. intros Hn He.
  induction rows as [| x rows IH]; cbn [app find] in *.
  - rewrite He, String.eqb_refl. reflexivity.
  - destruct (String.eqb (lead_id x) id); [discriminate | auto].
Qed.

Lemma countId_ids (id : string) (rows rows' : list Row) :
  map lead_id rows = map lead_id rows' -> countId id rows = countId id rows'.
Proof.
  unfold countId. revert rows'.
  induction rows as [| r rows IH]; intros [| r' rows'] H; try discriminate; [reflexivity |].
  cbn [map] in H. injection H as Hr Hrest. cbn [filter]. rewrite Hr.
  destruct (String.eqb (lead_id r') id); cbn [List.length]; rewrite (IH _ Hrest); reflexivity.
Qed.

Lemma countId_absent (id : string) (rows : list Row) :
  ~ In id (map lead_id rows) -> countId id rows = 0%nat.
Proof.
  unfold countId. induction rows as [| r rows IH]; intro H; [reflexivity |].
  cbn [filter]. destruct (String.eqb (lead_id r) id) eqn:E.
  - exfalso. apply H. left. apply String.eqb_eq. exact E.
  - apply IH. intro Hin. apply H. right. exact Hin.
Qed.

Lemma countId_app (id : string) (a b : list Row) :
  countId id (a ++ b) = (countId id a + countId id b)%nat.
Proof. unfold countId. rewrite filter_app, length_app. reflexivity. Qed.

Lemma countId_present_unique (id : string) (rows : list Row) (r : Row) :
  NoDup (map lead_id rows) -> selectById id rows = Some r -> countId id rows = 1%nat.
Proof.
  unfold selectById, countId.
  induction rows as [| x rows IH]; intros Hnd H; [discriminate |].
  cbn [map] in Hnd. inversion Hnd as [| ? ? Hnotin Hnd']; subst.
  cbn [find filter] in *. destruct (String.eqb (lead_id x) id) eqn:E.
  - apply String.eqb_eq in E. rewrite E in Hnotin.
    cbn [List.length]. f_equal. apply (countId_absent id rows Hnotin).
  - apply IH; assumption.
Qed.

Lemma upsertAssign_keeps_id (u : Lead) (r : Row) : lead_id (upsertAssign u r) = lead_id r.
Proof. reflexivity. Qed.

(** What [upsert] leaves in the table. *)
Lemma upsert_leads (lead : PartialLead) (w : World) :
  leads (snd (upsert lead w)) =
    match selectById (p_leadId lead) (leads w) with
    | Some r0 =>
        updateWhereId (p_leadId lead)
          (upsertAssign (mergeLead (rowToLead r0) lead (clock w (ticks w)))) (leads w)
    | None => (leads w ++ [insertRow (newLeadOf lead (clock w (ticks w)))])%list
    end.
Proof.
  unfold upsert, bind, dateNow, getById, readLeads, ret, writeLeads, selectById. cbn.
  destruct (find _ (leads w)); reflexivity.
Qed.

Lemma upsert_ticks (lead : PartialLead) (w : World) :
  ticks (snd (upsert lead w)) = S (ticks w) /\ clock (snd (upsert lead w)) = clock w
  /\ this (snd (upsert lead w)) = this w /\ runLog (snd (upsert lead w)) = runLog w.
Proof.
  unfold upsert, bind, dateNow, getById, readLeads, ret, writeLeads, selectById. cbn.
  destruct (find _ (leads w)); cbn; auto.
Qed.

Lemma createFromRaw_upsert (raw : RawBusinessData) (source runId : string) :
  createFromRaw raw source runId = upsert (partialOfRaw raw source runId).
Proof. reflexivity. Qed.

Lemma bind_run {A B} (m : M A) (k : A -> M B) (w : World) :
  bind m k w = k (fst (m w)) (snd (m w)).
Proof. unfold bind. destruct (m w). reflexivity. Qed.

(** What one fresh turn of the collect loop leaves in the table. *)
Lemma collectTurn_leads (runId : string) (d : RawDiscovery) (w : World) :
  let raw := rd_rawData d in
  let p := partialOfRaw raw (rd_source d) runId in
  let w' := snd (collectTurn runId [] d w) in
  leads w' =
    updateWhereId (p_leadId p) (markCollected (clock w (S (ticks w))))
      (upserted p (clock w (ticks w)) (leads w))
  /\ ticks w' = S (S (ticks w)) /\ clock w' = clock w.
Proof.
  cbv zeta. unfold collectTurn. cbn [existsb].
  rewrite createFromRaw_upsert.
  set (p := partialOfRaw (rd_rawData d) (rd_source d) runId).
  unfold incProcessed, incPassed, updateStatus. rewrite !bind_run.
  set (w1 := snd (writeThis (fun t => setProcessed (processed t + 1) t) w)).
  pose proof (upsert_leads p w1) as HL.
  destruct (upsert_ticks p w1) as [HT [HC _]].
  set (w2 := snd (upsert p w1)) in *.
  cbn [ret writeThis writeLeads dateNow fst snd leads ticks clock].
  rewrite HL, HT, HC. unfold upserted. auto.
Qed.

Lemma upserted_ids_nodup (lead : PartialLead) (now : Z) (rows : list Row) :
  NoDup (map lead_id rows) -> NoDup (map lead_id (upserted lead now rows)).
Proof.
  intro Hnd. unfold upserted.
  destruct (selectById (p_leadId lead) rows) eqn:E.
  - rewrite updateWhereId_ids by (intro; reflexivity). exact Hnd.
  - rewrite map_app. cbn [map]. apply NoDup_app.
    + exact Hnd.
    + repeat constructor. intros [].
    + intros x Hx [Hx' | []]. subst x.
      apply (selectById_none _ _ E). exact Hx.
Qed.

Lemma upserted_select (lead : PartialLead) (now : Z) (rows : list Row) :
  exists r, selectById (p_leadId lead) (upserted lead now rows) = Some r.
Proof.
  unfold upserted. destruct (selectById (p_leadId lead) rows) eqn:E.
  - rewrite selectById_updated by (intro; reflexivity). rewrite E. eexists. reflexivity.
  - eexists. apply selectById_app_new; [exact E | reflexivity].
Qed.

Lemma markCollected_keeps_id (now : Z) (r : Row) : lead_id (markCollected now r) = lead_id r.
Proof. reflexivity. Qed.

(** ** Upsert of an existing lead *)

(** C3. [upsert] with an id the table already holds adds no row: the
    table keeps its length and its ids; every row of that id keeps
    [first_seen_at] and [created_at] and gets the current time as
    [last_seen_at] and [updated_at]; the other rows are untouched. Hence
    after collecting a raw record and then collecting it again, the table
    holds exactly one row for it, with the first-seen and created times of
    the first collection. *)
Theorem upsert_existing_is_idempotent :
  (forall (w : World) (lead : PartialLead) (r0 : Row),
      selectById (p_leadId lead) (leads w) = Some r0 ->
      let now := clock w (ticks w) in
      let w' := snd (upsert lead w) in
      List.length (leads w') = List.length (leads w)
      /\ map lead_id (leads w') = map lead_id (leads w)
      /\ (forall i r, nth_error (leads w) i = Some r ->
            exists r', nth_error (leads w') i = Some r' /\
              if String.eqb (lead_id r) (p_leadId lead)
              then first_seen_at r' = first_seen_at r /\ created_at r' = created_at r
                   /\ last_seen_at r' = now /\ updated_at r' = now
              else r' = r))
  /\ (forall (w : World) (runA runB : string) (d1 d2 : RawDiscovery),
        NoDup (map lead_id (leads w)) ->
        rd_rawData d2 = rd_rawData d1 ->
        let raw := rd_rawData d1 in
        let id := generateLeadId (canonicalizeName (raw_name raw))
                    (raw_city raw) (raw_state raw) (raw_country raw) in
        let w1 := snd (collectTurn runA [] d1 w) in
        let w2 := snd (collectTurn runB [] d2 w1) in
        countId id (leads w2) = 1%nat
        /\ List.length (leads w2) = List.length (leads w1)
        /\ exists r1 r2,
             selectById id (leads w1) = Some r1 /\ selectById id (leads w2) = Some r2
             /\ first_seen_at r2 = first_seen_at r1 /\ created_at r2 = created_at r1
             /\ last_seen_at r2 = clock w1 (ticks w1)).
Proof.
  split.
  - intros w lead r0 Hex now w'. subst w'. rewrite upsert_leads, Hex.
    split; [apply updateWhereId_length |].
    split; [apply updateWhereId_ids; intro; reflexivity |].
    intros i r Hi. eexists. split.
    + apply updateWhereId_nth. exact Hi.
    + destruct (String.eqb (lead_id r) (p_leadId lead)); cbn; auto.
  - intros w runA runB d1 d2 Hnd Hraw raw id w1 w2.
    destruct (collectTurn_leads runA d1 w) as [L1 [T1 C1]].
    destruct (collectTurn_leads runB d2 w1) as [L2 [T2 C2]].
    fold w1 in L1, T1, C1. fold w2 in L2, T2, C2.
    rewrite Hraw in L2. fold raw in L1, L2.
    set (p1 := partialOfRaw raw (rd_source d1) runA) in *.
    set (p2 := partialOfRaw raw (rd_source d2) runB) in *.
    change (p_leadId p1) with id in L1. change (p_leadId p2) with id in L2.
    assert (Hnd1 : NoDup (map lead_id (leads w1))).
    { rewrite L1, updateWhereId_ids by apply markCollected_keeps_id.
      apply upserted_ids_nodup. exact Hnd. }
    assert (Hr1 : exists r1, selectById id (leads w1) = Some r1).
    { rewrite L1, selectById_updated by apply markCollected_keeps_id.
      destruct (upserted_select p1 (clock w (ticks w)) (leads w)) as [r Hr].
      change (p_leadId p1) with id in Hr. rewrite Hr. eexists. reflexivity. }
    destruct Hr1 as [r1 Hr1].
    assert (U2 : upserted p2 (clock w1 (ticks w1)) (leads w1) =
                 updateWhereId id
                   (upsertAssign (mergeLead (rowToLead r1) p2 (clock w1 (ticks w1))))
                   (leads w1)).
    { unfold upserted. change (p_leadId p2) with id. rewrite Hr1. reflexivity. }
    rewrite U2 in L2.
    split.
    { rewrite (countId_ids id _ (leads w1)).
      - apply (countId_present_unique id _ r1 Hnd1 Hr1).
      - rewrite L2, !updateWhereId_ids; [reflexivity | intro; reflexivity
                                         | apply markCollected_keeps_id]. }
    split.
    { rewrite L2, !updateWhereId_length. reflexivity. }
    exists r1. eexists. split; [exact Hr1 |].
    rewrite L2.
    rewrite selectById_updated by apply markCollected_keeps_id.
    rewrite selectById_updated by (intro; reflexivity).
    rewrite Hr1. cbn [option_map].
    split; [reflexivity |]. cbn. auto.
Qed.

Lemma upsert_existing_is_idempotent_witness :
  List.length
    (leads (snd (upsert (onlyId "a1")
       (sampleWorld [sampleRow "a1" "Acme" st_scored; sampleRow "b2" "Best" st_new]))))
  = 2%nat
  /\ countId (rawLeadId sampleRaw)
       (leads (snd (collectTurn "run_b" [] (sampleDiscovery 2)
                 (snd (collectTurn "run_a" [] (sampleDiscovery 1) (sampleWorld []))))))
     = 1%nat.
Proof.
  destruct upsert_existing_is_idempotent as [H1 H2]. split.
  - destruct (H1 (sampleWorld [sampleRow "a1" "Acme" st_scored; sampleRow "b2" "Best" st_new])
                 (onlyId "a1") (sampleRow "a1" "Acme" st_scored) eq_refl) as [HL _].
    exact HL.
  - destruct (H2 (sampleWorld []) "run_a" "run_b" (sampleDiscovery 1) (sampleDiscovery 2)
                 (NoDup_nil _) eq_refl) as [Hc _].
    exact Hc.
Defined.

(** ** Keys that are present but undefined *)

Lemma upsert_selected (lead : PartialLead) (w : World) (r0 : Row) :
  selectById (p_leadId lead) (leads w) = Some r0 ->
  selectById (p_leadId lead) (leads (snd (upsert lead w))) =
    Some (upsertAssign (mergeLead (rowToLead r0) lead (clock w (ticks w))) r0).
Proof.
  intro H. rewrite upsert_leads, H.
  rewrite selectById_updated by (intro; reflexivity). rewrite H. reflexivity.
Qed.

Lemma toSql_ofSql {A} (o : option A) : Js.toSql (Js.ofSql o) = o.
Proof. destruct o; reflexivity. Qed.

(** The store operations on the selected row, one lemma per statement. *)
Lemma updateStatus_selected (id : string) (s : LeadStatus) (w : World) :
  selectById id (leads (snd (updateStatus id s w))) =
    option_map (fun r => set_updated_at (clock w (ticks w)) (set_status s r))
               (selectById id (leads w)).
Proof.
  unfold updateStatus, bind, dateNow, writeLeads. cbn.
  apply selectById_updated. intro; reflexivity.
Qed.

Lemma updateEnrichment_selected (id : string) (d : EnrichmentData) (w : World) :
  selectById id (leads (snd (updateEnrichment id d w))) =
    option_map (fun r => set_updated_at (clock w (ticks w)) (set_enrichment_data (Some d) r))
               (selectById id (leads w)).
Proof.
  unfold updateEnrichment, bind, dateNow, writeLeads. cbn.
  apply selectById_updated. intro; reflexivity.
Qed.

(** What [enrichLead] does to the e-mail column of a lead that has a site
    but no e-mail and no stored enrichment data, when the scrape finds
    addresses. *)
Lemma enrichLead_promotes_email (scrape : string -> Scrape) (w : World) (r0 : Row)
    (site : string) (wd : WebsiteData) (e : string) (rest : list string) :
  selectById (lead_id r0) (leads w) = Some r0 ->
  email_ r0 = None -> enrichment_data r0 = None ->
  website_ r0 = Some site -> site <> "" ->
  scrape (normalizeUrl site) = Scraped wd ->
  wd_emails wd = e :: rest ->
  exists r1,
    selectById (lead_id r0) (leads (snd (enrichLead scrape (rowToLead r0) w))) = Some r1
    /\ email_ r1 = Some e.
Proof.
  intros Hsel Hem Hen Hweb Hsite Hscr Hwd.
  assert (Hne : String.eqb site "" = false).
  { destruct (String.eqb site "") eqn:E; [|reflexivity].
    apply String.eqb_eq in E. contradiction. }
  unfold enrichLead.
  assert (Htruthy : Js.truthyStr (website (rowToLead r0)) = true)
    by (cbn; rewrite Hweb; cbn; rewrite Hne; reflexivity).
  assert (Hor : Js.orStr (website (rowToLead r0)) "" = site)
    by (cbn; rewrite Hweb; cbn; rewrite Hne; reflexivity).
  assert (Hstart : enrichmentData (rowToLead r0) = Js.Undefined)
    by (cbn; rewrite Hen; reflexivity).
  assert (Hemail : Js.truthyStr (email (rowToLead r0)) = false)
    by (cbn; rewrite Hem; reflexivity).
  rewrite Htruthy, Hor, Hscr, Hstart, Hemail.
  change (leadId (rowToLead r0)) with (lead_id r0).
  set (data := mergeWebsiteData blankEnrichment wd).
  assert (Hdata : emails data = e :: dedupe [e] rest)
    by (subst data; cbn; rewrite Hwd; reflexivity).
  rewrite bind_run. cbn [ret fst snd].
  rewrite Hdata.
  rewrite !bind_run. cbn [ret fst snd].
  rewrite updateStatus_selected.
  set (w1 := snd (updateEnrichment (lead_id r0) data w)).
  assert (S1 : exists r, selectById (lead_id r0) (leads w1) = Some r /\ email_ r = None).
  { subst w1. rewrite updateEnrichment_selected, Hsel. cbn [option_map].
    eexists. split; [reflexivity | exact Hem]. }
  destruct S1 as [ra [S1 _]].
  set (w2 := snd (upsert (idWithEmail (lead_id r0) (Js.Val e)) w1)).
  assert (S2 : exists r, selectById (lead_id r0) (leads w2) = Some r /\ email_ r = Some e).
  { subst w2. eexists. split.
    - apply (upsert_selected (idWithEmail (lead_id r0) (Js.Val e)) w1 ra S1).
    - reflexivity. }
  destruct S2 as [rb [S2 Hb]].
  destruct (phones data) as [| ph phs].
  - cbn [ret snd]. rewrite S2. cbn [option_map]. eexists. split; [reflexivity | exact Hb].
  - destruct (Js.truthyStr (phone (rowToLead r0))).
    + cbn [ret snd]. rewrite S2. cbn [option_map]. eexists. split; [reflexivity | exact Hb].
    + rewrite bind_run. cbn [ret snd].
      pose proof (upsert_selected (idWithPhone (lead_id r0) (Js.Val ph)) w2 rb S2) as S3.
      change (p_leadId (idWithPhone (lead_id r0) (Js.Val ph))) with (lead_id r0) in S3.
      rewrite S3.
      cbn [option_map]. eexists. split; [reflexivity |].
      cbn. rewrite toSql_ofSql. exact Hb.
Qed.

(** C10. When [upsert] meets an existing lead and the partial record has a
    key that is present with the value [undefined], the stored column
    becomes NULL, whereas an absent key leaves it as it was. [createFromRaw]
    always passes the keys [email], [phone] and [website], so collecting a
    business again from a raw record without contact data erases an e-mail
    address that the enrich stage had promoted onto the lead. *)
Theorem upsert_undefined_key_erases :
  (forall (w : World) (lead : PartialLead) (r0 r1 : Row),
      selectById (p_leadId lead) (leads w) = Some r0 ->
      selectById (p_leadId lead) (leads (snd (upsert lead w))) = Some r1 ->
      (p_email lead = Present Js.Undefined -> email_ r1 = None)
      /\ (p_phone lead = Present Js.Undefined -> phone_ r1 = None)
      /\ (p_website lead = Present Js.Undefined -> website_ r1 = None)
      /\ (p_email lead = Absent -> email_ r1 = email_ r0)
      /\ (p_phone lead = Absent -> phone_ r1 = phone_ r0)
      /\ (p_website lead = Absent -> website_ r1 = website_ r0))
  /\ (forall (w : World) (raw : RawBusinessData) (source runId : string) (r0 r1 : Row),
        selectById (rawLeadId raw) (leads w) = Some r0 ->
        selectById (rawLeadId raw) (leads (snd (createFromRaw raw source runId w))) = Some r1 ->
        email_ r1 = Js.toSql (raw_email raw)
        /\ phone_ r1 = Js.toSql (raw_phone raw)
        /\ website_ r1 = Js.toSql (raw_website raw))
  /\ (forall (scrape : string -> Scrape) (w : World) (r0 : Row) (site : string)
             (wd : WebsiteData) (e : string) (rest : list string)
             (runId : string) (d : RawDiscovery),
        selectById (lead_id r0) (leads w) = Some r0 ->
        email_ r0 = None -> enrichment_data r0 = None ->
        website_ r0 = Some site -> site <> "" ->
        scrape (normalizeUrl site) = Scraped wd ->
        wd_emails wd = e :: rest ->
        rawLeadId (rd_rawData d) = lead_id r0 ->
        raw_email (rd_rawData d) = Js.Undefined ->
        let w1 := snd (enrichLead scrape (rowToLead r0) w) in
        let w2 := snd (collectTurn runId [] d w1) in
        (exists r1, selectById (lead_id r0) (leads w1) = Some r1 /\ email_ r1 = Some e)
        /\ (exists r2, selectById (lead_id r0) (leads w2) = Some r2 /\ email_ r2 = None)).
Proof.
  split; [| split].
  - intros w lead r0 r1 H0 H1.
    rewrite (upsert_selected lead w r0 H0) in H1. injection H1 as <-.
    cbn. repeat split; intro Hk; rewrite Hk; cbn; try reflexivity; apply toSql_ofSql.
  - intros w raw source runId r0 r1 H0 H1.
    rewrite createFromRaw_upsert in H1.
    change (rawLeadId raw) with (p_leadId (partialOfRaw raw source runId)) in H0, H1.
    rewrite (upsert_selected _ w r0 H0) in H1. injection H1 as <-.
    cbn. auto.
  - intros scrape w r0 site wd e rest runId d Hsel Hem Hen Hweb Hsite Hscr Hwd Hid Hraw w1 w2.
    destruct (enrichLead_promotes_email scrape w r0 site wd e rest
                Hsel Hem Hen Hweb Hsite Hscr Hwd) as [r1 [S1 E1]].
    fold w1 in S1.
    split; [exists r1; auto |].
    destruct (collectTurn_leads runId d w1) as [L2 _]. fold w2 in L2.
    set (p := partialOfRaw (rd_rawData d) (rd_source d) runId) in *.
    assert (Hp : p_leadId p = lead_id r0) by exact Hid.
    rewrite Hp in L2.
    assert (U : upserted p (clock w1 (ticks w1)) (leads w1) =
                updateWhereId (lead_id r0)
                  (upsertAssign (mergeLead (rowToLead r1) p (clock w1 (ticks w1)))) (leads w1)).
    { unfold upserted. rewrite Hp, S1. reflexivity. }
    rewrite U in L2. rewrite L2.
    rewrite selectById_updated by apply markCollected_keeps_id.
    rewrite selectById_updated by (intro; reflexivity).
    rewrite S1. cbn [option_map]. eexists. split; [reflexivity |].
    cbn. rewrite Hraw. reflexivity.
Qed.

Lemma upsert_undefined_key_erases_witness :
  exists r2,
    selectById (rawLeadId sampleRaw)
      (leads (snd (collectTurn "run_b" [] (sampleDiscovery 2)
                (snd (enrichLead sampleScrape (rowToLead sampleSiteRow)
                        (sampleWorld [sampleSiteRow])))))) = Some r2
    /\ email_ r2 = None.
Proof.
  destruct upsert_undefined_key_erases as [_ [_ H]].
  destruct (H sampleScrape (sampleWorld [sampleSiteRow]) sampleSiteRow
              "https://proplumbing.example"
              {| wd_emails := ["info@proplumbing.example"]; wd_phones := [];
                 wd_hasOnlineBooking := false; wd_pageTitle := Js.Undefined;
                 wd_socialLinks := [] |}
              "info@proplumbing.example" [] "run_b" (sampleDiscovery 2))
    as [_ H2].
  - vm_compute. reflexivity.
  - reflexivity.
  - reflexivity.
  - reflexivity.
  - discriminate.
  - reflexivity.
  - reflexivity.
  - vm_compute. reflexivity.
  - reflexivity.
  - exact H2.
Defined.

(** ** Stage-scoped selection *)

Lemma applyLimit_incl {A} (limit : Js.opt Z) (l : list A) (x : A) :
  In x (applyLimit limit l) -> In x l.
Proof.
  unfold applyLimit. destruct limit as [| | n]; auto.
  destruct (n <=? 0); auto. intro H.
  rewrite <- (firstn_skipn (Z.to_nat n) l). apply in_or_app. left. exact H.
Qed.

Lemma stageEligible_spec (statuses : list LeadStatus) (now : Z) (r : Row) :
  stageEligible statuses now r = true ->
  In (status_ r) statuses
  /\ excluded_reason r = None
  /\ (cooldown_until r = None \/ exists t, cooldown_until r = Some t /\ t < now).
Proof.
  unfold stageEligible. intro H.
  apply andb_prop in H. destruct H as [H Hc].
  apply andb_prop in H. destruct H as [Hs He].
  split; [| split].
  - apply existsb_exists in Hs. destruct Hs as [s [Hin Heq]].
    destruct (status_ r), s; try discriminate; exact Hin.
  - destruct (excluded_reason r); [discriminate | reflexivity].
  - destruct (cooldown_until r) as [t |]; [right | left; reflexivity].
    exists t. split; [reflexivity |]. apply Z.ltb_lt. exact Hc.
Qed.

(** C4. Whatever the stage name and the limit, every lead that
    [getLeadsForStage] returns is a stored row whose status is in the
    status set of that stage (collect: new, filter: collected, enrich:
    filtered, score: enriched, output: scored), whose excluded reason is
    NULL and whose cooldown is NULL or earlier than the time of the call;
    the call returns for each of these five stages. In particular no lead
    excluded as bad_fit comes back for the filter stage, whatever its status. *)
Theorem getLeadsForStage_selects_eligible_only :
  (forall (w : World) (stage : string) (limit : Js.opt Z) (selected : list Lead) (l : Lead),
      fst (getLeadsForStage stage limit w) = Returned selected ->
      In l selected ->
      exists (r : Row) (statuses : list LeadStatus),
        In r (leads w) /\ l = rowToLead r
        /\ statusMap stage = OwnEntry statuses
        /\ In (status l) statuses
        /\ excludedReason l = Js.Null
        /\ (cooldownUntil l = Js.Null
            \/ exists t, cooldownUntil l = Js.Val t /\ t < selectionTime w))
  /\ (statusMap "collect" = OwnEntry [st_new]
      /\ statusMap "filter" = OwnEntry [st_collected]
      /\ statusMap "enrich" = OwnEntry [st_filtered]
      /\ statusMap "score" = OwnEntry [st_enriched]
      /\ statusMap "output" = OwnEntry [st_scored])
  /\ (forall (w : World) (stage : string) (limit : Js.opt Z) (statuses : list LeadStatus),
        statusMap stage = OwnEntry statuses ->
        exists selected, fst (getLeadsForStage stage limit w) = Returned selected)
  /\ (forall (w : World) (limit : Js.opt Z) (selected : list Lead) (l : Lead),
        fst (getLeadsForStage "filter" limit w) = Returned selected ->
        excludedReason l = Js.Val bad_fit ->
        ~ In l selected).
Proof.
  assert (Main : forall (w : World) (stage : string) (limit : Js.opt Z)
                        (selected : list Lead) (l : Lead),
      fst (getLeadsForStage stage limit w) = Returned selected ->
      In l selected ->
      exists (r : Row) (statuses : list LeadStatus),
        In r (leads w) /\ l = rowToLead r
        /\ statusMap stage = OwnEntry statuses
        /\ In (status l) statuses
        /\ excludedReason l = Js.Null
        /\ (cooldownUntil l = Js.Null
            \/ exists t, cooldownUntil l = Js.Val t /\ t < selectionTime w)).
  { intros w stage limit selected l Hret Hin.
    unfold getLeadsForStage in Hret.
    destruct (statusMap stage) as [statuses | |] eqn:Emap.
    - unfold bind, dateNow, readLeads, ret in Hret. cbn in Hret.
      injection Hret as <-.
      apply in_map_iff in Hin. destruct Hin as [r [Hl Hr]].
      apply applyLimit_incl in Hr. apply filter_In in Hr. destruct Hr as [Hr Hel].
      apply stageEligible_spec in Hel. destruct Hel as [Hs [He Hc]].
      exists r, statuses. subst l. cbn.
      repeat split; auto.
      + rewrite He. reflexivity.
      + destruct Hc as [Hc | [t [Hc Ht]]]; rewrite Hc; cbn; [left; reflexivity |].
        right. exists t. split; [reflexivity | exact Ht].
    - discriminate.
    - cbn in Hret. injection Hret as <-. destruct Hin. }
  split; [exact Main |].
  split; [repeat split |].
  split.
  - intros w stage limit statuses Hmap. unfold getLeadsForStage. rewrite Hmap.
    unfold bind, dateNow, readLeads, ret. cbn. eexists. reflexivity.
  - intros w limit selected l Hret Hex Hin.
    destruct (Main w "filter" limit selected l Hret Hin) as [r [sts [_ [_ [_ [_ [Hnull _]]]]]]].
    rewrite Hnull in Hex. discriminate.
Qed.

Lemma getLeadsForStage_selects_eligible_only_witness :
  let w := sampleWorld [sampleRow "a1" "Acme" st_collected;
                        set_excluded_reason (Some bad_fit)
                          (sampleRow "b2" "Best" st_collected)] in
  let l := rowToLead (sampleRow "a1" "Acme" st_collected) in
  fst (getLeadsForStage "filter" (Js.Val 10) w) = Returned [l]
  /\ exists (r : Row) (statuses : list LeadStatus),
       In r (leads w) /\ l = rowToLead r
       /\ statusMap "filter" = OwnEntry statuses
       /\ In (status l) statuses
       /\ excludedReason l = Js.Null
       /\ (cooldownUntil l = Js.Null
           \/ exists t, cooldownUntil l = Js.Val t /\ t < selectionTime w).
Proof.
  cbv zeta. split; [reflexivity |].
  apply (proj1 getLeadsForStage_selects_eligible_only
           (sampleWorld [sampleRow "a1" "Acme" st_collected;
                         set_excluded_reason (Some bad_fit)
                           (sampleRow "b2" "Best" st_collected)])
           "filter" (Js.Val 10)
           [rowToLead (sampleRow "a1" "Acme" st_collected)]
           (rowToLead (sampleRow "a1" "Acme" st_collected))).
  - reflexivity.
  - left. reflexivity.
Defined.

(** ** Order of the selection and progress *)

Lemma getLeadsForStage_result (w : World) (stage : string) (limit : Js.opt Z)
    (statuses : list LeadStatus) :
  statusMap stage = OwnEntry statuses ->
  fst (getLeadsForStage stage limit w) =
    Returned (map rowToLead
                (applyLimit limit (eligibleRows statuses (selectionTime w) (leads w)))).
Proof.
  intro H. unfold getLeadsForStage. rewrite H. reflexivity.
Qed.

Lemma applyLimit_prefix {A} (limit : Js.opt Z) (l : list A) :
  exists rest, l = (applyLimit limit l ++ rest)%list.
Proof.
  unfold applyLimit. destruct limit as [| | n].
  - exists []. rewrite app_nil_r. reflexivity.
  - exists []. rewrite app_nil_r. reflexivity.
  - destruct (n <=? 0).
    + exists []. rewrite app_nil_r. reflexivity.
    + exists (skipn (Z.to_nat n) l). symmetry. apply firstn_skipn.
Qed.




(** ** Re-collection and the status order *)

(** Collecting a raw record whose lead is already stored sets the status
    of that lead to collected, whatever it was. *)
Lemma collectTurn_resets_status (runId : string) (d : RawDiscovery) (w : World) (r0 : Row) :
  selectById (rawLeadId (rd_rawData d)) (leads w) = Some r0 ->
  exists r1,
    selectById (rawLeadId (rd_rawData d)) (leads (snd (collectTurn runId [] d w))) = Some r1
    /\ status_ r1 = st_collected
    /\ excluded_reason r1 = excluded_reason r0
    /\ cooldown_until r1 = cooldown_until r0.
Proof.
  intro H0. destruct (collectTurn_leads runId d w) as [L _]. rewrite L.
  set (p := partialOfRaw (rd_rawData d) (rd_source d) runId).
  change (p_leadId p) with (rawLeadId (rd_rawData d)).
  rewrite selectById_updated by apply markCollected_keeps_id.
  unfold upserted. change (p_leadId p) with (rawLeadId (rd_rawData d)). rewrite H0.
  rewrite selectById_updated by (intro; reflexivity). rewrite H0. cbn [option_map].
  eexists. split; [reflexivity |]. cbn. rewrite !toSql_ofSql. auto.
Qed.

(** C5, at the failing input. A lead that has reached the status scored is
    discovered again; the collect stage takes the new raw record and leaves
    the lead with the status collected, which is behind scored in the
    pipeline order and is none of the edges to excluded or cooldown or from
    cooldown. *)
Theorem recollect_moves_scored_lead_back :
  let before := set_status st_scored sampleSiteRow in
  let w := sampleWorld [before] in
  let w' := snd (CollectStage_execute DEFAULT_CONFIG [sampleDiscovery 2] w) in
  rawLeadId (rd_rawData (sampleDiscovery 2)) = lead_id before
  /\ status_ before = st_scored
  /\ map status_ (leads w') = [st_collected]
  /\ map lead_id (leads w') = [lead_id before].
Proof. vm_compute. repeat split; reflexivity. Qed.

(** ** The expired-cooldown sweep *)

(** A lead read from the table never has an undefined score: NULL comes
    back as null, so the test [lead.score !== undefined] always holds. *)
Lemma reentryStatus_of_row (r : Row) : reentryStatus (rowToLead r) = st_enriched.
Proof. unfold reentryStatus. cbn. destruct (score_ r); reflexivity. Qed.

(** ** Filter evaluation *)

Lemma existsb_map {A B} (f : B -> bool) (g : A -> B) (l : list A) :
  existsb f (map g l) = existsb (fun x => f (g x)) l.
Proof. induction l as [| x l IH]; cbn; [reflexivity | rewrite IH; reflexivity]. Qed.

Lemma find_first_match {A} (p : A -> bool) (pre post : list A) (x : A) :
  (forall y, In y pre -> p y = false) -> p x = true ->
  find p (pre ++ x :: post) = Some x.
Proof.
  intros Hpre Hx. induction pre as [| y pre IH]; cbn.
  - rewrite Hx. reflexivity.
  - rewrite (Hpre y (or_introl eq_refl)). apply IH.
    intros z Hz. apply Hpre. right. exact Hz.
Qed.

Lemma find_no_match {A} (p : A -> bool) (l : list A) :
  (forall y, In y l -> p y = false) -> find p l = None.
Proof.
  intro H. induction l as [| y l IH]; cbn; [reflexivity |].
  rewrite (H y (or_introl eq_refl)). apply IH. intros z Hz. apply H. right. exact Hz.
Qed.

(** C6. The decision of the filter for a lead is taken by the first check
    that applies, in this order: (1) a lead that carries an exclusion
    reason gets that reason back; otherwise (2) a source tag that equals an
    excluded category, ignoring case, gives bad_fit; otherwise (3) an
    excluded keyword that occurs in the business name, ignoring case, gives
    bad_fit; otherwise (4) the first custom rule, in declared order, whose
    predicate holds gives its reason, whatever rules follow it; and when no
    rule holds the decision is null. *)
Theorem evaluateLead_first_match_wins
    (rt : Runtime) (cfg : Config) (lead : Lead) :
  let decision := filterDecision rt cfg lead in
  let byTag := tagMatchesCategory lead (filters_excludeCategories cfg) in
  let byKeyword := keywordInName lead (filters_excludeKeywords cfg) in
  (forall r, excludedReason lead = Js.Val r -> decision = Some r)
  /\ (carriesNoReason lead -> byTag = true -> decision = Some bad_fit)
  /\ (carriesNoReason lead -> byTag = false -> byKeyword = true ->
      decision = Some bad_fit)
  /\ (carriesNoReason lead -> byTag = false -> byKeyword = false ->
      forall pre rule post,
        filters_rules cfg = (pre ++ rule :: post)%list ->
        (forall x, In x pre -> evaluateRule rt lead x = false) ->
        evaluateRule rt lead rule = true ->
        decision = Some (reason rule))
  /\ (carriesNoReason lead -> byTag = false -> byKeyword = false ->
      (forall x, In x (filters_rules cfg) -> evaluateRule rt lead x = false) ->
      decision = None).
Proof.
  cbv zeta. unfold filterDecision, evaluateLead, tagMatchesCategory, keywordInName.
  assert (Etag :
    existsb (fun category =>
               existsb (String.eqb (Js.toLowerCase category))
                       (map Js.toLowerCase (filters_excludeCategories cfg)))
            (tags (sourceMetadata lead))
    = existsb (fun tag =>
                 existsb (fun c => String.eqb (Js.toLowerCase tag) (Js.toLowerCase c))
                         (filters_excludeCategories cfg))
              (tags (sourceMetadata lead))).
  { induction (tags (sourceMetadata lead)) as [| t l IH]; cbn; [reflexivity |].
    rewrite existsb_map, IH. reflexivity. }
  rewrite Etag, existsb_map.
  split; [intros r Hr; rewrite Hr; reflexivity |].
  assert (Hno : carriesNoReason lead ->
                forall X : option ExclusionReason,
                  match excludedReason lead with Js.Val r => Some r | _ => X end = X).
  { intros Hc X. destruct (excludedReason lead) as [| | r] eqn:E; try reflexivity.
    exfalso. exact (Hc r E). }
  split; [| split; [| split]].
  - intros Hc Ht. rewrite (Hno Hc), Ht. reflexivity.
  - intros Hc Ht Hk. rewrite (Hno Hc), Ht, Hk. reflexivity.
  - intros Hc Ht Hk pre rule post Hrules Hpre Hrule.
    rewrite (Hno Hc), Ht, Hk, Hrules.
    rewrite (find_first_match _ pre post rule Hpre Hrule). reflexivity.
  - intros Hc Ht Hk Hall. rewrite (Hno Hc), Ht, Hk.
    rewrite (find_no_match _ _ Hall). reflexivity.
Qed.

Lemma evaluateLead_first_match_wins_witness :
  filterDecision sampleRuntime sampleFilterConfig
    (rowToLead (sampleRow "a1" "Acme Plumbing" st_collected))
  = Some wrong_industry.
Proof.
  apply (proj1 (proj2 (proj2 (proj2
           (evaluateLead_first_match_wins sampleRuntime sampleFilterConfig
              (rowToLead (sampleRow "a1" "Acme Plumbing" st_collected)))))))
    with (pre := [ {| field := "city"; operator := op_equals; value := JStr "Dallas";
                      reason := out_of_geo |} ])
         (rule := {| field := "sourceMetadata.tags.length"; operator := op_less_than;
                     value := JNum 1; reason := wrong_industry |})
         (post := [ {| field := "businessName"; operator := op_contains;
                       value := JStr "ACME"; reason := competitor |} ]).
  - intros r H. discriminate H.
  - reflexivity.
  - reflexivity.
  - reflexivity.
  - intros x [<- | []]. reflexivity.
  - reflexivity.
Defined.

(** ** The score stage *)

Lemma Qltb_true (a b : Q) : Qltb a b = true <-> (a < b)%Q.
Proof.
  unfold Qltb. rewrite negb_true_iff. split.
  - intro H. apply Qnot_le_lt. intro Hle. apply Qle_bool_iff in Hle. congruence.
  - intro H. destruct (Qle_bool b a) eqn:E; [| reflexivity].
    apply Qle_bool_iff in E. exfalso. exact (Qlt_not_le _ _ H E).
Qed.

Lemma Qltb_false (a b : Q) : Qltb a b = false <-> (b <= a)%Q.
Proof.
  unfold Qltb. rewrite negb_false_iff. apply Qle_bool_iff.
Qed.

(** Store statements on the selected row. *)
Lemma exclude_selected (id : string) (reason : ExclusionReason) (w : World) :
  selectById id (leads (snd (exclude id reason w))) =
    option_map (fun r => set_updated_at (clock w (ticks w))
                           (set_status st_excluded (set_excluded_reason (Some reason) r)))
               (selectById id (leads w)).
Proof.
  unfold exclude, bind, dateNow, writeLeads. cbn.
  apply selectById_updated. intro; reflexivity.
Qed.

Lemma setCooldown_selected (id : string) (until : Z) (w : World) :
  selectById id (leads (snd (setCooldown id until w))) =
    option_map (fun r => set_updated_at (clock w (ticks w))
                           (set_status st_cooldown (set_cooldown_until (Some until) r)))
               (selectById id (leads w)).
Proof.
  unfold setCooldown, bind, dateNow, writeLeads. cbn.
  apply selectById_updated. intro; reflexivity.
Qed.

Lemma updateScore_selected (id : string) (sc : Z) (rs : list ScoreReason) (w : World) :
  selectById id (leads (snd (updateScore id sc rs w))) =
    option_map (fun r => set_updated_at (clock w (ticks w))
                           (set_score_reasons (Some rs) (set_score (Some sc) r)))
               (selectById id (leads w)).
Proof.
  unfold updateScore, bind, dateNow, writeLeads. cbn.
  apply selectById_updated. intro; reflexivity.
Qed.

Lemma updateAngles_selected (id : string) (active exhausted : list AngleType) (w : World) :
  selectById id (leads (snd (updateAngles id active exhausted w))) =
    option_map (fun r => set_updated_at (clock w (ticks w))
                           (set_exhausted_angles exhausted (set_active_angles active r)))
               (selectById id (leads w)).
Proof.
  unfold updateAngles, bind, dateNow, writeLeads. cbn.
  apply selectById_updated. intro; reflexivity.
Qed.

(** Steps that leave the table alone. *)
Lemma leads_writeThis (f : StageObj -> StageObj) (w : World) :
  leads (snd (writeThis f w)) = leads w.
Proof. reflexivity. Qed.

Lemma leads_dateNow (w : World) : leads (snd (dateNow w)) = leads w.
Proof. reflexivity. Qed.

Lemma leads_updateProgress (w : World) : leads (snd (updateProgress w)) = leads w.
Proof.
  unfold updateProgress, bind, readThis, runService_updateProgress, writeRun, ret. cbn.
  destruct (run (this w)); reflexivity.
Qed.

Lemma leads_progressEvery (n : Z) (w : World) : leads (snd (progressEvery n w)) = leads w.
Proof.
  unfold progressEvery, bind, readThis. cbn.
  destruct (processed (this w) mod n =? 0); [apply leads_updateProgress | reflexivity].
Qed.

Lemma isOutdatedWebsite_frame (cfg : Config) (lead : Lead) (w : World) :
  leads (snd (isOutdatedWebsite cfg lead w)) = leads w
  /\ sameProcess w (snd (isOutdatedWebsite cfg lead w)).
Proof.
  unfold isOutdatedWebsite, sameProcess.
  destruct (enrichmentData lead) as [| | e]; cbn; auto.
  destruct (lastWebsiteUpdate e) as [| | d]; cbn; auto.
  destruct (String.eqb (dt_text d) ""); cbn; auto.
  unfold bind, dateNow. cbn. destruct (dt_instant d); cbn; auto.
Qed.

Lemma scoreLead_frame (cfg : Config) (lead : Lead) (w : World) :
  leads (snd (scoreLead cfg lead w)) = leads w
  /\ sameProcess w (snd (scoreLead cfg lead w)).
Proof.
  unfold scoreLead. rewrite bind_run. cbn [ret snd].
  destruct (negb (Js.truthyStr (website lead))).
  - cbn. unfold sameProcess. auto.
  - rewrite bind_run. cbn [ret snd]. apply isOutdatedWebsite_frame.
Qed.

(** One turn of the score loop on a lead as it is stored. *)
Lemma scoreTurn_outcome (cfg : Config) (w : World) (r0 : Row)
    (Hsel : selectById (lead_id r0) (leads w) = Some r0)
    (Hnotexcl : excluded_reason r0 = None) :
  let lead := rowToLead r0 in
  let scored := scoreLead cfg lead (snd (incProcessed w)) in
  exists r1,
    selectById (lead_id r0) (leads (snd (scoreTurn cfg lead w))) = Some r1
    /\ scoreOutcome cfg r0 (fst scored) (clock w (ticks (snd scored))) r1.
Proof.
  cbv zeta. unfold scoreOutcome. cbv zeta.
  set (lead := rowToLead r0).
  unfold scoreTurn, incFailed, incPassed. rewrite !bind_run.
  set (w1 := snd (incProcessed w)).
  destruct (scoreLead_frame cfg lead w1) as [Hleads [_ [_ Hclock]]].
  set (scored := scoreLead cfg lead w1) in *.
  set (result := fst scored). set (w2 := snd scored) in *.
  change (leadId lead) with (lead_id r0).
  assert (Hsel2 : selectById (lead_id r0) (leads w2) = Some r0)
    by (rewrite Hleads; exact Hsel).
  assert (Hck : clock w2 = clock w) by (rewrite Hclock; reflexivity).
  destruct (Qltb (inject_Z (sr_score result)) (thresholds_minScore cfg)) eqn:Elt.
  - (* below the minimum *)
    apply Qltb_true in Elt.
    rewrite bind_run. rewrite leads_writeThis.
    rewrite exclude_selected, Hsel2. cbn [option_map].
    eexists. split; [reflexivity |]. cbn.
    split; [auto |].
    split; [intro Hle; exfalso; exact (Qlt_not_le _ _ Elt Hle) |].
    split; [intro Hle; exfalso; exact (Qlt_not_le _ _ Elt Hle) |].
    split; [discriminate |].
    intros [Hle _]. exfalso. exact (Qlt_not_le _ _ Elt Hle).
  - apply Qltb_false in Elt.
    destruct (remainingAngles result lead) as [| a rest] eqn:Eact.
    + (* no angle left *)
      rewrite !bind_run. rewrite leads_writeThis.
      rewrite setCooldown_selected. cbn [dateNow fst snd leads].
      rewrite Hsel2. cbn [option_map].
      eexists. split; [reflexivity |]. cbn. rewrite Hck.
      split; [intro Hlt; exfalso; exact (Qlt_not_le _ _ Hlt Elt) |].
      split; [intros _ _; auto |].
      split; [intros _ Hne; exfalso; apply Hne; reflexivity |].
      split; [discriminate |].
      intros [_ Hne]. exfalso. apply Hne. reflexivity.
    + (* scored *)
      rewrite !bind_run. rewrite leads_progressEvery, leads_writeThis.
      rewrite updateStatus_selected, updateAngles_selected, updateScore_selected, Hsel2.
      cbn [option_map].
      eexists. split; [reflexivity |]. cbn.
      split; [intro Hlt; exfalso; exact (Qlt_not_le _ _ Hlt Elt) |].
      split; [intros _ Hnil; discriminate Hnil |].
      split; [intros _ _; auto 10 |].
      split; [intros _; split; [exact Elt | discriminate] | reflexivity].
Qed.

(** The stages that select leads return from [execute]. *)
Lemma overStageLeads_returns (stage : string) (limit : Js.opt Z) (turn : Lead -> M unit)
    (statuses : list LeadStatus) (w : World) :
  statusMap stage = OwnEntry statuses ->
  fst (overStageLeads stage limit turn w) = Returned tt.
Proof.
  intro Hmap. unfold overStageLeads, getLeadsForStage. rewrite Hmap.
  rewrite !bind_run. cbn [ret fst snd]. rewrite !bind_run. reflexivity.
Qed.

(** Statements on another id leave the selected row alone. *)
Lemma writeById_other (id other : string) (f : Row -> Row) (w : World) :
  (forall r, lead_id (f r) = lead_id r) -> other <> id ->
  selectById other (leads (snd (writeLeads (updateWhereId id f) w))) =
    selectById other (leads w).
Proof. intros Hf Hne. cbn. apply selectById_other; assumption. Qed.

Lemma scoreTurn_other (cfg : Config) (lead : Lead) (other : string) (w : World) :
  other <> leadId lead ->
  selectById other (leads (snd (scoreTurn cfg lead w))) = selectById other (leads w).
Proof.
  intro Hne. unfold scoreTurn, incFailed, incPassed, incProcessed. rewrite !bind_run.
  set (w1 := snd (writeThis _ w)).
  destruct (scoreLead_frame cfg lead w1) as [Hleads _].
  assert (H1 : leads w1 = leads w) by reflexivity.
  destruct (Qltb _ _).
  - rewrite bind_run, leads_writeThis.
    unfold exclude. rewrite bind_run.
    rewrite writeById_other by (auto; intro; reflexivity).
    cbn [dateNow snd leads]. rewrite Hleads, H1. reflexivity.
  - destruct (remainingAngles _ _).
    + rewrite !bind_run, leads_writeThis.
      unfold setCooldown. rewrite bind_run.
      rewrite writeById_other by (auto; intro; reflexivity).
      cbn [dateNow snd leads]. rewrite Hleads, H1. reflexivity.
    + rewrite !bind_run, leads_progressEvery, leads_writeThis.
      unfold updateStatus, updateAngles, updateScore. rewrite !bind_run.
      rewrite !writeById_other by (auto; intro; reflexivity).
      cbn [dateNow snd leads].
      rewrite !writeById_other by (auto; intro; reflexivity).
      cbn [dateNow snd leads].
      rewrite !writeById_other by (auto; intro; reflexivity).
      cbn [dateNow snd leads]. rewrite Hleads, H1. reflexivity.
Qed.

Lemma forEach_app {A} (a b : list A) (body : A -> M unit) (w : World) :
  snd (forEach (a ++ b) body w) = snd (forEach b body (snd (forEach a body w))).
Proof.
  revert w. induction a as [| x a IH]; intro w; cbn [app forEach].
  - reflexivity.
  - rewrite !bind_run. apply IH.
Qed.

Lemma forEach_scoreTurn_other (cfg : Config) (other : string) (ls : list Lead) :
  ~ In other (map leadId ls) ->
  forall w, selectById other (leads (snd (forEach ls (scoreTurn cfg) w))) =
            selectById other (leads w).
Proof.
  induction ls as [| l ls IH]; intros Hnin w; cbn [forEach].
  - reflexivity.
  - rewrite bind_run. rewrite IH.
    + apply scoreTurn_other. intro E. apply Hnin. left. symmetry. exact E.
    + intro Hin. apply Hnin. right. exact Hin.
Qed.

Lemma NoDup_ids_filter (p : Row -> bool) (rows : list Row) :
  NoDup (map lead_id rows) -> NoDup (map lead_id (filter p rows)).
Proof.
  induction rows as [| r rows IH]; intro H; cbn [filter map] in *; [constructor |].
  inversion H as [| ? ? Hnin Hnd]; subst.
  destruct (p r); cbn [map]; [| apply IH; exact Hnd].
  constructor; [| apply IH; exact Hnd].
  intro Hin. apply Hnin. apply in_map_iff in Hin. destruct Hin as [x [Hx Hin]].
  apply filter_In in Hin. apply in_map_iff. exists x. tauto.
Qed.

Lemma NoDup_ids_applyLimit (limit : Js.opt Z) (rows : list Row) :
  NoDup (map lead_id rows) -> NoDup (map lead_id (applyLimit limit rows)).
Proof.
  intro H. destruct (applyLimit_prefix limit rows) as [rest Hrest].
  rewrite Hrest, map_app in H. apply NoDup_app_remove_r in H. exact H.
Qed.

Lemma selectById_of_member (rows : list Row) (r : Row) :
  NoDup (map lead_id rows) -> In r rows -> selectById (lead_id r) rows = Some r.
Proof.
  unfold selectById. induction rows as [| x rows IH]; intros Hnd Hin; [destruct Hin |].
  cbn [map] in Hnd. inversion Hnd as [| ? ? Hnin Hnd']; subst. cbn [find].
  destruct Hin as [-> | Hin].
  - rewrite String.eqb_refl. reflexivity.
  - destruct (String.eqb (lead_id x) (lead_id r)) eqn:E.
    + exfalso. apply String.eqb_eq in E. apply Hnin. rewrite E.
      apply in_map. exact Hin.
    + apply IH; assumption.
Qed.

(** C2. In a run of the score stage over a table with unique ids, take
    any selected lead, with the leads selected before it and after it. The
    lead is an enriched, non-excluded stored row, still as stored when its
    turn comes, and what the stage leaves of it is what its turn leaves:
    with [result] the outcome of [scoreLead] in that turn, a score below
    the configured minimum excludes the lead as bad_fit; a passing score
    with no angle left after removing the exhausted ones does not exclude
    it but puts it into cooldown until the time read in the turn plus the
    configured default number of days; otherwise score, reasons and
    remaining angles are stored and the status becomes scored, which
    happens in that last case only. *)
Theorem ScoreStage_outcome (cfg : Config) (limit : Js.opt Z) (w : World)
    (before after : list Lead) (lead : Lead)
    (Hunique : NoDup (map lead_id (leads w)))
    (Hselected : fst (getLeadsForStage "score" (stageLimit cfg limit) w)
                 = Returned (before ++ lead :: after)%list) :
  let turn := snd (forEach before (scoreTurn cfg)
                     (snd (getLeadsForStage "score" (stageLimit cfg limit) w))) in
  let scored := scoreLead cfg lead (snd (incProcessed turn)) in
  exists (r0 r1 : Row),
    In r0 (leads w) /\ lead = rowToLead r0
    /\ status_ r0 = st_enriched /\ excluded_reason r0 = None
    /\ selectById (leadId lead) (leads turn) = Some r0
    /\ fst (ScoreStage_execute cfg limit w) = Returned tt
    /\ selectById (leadId lead) (leads (snd (ScoreStage_execute cfg limit w))) = Some r1
    /\ scoreOutcome cfg r0 (fst scored) (clock turn (ticks (snd scored))) r1.
Proof.
  cbv zeta. unfold ScoreStage_execute.
  rewrite (overStageLeads_returns "score" _ _ [st_enriched] w eq_refl).
  unfold overStageLeads. rewrite bind_run. rewrite Hselected.
  rewrite bind_run. cbn [ret snd].
  set (w0 := snd (getLeadsForStage "score" (stageLimit cfg limit) w)).
  assert (Hl0 : leads w0 = leads w) by reflexivity.
  (* the selected leads are rows of the table, with distinct ids *)
  pose proof Hselected as Hsel'.
  rewrite (getLeadsForStage_result w "score" _ [st_enriched] eq_refl) in Hsel'.
  injection Hsel' as Hsel'.
  set (rows := applyLimit (stageLimit cfg limit)
                 (eligibleRows [st_enriched] (selectionTime w) (leads w))) in *.
  assert (Hnd : NoDup (map leadId (before ++ lead :: after))).
  { rewrite <- Hsel', map_map.
    change (fun x : Row => leadId (rowToLead x)) with lead_id.
    subst rows. apply NoDup_ids_applyLimit. apply NoDup_ids_filter. exact Hunique. }
  assert (Hin : In lead (map rowToLead rows))
    by (rewrite Hsel'; apply in_or_app; right; left; reflexivity).
  apply in_map_iff in Hin. destruct Hin as [r0 [Hlead Hr0]].
  subst rows. apply applyLimit_incl in Hr0. apply filter_In in Hr0.
  destruct Hr0 as [Hr0w Helig].
  apply stageEligible_spec in Helig. destruct Helig as [Hst [Hex _]].
  destruct Hst as [Hst | []].
  rewrite map_app in Hnd. cbn [map] in Hnd.
  assert (Hid : leadId lead = lead_id r0) by (rewrite <- Hlead; reflexivity).
  assert (Hpre : ~ In (lead_id r0) (map leadId before)).
  { intro Hx. apply NoDup_remove_2 in Hnd. apply Hnd. rewrite Hid.
    apply in_or_app. left. exact Hx. }
  assert (Hpost : ~ In (lead_id r0) (map leadId after)).
  { intro Hx. apply NoDup_remove_2 in Hnd. apply Hnd. rewrite Hid.
    apply in_or_app. right. exact Hx. }
  set (turn := snd (forEach before (scoreTurn cfg) w0)).
  assert (Hturn : selectById (lead_id r0) (leads turn) = Some r0).
  { subst turn. rewrite forEach_scoreTurn_other by exact Hpre.
    rewrite Hl0. apply selectById_of_member; assumption. }
  destruct (scoreTurn_outcome cfg turn r0 Hturn Hex) as [r1 [Hr1 Hout]].
  rewrite Hlead in Hr1, Hout.
  exists r0, r1. rewrite Hid.
  split; [exact Hr0w |]. split; [symmetry; exact Hlead |].
  split; [symmetry; exact Hst |]. split; [exact Hex |].
  split; [exact Hturn |]. split; [reflexivity |].
  split.
  - rewrite forEach_app. cbn [forEach]. rewrite bind_run.
    fold turn. rewrite forEach_scoreTurn_other by exact Hpost. exact Hr1.
  - exact Hout.
Qed.

Lemma ScoreStage_outcome_witness :
  exists r1,
    selectById "a1"
      (leads (snd (ScoreStage_execute DEFAULT_CONFIG (Js.Val 10)
                     (sampleWorld [sampleRow "b2" "Best" st_enriched; exhaustedRow]))))
    = Some r1
    /\ excluded_reason r1 = None
    /\ status_ r1 = st_cooldown
    /\ cooldown_until r1 = Some (1700000004000 + 30 * msPerDay).
Proof.
  destruct (ScoreStage_outcome DEFAULT_CONFIG (Js.Val 10)
              (sampleWorld [sampleRow "b2" "Best" st_enriched; exhaustedRow])
              [rowToLead (sampleRow "b2" "Best" st_enriched)] []
              (rowToLead exhaustedRow))
    as [r0 [r1 [_ [Hlead [_ [_ [_ [_ [Hr1 Hout]]]]]]]]].
  - repeat constructor; cbn; intuition discriminate.
  - reflexivity.
  - exists r1. split; [exact Hr1 |].
    unfold scoreOutcome in Hout. rewrite <- Hlead in Hout.
    destruct Hout as [_ [H2 _]].
    apply H2.
    + vm_compute. intro H. discriminate H.
    + reflexivity.
Defined.

(** ** Counters of a run *)

Lemma observations_snoc (c : Counters) (log : list RunWrite) (x : RunWrite) :
  observations c (log ++ [x]) =
    (observations c log ++ [rowAfter (finalRow c log) x])%list.
Proof.
  revert c. induction log as [| y log IH]; intro c; cbn; [reflexivity |].
  rewrite IH. reflexivity.
Qed.

Lemma finalRow_snoc (c : Counters) (log : list RunWrite) (x : RunWrite) :
  finalRow c (log ++ [x]) = rowAfter (finalRow c log) x.
Proof. unfold finalRow. rewrite fold_left_app. reflexivity. Qed.

Lemma le3_refl (a : Counters) : le3 a a.
Proof. unfold le3. lia. Qed.

Lemma le3_trans (a b c : Counters) : le3 a b -> le3 b c -> le3 a c.
Proof. unfold le3. lia. Qed.

Lemma nondecreasing_last_up (p : Counters) (l : list Counters) (c c' : Counters) :
  nondecreasing p (l ++ [c]) -> le3 c c' -> nondecreasing p (l ++ [c']).
Proof.
  revert p. induction l as [| x l IH]; intros p H Hle; cbn in *.
  - destruct H as [H _]. split; [eapply le3_trans; eauto | exact I].
  - destruct H as [H1 H2]. split; [exact H1 | apply IH; assumption].
Qed.

Lemma nondecreasing_snoc (p : Counters) (l : list Counters) (c c' : Counters) :
  nondecreasing p (l ++ [c]) -> le3 c c' -> nondecreasing p ((l ++ [c]) ++ [c']).
Proof.
  revert p. induction l as [| x l IH]; intros p H Hle; cbn in *.
  - destruct H as [H _]. split; [exact H | split; [exact Hle | exact I]].
  - destruct H as [H1 H2]. split; [exact H1 | apply IH; assumption].
Qed.

Lemma nondecreasing_init (p : Counters) (l : list Counters) (c : Counters) :
  nondecreasing p (l ++ [c]) -> nondecreasing p l.
Proof.
  revert p. induction l as [| x l IH]; intros p H; cbn in *; [exact I |].
  destruct H as [H1 H2]. split; [exact H1 | eapply IH; eassumption].
Qed.

(** The last state of the row is what the observations end with. *)
Lemma nondecreasing_final (c : Counters) (seg : list RunWrite) (cur : Counters) :
  nondecreasing c (observations c seg ++ [cur]) -> le3 (finalRow c seg) cur.
Proof.
  revert c. induction seg as [| x seg IH]; intros c H; cbn in *.
  - destruct H as [H _]. exact H.
  - destruct H as [_ H]. apply IH. exact H.
Qed.

Lemma balanced_mono (e e' : Z) (c : Counters) : e <= e' -> balanced e c -> balanced e' c.
Proof. unfold balanced. lia. Qed.

Lemma Forall_balanced_mono (e e' : Z) (l : list Counters) :
  e <= e' -> Forall (balanced e) l -> Forall (balanced e') l.
Proof.
  intros Hle H. eapply Forall_impl; [| exact H].
  intros c. apply balanced_mono. exact Hle.
Qed.

(** [Inv] looks at the stage object and the log only. *)
Lemma Inv_same (base : list RunWrite) (k : nat) (clean : bool) (w w' : World) :
  this w' = this w -> runLog w' = runLog w ->
  Inv base k clean w -> Inv base k clean w'.
Proof.
  intros Ht Hl [seg H]. exists seg. rewrite Ht, Hl. exact H.
Qed.

Lemma Inv_quiet {A} (m : M A) (base : list RunWrite) (k : nat) (clean : bool) (w : World) :
  quiet m -> Inv base k clean w -> Inv base k clean (snd (m w)).
Proof.
  intros Hq H. destruct (Hq w) as [Ht Hl]. eapply Inv_same; eassumption.
Qed.

Lemma Inv_weaken (base : list RunWrite) (k k' : nat) (clean : bool) (w : World) :
  (k' <= k)%nat -> Inv base k clean w -> Inv base k' false w.
Proof.
  intros Hk [seg [H1 [H2 [H3 [H4 _]]]]]. exists seg.
  repeat split; try assumption; [lia | discriminate].
Qed.

Lemma Inv_slack (base : list RunWrite) (k k' : nat) (clean : bool) (w : World) :
  (k' <= k)%nat -> Inv base k clean w -> Inv base k' clean w.
Proof.
  intros Hk [seg [H1 [H2 [H3 [H4 H5]]]]]. exists seg.
  repeat split; try assumption. lia.
Qed.

(** Changing the counters of the stage object. *)
Lemma Inv_counters (base : list RunWrite) (k k' : nat) (clean : bool) (w : World)
    (f : StageObj -> StageObj) :
  (forall t, errors (f t) = errors t) ->
  le3 (countersOf (this w)) (countersOf (f (this w))) ->
  (passed (this w) + failed (this w) + Z.of_nat k
     <= processed (this w) + errorCount (this w) ->
   passed (f (this w)) + failed (f (this w)) + Z.of_nat k'
     <= processed (f (this w)) + errorCount (this w)) ->
  Inv base k clean w -> Inv base k' clean (snd (writeThis f w)).
Proof.
  intros He Hle Hs [seg [H1 [H2 [H3 [H4 H5]]]]]. exists seg. cbn.
  assert (Hec : errorCount (f (this w)) = errorCount (this w))
    by (unfold errorCount; rewrite He; reflexivity).
  rewrite Hec, He.
  repeat split; try assumption.
  - eapply nondecreasing_last_up; eassumption.
  - apply Hs. exact H4.
Qed.

Lemma incProcessed_inv (base : list RunWrite) (k : nat) (clean : bool) (w : World) :
  Inv base k clean w -> Inv base (S k) clean (snd (incProcessed w)).
Proof.
  apply Inv_counters.
  - reflexivity.
  - unfold le3, countersOf. cbn. lia.
  - cbn. lia.
Qed.

Lemma incPassed_inv (base : list RunWrite) (k : nat) (clean : bool) (w : World) :
  Inv base (S k) clean w -> Inv base k clean (snd (incPassed w)).
Proof.
  apply Inv_counters.
  - reflexivity.
  - unfold le3, countersOf. cbn. lia.
  - cbn. lia.
Qed.

Lemma incFailed_inv (base : list RunWrite) (k : nat) (clean : bool) (w : World) :
  Inv base (S k) clean w -> Inv base k clean (snd (incFailed w)).
Proof.
  apply Inv_counters.
  - reflexivity.
  - unfold le3, countersOf. cbn. lia.
  - cbn. lia.
Qed.

Lemma addPassed_inv (base : list RunWrite) (n k : nat) (clean : bool) (w : World) :
  Inv base (n + k) clean w -> Inv base k clean (snd (addPassed (Z.of_nat n) w)).
Proof.
  apply Inv_counters.
  - reflexivity.
  - unfold le3, countersOf. cbn. lia.
  - cbn. lia.
Qed.

(** Writing the counters in memory to the row. *)
Lemma Inv_report (base : list RunWrite) (k : nat) (clean : bool) (w : World)
    (x : RunWrite) :
  (forall c, rowAfter c x = countersOf (this w)) ->
  Inv base k clean w -> Inv base k clean (snd (writeRun x w)).
Proof.
  intros Hx [seg [H1 [H2 [H3 [H4 H5]]]]]. exists (seg ++ [x])%list. cbn.
  rewrite H1, <- app_assoc. split; [reflexivity |].
  rewrite observations_snoc, Hx.
  split; [apply nondecreasing_snoc; [exact H2 | apply le3_refl] |].
  split; [| split; assumption].
  apply Forall_app. split; [exact H3 |].
  constructor; [| constructor]. unfold balanced, countersOf. cbn. lia.
Qed.

Lemma updateProgress_inv (base : list RunWrite) (k : nat) (clean : bool) (w : World) :
  Inv base k clean w -> Inv base k clean (snd (updateProgress w)).
Proof.
  intro H. unfold updateProgress. rewrite bind_run. cbn [readThis fst snd].
  destruct (run (this w)) as [runId |].
  - unfold runService_updateProgress. apply Inv_report; [| exact H]. reflexivity.
  - exact H.
Qed.

Lemma progressEvery_inv (n : Z) (base : list RunWrite) (k : nat) (clean : bool) (w : World) :
  Inv base k clean w -> Inv base k clean (snd (progressEvery n w)).
Proof.
  intro H. unfold progressEvery. rewrite bind_run. cbn [readThis fst snd].
  destruct (processed (this w) mod n =? 0); [apply updateProgress_inv |]; exact H.
Qed.

Lemma recordError_inv (message : string) (base : list RunWrite) (k : nat) (clean : bool)
    (w : World) :
  Inv base k clean w -> Inv base 0 false (snd (recordError message w)).
Proof.
  intros [seg [H1 [H2 [H3 [H4 _]]]]].
  unfold recordError. rewrite !bind_run.
  apply updateProgress_inv.
  exists seg. cbn. unfold errorCount in *. cbn.
  rewrite length_app. cbn [List.length].
  split; [exact H1 |].
  split; [eapply nondecreasing_last_up; [exact H2 | unfold le3, countersOf; cbn; lia] |].
  split; [eapply Forall_balanced_mono; [| exact H3]; lia |].
  split; [lia | discriminate].
Qed.

(** *** Computations that do not touch the stage object or the log *)

Lemma quiet_ret {A} (a : A) : quiet (ret a).
Proof. intro w. split; reflexivity. Qed.

Lemma quiet_bind {A B} (m : M A) (k : A -> M B) :
  quiet m -> (forall a, quiet (k a)) -> quiet (bind m k).
Proof.
  intros Hm Hk w. rewrite bind_run.
  destruct (Hk (fst (m w)) (snd (m w))) as [H1 H2].
  destruct (Hm w) as [H3 H4]. split; congruence.
Qed.

Lemma quiet_dateNow : quiet dateNow.
Proof. intro w. split; reflexivity. Qed.

Lemma quiet_readLeads : quiet readLeads.
Proof. intro w. split; reflexivity. Qed.

Lemma quiet_writeLeads (f : list Row -> list Row) : quiet (writeLeads f).
Proof. intro w. split; reflexivity. Qed.

Ltac quiet_tac :=
  repeat first
    [ apply quiet_ret
    | apply quiet_dateNow
    | apply quiet_readLeads
    | apply quiet_writeLeads
    | assumption
    | apply quiet_bind; [| intro]
    | match goal with
      | |- quiet (match ?x with _ => _ end) => destruct x
      end ].

Lemma quiet_getById (id : string) : quiet (getById id).
Proof. unfold getById. quiet_tac. Qed.

Lemma quiet_upsert (lead : PartialLead) : quiet (upsert lead).
Proof. unfold upsert. pose proof (quiet_getById (p_leadId lead)). quiet_tac. Qed.

Lemma quiet_updateStatus (id : string) (s : LeadStatus) : quiet (updateStatus id s).
Proof. unfold updateStatus. quiet_tac. Qed.

Lemma quiet_exclude (id : string) (r : ExclusionReason) : quiet (exclude id r).
Proof. unfold exclude. quiet_tac. Qed.

Lemma quiet_setCooldown (id : string) (t : Z) : quiet (setCooldown id t).
Proof. unfold setCooldown. quiet_tac. Qed.

Lemma quiet_updateAngles (id : string) (a e : list AngleType) : quiet (updateAngles id a e).
Proof. unfold updateAngles. quiet_tac. Qed.

Lemma quiet_updateEnrichment (id : string) (d : EnrichmentData) :
  quiet (updateEnrichment id d).
Proof. unfold updateEnrichment. quiet_tac. Qed.

Lemma quiet_updateScore (id : string) (sc : Z) (rs : list ScoreReason) :
  quiet (updateScore id sc rs).
Proof. unfold updateScore. quiet_tac. Qed.

Lemma quiet_markOutput (id : string) : quiet (markOutput id).
Proof. unfold markOutput. quiet_tac. Qed.

Lemma quiet_createFromRaw (raw : RawBusinessData) (source runId : string) :
  quiet (createFromRaw raw source runId).
Proof. unfold createFromRaw. apply quiet_upsert. Qed.

Lemma quiet_addEnrichmentFailure (id : string) (f : EnrichmentFailure) :
  quiet (addEnrichmentFailure id f).
Proof. unfold addEnrichmentFailure. pose proof (quiet_getById id). quiet_tac. Qed.

Lemma quiet_getLeadsForStage (stage : string) (limit : Js.opt Z) :
  quiet (getLeadsForStage stage limit).
Proof. unfold getLeadsForStage. quiet_tac. Qed.

Lemma quiet_getExpiredCooldowns (limit : Js.opt Z) : quiet (getExpiredCooldowns limit).
Proof. unfold getExpiredCooldowns. quiet_tac. Qed.

Lemma quiet_addBulk (records : list RawBusinessData) : quiet (addBulk records).
Proof. unfold addBulk. quiet_tac. Qed.

Lemma quiet_isOutdatedWebsite (cfg : Config) (lead : Lead) :
  quiet (isOutdatedWebsite cfg lead).
Proof. unfold isOutdatedWebsite. quiet_tac. Qed.

Lemma quiet_scoreLead (cfg : Config) (lead : Lead) : quiet (scoreLead cfg lead).
Proof.
  unfold scoreLead. cbv zeta. pose proof (quiet_isOutdatedWebsite cfg lead). quiet_tac.
Qed.

Lemma quiet_enrichLead (scrape : string -> Scrape) (lead : Lead) :
  quiet (enrichLead scrape lead).
Proof.
  unfold enrichLead. cbv zeta.
  pose proof quiet_upsert. pose proof quiet_updateEnrichment.
  pose proof quiet_updateStatus. pose proof quiet_addEnrichmentFailure.
  quiet_tac.
Qed.

Create HintDb quiet.

#[local] Hint Resolve quiet_getById quiet_upsert quiet_updateStatus quiet_exclude
  quiet_setCooldown quiet_updateAngles quiet_updateEnrichment quiet_updateScore
  quiet_markOutput quiet_createFromRaw quiet_addEnrichmentFailure
  quiet_getLeadsForStage quiet_getExpiredCooldowns quiet_addBulk quiet_scoreLead
  quiet_enrichLead quiet_dateNow quiet_ret : quiet.

(** One step backwards through a sequence of statements. *)
Ltac inv_step :=
  first
    [ assumption
    | apply incPassed_inv
    | apply incFailed_inv
    | apply incProcessed_inv
    | apply progressEvery_inv
    | apply updateProgress_inv
    | apply Inv_quiet; [solve [auto with quiet] |] ].

Lemma forEach_inv {A} (xs : list A) (body : A -> M unit)
    (base : list RunWrite) (clean : bool) :
  (forall x w, Inv base 0 clean w -> Inv base 0 clean (snd (body x w))) ->
  forall w, Inv base 0 clean w -> Inv base 0 clean (snd (forEach xs body w)).
Proof.
  intro Hbody. induction xs as [| x xs IH]; intros w H; cbn [forEach].
  - exact H.
  - rewrite bind_run. apply IH. apply Hbody. exact H.
Qed.

Lemma overStageLeads_inv (stage : string) (limit : Js.opt Z) (turn : Lead -> M unit)
    (base : list RunWrite) (clean : bool) :
  (forall x w, Inv base 0 clean w -> Inv base 0 clean (snd (turn x w))) ->
  forall w, Inv base 0 clean w ->
            Inv base 0 clean (snd (overStageLeads stage limit turn w)).
Proof.
  intros Hturn w H. unfold overStageLeads. rewrite bind_run.
  assert (H1 : Inv base 0 clean (snd (getLeadsForStage stage limit w)))
    by (apply Inv_quiet; auto with quiet).
  destruct (fst (getLeadsForStage stage limit w)) as [selected | m |].
  - rewrite bind_run. cbn [ret snd]. apply forEach_inv; assumption.
  - exact H1.
  - exact H1.
Qed.

(** *** The turns of the seven stages *)

Lemma scoreTurn_inv (cfg : Config) (lead : Lead) (base : list RunWrite) (clean : bool)
    (w : World) :
  Inv base 0 clean w -> Inv base 0 clean (snd (scoreTurn cfg lead w)).
Proof.
  intro H. unfold scoreTurn. rewrite !bind_run.
  set (result := fst (scoreLead cfg lead (snd (incProcessed w)))).
  destruct (Qltb (inject_Z (sr_score result)) (thresholds_minScore cfg)).
  - rewrite !bind_run. repeat inv_step.
  - destruct (remainingAngles result lead).
    + rewrite !bind_run.
      apply incFailed_inv.
      apply Inv_quiet; [auto with quiet |].
      apply Inv_quiet; [auto with quiet |].
      apply Inv_quiet; [auto with quiet |].
      apply incProcessed_inv. exact H.
    + rewrite !bind_run.
      apply progressEvery_inv.
      apply incPassed_inv.
      apply Inv_quiet; [auto with quiet |].
      apply Inv_quiet; [auto with quiet |].
      apply Inv_quiet; [auto with quiet |].
      apply Inv_quiet; [auto with quiet |].
      apply incProcessed_inv. exact H.
Qed.

Lemma filterTurn_inv (rt : Runtime) (cfg : Config) (lead : Lead)
    (base : list RunWrite) (clean : bool) (w : World) :
  Inv base 0 clean w -> Inv base 0 clean (snd (filterTurn rt cfg lead w)).
Proof.
  intro H. unfold filterTurn. cbv zeta. rewrite !bind_run.
  apply progressEvery_inv.
  destruct (evaluateLead _ _ _ _ _).
  - rewrite !bind_run. repeat inv_step.
  - rewrite !bind_run.
    match goal with
    | |- context [fst (?m ?w0)] =>
        assert (Hq : quiet m)
          by (destruct (cooldownUntil lead) as [| | until];
              [apply quiet_ret | apply quiet_ret |];
              destruct (until =? 0); quiet_tac)
    end.
    match goal with
    | |- Inv _ _ _ (snd ((if ?b then _ else _) _)) => destruct b
    end.
    + apply incFailed_inv. apply Inv_quiet; [exact Hq |]. repeat inv_step.
    + rewrite !bind_run. apply incPassed_inv. apply Inv_quiet; [auto with quiet |].
      apply Inv_quiet; [exact Hq |]. repeat inv_step.
Qed.

Lemma enrichTurn_inv (scrape : string -> Scrape) (lead : Lead)
    (base : list RunWrite) (clean : bool) (w : World) :
  Inv base 0 clean w -> Inv base 0 clean (snd (enrichTurn scrape lead w)).
Proof.
  intro H. unfold enrichTurn. rewrite !bind_run. repeat inv_step.
Qed.

Lemma outputTurn_inv (cfg : Config) (lead : Lead) (base : list RunWrite) (clean : bool)
    (w : World) :
  Inv base 0 clean w -> Inv base 0 clean (snd (outputTurn cfg lead w)).
Proof.
  intro H. unfold outputTurn. rewrite !bind_run. repeat inv_step.
Qed.

Lemma expiredTurn_inv (cfg : Config) (lead : Lead) (base : list RunWrite) (clean : bool)
    (w : World) :
  Inv base 0 clean w -> Inv base 0 clean (snd (expiredTurn cfg lead w)).
Proof.
  intro H. unfold expiredTurn. cbv zeta. rewrite !bind_run.
  apply incPassed_inv. apply Inv_quiet; [auto with quiet |].
  destruct (refresh_resetExhaustedAngles cfg); repeat inv_step.
Qed.

Lemma signalTurn_inv (cfg : Config) (lead : Lead) (base : list RunWrite) (clean : bool)
    (w : World) :
  Inv base 0 clean w -> Inv base 0 clean (snd (signalTurn cfg lead w)).
Proof.
  intro H. unfold signalTurn. rewrite !bind_run.
  destruct (checkSignalChanges cfg lead); rewrite !bind_run.
  - repeat inv_step.
  - cbn [ret snd]. apply Inv_quiet; [auto with quiet |].
    apply (Inv_slack base 1 0); [lia |]. repeat inv_step.
Qed.

Lemma collectTurn_inv (runId : string) (seen : list string) (d : RawDiscovery)
    (base : list RunWrite) (clean : bool) (w : World) :
  Inv base 0 clean w -> Inv base 0 clean (snd (collectTurn runId seen d w)).
Proof.
  intro H. unfold collectTurn. cbv zeta. rewrite !bind_run.
  destruct (existsb _ seen).
  - cbn [ret snd]. apply (Inv_slack base 1 0); [lia |]. repeat inv_step.
  - rewrite !bind_run. cbn [ret snd]. repeat inv_step.
Qed.

Lemma collectBatch_inv (runId : string) (batch : list RawDiscovery)
    (base : list RunWrite) (clean : bool) :
  forall (seen : list string) (w : World),
    Inv base 0 clean w -> Inv base 0 clean (snd (collectBatch runId seen batch w)).
Proof.
  induction batch as [| d batch IH]; intros seen w H; cbn [collectBatch].
  - exact H.
  - rewrite bind_run. apply IH. apply collectTurn_inv. exact H.
Qed.

Lemma collectBatches_inv (runId : string) (batches : list (list RawDiscovery))
    (base : list RunWrite) (clean : bool) :
  forall (seen : list string) (w : World),
    Inv base 0 clean w -> Inv base 0 clean (snd (collectBatches runId seen batches w)).
Proof.
  induction batches as [| b batches IH]; intros seen w H; cbn [collectBatches].
  - exact H.
  - rewrite !bind_run. apply IH. apply updateProgress_inv.
    apply collectBatch_inv. exact H.
Qed.

(** The loop over one source: [batch] counts as taken but not yet stored. *)
Lemma sourceLoop_inv (cfg : Config) (limit : Js.opt Z) (steps : list GenStep)
    (base : list RunWrite) :
  forall (batch : list RawBusinessData) (total : Z) (w : World),
    Inv base (List.length batch) false w ->
    Inv base 0 false (snd (sourceLoop cfg limit steps batch total w)).
Proof.
  assert (Hflush : forall (batch : list RawBusinessData) (total : Z) (w : World),
    Inv base (List.length batch) false w ->
    Inv base 0 false
      (snd (match batch with
            | [] => ret total
            | _ => count <- addBulk batch ;; addPassed count ;;; ret (total + count)
            end w))).
  { intros batch total w H. destruct batch as [| b batch].
    - exact H.
    - rewrite !bind_run. cbn [ret snd].
      change (fst (addBulk (b :: batch) w)) with (Z.of_nat (List.length (b :: batch))).
      apply addPassed_inv. rewrite Nat.add_0_r.
      apply Inv_quiet; [auto with quiet | exact H]. }
  induction steps as [| step steps IH]; intros batch total w H.
  - cbn [sourceLoop]. apply Hflush. exact H.
  - cbn [sourceLoop]. destruct step as [business | message].
    + rewrite bind_run.
      assert (H1 : Inv base (List.length (batch ++ [business])) false (snd (incProcessed w))).
      { rewrite length_app. cbn [List.length]. rewrite Nat.add_1_r.
        apply incProcessed_inv. exact H. }
      set (w1 := snd (incProcessed w)) in *.
      set (batch1 := (batch ++ [business])%list) in *.
      rewrite bind_run.
      destruct (pipeline_batchSize cfg <=? Z.of_nat (List.length batch1)).
      * rewrite !bind_run. cbn [ret fst snd].
        change (fst (addBulk batch1 w1)) with (Z.of_nat (List.length batch1)).
        set (w2 := snd (updateProgress
                          (snd (addPassed (Z.of_nat (List.length batch1))
                                  (snd (addBulk batch1 w1)))))).
        assert (H2 : Inv base 0 false w2).
        { subst w2. apply updateProgress_inv. apply addPassed_inv.
          rewrite Nat.add_0_r. apply Inv_quiet; [auto with quiet | exact H1]. }
        destruct (reached limit _).
        -- exact H2.
        -- apply IH. exact H2.
      * cbn [ret fst snd].
        destruct (reached limit _).
        -- apply Hflush. exact H1.
        -- apply IH. exact H1.
    + rewrite bind_run. cbn [ret snd]. eapply recordError_inv. exact H.
Qed.

Lemma sourcesLoop_inv (cfg : Config) (handlers : string -> option SourceHandler)
    (limit : Js.opt Z) (srcs : list SourceConfig) (base : list RunWrite) :
  forall (total : Z) (w : World),
    Inv base 0 false w ->
    Inv base 0 false (snd (sourcesLoop cfg handlers limit srcs total w)).
Proof.
  induction srcs as [| source srcs IH]; intros total w H; cbn [sourcesLoop].
  - exact H.
  - destruct (reached limit total); [exact H |].
    destruct (handlers (src_type source)) as [handler |]; [| apply IH; exact H].
    rewrite bind_run. apply IH. apply (sourceLoop_inv cfg limit _ base [] total w). exact H.
Qed.

(** *** The stages *)

Lemma executeOf_inv (cfg : Config) (c : StageCall) (base : list RunWrite) (w : World) :
  Inv base 0 (negb (isDiscover c)) w ->
  Inv base 0 (negb (isDiscover c)) (snd (executeOf cfg c w)).
Proof.
  intro H. destruct c; cbn [executeOf isDiscover negb] in *.
  - unfold DiscoverStage_execute. cbv zeta. rewrite bind_run. cbn [ret snd].
    apply sourcesLoop_inv. exact H.
  - unfold CollectStage_execute.
    destruct (chunk discoveries (pipeline_batchSize cfg)) as [batches |]; [| exact H].
    rewrite !bind_run. cbn [ret snd].
    apply collectBatches_inv.
    unfold getRunId. rewrite bind_run. exact H.
  - unfold FilterStage_execute. apply overStageLeads_inv; [| exact H].
    intros. apply filterTurn_inv. assumption.
  - unfold EnrichStage_execute. apply overStageLeads_inv; [| exact H].
    intros. apply enrichTurn_inv. assumption.
  - unfold ScoreStage_execute. apply overStageLeads_inv; [| exact H].
    intros. apply scoreTurn_inv. assumption.
  - unfold OutputStage_execute. rewrite bind_run.
    assert (H1 : Inv base 0 true (snd (getLeadsForStage "output" (stageLimit cfg limit) w)))
      by (apply Inv_quiet; auto with quiet).
    destruct (fst (getLeadsForStage "output" (stageLimit cfg limit) w))
      as [allLeads | m |]; [| exact H1 | exact H1].
    destruct (filter _ allLeads) as [| l ls] eqn:E; [exact H1 |].
    rewrite !bind_run. cbn [ret snd].
    apply forEach_inv.
    + intros. apply outputTurn_inv. assumption.
    + apply Inv_quiet; [auto with quiet | exact H1].
  - unfold RefreshStage_execute.
    destruct (negb (refresh_enabled cfg)); [exact H |].
    rewrite !bind_run. cbn [ret snd].
    assert (H1 : Inv base 0 true
                   (snd ((if refresh_cooldownExpiryCheckEnabled cfg
                          then processExpiredCooldowns cfg (stageLimit cfg limit) ;;; ret tt
                          else ret tt) w))).
    { destruct (refresh_cooldownExpiryCheckEnabled cfg); [| exact H].
      unfold processExpiredCooldowns. rewrite !bind_run. cbn [ret snd].
      apply forEach_inv.
      - intros. apply expiredTurn_inv. assumption.
      - apply Inv_quiet; [auto with quiet | exact H]. }
    destruct (refresh_signalChangeCheckEnabled cfg); [| exact H1].
    unfold processSignalChanges. rewrite !bind_run. cbn [ret snd readLeads fst].
    apply forEach_inv.
    + intros. apply signalTurn_inv. assumption.
    + apply Inv_quiet; [auto with quiet | exact H1].
Qed.

(** No stage throws out of [execute] in this model. *)
Lemma executeOf_not_thrown (cfg : Config) (c : StageCall) (w : World) (m : string) :
  fst (executeOf cfg c w) <> Thrown m.
Proof.
  destruct c; cbn [executeOf].
  - unfold DiscoverStage_execute. cbv zeta. rewrite bind_run. discriminate.
  - unfold CollectStage_execute.
    destruct (chunk discoveries (pipeline_batchSize cfg)); [| discriminate].
    rewrite !bind_run. discriminate.
  - unfold FilterStage_execute.
    rewrite (overStageLeads_returns "filter" _ _ [st_collected]); [discriminate | reflexivity].
  - unfold EnrichStage_execute.
    rewrite (overStageLeads_returns "enrich" _ _ [st_filtered]); [discriminate | reflexivity].
  - unfold ScoreStage_execute.
    rewrite (overStageLeads_returns "score" _ _ [st_enriched]); [discriminate | reflexivity].
  - unfold OutputStage_execute. unfold getLeadsForStage.
    change (statusMap "output") with (OwnEntry [st_scored]).
    rewrite !bind_run. cbn [ret fst snd].
    destruct (filter _ _); [discriminate |]. rewrite !bind_run. discriminate.
  - unfold RefreshStage_execute.
    destruct (negb (refresh_enabled cfg)); [discriminate |].
    rewrite !bind_run. discriminate.
Qed.

(** A discover run whose only source fails at once: the error is counted
    as failed although no record was processed, and the progress report
    of [recordError] shows processed 0, passed 0, failed 1. *)
Lemma discover_source_error_unbalanced :
  let w := snd (runCall sampleSources
                  (CallDiscover sampleHandlers Js.Undefined Js.Undefined)
                  "run_x" (sampleWorld [])) in
  runLog w = [ RunStart "run_x" "discover" 1700000001000;
               RunProgress "run_x" 0 0 1;
               RunComplete "run_x" 1700000002000 0 0 1 ]
  /\ observations (0, 0, 0) (runLog w) = [(0, 0, 0); (0, 0, 1); (0, 0, 1)]
  /\ ~ (Forall (fun o : Counters => fst (fst o) >= snd (fst o) + snd o)
               (observations (0, 0, 0) (runLog w))).
Proof.
  cbv zeta. split; [vm_compute; reflexivity |].
  split; [vm_compute; reflexivity |].
  intro H.
  assert (E : observations (0, 0, 0)
                (runLog (snd (runCall sampleSources
                                (CallDiscover sampleHandlers Js.Undefined Js.Undefined)
                                "run_x" (sampleWorld []))))
              = [(0, 0, 0); (0, 0, 1); (0, 0, 1)]) by (vm_compute; reflexivity).
  rewrite E in H. inversion H as [| ? ? _ H1]; subst.
  inversion H1 as [| ? ? H2 _]; subst. cbn in H2. lia.
Qed.

Lemma start_inv (stageName newRunId : string) (w0 : World) :
  this w0 = newStage ->
  Inv (runLog w0) 0 true
    (snd (writeThis (setRun (Some newRunId))
            (snd (runService_start newRunId stageName w0)))).
Proof.
  intro Hfresh.
  exists [RunStart newRunId stageName (clock w0 (S (ticks w0)))].
  unfold runService_start. rewrite !bind_run. cbn. rewrite Hfresh. cbn.
  split; [reflexivity |].
  split; [unfold le3; cbn; lia |].
  split; [constructor; [unfold balanced; cbn; lia | constructor] |].
  split; [lia | reflexivity].
Qed.

(** C8, as the code has it. In every stage run the rows that the table
    [runs] shows for the run, from its insertion to its completion, have
    counters that never decrease, and in every one of them
    passed + failed <= processed + (number of errors recorded by the end).
    Outside the discover stage no error is recorded, so there
    processed >= passed + failed holds in every row. *)
Theorem run_counters_nondecreasing
    (cfg : Config) (c : StageCall) (newRunId : string) (w0 : World)
    (Hfresh : this w0 = newStage) :
  let w := snd (runCall cfg c newRunId w0) in
  exists seg,
    runLog w = (runLog w0 ++ seg)%list
    /\ nondecreasing (0, 0, 0) (observations (0, 0, 0) seg)
    /\ Forall (balanced (errorCount (this w))) (observations (0, 0, 0) seg)
    /\ (isDiscover c = false ->
        errors (this w) = []
        /\ Forall (fun o : Counters => fst (fst o) >= snd (fst o) + snd o)
                  (observations (0, 0, 0) seg)).
Proof.
  cbv zeta.
  assert (HI : Inv (runLog w0) 0 (negb (isDiscover c)) (snd (runCall cfg c newRunId w0))).
  { unfold runCall, runStage. rewrite !bind_run.
    change (fst (runService_start newRunId (stageNameOf c) w0)) with newRunId.
    set (w1 := snd (writeThis (setRun (Some newRunId))
                      (snd (runService_start newRunId (stageNameOf c) w0)))).
    assert (H1 : Inv (runLog w0) 0 (negb (isDiscover c)) w1).
    { pose proof (start_inv (stageNameOf c) newRunId w0 Hfresh) as H.
      fold w1 in H. destruct (isDiscover c); cbn [negb]; [| exact H].
      apply (Inv_weaken _ 0 0 true); [lia | exact H]. }
    pose proof (executeOf_inv cfg c (runLog w0) w1 H1) as H2.
    pose proof (executeOf_not_thrown cfg c w1) as Hnt.
    destruct (fst (executeOf cfg c w1)) as [[] | m |].
    - rewrite !bind_run. cbn [ret readThis fst snd].
      unfold runService_complete. rewrite bind_run.
      apply Inv_report; [reflexivity |]. cbn [dateNow snd]. 
      eapply Inv_same; [| | exact H2]; reflexivity.
    - exfalso. exact (Hnt m eq_refl).
    - exact H2. }
  destruct HI as [seg [H1 [H2 [H3 [_ H5]]]]].
  exists seg. split; [exact H1 |].
  split; [eapply nondecreasing_init; exact H2 |].
  split; [exact H3 |].
  intro Hd. rewrite Hd in H5. cbn [negb] in H5. specialize (H5 eq_refl).
  split; [exact H5 |].
  unfold errorCount in H3. rewrite H5 in H3. cbn [List.length Z.of_nat] in H3.
  eapply Forall_impl; [| exact H3]. intros o Ho. unfold balanced in Ho. lia.
Qed.

Lemma run_counters_nondecreasing_witness :
  exists seg,
    runLog (snd (runCall DEFAULT_CONFIG (CallScore (Js.Val 10)) "run_y"
                   (sampleWorld [exhaustedRow])))
      = ([] ++ seg)%list
    /\ nondecreasing (0, 0, 0) (observations (0, 0, 0) seg)
    /\ Forall (fun o : Counters => fst (fst o) >= snd (fst o) + snd o)
              (observations (0, 0, 0) seg).
Proof.
  destruct (run_counters_nondecreasing DEFAULT_CONFIG (CallScore (Js.Val 10)) "run_y"
              (sampleWorld [exhaustedRow]) eq_refl) as [seg [H1 [H2 [_ H4]]]].
  exists seg. split; [exact H1 |]. split; [exact H2 |].
  exact (proj2 (H4 eq_refl)).
Defined.

(* ================================================================== *)
(** * Further properties of the lead service *)

Lemma updateWhereId_absent (id : string) (g : Row -> Row) (rows : list Row) :
  selectById id rows = None -> updateWhereId id g rows = rows.
Proof.
  unfold selectById, updateWhereId.
  induction rows as [| r rows IH]; intro H; [reflexivity |].
  cbn [find map] in *. destruct (String.eqb (lead_id r) id); [discriminate |].
  f_equal. auto.
Qed.

Lemma getById_run (id : string) (w : World) :
  getById id w = (option_map rowToLead (selectById id (leads w)), w).
Proof. reflexivity. Qed.

Lemma stampedWrite_upsert (lead : PartialLead) (w : World) :
  stampedWrite (Some (p_leadId lead)) w (snd (upsert lead w)).
Proof.
  unfold stampedWrite. cbv zeta.
  destruct (upsert_ticks lead w) as [HT [HC _]].
  split; [exact HC |]. split; [right; exact HT |].
  rewrite upsert_leads.
  destruct (selectById (p_leadId lead) (leads w)) as [r0 |] eqn:E.
  - exists (p_leadId lead),
      (upsertAssign (mergeLead (rowToLead r0) lead (clock w (ticks w)))), [].
    split; [| split; [rewrite app_nil_r; reflexivity | left; split; [reflexivity |]]].
    + intro r. unfold touches, keepsIdentity. cbn. repeat split; auto.
    + intros id' Hid. injection Hid as <-. rewrite E. discriminate.
  - exists (p_leadId lead), (set_updated_at (clock w (ticks w))),
      [insertRow (newLeadOf lead (clock w (ticks w)))].
    split; [| split].
    + intro r. unfold touches, keepsIdentity. cbn. repeat split; auto.
    + rewrite (updateWhereId_absent _ _ _ E). reflexivity.
    + right. eexists. split; [reflexivity |]. cbn. repeat split; auto.
Qed.

Lemma stampedWrite_update (id : string) (g : Z -> Row -> Row) (w : World) :
  (forall now r, touches now r (g now r)) ->
  stampedWrite None w
    (snd ((now <- dateNow ;; writeLeads (updateWhereId id (g now))) w)).
Proof.
  intro Hg. unfold stampedWrite. cbn.
  split; [reflexivity |]. split; [right; reflexivity |].
  exists id, (g (clock w (ticks w))), [].
  split; [apply Hg | split; [rewrite app_nil_r; reflexivity | left; split; [reflexivity |]]].
  intros id' Hid. discriminate.
Qed.

Lemma stampedWrite_skip (id : string) (w : World) :
  selectById id (leads w) = None -> stampedWrite None w w.
Proof.
  intro E. unfold stampedWrite. cbv zeta.
  split; [reflexivity |]. split; [left; reflexivity |].
  exists id, (set_updated_at (clock w (ticks w))), [].
  split; [| split; [| left; split; [reflexivity | intros id' Hid; discriminate]]].
  - intro r. unfold touches, keepsIdentity. cbn. repeat split; auto.
  - rewrite (updateWhereId_absent _ _ _ E), app_nil_r. reflexivity.
Qed.

Ltac touch_tac := intros ? ?; unfold touches, keepsIdentity; cbn; repeat split; auto.

Lemma perform_shape (c : ServiceCall) (w : World) :
  stampedWrite (insertedId c) w (snd (perform c w)).
Proof.
  destruct c as [lead | raw source runId | id s | id why | id until | id result
                | id active exhausted | id angle | id data | id failure | id sc rs | id];
    cbn [perform insertedId].
  - rewrite bind_run. apply stampedWrite_upsert.
  - rewrite bind_run. apply (stampedWrite_upsert (partialOfRaw raw source runId)).
  - apply (stampedWrite_update id (fun now r => set_updated_at now (set_status s r))).
    touch_tac.
  - apply (stampedWrite_update id (fun now r =>
      set_updated_at now (set_status st_excluded (set_excluded_reason (Some why) r)))).
    touch_tac.
  - apply (stampedWrite_update id (fun now r =>
      set_updated_at now (set_status st_cooldown (set_cooldown_until (Some until) r)))).
    touch_tac.
  - apply (stampedWrite_update id (fun now r =>
      set_updated_at now
        (set_last_contact_result (Some result) (set_last_contact_attempt (Some now) r)))).
    touch_tac.
  - apply (stampedWrite_update id (fun now r =>
      set_updated_at now (set_exhausted_angles exhausted (set_active_angles active r)))).
    touch_tac.
  - unfold exhaustAngle. rewrite bind_run, getById_run. cbn [fst snd].
    destruct (selectById id (leads w)) as [r0 |] eqn:E; cbn [option_map].
    + apply (stampedWrite_update id (fun now r =>
        set_updated_at now
          (set_exhausted_angles
             (uniqueAngles [] (exhaustedAngles (rowToLead r0) ++ [angle]))
             (set_active_angles
                (filter (fun a => negb (AngleType_eqb a angle)) (activeAngles (rowToLead r0)))
                r)))).
      touch_tac.
    + apply (stampedWrite_skip id w E).
  - apply (stampedWrite_update id (fun now r =>
      set_updated_at now (set_enrichment_data (Some data) r))).
    touch_tac.
  - unfold addEnrichmentFailure. rewrite bind_run, getById_run. cbn [fst snd].
    destruct (selectById id (leads w)) as [r0 |] eqn:E; cbn [option_map].
    + apply (stampedWrite_update id (fun now r =>
        set_updated_at now
          (set_enrichment_failures (enrichmentFailures (rowToLead r0) ++ [failure]) r))).
      touch_tac.
    + apply (stampedWrite_skip id w E).
  - apply (stampedWrite_update id (fun now r =>
      set_updated_at now (set_score_reasons (Some rs) (set_score (Some sc) r)))).
    touch_tac.
  - apply (stampedWrite_update id (fun now r =>
      set_updated_at now (set_last_output_at (Some now) (set_status st_output r)))).
    touch_tac.
Qed.

(** X1. No write of the lead service deletes or reorders a row, and none
    changes a row's [lead_id], [first_seen_at] or [created_at]: the row at
    each position is still there afterwards with those three columns as
    they were. *)
Theorem service_call_keeps_rows (c : ServiceCall) (w : World) (i : nat) (r : Row) :
  nth_error (leads w) i = Some r ->
  exists r', nth_error (leads (snd (perform c w))) i = Some r' /\ keepsIdentity r r'.
Proof.
  intro H. destruct (perform_shape c w) as [_ [_ [id [g [extra [Hg [HL _]]]]]]].
  rewrite HL. rewrite nth_error_app1.
  - unfold updateWhereId. rewrite nth_error_map, H. cbn [option_map].
    eexists. split; [reflexivity |].
    destruct (String.eqb (lead_id r) id); [apply Hg | unfold keepsIdentity; auto].
  - unfold updateWhereId. rewrite length_map. apply nth_error_Some. congruence.
Qed.

Lemma service_call_keeps_rows_witness :
  exists r',
    nth_error (leads (snd (perform (DoMarkOutput "a1")
                             (sampleWorld [sampleRow "a1" "Acme" st_scored])))) 0 = Some r'
    /\ keepsIdentity (sampleRow "a1" "Acme" st_scored) r'.
Proof.
  apply (service_call_keeps_rows (DoMarkOutput "a1")
           (sampleWorld [sampleRow "a1" "Acme" st_scored]) 0).
  reflexivity.
Defined.

(** X2. A write of the lead service keeps the ids of the table distinct:
    the insert branch of [upsert] is only taken for an id that no row
    carries. *)
Theorem service_call_keeps_ids_unique (c : ServiceCall) (w : World) :
  NoDup (map lead_id (leads w)) ->
  NoDup (map lead_id (leads (snd (perform c w)))).
Proof.
  intro Hnd. destruct (perform_shape c w) as [_ [_ [id [g [extra [Hg [HL Hex]]]]]]].
  rewrite HL, map_app, updateWhereId_ids by (intro r; apply Hg).
  destruct Hex as [[-> _] | [r [-> [_ [Hnone _]]]]].
  - cbn [map]. rewrite app_nil_r. exact Hnd.
  - cbn [map]. apply NoDup_app.
    + exact Hnd.
    + repeat constructor. intros [].
    + intros x Hx [Hx' | []]. subst x.
      apply (selectById_none _ _ Hnone). exact Hx.
Qed.

Lemma service_call_keeps_ids_unique_witness :
  NoDup (map lead_id
           (leads (snd (perform (DoCreateFromRaw sampleRaw "yelp" "run_a")
                          (sampleWorld [sampleRow "a1" "Acme" st_scored]))))).
Proof.
  apply (service_call_keeps_ids_unique (DoCreateFromRaw sampleRaw "yelp" "run_a")
           (sampleWorld [sampleRow "a1" "Acme" st_scored])).
  cbn. repeat constructor. intros [].
Defined.

(** X3. The table grows only by [upsert] or [createFromRaw] of an id it does
    not hold, and then by exactly one row; every other write, and an upsert
    of a known id, leaves the number of rows as it was. *)
Theorem service_call_row_count (c : ServiceCall) (w : World) :
  List.length (leads (snd (perform c w))) =
    match insertedId c with
    | Some id =>
        match selectById id (leads w) with
        | None => S (List.length (leads w))
        | Some _ => List.length (leads w)
        end
    | None => List.length (leads w)
    end.
Proof.
  destruct (perform_shape c w) as [_ [_ [id [g [extra [Hg [HL Hex]]]]]]].
  rewrite HL, length_app. unfold updateWhereId. rewrite length_map.
  destruct Hex as [[-> Hpresent] | [r [-> [Hins [Hnone _]]]]].
  - cbn [List.length]. rewrite Nat.add_0_r.
    destruct (insertedId c) as [id' |]; [| reflexivity].
    specialize (Hpresent id' eq_refl).
    destruct (selectById id' (leads w)); [reflexivity | congruence].
  - rewrite Hins, Hnone. cbn [List.length]. lia.
Qed.

(** X4. Under a clock that never runs backward, a write of the lead service
    keeps the time columns of every row in order (first seen before last
    seen, created before updated, last seen before updated, nothing stamped
    after the clock), and moves no row's [last_seen_at] or [updated_at]
    back. *)
Theorem service_call_keeps_time_order (c : ServiceCall) (w : World) :
  monotoneClock w ->
  Forall (wellStamped (clock w (ticks w))) (leads w) ->
  Forall (wellStamped (clock (snd (perform c w)) (ticks (snd (perform c w)))))
         (leads (snd (perform c w)))
  /\ forall i r r',
       nth_error (leads w) i = Some r ->
       nth_error (leads (snd (perform c w))) i = Some r' ->
       last_seen_at r <= last_seen_at r' /\ updated_at r <= updated_at r'.
Proof.
  intros Hmono Hall.
  destruct (perform_shape c w) as [HC [HT [id [g [extra [Hg [HL Hex]]]]]]].
  set (w' := snd (perform c w)) in *.
  set (now := clock w (ticks w)) in *.
  assert (Hnow : now <= clock w' (ticks w')).
  { rewrite HC. apply Hmono. destruct HT as [-> | ->]; lia. }
  assert (Hrow : forall r, wellStamped now r ->
            wellStamped (clock w' (ticks w')) (if String.eqb (lead_id r) id then g r else r)
            /\ last_seen_at r <= last_seen_at (if String.eqb (lead_id r) id then g r else r)
            /\ updated_at r <= updated_at (if String.eqb (lead_id r) id then g r else r)).
  { intros r [H1 [H2 [H3 H4]]].
    destruct (String.eqb (lead_id r) id).
    - destruct (Hg r) as [[_ [Hf Hc]] [Hu Hl]].
      unfold wellStamped. rewrite Hf, Hc, Hu.
      destruct Hl as [-> | ->]; repeat split; lia.
    - unfold wellStamped. repeat split; lia. }
  split.
  - rewrite HL. apply Forall_app. split.
    + unfold updateWhereId. apply Forall_map.
      apply (Forall_impl _ (fun r Hr => proj1 (Hrow r Hr)) Hall).
    + destruct Hex as [[-> _] | [r [-> [_ [_ [H1 [H2 [H3 H4]]]]]]]]; [constructor |].
      constructor; [| constructor].
      unfold wellStamped. rewrite H1, H2, H3, H4. fold now. repeat split; lia.
  - intros i r r' Hr Hr'. rewrite HL in Hr'.
    rewrite nth_error_app1 in Hr'
      by (unfold updateWhereId; rewrite length_map; apply nth_error_Some; congruence).
    unfold updateWhereId in Hr'. rewrite nth_error_map, Hr in Hr'. cbn in Hr'.
    injection Hr' as <-.
    pose proof (proj1 (Forall_forall (wellStamped now) (leads w)) Hall r
                  (nth_error_In _ _ Hr)) as Hwell.
    destruct (Hrow r Hwell) as [_ Hle]. exact Hle.
Qed.

Lemma service_call_keeps_time_order_witness :
  Forall (wellStamped (sampleClock 1))
    (leads (snd (perform (DoUpsert (onlyId "a1"))
                   (sampleWorld [sampleRow "a1" "Acme" st_scored]))))
  /\ forall i r r',
       nth_error [sampleRow "a1" "Acme" st_scored] i = Some r ->
       nth_error (leads (snd (perform (DoUpsert (onlyId "a1"))
                                (sampleWorld [sampleRow "a1" "Acme" st_scored])))) i
         = Some r' ->
       last_seen_at r <= last_seen_at r' /\ updated_at r <= updated_at r'.
Proof.
  apply (service_call_keeps_time_order (DoUpsert (onlyId "a1"))
           (sampleWorld [sampleRow "a1" "Acme" st_scored])).
  - intros n m Hnm. change (sampleClock n <= sampleClock m). unfold sampleClock. lia.
  - repeat constructor; cbn [first_seen_at last_seen_at created_at updated_at sampleRow];
      change (clock _ _) with (sampleClock 0); unfold sampleClock; lia.
Defined.

Lemma selectById_app_other (other : string) (rows : list Row) (r : Row) :
  lead_id r <> other -> selectById other (rows ++ [r]) = selectById other rows.
Proof.
  intro Hne. unfold selectById.
  induction rows as [| x rows IH]; cbn [app find].
  - destruct (String.eqb (lead_id r) other) eqn:E; [| reflexivity].
    apply String.eqb_eq in E. contradiction.
  - destruct (String.eqb (lead_id x) other); [reflexivity | exact IH].
Qed.

(** X5. Insert and look up: after [upsert] of an id the table does not hold,
    [getById] finds a lead under that id whose status is the given one or
    [new], whose angle lists are the given ones or empty, and whose four
    time stamps are the clock reading of the call; the lead [upsert] hands
    back carries the same values; the lookup of every other id answers as
    before. *)
Theorem upsert_new_id_round_trip (lead : PartialLead) (w : World) :
  selectById (p_leadId lead) (leads w) = None ->
  (exists l,
      fst (getById (p_leadId lead) (snd (upsert lead w))) = Some l
      /\ leadId l = p_leadId lead
      /\ status l = spread st_new (p_status lead)
      /\ activeAngles l = spread [] (p_activeAngles lead)
      /\ exhaustedAngles l = spread [] (p_exhaustedAngles lead)
      /\ firstSeenAt l = clock w (ticks w) /\ lastSeenAt l = clock w (ticks w)
      /\ createdAt l = clock w (ticks w) /\ updatedAt l = clock w (ticks w)
      /\ status (fst (upsert lead w)) = status l
      /\ firstSeenAt (fst (upsert lead w)) = firstSeenAt l
      /\ updatedAt (fst (upsert lead w)) = updatedAt l)
  /\ forall other, other <> p_leadId lead ->
       fst (getById other (snd (upsert lead w))) = fst (getById other w).
Proof.
  intro E.
  assert (Hret : fst (upsert lead w) = newLeadOf lead (clock w (ticks w))).
  { unfold upsert. rewrite !bind_run, getById_run. cbn [fst snd dateNow leads].
    rewrite E. reflexivity. }
  split.
  - rewrite getById_run. cbn [fst]. rewrite upsert_leads, E.
    rewrite (selectById_app_new (p_leadId lead) (leads w)
               (insertRow (newLeadOf lead (clock w (ticks w)))) E eq_refl).
    eexists. split; [reflexivity |]. rewrite Hret. cbn. repeat split; reflexivity.
  - intros other Hne. rewrite !getById_run. cbn [fst]. rewrite upsert_leads, E.
    rewrite selectById_app_other; [reflexivity |]. cbn. congruence.
Qed.

Lemma upsert_new_id_round_trip_witness :
  (exists l,
      fst (getById "b2" (snd (upsert (onlyId "b2")
                                (sampleWorld [sampleRow "a1" "Acme" st_scored])))) = Some l
      /\ leadId l = "b2"
      /\ status l = st_new
      /\ activeAngles l = []
      /\ exhaustedAngles l = []
      /\ firstSeenAt l = 1700000000000 /\ lastSeenAt l = 1700000000000
      /\ createdAt l = 1700000000000 /\ updatedAt l = 1700000000000
      /\ status (fst (upsert (onlyId "b2")
                        (sampleWorld [sampleRow "a1" "Acme" st_scored]))) = status l
      /\ firstSeenAt (fst (upsert (onlyId "b2")
                             (sampleWorld [sampleRow "a1" "Acme" st_scored]))) = firstSeenAt l
      /\ updatedAt (fst (upsert (onlyId "b2")
                           (sampleWorld [sampleRow "a1" "Acme" st_scored]))) = updatedAt l)
  /\ forall other, other <> "b2" ->
       fst (getById other (snd (upsert (onlyId "b2")
                                  (sampleWorld [sampleRow "a1" "Acme" st_scored]))))
       = fst (getById other (sampleWorld [sampleRow "a1" "Acme" st_scored])).
Proof.
  apply (upsert_new_id_round_trip (onlyId "b2")
           (sampleWorld [sampleRow "a1" "Acme" st_scored])).
  reflexivity.
Defined.

(** A row read by [rowToLead] and written back by the update of [upsert]
    with no key but the id is the row it was, but for the two stamps. *)
Lemma upsertAssign_round_trip (id : string) (now : Z) (r : Row) :
  upsertAssign (mergeLead (rowToLead r) (onlyId id) now) r
  = set_updated_at now (set_last_seen_at now r).
Proof.
  destruct r. unfold upsertAssign, mergeLead, rowToLead, set_updated_at, set_last_seen_at.
  cbn. rewrite !toSql_ofSql.
  destruct enrichment_data0, score_reasons0; reflexivity.
Qed.

(** X6. An [upsert] that carries nothing but the id of a stored lead
    rewrites the row with what it read: every column comes back as it was,
    except [last_seen_at] and [updated_at], which take the clock reading. *)
Theorem upsert_id_only_refreshes_stamps (id : string) (w : World) (r : Row) :
  selectById id (leads w) = Some r ->
  selectById id (leads (snd (upsert (onlyId id) w))) =
    Some (set_updated_at (clock w (ticks w)) (set_last_seen_at (clock w (ticks w)) r)).
Proof.
  intro H. pose proof (upsert_selected (onlyId id) w r H) as Hs.
  cbn [p_leadId onlyId] in Hs. rewrite Hs. rewrite upsertAssign_round_trip. reflexivity.
Qed.

Lemma upsert_id_only_refreshes_stamps_witness :
  selectById "a1" (leads (snd (upsert (onlyId "a1")
                                 (sampleWorld [scoredRow "a1" "Acme" 70])))) =
    Some (set_updated_at 1700000000000
            (set_last_seen_at 1700000000000 (scoredRow "a1" "Acme" 70))).
Proof.
  apply (upsert_id_only_refreshes_stamps "a1" (sampleWorld [scoredRow "a1" "Acme" 70])).
  reflexivity.
Defined.

(* ================================================================== *)
(** * The refresh stage: the pass over signal changes *)

Lemma sameButSeen_refl (r : Row) : sameButSeen r r.
Proof. exists (last_seen_at r), (updated_at r). destruct r; reflexivity. Qed.

Lemma sameButSeen_trans (a b c : Row) : sameButSeen a b -> sameButSeen b c -> sameButSeen a c.
Proof.
  intros [s1 [u1 ->]] [s2 [u2 ->]]. exists s2, u2. destruct a; reflexivity.
Qed.

Lemma Forall2_sameButSeen_refl (l : list Row) : Forall2 sameButSeen l l.
Proof. induction l; constructor; [apply sameButSeen_refl | assumption]. Qed.

Lemma Forall2_sameButSeen_trans (a b c : list Row) :
  Forall2 sameButSeen a b -> Forall2 sameButSeen b c -> Forall2 sameButSeen a c.
Proof.
  intro H. revert c. induction H as [| x y a b Hxy Hab IH]; intros c Hc.
  - inversion Hc. constructor.
  - inversion Hc as [| ? z ? c' Hyz Hbc]; subst. constructor.
    + exact (sameButSeen_trans _ _ _ Hxy Hyz).
    + apply IH. exact Hbc.
Qed.

Lemma selectById_unique (id : string) (rows : list Row) (r0 r : Row) :
  NoDup (map lead_id rows) -> selectById id rows = Some r0 ->
  In r rows -> lead_id r = id -> r = r0.
Proof.
  unfold selectById. induction rows as [| x rows IH]; intros Hnd Hs Hin Hid; [destruct Hin |].
  cbn [map] in Hnd. inversion Hnd as [| ? ? Hnotin Hnd']; subst.
  cbn [find] in Hs. destruct Hin as [-> | Hin].
  - rewrite String.eqb_refl in Hs. congruence.
  - destruct (String.eqb (lead_id x) (lead_id r)) eqn:E.
    + apply String.eqb_eq in E. exfalso. apply Hnotin. rewrite E. apply in_map. exact Hin.
    + apply IH; auto.
Qed.

Lemma selectById_present (id : string) (rows : list Row) :
  In id (map lead_id rows) -> exists r, selectById id rows = Some r.
Proof.
  intro Hin. destruct (selectById id rows) as [r |] eqn:E; [eauto |].
  exfalso. exact (selectById_none _ _ E Hin).
Qed.

Lemma Forall2_map_self {A} (R : A -> A -> Prop) (h : A -> A) (l : list A) :
  (forall r, In r l -> R r (h r)) -> Forall2 R l (map h l).
Proof.
  induction l as [| x l IH]; intro Hall; cbn [map]; constructor.
  - apply Hall. left. reflexivity.
  - apply IH. intros r Hr. apply Hall. right. exact Hr.
Qed.

(** One turn of the pass: the table changes in two stamps of one row. *)
Lemma signalTurn_step (cfg : Config) (lead : Lead) (w : World) :
  NoDup (map lead_id (leads w)) ->
  In (leadId lead) (map lead_id (leads w)) ->
  Forall2 sameButSeen (leads w) (leads (snd (signalTurn cfg lead w)))
  /\ map lead_id (leads (snd (signalTurn cfg lead w))) = map lead_id (leads w)
  /\ processed (this (snd (signalTurn cfg lead w))) = processed (this w) + 1
  /\ passed (this (snd (signalTurn cfg lead w))) = passed (this w)
  /\ failed (this (snd (signalTurn cfg lead w))) = failed (this w).
Proof.
  intros Hnd Hin. unfold signalTurn, checkSignalChanges, incProcessed.
  rewrite !bind_run.
  set (w1 := snd (writeThis (fun t => setProcessed (processed t + 1) t) w)).
  assert (Hl1 : leads w1 = leads w) by reflexivity.
  destruct (selectById_present _ _ Hin) as [r0 Hr0].
  pose proof (upsert_leads (onlyId (leadId lead)) w1) as HL.
  destruct (upsert_ticks (onlyId (leadId lead)) w1) as [_ [_ [Hthis _]]].
  cbn [p_leadId onlyId] in HL. rewrite Hl1, Hr0 in HL.
  cbn [ret snd]. rewrite HL, Hthis. cbn [w1 writeThis snd this processed passed failed
                                         setProcessed].
  split; [| split; [| auto]].
  - unfold updateWhereId.
    assert (Hall : forall r, In r (leads w) ->
              sameButSeen r
                (if String.eqb (lead_id r) (leadId lead)
                 then upsertAssign (mergeLead (rowToLead r0) (onlyId (leadId lead))
                                      (clock w1 (ticks w1))) r
                 else r)).
    { intros r Hr. destruct (String.eqb (lead_id r) (leadId lead)) eqn:E.
      - apply String.eqb_eq in E.
        rewrite (selectById_unique _ _ _ _ Hnd Hr0 Hr E).
        rewrite upsertAssign_round_trip. eexists _, _. reflexivity.
      - apply sameButSeen_refl. }
    apply Forall2_map_self. exact Hall.
  - apply updateWhereId_ids. intro r. reflexivity.
Qed.

Lemma signalTurns_steps (cfg : Config) (ls : list Lead) (w : World) :
  NoDup (map lead_id (leads w)) ->
  Forall (fun l => In (leadId l) (map lead_id (leads w))) ls ->
  Forall2 sameButSeen (leads w) (leads (snd (forEach ls (signalTurn cfg) w)))
  /\ processed (this (snd (forEach ls (signalTurn cfg) w)))
     = processed (this w) + Z.of_nat (List.length ls)
  /\ passed (this (snd (forEach ls (signalTurn cfg) w))) = passed (this w)
  /\ failed (this (snd (forEach ls (signalTurn cfg) w))) = failed (this w).
Proof.
  revert w. induction ls as [| l ls IH]; intros w Hnd Hall.
  - cbn. repeat split; [apply Forall2_sameButSeen_refl | lia].
  - inversion Hall as [| ? ? Hl Hls]; subst.
    cbn [forEach]. rewrite bind_run.
    destruct (signalTurn_step cfg l w Hnd Hl) as [H2 [Hids [Hp [Hpa Hf]]]].
    set (w1 := snd (signalTurn cfg l w)) in *.
    destruct (IH w1) as [K2 [Kp [Kpa Kf]]].
    + rewrite Hids. exact Hnd.
    + rewrite Hids. exact Hls.
    + split; [exact (Forall2_sameButSeen_trans _ _ _ H2 K2) |].
      rewrite Kp, Kpa, Kf, Hp, Hpa, Hf. cbn [List.length]. repeat split; lia.
Qed.

Lemma limitRows_incl {A} (limit : Js.opt Z) (l : list A) (x : A) :
  In x (limitRows limit l) -> In x l.
Proof.
  unfold limitRows. destruct limit as [| | n]; auto.
  destruct (n <? 0); auto. intro H.
  rewrite <- (firstn_skipn (Z.to_nat n) l). apply in_or_app. left. exact H.
Qed.

(** X7. The pass of the refresh stage over signal changes detects none:
    on a table with distinct ids it reports no lead as refreshed, changes
    no column of any row but [last_seen_at] and [updated_at], and counts
    every lead it checks as processed and none as passed or failed. *)
Theorem signal_pass_only_refreshes_stamps (cfg : Config) (limit : Js.opt Z) (w : World) :
  NoDup (map lead_id (leads w)) ->
  fst (processSignalChanges cfg limit w) = []
  /\ Forall2 sameButSeen (leads w) (leads (snd (processSignalChanges cfg limit w)))
  /\ processed (this (snd (processSignalChanges cfg limit w)))
     = processed (this w)
       + Z.of_nat (List.length (signalCandidates cfg limit (clock w (ticks w)) (leads w)))
  /\ passed (this (snd (processSignalChanges cfg limit w))) = passed (this w)
  /\ failed (this (snd (processSignalChanges cfg limit w))) = failed (this w).
Proof.
  intro Hnd. unfold processSignalChanges. rewrite !bind_run.
  cbn [dateNow readLeads fst snd leads ret].
  set (w1 := {| leads := leads w; runLog := runLog w; this := this w;
                ticks := S (ticks w); clock := clock w |}).
  fold (signalCandidates cfg limit (clock w (ticks w)) (leads w)).
  set (rows := signalCandidates cfg limit (clock w (ticks w)) (leads w)).
  split.
  - unfold checkSignalChanges. induction (map rowToLead rows); [reflexivity | exact IHl].
  - destruct (signalTurns_steps cfg (map rowToLead rows) w1) as [H2 [Hp [Hpa Hf]]].
    + exact Hnd.
    + apply Forall_forall. intros l Hl. apply in_map_iff in Hl.
      destruct Hl as [r [<- Hr]]. cbn [rowToLead leadId w1 leads].
      apply in_map. apply limitRows_incl in Hr. unfold staleRows in Hr.
      apply in_app_or in Hr. destruct Hr as [Hr | Hr]; apply filter_In in Hr; apply Hr.
    + rewrite length_map in Hp. auto.
Qed.

Lemma signal_pass_only_refreshes_stamps_witness :
  fst (processSignalChanges DEFAULT_CONFIG Js.Undefined
         (sampleWorld [sampleRow "a1" "Acme" st_output])) = []
  /\ Forall2 sameButSeen [sampleRow "a1" "Acme" st_output]
       (leads (snd (processSignalChanges DEFAULT_CONFIG Js.Undefined
                      (sampleWorld [sampleRow "a1" "Acme" st_output]))))
  /\ processed (this (snd (processSignalChanges DEFAULT_CONFIG Js.Undefined
                            (sampleWorld [sampleRow "a1" "Acme" st_output]))))
     = 0 + Z.of_nat (List.length (signalCandidates DEFAULT_CONFIG Js.Undefined
                                    1700000000000 [sampleRow "a1" "Acme" st_output]))
  /\ passed (this (snd (processSignalChanges DEFAULT_CONFIG Js.Undefined
                         (sampleWorld [sampleRow "a1" "Acme" st_output])))) = 0
  /\ failed (this (snd (processSignalChanges DEFAULT_CONFIG Js.Undefined
                         (sampleWorld [sampleRow "a1" "Acme" st_output])))) = 0.
Proof.
  apply (signal_pass_only_refreshes_stamps DEFAULT_CONFIG Js.Undefined
           (sampleWorld [sampleRow "a1" "Acme" st_output])).
  cbn. repeat constructor. intros [].
Defined.

(* ================================================================== *)
(** * Angles, statistics and lookups of the lead service *)

Lemma AngleType_eqb_eq (a b : AngleType) : AngleType_eqb a b = true <-> a = b.
Proof. destruct a, b; cbn; split; intro H; try reflexivity; discriminate. Qed.

Lemma existsb_AngleType (a : AngleType) (l : list AngleType) :
  existsb (AngleType_eqb a) l = true <-> In a l.
Proof.
  rewrite existsb_exists. split.
  - intros [x [Hx He]]. apply AngleType_eqb_eq in He. subst. exact Hx.
  - intro H. exists a. split; [exact H | apply AngleType_eqb_eq; reflexivity].
Qed.

Lemma uniqueAngles_In (a : AngleType) (l seen : list AngleType) :
  In a (uniqueAngles seen l) <-> In a l /\ ~ In a seen.
Proof.
  revert seen. induction l as [| x l IH]; intro seen; cbn [uniqueAngles].
  - split; [intros [] | intros [[] _]].
  - destruct (existsb (AngleType_eqb x) seen) eqn:E.
    + apply existsb_AngleType in E. rewrite IH. split.
      * intros [H1 H2]. split; [right; exact H1 | exact H2].
      * intros [[-> | H1] H2]; [contradiction | split; assumption].
    + assert (Hx : ~ In x seen).
      { intro H. apply existsb_AngleType in H. congruence. }
      cbn [In]. rewrite IH. cbn [In]. split.
      * intros [-> | [H1 H2]]; [split; [left; reflexivity | exact Hx] |].
        split; [right; exact H1 | intro H; apply H2; right; exact H].
      * intros [[-> | H1] H2]; [left; reflexivity |].
        destruct (AngleType_eqb x a) eqn:Ea.
        -- apply AngleType_eqb_eq in Ea. left. exact Ea.
        -- right. split; [exact H1 |]. intros [-> | H]; [| contradiction].
           assert (AngleType_eqb a a = true) by (apply AngleType_eqb_eq; reflexivity).
           congruence.
Qed.

Lemma uniqueAngles_NoDup (l seen : list AngleType) : NoDup (uniqueAngles seen l).
Proof.
  revert seen. induction l as [| x l IH]; intro seen; cbn [uniqueAngles]; [constructor |].
  destruct (existsb (AngleType_eqb x) seen); [apply IH |].
  constructor; [| apply IH].
  intro H. apply uniqueAngles_In in H. destruct H as [_ H]. apply H. left. reflexivity.
Qed.

(** X8. [exhaustAngle] on a stored lead moves the angle: afterwards the
    angle is not active and is exhausted, the other active angles and the
    angles exhausted before are kept, the exhausted list has no angle
    twice, and status, score and cooldown are untouched. *)
Theorem exhaustAngle_moves_angle (id : string) (angle : AngleType) (w : World) (r : Row) :
  selectById id (leads w) = Some r ->
  exists r',
    selectById id (leads (snd (exhaustAngle id angle w))) = Some r'
    /\ ~ In angle (active_angles r')
    /\ (forall a, a <> angle -> (In a (active_angles r') <-> In a (active_angles r)))
    /\ (forall a, In a (exhausted_angles r') <-> In a (exhausted_angles r) \/ a = angle)
    /\ NoDup (exhausted_angles r')
    /\ status_ r' = status_ r /\ score_ r' = score_ r
    /\ cooldown_until r' = cooldown_until r.
Proof.
  intro H. unfold exhaustAngle. rewrite bind_run, getById_run. cbn [fst snd].
  rewrite H. cbn [option_map].
  rewrite updateAngles_selected, H. cbn [option_map].
  eexists. split; [reflexivity |]. cbn.
  split; [| split; [| split; [| split; [| auto]]]].
  - intro Hin. apply filter_In in Hin. destruct Hin as [_ Hne].
    assert (AngleType_eqb angle angle = true) by (apply AngleType_eqb_eq; reflexivity).
    rewrite H0 in Hne. discriminate.
  - intros a Hne. rewrite filter_In. split; [intros [Hin _]; exact Hin |].
    intro Hin. split; [exact Hin |].
    destruct (AngleType_eqb a angle) eqn:E; [| reflexivity].
    apply AngleType_eqb_eq in E. contradiction.
  - intro a. rewrite uniqueAngles_In, in_app_iff. cbn [In]. split.
    + intros [[Hin | [-> | []]] _]; auto.
    + intros [Hin | ->]; (split; [auto | intros []]).
  - apply uniqueAngles_NoDup.
Qed.

Lemma exhaustAngle_moves_angle_witness :
  exists r',
    selectById "a1"
      (leads (snd (exhaustAngle "a1" no_website
                     (sampleWorld [scoredRow "a1" "Acme" 70])))) = Some r'
    /\ ~ In no_website (active_angles r')
    /\ (forall a, a <> no_website ->
          (In a (active_angles r') <-> In a (active_angles (scoredRow "a1" "Acme" 70))))
    /\ (forall a, In a (exhausted_angles r') <->
                  In a (exhausted_angles (scoredRow "a1" "Acme" 70)) \/ a = no_website)
    /\ NoDup (exhausted_angles r')
    /\ status_ r' = status_ (scoredRow "a1" "Acme" 70)
    /\ score_ r' = score_ (scoredRow "a1" "Acme" 70)
    /\ cooldown_until r' = cooldown_until (scoredRow "a1" "Acme" 70).
Proof.
  apply (exhaustAngle_moves_angle "a1" no_website (sampleWorld [scoredRow "a1" "Acme" 70])).
  reflexivity.
Defined.

Lemma LeadStatus_text_eqb (a b : LeadStatus) :
  String.eqb (LeadStatus_text a) (LeadStatus_text b) = LeadStatus_eqb b a.
Proof. destruct a, b; reflexivity. Qed.

Lemma countStatus_cons (s : LeadStatus) (r : Row) (rows : list Row) :
  countStatus s (r :: rows)
  = (if LeadStatus_eqb (status_ r) s then 1 else 0) + countStatus s rows.
Proof.
  unfold countStatus. cbn [filter].
  destruct (LeadStatus_eqb (status_ r) s); cbn [List.length]; lia.
Qed.

Lemma countStatus_nonneg (s : LeadStatus) (rows : list Row) : 0 <= countStatus s rows.
Proof. unfold countStatus. lia. Qed.

Lemma countStatus_total (rows : list Row) :
  fold_left (fun acc g => acc + snd g)
    (map (fun s => (s, countStatus s rows)) statusesByText) 0
  = Z.of_nat (List.length rows).
Proof.
  cbn [statusesByText map fold_left snd].
  induction rows as [| r rows IH]; [reflexivity |].
  rewrite !countStatus_cons. cbn [List.length]. rewrite Nat2Z.inj_succ, <- IH.
  destruct (status_ r); cbn [LeadStatus_eqb]; lia.
Qed.

Lemma fold_positive_groups (l : list (LeadStatus * Z)) (a : Z) :
  Forall (fun g => 0 <= snd g) l ->
  fold_left (fun acc g => acc + snd g) (filter (fun g => 0 <? snd g) l) a
  = fold_left (fun acc g => acc + snd g) l a.
Proof.
  intro H. revert a. induction H as [| g l Hg Hl IH]; intro a; [reflexivity |].
  cbn [filter fold_left]. destruct (0 <? snd g) eqn:E.
  - cbn [fold_left]. apply IH.
  - apply Z.ltb_ge in E. replace (a + snd g) with a by lia. apply IH.
Qed.

Lemma statOf_groups (c : LeadStatus -> Z) (l : list LeadStatus) (s : LeadStatus) :
  statOf (LeadStatus_text s)
    (map (fun g => (LeadStatus_text (fst g), snd g))
       (filter (fun g => 0 <? snd g) (map (fun x => (x, c x)) l)))
  = if existsb (LeadStatus_eqb s) l && (0 <? c s) then Some (c s) else None.
Proof.
  induction l as [| x l IH]; [reflexivity |].
  cbn [map filter snd existsb].
  destruct (LeadStatus_eqb s x) eqn:E.
  - assert (x = s) by (destruct s, x; cbn in E; congruence). subst x.
    destruct (0 <? c s) eqn:Ec; cbn [map statOf fst snd orb andb].
    + rewrite String.eqb_refl. reflexivity.
    + rewrite IH, andb_false_r. reflexivity.
  - cbn [orb]. destruct (0 <? c x); cbn [map statOf fst snd].
    + rewrite LeadStatus_text_eqb, E. exact IH.
    + exact IH.
Qed.

(** X9. The three counting functions agree. The key [total] of [getStats]
    is the number of rows, which is also what [count] without a status
    answers; [count] of a status is the number of leads [getByStatus]
    lists for it without a limit; and [getStats] holds that number under
    the name of the status, or no such key when no row has the status. *)
Theorem lead_counts_agree (w : World) :
  statOf "total" (fst (getStats w)) = Some (Z.of_nat (List.length (leads w)))
  /\ fst (count None w) = Z.of_nat (List.length (leads w))
  /\ forall s,
       fst (count (Some s) w)
       = Z.of_nat (List.length (fst (getByStatus s Js.Undefined w)))
       /\ statOf (LeadStatus_text s) (fst (getStats w))
          = if fst (count (Some s) w) =? 0 then None else Some (fst (count (Some s) w)).
Proof.
  split; [| split; [reflexivity |]].
  - unfold getStats. cbn [bind readLeads ret fst statOf].
    rewrite String.eqb_refl. f_equal. unfold statusGroups.
    rewrite fold_positive_groups; [apply countStatus_total |].
    apply Forall_forall. intros g Hg. apply in_map_iff in Hg.
    destruct Hg as [s [<- _]]. apply countStatus_nonneg.
  - intro s. split.
    + cbn. unfold countStatus. rewrite length_map. reflexivity.
    + unfold getStats, count. cbn [bind readLeads ret fst statOf].
      replace (String.eqb "total" (LeadStatus_text s)) with false
        by (destruct s; reflexivity).
      unfold statusGroups. rewrite (statOf_groups (fun x => countStatus x (leads w))).
      replace (existsb (LeadStatus_eqb s) statusesByText) with true
        by (destruct s; reflexivity).
      cbn [andb]. pose proof (countStatus_nonneg s (leads w)) as Hn.
      destruct (0 <? countStatus s (leads w)) eqn:E1;
        destruct (countStatus s (leads w) =? 0) eqn:E2; try reflexivity.
      * apply Z.ltb_lt in E1. apply Z.eqb_eq in E2. lia.
      * apply Z.ltb_ge in E1. apply Z.eqb_neq in E2. lia.
Qed.

(** X10. A lead made by [createFromRaw] from a record whose country is
    missing, empty or (up to case and surrounding blanks) the text us is
    found again by [getByCanonicalName] under its canonical name, city and
    state. *)
Theorem getByCanonicalName_finds_created
    (raw : RawBusinessData) (source runId : string) (w : World) :
  canonicalComponent "us" (raw_country raw) = "us" ->
  exists l,
    fst (getByCanonicalName (canonicalizeName (raw_name raw)) (raw_city raw) (raw_state raw)
           (snd (createFromRaw raw source runId w))) = Some l
    /\ leadId l = rawLeadId raw
    /\ canonicalName l = canonicalizeName (raw_name raw).
Proof.
  intro Hc.
  assert (Hid : generateLeadId (canonicalizeName (raw_name raw)) (raw_city raw)
                  (raw_state raw) Js.Undefined = rawLeadId raw).
  { unfold rawLeadId, generateLeadId. unfold canonicalComponent in Hc. rewrite Hc.
    reflexivity. }
  unfold getByCanonicalName. rewrite Hid, getById_run. cbn [fst].
  rewrite createFromRaw_upsert, upsert_leads.
  set (p := partialOfRaw raw source runId).
  change (rawLeadId raw) with (p_leadId p).
  destruct (selectById (p_leadId p) (leads w)) as [r0 |] eqn:E.
  - rewrite selectById_updated by (intro; reflexivity). rewrite E. cbn [option_map].
    eexists. split; [reflexivity |]. split; [| reflexivity].
    cbn. apply (selectById_some_id _ _ _ E).
  - rewrite (selectById_app_new (p_leadId p) (leads w)
               (insertRow (newLeadOf p (clock w (ticks w)))) E eq_refl).
    cbn [option_map].
    eexists. split; [reflexivity |]. cbn [rowToLead insertRow newLeadOf leadId canonicalName
                                           lead_id canonical_name].
    split; [reflexivity |]. cbn [p partialOfRaw p_canonicalName orDefaultStr].
    destruct (String.eqb (canonicalizeName (raw_name raw)) "") eqn:Ee; [| reflexivity].
    apply String.eqb_eq in Ee. symmetry. exact Ee.
Qed.

Lemma getByCanonicalName_finds_created_witness :
  exists l,
    fst (getByCanonicalName (canonicalizeName (raw_name sampleRaw)) (raw_city sampleRaw)
           (raw_state sampleRaw)
           (snd (createFromRaw sampleRaw "yelp" "run_a" (sampleWorld [])))) = Some l
    /\ leadId l = rawLeadId sampleRaw
    /\ canonicalName l = canonicalizeName (raw_name sampleRaw).
Proof.
  apply (getByCanonicalName_finds_created sampleRaw "yelp" "run_a" (sampleWorld [])).
  reflexivity.
Defined.

(* ================================================================== *)
(** * Turns of the stage loops *)

Lemma this_updateProgress (w : World) : this (snd (updateProgress w)) = this w.
Proof.
  unfold updateProgress, bind, readThis, runService_updateProgress, writeRun, ret. cbn.
  destruct (run (this w)); reflexivity.
Qed.

Lemma this_progressEvery (n : Z) (w : World) : this (snd (progressEvery n w)) = this w.
Proof.
  unfold progressEvery, bind, readThis. cbn.
  destruct (processed (this w) mod n =? 0); [apply this_updateProgress | reflexivity].
Qed.

(** X11. A turn of the filter loop on a lead the stage selected, with a
    clock that has not gone back since the selection: the lead ends
    excluded with the reason [evaluateLead] gives and counts as failed, or
    ends filtered and counts as passed; the cooldown test of the loop never
    holds such a lead back. Nothing else of the row changes but
    [updated_at], and the turn counts one lead as processed. *)
Theorem filterTurn_outcome (rt : Runtime) (cfg : Config) (w : World) (r0 : Row)
    (selectedAt : Z) :
  selectById (lead_id r0) (leads w) = Some r0 ->
  stageEligible [st_collected] selectedAt r0 = true ->
  selectedAt <= clock w (ticks w) ->
  exists r1,
    selectById (lead_id r0) (leads (snd (filterTurn rt cfg (rowToLead r0) w))) = Some r1
    /\ filterOutcome (filterDecision rt cfg (rowToLead r0)) r0 r1
         (this w) (this (snd (filterTurn rt cfg (rowToLead r0) w))).
Proof.
  intros Hsel Hel Hclock.
  destruct (stageEligible_spec _ _ _ Hel) as [_ [Hex Hcool]].
  unfold filterTurn. cbv zeta.
  fold (filterDecision rt cfg (rowToLead r0)).
  rewrite !bind_run.
  set (w1 := snd (incProcessed w)).
  assert (Hsel1 : selectById (lead_id r0) (leads w1) = Some r0) by exact Hsel.
  change (leadId (rowToLead r0)) with (lead_id r0).
  rewrite leads_progressEvery, this_progressEvery.
  unfold filterOutcome.
  destruct (filterDecision rt cfg (rowToLead r0)) as [why |] eqn:Ed.
  - rewrite bind_run. unfold incFailed. rewrite leads_writeThis.
    rewrite exclude_selected, Hsel1. cbn [option_map].
    eexists. split; [reflexivity |].
    destruct (quiet_exclude (lead_id r0) why w1) as [Hthis _].
    cbn [writeThis snd this processed passed failed setFailed]. rewrite Hthis.
    split; [reflexivity |]. eexists. repeat split; reflexivity.
  - assert (Hcheck :
      forall w0, clock w0 = clock w -> ticks w0 = ticks w ->
        fst ((match cooldownUntil (rowToLead r0) with
              | Js.Val until =>
                  if until =? 0 then ret false
                  else now <- dateNow ;; ret (now <? until)
              | _ => ret false
              end) w0) = false).
    { intros w0 Hc Ht. cbn [cooldownUntil rowToLead].
      destruct Hcool as [-> | [t [-> Hlt]]]; cbn [Js.ofSql]; [reflexivity |].
      destruct (t =? 0); [reflexivity |].
      cbn [bind dateNow ret fst]. rewrite Hc, Ht. apply Z.ltb_ge. lia. }
    rewrite bind_run. rewrite (Hcheck w1 eq_refl eq_refl).
    set (w2 := snd ((match cooldownUntil (rowToLead r0) with
              | Js.Val until =>
                  if until =? 0 then ret false
                  else now <- dateNow ;; ret (now <? until)
              | _ => ret false
              end) w1)).
    assert (Hw2 : leads w2 = leads w1 /\ this w2 = this w1).
    { unfold w2. cbn [cooldownUntil rowToLead].
      destruct (cooldown_until r0) as [t |]; cbn [Js.ofSql]; [| split; reflexivity].
      destruct (t =? 0); split; reflexivity. }
    destruct Hw2 as [Hl2 Ht2].
    rewrite bind_run. unfold incPassed. rewrite leads_writeThis.
    rewrite updateStatus_selected, Hl2, Hsel1. cbn [option_map].
    eexists. split; [reflexivity |].
    destruct (quiet_updateStatus (lead_id r0) st_filtered w2) as [Hthis _].
    cbn [writeThis snd this processed passed failed setPassed]. rewrite Hthis, Ht2.
    split; [reflexivity |]. eexists. repeat split; reflexivity.
Qed.

Lemma filterTurn_outcome_witness :
  exists r1,
    selectById "a1"
      (leads (snd (filterTurn sampleRuntime sampleFilterConfig
                     (rowToLead (sampleRow "a1" "Acme" st_collected))
                     (sampleWorld [sampleRow "a1" "Acme" st_collected])))) = Some r1
    /\ filterOutcome
         (filterDecision sampleRuntime sampleFilterConfig
            (rowToLead (sampleRow "a1" "Acme" st_collected)))
         (sampleRow "a1" "Acme" st_collected) r1
         newStage
         (this (snd (filterTurn sampleRuntime sampleFilterConfig
                       (rowToLead (sampleRow "a1" "Acme" st_collected))
                       (sampleWorld [sampleRow "a1" "Acme" st_collected])))).
Proof.
  apply (filterTurn_outcome sampleRuntime sampleFilterConfig
           (sampleWorld [sampleRow "a1" "Acme" st_collected])
           (sampleRow "a1" "Acme" st_collected) 1650000000000).
  - reflexivity.
  - reflexivity.
  - unfold sampleWorld. cbn [clock ticks]. unfold sampleClock. lia.
Defined.

Lemma outOfPipeline_cooldown (r : Row) : status_ r = st_cooldown -> outOfPipeline r.
Proof.
  intros Hs stage statuses now Hmap. unfold stageEligible. rewrite Hs.
  unfold statusMap in Hmap.
  repeat match type of Hmap with
         | (if ?c then _ else _) = _ => destruct c
         end;
    try discriminate; injection Hmap as <-; reflexivity.
Qed.

Lemma markOutput_selected (id : string) (w : World) :
  selectById id (leads (snd (markOutput id w))) =
    option_map (fun r => set_updated_at (clock w (ticks w))
                           (set_last_output_at (Some (clock w (ticks w)))
                              (set_status st_output r)))
               (selectById id (leads w)).
Proof.
  unfold markOutput, bind, dateNow, writeLeads. cbn.
  apply selectById_updated. intro; reflexivity.
Qed.

Lemma markOutput_ticks (id : string) (w : World) :
  ticks (snd (markOutput id w)) = S (ticks w) /\ clock (snd (markOutput id w)) = clock w
  /\ this (snd (markOutput id w)) = this w.
Proof. repeat split; reflexivity. Qed.

Lemma markOutput_ids (id : string) (w : World) :
  map lead_id (leads (snd (markOutput id w))) = map lead_id (leads w).
Proof.
  unfold markOutput, bind, dateNow, writeLeads. cbn.
  apply updateWhereId_ids. intro; reflexivity.
Qed.

Lemma setCooldown_ids (id : string) (until : Z) (w : World) :
  map lead_id (leads (snd (setCooldown id until w))) = map lead_id (leads w).
Proof.
  unfold setCooldown, bind, dateNow, writeLeads. cbn.
  apply updateWhereId_ids. intro; reflexivity.
Qed.

(** A lead at status cooldown is in no selection of any stage. *)
Lemma inCooldown_heldBack (id : string) (w : World) : inCooldown id w -> heldBack id w.
Proof.
  intros Hin stage limit selected Hsel Hid.
  unfold getLeadsForStage in Hsel.
  destruct (statusMap stage) as [statuses | |] eqn:Hmap; cbn in Hsel.
  - injection Hsel as <-. rewrite map_map in Hid. apply in_map_iff in Hid.
    destruct Hid as [r [Hr Hmem]]. cbn [rowToLead leadId] in Hr.
    apply applyLimit_incl in Hmem. apply filter_In in Hmem. destruct Hmem as [Hmem He].
    cbn [leads] in Hmem.
    rewrite (outOfPipeline_cooldown r (Hin r Hmem Hr) stage statuses _ Hmap) in He.
    discriminate.
  - discriminate.
  - injection Hsel as <-. destruct Hid.
Qed.



Lemma addEnrichmentFailure_selected (id : string) (f : EnrichmentFailure) (w : World)
    (r : Row) :
  selectById id (leads w) = Some r ->
  selectById id (leads (snd (addEnrichmentFailure id f w)))
  = Some (set_updated_at (clock w (ticks w))
            (set_enrichment_failures (enrichment_failures r ++ [f]) r)).
Proof.
  intro H. unfold addEnrichmentFailure. rewrite bind_run, getById_run. cbn [fst snd].
  rewrite H. cbn [option_map]. rewrite bind_run. cbn [dateNow writeLeads fst snd leads].
  rewrite selectById_updated by (intro; reflexivity). rewrite H. reflexivity.
Qed.

Lemma upsert_email_selected (id : string) (v : Js.opt string) (w : World) (r : Row) :
  selectById id (leads w) = Some r ->
  selectById id (leads (snd (upsert (idWithEmail id v) w)))
  = Some (set_updated_at (clock w (ticks w))
            (set_last_seen_at (clock w (ticks w)) (set_email (Js.toSql v) r))).
Proof.
  intro H. pose proof (upsert_selected (idWithEmail id v) w r H) as Hs.
  cbn [p_leadId idWithEmail] in Hs. rewrite Hs. f_equal.
  destruct r. unfold upsertAssign, mergeLead, rowToLead, set_updated_at, set_last_seen_at,
    set_email. cbn. rewrite !toSql_ofSql.
  destruct enrichment_data0, score_reasons0; reflexivity.
Qed.

Lemma upsert_phone_selected (id : string) (v : Js.opt string) (w : World) (r : Row) :
  selectById id (leads w) = Some r ->
  selectById id (leads (snd (upsert (idWithPhone id v) w)))
  = Some (set_updated_at (clock w (ticks w))
            (set_last_seen_at (clock w (ticks w)) (set_phone (Js.toSql v) r))).
Proof.
  intro H. pose proof (upsert_selected (idWithPhone id v) w r H) as Hs.
  cbn [p_leadId idWithPhone] in Hs. rewrite Hs. f_equal.
  destruct r. unfold upsertAssign, mergeLead, rowToLead, set_updated_at, set_last_seen_at,
    set_phone. cbn. rewrite !toSql_ofSql.
  destruct enrichment_data0, score_reasons0; reflexivity.
Qed.

Section EnrichPhases.

Variable scrape : string -> Scrape.
Variable r0 : Row.

Lemma holdsEnriched_start (w : World) :
  selectById (lead_id r0) (leads w) = Some r0 ->
  holdsEnriched w r0 (email_ r0) (phone_ r0) (enrichment_data r0)
    (enrichment_failures r0) (status_ r0).
Proof.
  intro H. exists (last_seen_at r0), (updated_at r0). rewrite H. f_equal.
  destruct r0; reflexivity.
Qed.

Lemma holdsEnriched_failure (w : World) (f : EnrichmentFailure) em ph d fl st :
  holdsEnriched w r0 em ph d fl st ->
  holdsEnriched (snd (addEnrichmentFailure (lead_id r0) f w)) r0 em ph d (fl ++ [f]) st.
Proof.
  intros [s [u H]]. exists s, (clock w (ticks w)).
  rewrite (addEnrichmentFailure_selected _ _ _ _ H). reflexivity.
Qed.

Lemma holdsEnriched_data (w : World) (data : EnrichmentData) em ph d fl st :
  holdsEnriched w r0 em ph d fl st ->
  holdsEnriched (snd (updateEnrichment (lead_id r0) data w)) r0 em ph (Some data) fl st.
Proof.
  intros [s [u H]]. exists s, (clock w (ticks w)).
  rewrite updateEnrichment_selected, H. reflexivity.
Qed.

Lemma holdsEnriched_email (w : World) (v : string) em ph d fl st :
  holdsEnriched w r0 em ph d fl st ->
  holdsEnriched (snd (upsert (idWithEmail (lead_id r0) (Js.Val v)) w)) r0
    (Some v) ph d fl st.
Proof.
  intros [s [u H]]. exists (clock w (ticks w)), (clock w (ticks w)).
  rewrite (upsert_email_selected _ _ _ _ H). reflexivity.
Qed.

Lemma holdsEnriched_phone (w : World) (v : string) em ph d fl st :
  holdsEnriched w r0 em ph d fl st ->
  holdsEnriched (snd (upsert (idWithPhone (lead_id r0) (Js.Val v)) w)) r0
    em (Some v) d fl st.
Proof.
  intros [s [u H]]. exists (clock w (ticks w)), (clock w (ticks w)).
  rewrite (upsert_phone_selected _ _ _ _ H). reflexivity.
Qed.

Lemma holdsEnriched_status (w : World) (st' : LeadStatus) em ph d fl st :
  holdsEnriched w r0 em ph d fl st ->
  holdsEnriched (snd (updateStatus (lead_id r0) st' w)) r0 em ph d fl st'.
Proof.
  intros [s [u H]]. exists s, (clock w (ticks w)).
  rewrite updateStatus_selected, H. reflexivity.
Qed.

(** X13. [enrichLead] on a stored lead always ends at status enriched,
    also when the site cannot be scraped. It stores the data of the site
    merged into the data it had, logs one failure exactly when the scrape
    reports a failure type, keeps a non-empty e-mail or phone and fills an
    empty one with the first value found, and leaves every other column
    but the two stamps as it was. *)
Theorem enrichLead_outcome (w : World) :
  selectById (lead_id r0) (leads w) = Some r0 ->
  exists r1,
    selectById (lead_id r0) (leads (snd (enrichLead scrape (rowToLead r0) w))) = Some r1
    /\ enrichOutcome scrape (clock w (ticks w)) r0 r1.
Proof.
  intro Hsel. apply holdsEnriched_start in Hsel.
  set (lead := rowToLead r0).
  assert (Hgoal : holdsEnriched (snd (enrichLead scrape lead w)) r0
            (promoted (email_ r0) (emails (scrapedData scrape lead)))
            (promoted (phone_ r0) (phones (scrapedData scrape lead)))
            (Some (scrapedData scrape lead))
            (enrichment_failures r0 ++ scrapeFailures scrape lead (clock w (ticks w)))
            st_enriched).
  { unfold enrichLead. cbv zeta. fold (startData lead). fold (siteOf lead).
    change (leadId lead) with (lead_id r0).
    rewrite bind_run.
    match goal with
    | |- context [fst (?m w)] => set (phase := m)
    end.
    assert (Hphase : fst (phase w) = scrapedData scrape lead
                     /\ holdsEnriched (snd (phase w)) r0 (email_ r0) (phone_ r0)
                          (enrichment_data r0)
                          (enrichment_failures r0
                           ++ scrapeFailures scrape lead (clock w (ticks w)))
                          (status_ r0)).
    { unfold phase, scrapedData, scrapeFailures.
      destruct (Js.truthyStr (website lead)).
      - destruct (scrape (siteOf lead)) as [site | [[ty msg] |]].
        + cbn [ret fst snd]. rewrite app_nil_r. auto.
        + rewrite !bind_run. cbn [ret fst snd dateNow].
          split; [reflexivity |].
          apply holdsEnriched_failure. exact Hsel.
        + cbn [ret fst snd]. rewrite app_nil_r. auto.
      - cbn [ret fst snd]. rewrite app_nil_r. auto. }
    destruct Hphase as [Hdata Hrow]. rewrite Hdata. clear Hdata.
    set (data := scrapedData scrape lead) in *.
    set (w1 := snd (phase w)) in *. clearbody w1. clear phase.
    rewrite !bind_run.
    apply (holdsEnriched_status _ st_enriched _ _ _ _ (status_ r0)).
    apply (holdsEnriched_data _ data) in Hrow.
    set (w2 := snd (updateEnrichment (lead_id r0) data w1)) in *. clearbody w2.
    assert (Hem : holdsEnriched
              (snd ((match emails data with
                     | first :: _ =>
                         if Js.truthyStr (email lead) then ret tt
                         else upsert (idWithEmail (lead_id r0) (Js.Val first)) ;;; ret tt
                     | [] => ret tt
                     end) w2)) r0
              (promoted (email_ r0) (emails data)) (phone_ r0) (Some data)
              (enrichment_failures r0 ++ scrapeFailures scrape lead (clock w (ticks w)))
              (status_ r0)).
    { unfold promoted. change (email lead) with (Js.ofSql (email_ r0)).
      destruct (emails data) as [| first rest].
      - destruct (Js.truthyStr (Js.ofSql (email_ r0))); exact Hrow.
      - destruct (Js.truthyStr (Js.ofSql (email_ r0))); [exact Hrow |].
        rewrite bind_run. cbn [ret snd]. exact (holdsEnriched_email _ _ _ _ _ _ _ Hrow). }
    match goal with
    | |- context [snd (?m w2)] => set (w3 := snd (m w2)) in *
    end.
    clearbody w3.
    unfold promoted at 2. change (phone lead) with (Js.ofSql (phone_ r0)).
    destruct (phones data) as [| first rest].
    - destruct (Js.truthyStr (Js.ofSql (phone_ r0))); exact Hem.
    - destruct (Js.truthyStr (Js.ofSql (phone_ r0))); [exact Hem |].
      rewrite bind_run. cbn [ret snd]. exact (holdsEnriched_phone _ _ _ _ _ _ _ Hem). }
  destruct Hgoal as [s [u Hfinal]].
  eexists. split; [exact Hfinal |].
  unfold enrichOutcome. cbv zeta. exists s, u. reflexivity.
Qed.

End EnrichPhases.

Lemma enrichLead_outcome_witness :
  exists r1,
    selectById (lead_id sampleSiteRow)
      (leads (snd (enrichLead sampleScrape (rowToLead sampleSiteRow)
                     (sampleWorld [sampleSiteRow])))) = Some r1
    /\ enrichOutcome sampleScrape 1700000000000 sampleSiteRow r1.
Proof.
  apply (enrichLead_outcome sampleScrape sampleSiteRow (sampleWorld [sampleSiteRow])).
  cbn [sampleWorld leads selectById find]. rewrite String.eqb_refl. reflexivity.
Defined.

Lemma dedupe_In (x : string) (l seen : list string) :
  In x (dedupe seen l) <-> In x l /\ ~ In x seen.
Proof.
  revert seen. induction l as [| y l IH]; intro seen; cbn [dedupe].
  - split; [intros [] | intros [[] _]].
  - destruct (existsb (String.eqb y) seen) eqn:E.
    + apply existsb_exists in E. destruct E as [z [Hz Hyz]].
      apply String.eqb_eq in Hyz. subst z. rewrite IH. split.
      * intros [H1 H2]. split; [right; exact H1 | exact H2].
      * intros [[-> | H1] H2]; [contradiction | split; assumption].
    + assert (Hy : ~ In y seen).
      { intro H. assert (existsb (String.eqb y) seen = true).
        { apply existsb_exists. exists y. split; [exact H | apply String.eqb_refl]. }
        congruence. }
      cbn [In]. rewrite IH. cbn [In]. split.
      * intros [-> | [H1 H2]]; [split; [left; reflexivity | exact Hy] |].
        split; [right; exact H1 | intro H; apply H2; right; exact H].
      * intros [[-> | H1] H2]; [left; reflexivity |].
        destruct (String.eqb y x) eqn:Ex.
        -- apply String.eqb_eq in Ex. left. exact Ex.
        -- right. split; [exact H1 |]. intros [-> | H]; [| contradiction].
           rewrite String.eqb_refl in Ex. discriminate.
Qed.

Lemma dedupe_NoDup (l seen : list string) : NoDup (dedupe seen l).
Proof.
  revert seen. induction l as [| y l IH]; intro seen; cbn [dedupe]; [constructor |].
  destruct (existsb (String.eqb y) seen); [apply IH |].
  constructor; [| apply IH].
  intro H. apply dedupe_In in H. destruct H as [_ H]. apply H. left. reflexivity.
Qed.

Lemma dedupe_head (l : list string) : hd_error (dedupe [] l) = hd_error l.
Proof. destruct l; reflexivity. Qed.

(** X14. Merging the data of a site into stored enrichment data loses
    nothing: the e-mails and phones afterwards are exactly the stored ones
    and the ones of the site, each once, with the first stored one still
    first; a stored booking flag stays set; the columns the site does not
    report are kept. *)
Theorem mergeWebsiteData_keeps_known (e : EnrichmentData) (site : WebsiteData) :
  (forall x, In x (emails (mergeWebsiteData e site))
             <-> In x (emails e) \/ In x (wd_emails site))
  /\ (forall x, In x (phones (mergeWebsiteData e site))
                <-> In x (phones e) \/ In x (wd_phones site))
  /\ NoDup (emails (mergeWebsiteData e site))
  /\ NoDup (phones (mergeWebsiteData e site))
  /\ hd_error (emails (mergeWebsiteData e site)) = hd_error (emails e ++ wd_emails site)
  /\ hd_error (phones (mergeWebsiteData e site)) = hd_error (phones e ++ wd_phones site)
  /\ (hasOnlineBooking e = true -> hasOnlineBooking (mergeWebsiteData e site) = true)
  /\ (Js.truthyStr (wd_pageTitle site) = false ->
      pageTitle (mergeWebsiteData e site) = pageTitle e)
  /\ technologies (mergeWebsiteData e site) = technologies e
  /\ founderLinkedin (mergeWebsiteData e site) = founderLinkedin e.
Proof.
  cbn [mergeWebsiteData emails phones hasOnlineBooking pageTitle technologies
       founderLinkedin].
  repeat split.
  - intro H. apply dedupe_In in H. apply in_app_iff. apply H.
  - intro H. apply dedupe_In. split; [apply in_app_iff; exact H | intros []].
  - intro H. apply dedupe_In in H. apply in_app_iff. apply H.
  - intro H. apply dedupe_In. split; [apply in_app_iff; exact H | intros []].
  - apply dedupe_NoDup.
  - apply dedupe_NoDup.
  - apply dedupe_head.
  - apply dedupe_head.
  - intros ->. reflexivity.
  - intros ->. reflexivity.
Qed.

(* ================================================================== *)
(** * The collect stage over a run *)

Lemma chunkFuel_concat {A} (size : nat) (fuel : nat) (l : list A) :
  (0 < size)%nat -> (List.length l <= fuel)%nat -> List.concat (chunkFuel fuel size l) = l.
Proof.
  intro Hs. revert l. induction fuel as [| f IH]; intros l Hl.
  - destruct l; [reflexivity | cbn in Hl; lia].
  - destruct l as [| x l]; [reflexivity |].
    cbn [chunkFuel List.concat]. rewrite IH.
    + apply firstn_skipn.
    + rewrite length_skipn. cbn [List.length] in *. lia.
Qed.

Lemma chunk_concat {A} (l : list A) (size : Z) :
  0 < size -> exists batches, chunk l size = Some batches /\ List.concat batches = l.
Proof.
  intro Hs. unfold chunk. destruct l as [| x l]; [exists []; auto |].
  destruct (size <=? 0) eqn:E; [apply Z.leb_le in E; lia |].
  eexists. split; [reflexivity |]. apply chunkFuel_concat; lia.
Qed.

Lemma upserted_other (lead : PartialLead) (now : Z) (rows : list Row) (other : string) :
  other <> p_leadId lead ->
  selectById other (upserted lead now rows) = selectById other rows.
Proof.
  intro Hne. unfold upserted.
  destruct (selectById (p_leadId lead) rows) eqn:E.
  - apply selectById_other; [intro; reflexivity | exact Hne].
  - apply selectById_app_other. cbn. congruence.
Qed.

(** A turn of the collect loop on an identity this run has not seen. *)
Lemma collectTurn_fresh (runId : string) (seen : list string) (d : RawDiscovery) (w : World) :
  let p := partialOfRaw (rd_rawData d) (rd_source d) runId in
  existsb (String.eqb (rawLeadId (rd_rawData d))) seen = false ->
  fst (collectTurn runId seen d w) = rawLeadId (rd_rawData d) :: seen
  /\ leads (snd (collectTurn runId seen d w)) =
       updateWhereId (p_leadId p) (markCollected (clock w (S (ticks w))))
         (upserted p (clock w (ticks w)) (leads w))
  /\ processed (this (snd (collectTurn runId seen d w))) = processed (this w) + 1
  /\ passed (this (snd (collectTurn runId seen d w))) = passed (this w) + 1
  /\ failed (this (snd (collectTurn runId seen d w))) = failed (this w).
Proof.
  cbv zeta. intro Hfresh. unfold collectTurn.
  fold (rawLeadId (rd_rawData d)). rewrite Hfresh.
  rewrite createFromRaw_upsert.
  set (p := partialOfRaw (rd_rawData d) (rd_source d) runId).
  unfold incProcessed, incPassed, updateStatus. rewrite !bind_run.
  set (w1 := snd (writeThis (fun t => setProcessed (processed t + 1) t) w)).
  pose proof (upsert_leads p w1) as HL.
  destruct (upsert_ticks p w1) as [HT [HC [Hthis _]]].
  set (w2 := snd (upsert p w1)) in *.
  cbn [ret writeThis writeLeads dateNow fst snd leads ticks clock this
       processed passed failed setPassed].
  rewrite HL, HT, HC, Hthis. unfold upserted.
  cbn [w1 writeThis snd this processed passed failed setProcessed leads ticks clock].
  repeat split; reflexivity.
Qed.

Lemma collectTurn_seen (runId : string) (seen : list string) (d : RawDiscovery) (w : World) :
  existsb (String.eqb (rawLeadId (rd_rawData d))) seen = true ->
  fst (collectTurn runId seen d w) = seen
  /\ leads (snd (collectTurn runId seen d w)) = leads w
  /\ processed (this (snd (collectTurn runId seen d w))) = processed (this w) + 1
  /\ passed (this (snd (collectTurn runId seen d w))) = passed (this w)
  /\ failed (this (snd (collectTurn runId seen d w))) = failed (this w).
Proof.
  intro Hseen. unfold collectTurn. fold (rawLeadId (rd_rawData d)). rewrite Hseen.
  rewrite bind_run. cbn. auto.
Qed.

Lemma existsb_eqb_In (x : string) (l : list string) :
  existsb (String.eqb x) l = true <-> In x l.
Proof.
  rewrite existsb_exists. split.
  - intros [y [Hy He]]. apply String.eqb_eq in He. subst. exact Hy.
  - intro H. exists x. split; [exact H | apply String.eqb_refl].
Qed.

Lemma collectTurn_step (runId : string) (seen : list string) (d : RawDiscovery) (w : World) :
  collectedSoFar seen w ->
  collectedSoFar (fst (collectTurn runId seen d w)) (snd (collectTurn runId seen d w))
  /\ (forall id, In id (fst (collectTurn runId seen d w))
                 <-> In id seen \/ rawLeadId (rd_rawData d) = id)
  /\ processed (this (snd (collectTurn runId seen d w))) = processed (this w) + 1
  /\ failed (this (snd (collectTurn runId seen d w))) = failed (this w)
  /\ passed (this (snd (collectTurn runId seen d w)))
     - Z.of_nat (List.length (fst (collectTurn runId seen d w)))
     = passed (this w) - Z.of_nat (List.length seen).
Proof.
  intros [Hseen [Hids Hrows]].
  destruct (existsb (String.eqb (rawLeadId (rd_rawData d))) seen) eqn:E.
  - destruct (collectTurn_seen runId seen d w E) as [-> [HL [Hp [Hpa Hf]]]].
    apply existsb_eqb_In in E.
    split; [| split; [| split; [exact Hp | split; [exact Hf | lia]]]].
    + unfold collectedSoFar. rewrite HL. auto.
    + intro id. split; [auto |]. intros [H | <-]; assumption.
  - destruct (collectTurn_fresh runId seen d w E) as [-> [HL [Hp [Hpa Hf]]]].
    assert (Hnew : ~ In (rawLeadId (rd_rawData d)) seen).
    { intro H. apply existsb_eqb_In in H. congruence. }
    set (p := partialOfRaw (rd_rawData d) (rd_source d) runId) in *.
    change (rawLeadId (rd_rawData d)) with (p_leadId p) in *.
    split; [| split; [| split; [exact Hp | split; [exact Hf |]]]].
    + split; [constructor; assumption |]. rewrite HL. split.
      * rewrite updateWhereId_ids by (intro; reflexivity).
        apply upserted_ids_nodup. exact Hids.
      * intros id [<- | Hin].
        -- rewrite selectById_updated by (intro; reflexivity).
           destruct (upserted_select p (clock w (ticks w)) (leads w)) as [r Hr].
           rewrite Hr. cbn [option_map]. eexists. split; reflexivity.
        -- assert (Hne : id <> p_leadId p) by (intros ->; contradiction).
           rewrite selectById_other; [| intro; reflexivity | exact Hne].
           rewrite upserted_other by exact Hne. apply Hrows. exact Hin.
    + intro id. cbn [In]. split; intros [H | H]; auto.
    + cbn [List.length]. lia.
Qed.

Lemma collectBatch_steps (runId : string) (batch : list RawDiscovery) :
  forall (seen : list string) (w : World),
    collectedSoFar seen w ->
    collectedSoFar (fst (collectBatch runId seen batch w))
                   (snd (collectBatch runId seen batch w))
    /\ (forall id, In id (fst (collectBatch runId seen batch w))
                   <-> In id seen \/ exists d, In d batch /\ rawLeadId (rd_rawData d) = id)
    /\ processed (this (snd (collectBatch runId seen batch w)))
       = processed (this w) + Z.of_nat (List.length batch)
    /\ failed (this (snd (collectBatch runId seen batch w))) = failed (this w)
    /\ passed (this (snd (collectBatch runId seen batch w)))
       - Z.of_nat (List.length (fst (collectBatch runId seen batch w)))
       = passed (this w) - Z.of_nat (List.length seen).
Proof.
  induction batch as [| d batch IH]; intros seen w H.
  - cbn [collectBatch ret fst snd List.length].
    split; [exact H |]. split; [| repeat split; lia].
    intro id. split; [auto |]. intros [Hin | [d [[] _]]]. exact Hin.
  - cbn [collectBatch]. rewrite bind_run.
    destruct (collectTurn_step runId seen d w H) as [H1 [Hin1 [Hp1 [Hf1 Hpa1]]]].
    destruct (IH _ _ H1) as [H2 [Hin2 [Hp2 [Hf2 Hpa2]]]].
    split; [exact H2 |].
    split; [| split; [| split]].
    + intro id. rewrite Hin2, Hin1. cbn [In]. split.
      * intros [[Hs | Hd] | [d' [Hd' He]]]; eauto.
      * intros [Hs | [d' [[<- | Hd'] He]]]; eauto.
    + rewrite Hp2, Hp1. cbn [List.length]. lia.
    + rewrite Hf2, Hf1. reflexivity.
    + rewrite Hpa2, Hpa1. reflexivity.
Qed.

Lemma collectBatches_steps (runId : string) (batches : list (list RawDiscovery)) :
  forall (seen : list string) (w : World),
    collectedSoFar seen w ->
    exists seen',
      collectedSoFar seen' (snd (collectBatches runId seen batches w))
      /\ (forall id, In id seen'
                     <-> In id seen
                         \/ exists d, In d (List.concat batches) /\ rawLeadId (rd_rawData d) = id)
      /\ processed (this (snd (collectBatches runId seen batches w)))
         = processed (this w) + Z.of_nat (List.length (List.concat batches))
      /\ failed (this (snd (collectBatches runId seen batches w))) = failed (this w)
      /\ passed (this (snd (collectBatches runId seen batches w)))
         - Z.of_nat (List.length seen')
         = passed (this w) - Z.of_nat (List.length seen).
Proof.
  induction batches as [| b batches IH]; intros seen w H.
  - exists seen. cbn [collectBatches ret fst snd List.concat List.length].
    split; [exact H |]. split; [| repeat split; lia].
    intro id. split; [auto |]. intros [Hin | [d [[] _]]]. exact Hin.
  - cbn [collectBatches]. rewrite !bind_run.
    destruct (collectBatch_steps runId b seen w H) as [H1 [Hin1 [Hp1 [Hf1 Hpa1]]]].
    set (seen1 := fst (collectBatch runId seen b w)) in *.
    set (w1 := snd (collectBatch runId seen b w)) in *.
    assert (H1' : collectedSoFar seen1 (snd (updateProgress w1))).
    { unfold collectedSoFar in *. rewrite leads_updateProgress. exact H1. }
    destruct (IH seen1 (snd (updateProgress w1)) H1') as [seen' [H2 [Hin2 [Hp2 [Hf2 Hpa2]]]]].
    rewrite this_updateProgress in Hp2, Hf2, Hpa2.
    exists seen'. split; [exact H2 |].
    split; [| split; [| split]].
    + intro id. rewrite Hin2, Hin1. cbn [List.concat]. split.
      * intros [[Hs | [d [Hd He]]] | [d [Hd He]]]; [left; exact Hs | |];
          right; exists d; (split; [apply in_or_app; auto | exact He]).
      * intros [Hs | [d [Hd He]]]; [left; left; exact Hs |].
        apply in_app_or in Hd. destruct Hd as [Hd | Hd]; eauto.
    + rewrite Hp2, Hp1. cbn [List.concat]. rewrite length_app. lia.
    + rewrite Hf2, Hf1. reflexivity.
    + rewrite Hpa2, Hpa1. reflexivity.
Qed.

(** X15. A run of the collect stage with a positive batch size, on a table
    with distinct ids: it returns; the ids stay distinct; every discovery
    it was given has a lead under its identity, at status collected; each
    discovery counts as processed, none as failed, and the number passed is
    the number of distinct identities among them (a repeated identity is
    counted once). *)
Theorem collect_run_covers_discoveries (cfg : Config) (discoveries : list RawDiscovery)
    (w : World) :
  0 < pipeline_batchSize cfg ->
  NoDup (map lead_id (leads w)) ->
  fst (CollectStage_execute cfg discoveries w) = Returned tt
  /\ NoDup (map lead_id (leads (snd (CollectStage_execute cfg discoveries w))))
  /\ (forall d, In d discoveries ->
        exists r,
          selectById (rawLeadId (rd_rawData d))
            (leads (snd (CollectStage_execute cfg discoveries w))) = Some r
          /\ status_ r = st_collected)
  /\ processed (this (snd (CollectStage_execute cfg discoveries w)))
     = processed (this w) + Z.of_nat (List.length discoveries)
  /\ failed (this (snd (CollectStage_execute cfg discoveries w))) = failed (this w)
  /\ exists ids,
       identitiesOf discoveries ids
       /\ passed (this (snd (CollectStage_execute cfg discoveries w)))
          = passed (this w) + Z.of_nat (List.length ids).
Proof.
  intros Hsize Hnd.
  destruct (chunk_concat discoveries (pipeline_batchSize cfg) Hsize) as [batches [Hc Hcat]].
  unfold CollectStage_execute. rewrite Hc. rewrite !bind_run.
  cbn [ret fst snd]. unfold getRunId. rewrite bind_run. cbn [readThis ret fst snd].
  set (runId := match run (this w) with Some id => id | None => "unknown" end).
  assert (H0 : collectedSoFar [] w).
  { split; [constructor | split; [exact Hnd | intros id []]]. }
  destruct (collectBatches_steps runId batches [] w H0)
    as [seen' [[Hs [Hids Hrows]] [Hin [Hp [Hf Hpa]]]]].
  rewrite Hcat in *.
  split; [reflexivity |].
  split; [exact Hids |].
  split; [| split; [exact Hp | split; [exact Hf |]]].
  - intros d Hd. apply Hrows. apply Hin. right. exists d. auto.
  - exists seen'. split.
    + split; [exact Hs |]. intro id. rewrite Hin. cbn [In]. split.
      * intros [[] | H]. exact H.
      * intro H. right. exact H.
    + cbn [List.length] in Hpa. lia.
Qed.

Lemma collect_run_covers_discoveries_witness :
  fst (CollectStage_execute DEFAULT_CONFIG [sampleDiscovery 1; sampleDiscovery 2]
         (sampleWorld [])) = Returned tt
  /\ NoDup (map lead_id
              (leads (snd (CollectStage_execute DEFAULT_CONFIG
                             [sampleDiscovery 1; sampleDiscovery 2] (sampleWorld [])))))
  /\ (forall d, In d [sampleDiscovery 1; sampleDiscovery 2] ->
        exists r,
          selectById (rawLeadId (rd_rawData d))
            (leads (snd (CollectStage_execute DEFAULT_CONFIG
                           [sampleDiscovery 1; sampleDiscovery 2] (sampleWorld []))))
          = Some r
          /\ status_ r = st_collected)
  /\ processed (this (snd (CollectStage_execute DEFAULT_CONFIG
                             [sampleDiscovery 1; sampleDiscovery 2] (sampleWorld []))))
     = 0 + Z.of_nat (List.length [sampleDiscovery 1; sampleDiscovery 2])
  /\ failed (this (snd (CollectStage_execute DEFAULT_CONFIG
                          [sampleDiscovery 1; sampleDiscovery 2] (sampleWorld [])))) = 0
  /\ exists ids,
       identitiesOf [sampleDiscovery 1; sampleDiscovery 2] ids
       /\ passed (this (snd (CollectStage_execute DEFAULT_CONFIG
                               [sampleDiscovery 1; sampleDiscovery 2] (sampleWorld []))))
          = 0 + Z.of_nat (List.length ids).
Proof.
  apply (collect_run_covers_discoveries DEFAULT_CONFIG
           [sampleDiscovery 1; sampleDiscovery 2] (sampleWorld [])).
  - reflexivity.
  - constructor.
Defined.

(* ================================================================== *)
(** * Utilities ([lib/utils.ts]) *)

Lemma chunkFuel_nil {A} (fuel size : nat) : chunkFuel fuel size (@nil A) = [].
Proof. destruct fuel; reflexivity. Qed.

Lemma chunkFuel_shape {A} (size : nat) (fuel : nat) (l : list A) :
  (0 < size)%nat -> (List.length l <= fuel)%nat ->
  Forall (fun b => b <> [] /\ (List.length b <= size)%nat) (chunkFuel fuel size l)
  /\ forall i, (S i < List.length (chunkFuel fuel size l))%nat ->
               List.length (nth i (chunkFuel fuel size l) []) = size.
Proof.
  intro Hs. revert l. induction fuel as [| f IH]; intros l Hl.
  - cbn [chunkFuel]. split; [constructor | intros i Hi; cbn in Hi; lia].
  - destruct l as [| x l]; [split; [constructor | intros i Hi; cbn in Hi; lia] |].
    cbn [chunkFuel].
    assert (Hrest : (List.length (skipn size (x :: l)) <= f)%nat).
    { rewrite length_skipn. cbn [List.length] in *. lia. }
    destruct (IH _ Hrest) as [Hall Hfull].
    split.
    + constructor; [| exact Hall]. split.
      * destruct size; [lia | discriminate].
      * rewrite length_firstn. lia.
    + intros [| i] Hi; cbn [nth List.length] in *.
      * rewrite length_firstn.
        destruct (skipn size (x :: l)) as [| y rest] eqn:E.
        -- rewrite chunkFuel_nil in Hi. cbn in Hi. lia.
        -- assert (List.length (skipn size (x :: l)) = S (List.length rest))
             by (rewrite E; reflexivity).
           rewrite length_skipn in H. cbn [List.length] in *. lia.
      * apply Hfull. lia.
Qed.

(** X16. [chunk] with a positive size cuts an array into consecutive
    batches: put end to end the batches give the array back, no batch is
    empty or longer than the size, and every batch but the last has exactly
    the size. *)
Theorem chunk_cuts_in_order {A} (l : list A) (size : Z) :
  0 < size ->
  exists batches,
    chunk l size = Some batches
    /\ List.concat batches = l
    /\ Forall (fun b => b <> [] /\ Z.of_nat (List.length b) <= size) batches
    /\ forall i, (S i < List.length batches)%nat ->
                 Z.of_nat (List.length (nth i batches [])) = size.
Proof.
  intro Hs. unfold chunk. destruct l as [| x l].
  - exists []. repeat split; [constructor | intros i Hi; cbn in Hi; lia].
  - destruct (size <=? 0) eqn:E; [apply Z.leb_le in E; lia |].
    eexists. split; [reflexivity |].
    assert (Hn : (0 < Z.to_nat size)%nat) by lia.
    destruct (chunkFuel_shape (Z.to_nat size) (List.length (x :: l)) (x :: l) Hn (le_n _))
      as [Hall Hfull].
    split; [apply chunkFuel_concat; [exact Hn | apply le_n] |].
    split.
    + eapply Forall_impl; [| exact Hall]. intros b [Hb Hlen]. split; [exact Hb | lia].
    + intros i Hi. rewrite (Hfull i Hi). lia.
Qed.

Lemma chunk_cuts_in_order_witness :
  exists batches,
    chunk [1; 2; 3; 4; 5] 2 = Some batches
    /\ List.concat batches = [1; 2; 3; 4; 5]
    /\ Forall (fun b => b <> [] /\ Z.of_nat (List.length b) <= 2) batches
    /\ forall i, (S i < List.length batches)%nat ->
                 Z.of_nat (List.length (nth i batches [])) = 2.
Proof.
  apply (chunk_cuts_in_order [1; 2; 3; 4; 5] 2). reflexivity.
Defined.

(* ================================================================== *)
(** * Scoring *)

Lemma normalizeScore_range (x : Q) : 0 <= normalizeScore x <= 100.
Proof. unfold normalizeScore. lia. Qed.

(** The angles [scoreLead] reports, in the order of its tests. *)
Lemma scoreLead_angles (cfg : Config) (lead : Lead) (w : World) :
  (exists x, sr_score (fst (scoreLead cfg lead w)) = normalizeScore x)
  /\ sr_angles (fst (scoreLead cfg lead w)) =
       ((if negb (Js.truthyStr (website lead)) then [no_website]
         else if fst (isOutdatedWebsite cfg lead w) then [outdated_website] else [])
        ++ (match enrichmentData lead with
            | Js.Val e => if hasOnlineBooking e then [] else [no_online_booking]
            | _ => []
            end)
        ++ (match getReviewCount lead with
            | Some c => if Qltb c (thresholds_lowReviewCount cfg) then [low_reviews] else []
            | None => []
            end)
        ++ (match getRating lead with
            | Some r => if Qltb r (thresholds_poorRatingThreshold cfg) then [poor_ratings]
                        else []
            | None => []
            end)
        ++ (if isFounderLed lead then [founder_led] else []))%list.
Proof.
  unfold scoreLead. cbv zeta. rewrite bind_run.
  split; [cbn [ret fst sr_score]; eexists; reflexivity |].
  cbn [ret fst sr_angles].
  destruct (Js.truthyStr (email lead) || hasEnriched emails (enrichmentData lead));
    destruct (Js.truthyStr (phone lead) || hasEnriched phones (enrichmentData lead));
    destruct (Js.truthyStr (website lead)); cbn [negb];
    rewrite ?bind_run; cbn [ret fst];
    try destruct (fst (isOutdatedWebsite cfg lead w));
    destruct (isFounderLed lead);
    destruct (getRating lead) as [r |];
    try destruct (Qltb r (thresholds_poorRatingThreshold cfg));
    destruct (getReviewCount lead) as [c |];
    try destruct (Qltb c (thresholds_lowReviewCount cfg));
    destruct (enrichmentData lead) as [| | e];
    try destruct (hasOnlineBooking e);
    reflexivity.
Qed.

(** X17. What [scoreLead] reports: a score between 0 and 100; no angle
    twice; the angle no_website exactly for a lead without a site, and then
    never outdated_website; no_online_booking exactly for a lead with
    enrichment data that shows no booking; founder_led exactly when
    [isFounderLed] holds. *)
Theorem scoreLead_report (cfg : Config) (lead : Lead) (w : World) :
  0 <= sr_score (fst (scoreLead cfg lead w)) <= 100
  /\ NoDup (sr_angles (fst (scoreLead cfg lead w)))
  /\ (In no_website (sr_angles (fst (scoreLead cfg lead w)))
      <-> Js.truthyStr (website lead) = false)
  /\ (In outdated_website (sr_angles (fst (scoreLead cfg lead w)))
      -> Js.truthyStr (website lead) = true)
  /\ (In no_online_booking (sr_angles (fst (scoreLead cfg lead w)))
      <-> exists e, enrichmentData lead = Js.Val e /\ hasOnlineBooking e = false)
  /\ (In founder_led (sr_angles (fst (scoreLead cfg lead w)))
      <-> isFounderLed lead = true).
Proof.
  destruct (scoreLead_angles cfg lead w) as [[x Hx] Ha].
  rewrite Hx, Ha. clear Hx Ha.
  split; [apply normalizeScore_range |].
  set (a1 := if negb (Js.truthyStr (website lead)) then [no_website]
             else if fst (isOutdatedWebsite cfg lead w) then [outdated_website] else []).
  set (a2 := match enrichmentData lead with
             | Js.Val e => if hasOnlineBooking e then [] else [no_online_booking]
             | _ => []
             end).
  set (a3 := match getReviewCount lead with
             | Some c => if Qltb c (thresholds_lowReviewCount cfg) then [low_reviews] else []
             | None => []
             end).
  set (a4 := match getRating lead with
             | Some r => if Qltb r (thresholds_poorRatingThreshold cfg) then [poor_ratings]
                         else []
             | None => []
             end).
  set (a5 := if isFounderLed lead then [founder_led] else []).
  assert (H1 : a1 = [] \/ (a1 = [no_website] /\ Js.truthyStr (website lead) = false)
               \/ (a1 = [outdated_website] /\ Js.truthyStr (website lead) = true)).
  { unfold a1. destruct (Js.truthyStr (website lead)); cbn [negb]; auto.
    destruct (fst (isOutdatedWebsite cfg lead w)); auto. }
  assert (H1' : Js.truthyStr (website lead) = false -> a1 = [no_website]).
  { unfold a1. intros ->. reflexivity. }
  assert (H2 : (a2 = [] /\ ~ exists e, enrichmentData lead = Js.Val e
                                       /\ hasOnlineBooking e = false)
               \/ (a2 = [no_online_booking]
                   /\ exists e, enrichmentData lead = Js.Val e
                                /\ hasOnlineBooking e = false)).
  { unfold a2. destruct (enrichmentData lead) as [| | e].
    - left. split; [reflexivity | intros [e [He _]]; discriminate].
    - left. split; [reflexivity | intros [e [He _]]; discriminate].
    - destruct (hasOnlineBooking e) eqn:Eb.
      + left. split; [reflexivity |]. intros [e' [He' Hb]]. injection He' as <-. congruence.
      + right. split; [reflexivity | eauto]. }
  assert (H3 : a3 = [] \/ a3 = [low_reviews]).
  { unfold a3. destruct (getReviewCount lead) as [c |]; auto.
    destruct (Qltb c (thresholds_lowReviewCount cfg)); auto. }
  assert (H4 : a4 = [] \/ a4 = [poor_ratings]).
  { unfold a4. destruct (getRating lead) as [r |]; auto.
    destruct (Qltb r (thresholds_poorRatingThreshold cfg)); auto. }
  assert (H5 : (a5 = [] /\ isFounderLed lead = false)
               \/ (a5 = [founder_led] /\ isFounderLed lead = true)).
  { unfold a5. destruct (isFounderLed lead); auto. }
  clearbody a1 a2 a3 a4 a5.
  destruct H1 as [-> | [[-> Hw] | [-> Hw]]];
    destruct H2 as [[-> Hb] | [-> Hb]];
    destruct H3 as [-> | ->]; destruct H4 as [-> | ->];
    destruct H5 as [[-> Hf] | [-> Hf]];
    cbn [app];
    (split; [repeat constructor; cbn [In]; intuition discriminate |]);
    (split; [split; [cbn [In]; intuition (try discriminate; try congruence)
                    | intro Hn; try (specialize (H1' Hn); discriminate);
                      cbn [In]; auto 10] |]);
    (split; [cbn [In]; intuition (try discriminate; try congruence) |]);
    (split; [split; [cbn [In]; intuition (try discriminate; try congruence)
                    | intro He; try contradiction; cbn [In]; auto 10] |]);
    (split; [cbn [In]; intuition (try discriminate; try congruence)
            | intro He; try congruence; cbn [In]; auto 10]).
Qed.

(* ================================================================== *)
(** * Whole runs *)

Lemma driftBy_quiet {A} (m : M A) : quiet m -> driftBy 0 m.
Proof.
  intros Hq w. destruct (Hq w) as [-> _]. repeat split. lia.
Qed.

Lemma driftBy_bind {A B} (d d1 : Z) (m : M A) (k : A -> M B) :
  driftBy d1 m -> (forall a, driftBy (d - d1) (k a)) -> driftBy d (bind m k).
Proof.
  intros Hm Hk w. rewrite bind_run.
  destruct (Hk (fst (m w)) (snd (m w))) as [H1 [H2 H3]].
  destruct (Hm w) as [H4 [H5 H6]].
  rewrite H1, H2, H3, H4, H5, H6. repeat split. lia.
Qed.

Lemma driftBy_eq {A} (d d' : Z) (m : M A) : d = d' -> driftBy d' m -> driftBy d m.
Proof. intros ->. auto. Qed.

Lemma driftBy_incProcessed : driftBy 1 incProcessed.
Proof. intro w. unfold drift. cbn. repeat split. lia. Qed.

Lemma driftBy_incPassed : driftBy (-1) incPassed.
Proof. intro w. unfold drift. cbn. repeat split. lia. Qed.

Lemma driftBy_incFailed : driftBy (-1) incFailed.
Proof. intro w. unfold drift. cbn. repeat split. lia. Qed.

Lemma driftBy_progressEvery (n : Z) : driftBy 0 (progressEvery n).
Proof. intro w. rewrite this_progressEvery. repeat split. lia. Qed.

Lemma driftBy_updateProgress : driftBy 0 updateProgress.
Proof. intro w. rewrite this_updateProgress. repeat split. lia. Qed.

Ltac drift_atom :=
  lazymatch goal with
  | |- driftBy _ incProcessed => apply driftBy_incProcessed
  | |- driftBy _ incPassed => apply driftBy_incPassed
  | |- driftBy _ incFailed => apply driftBy_incFailed
  | |- driftBy _ (progressEvery _) => apply driftBy_progressEvery
  | |- driftBy _ _ => apply driftBy_quiet; solve [auto with quiet]
  end.

Ltac drift_leaf := eapply driftBy_eq; [| drift_atom]; reflexivity.

Ltac drift_tac :=
  repeat lazymatch goal with
         | |- driftBy _ (bind _ _) => eapply driftBy_bind; [drift_atom | intro]
         | |- driftBy _ (if ?c then _ else _) => destruct c
         | |- driftBy _ (match ?x with _ => _ end) => destruct x
         | |- driftBy _ _ => drift_leaf
         end.

Lemma quiet_cooldownCheck (lead : Lead) :
  quiet (match cooldownUntil lead with
         | Js.Val until =>
             if until =? 0 then ret false
             else now <- dateNow ;; ret (now <? until)
         | _ => ret false
         end).
Proof. quiet_tac. Qed.

Lemma filterTurn_drift (rt : Runtime) (cfg : Config) (lead : Lead) :
  driftBy 0 (filterTurn rt cfg lead).
Proof.
  unfold filterTurn. cbv zeta.
  pose proof (quiet_cooldownCheck lead) as Hq.
  eapply driftBy_bind; [apply driftBy_incProcessed | intro].
  apply (driftBy_bind _ (-1)); [| intro; drift_leaf].
  destruct (evaluateLead _ _ _ _ _).
  - drift_tac.
  - eapply driftBy_bind; [apply driftBy_quiet; exact Hq | intros [|]]; drift_tac.
Qed.

Lemma scoreTurn_drift (cfg : Config) (lead : Lead) : driftBy 0 (scoreTurn cfg lead).
Proof. unfold scoreTurn. drift_tac. Qed.

Lemma enrichTurn_drift (scrape : string -> Scrape) (lead : Lead) :
  driftBy 0 (enrichTurn scrape lead).
Proof. unfold enrichTurn. drift_tac. Qed.

Lemma outputTurn_drift (cfg : Config) (lead : Lead) : driftBy 0 (outputTurn cfg lead).
Proof. unfold outputTurn. drift_tac. Qed.

Lemma forEach_drift {A} (xs : list A) (body : A -> M unit) :
  (forall x, driftBy 0 (body x)) -> driftBy 0 (forEach xs body).
Proof.
  intro Hbody. induction xs as [| x xs IH]; cbn [forEach].
  - apply driftBy_quiet. apply quiet_ret.
  - eapply driftBy_bind; [apply Hbody | intro; exact IH].
Qed.

Lemma overStageLeads_drift (stage : string) (limit : Js.opt Z) (turn : Lead -> M unit) :
  (forall x, driftBy 0 (turn x)) -> driftBy 0 (overStageLeads stage limit turn).
Proof.
  intro Hturn. unfold overStageLeads.
  eapply driftBy_bind; [apply driftBy_quiet; auto with quiet | intros [selected | m |]].
  - eapply driftBy_bind; [apply forEach_drift; exact Hturn | intro]. drift_leaf.
  - drift_leaf.
  - drift_leaf.
Qed.

Lemma executeOf_decides (cfg : Config) (c : StageCall) :
  decidesEveryLead c = true ->
  driftBy 0 (executeOf cfg c) /\ forall w, fst (executeOf cfg c w) = Returned tt.
Proof.
  destruct c; cbn [decidesEveryLead executeOf]; try discriminate; intros _.
  - split.
    + apply overStageLeads_drift. intro. apply filterTurn_drift.
    + intro w. apply (overStageLeads_returns "filter" _ _ [st_collected]). reflexivity.
  - split.
    + apply overStageLeads_drift. intro. apply enrichTurn_drift.
    + intro w. apply (overStageLeads_returns "enrich" _ _ [st_filtered]). reflexivity.
  - split.
    + apply overStageLeads_drift. intro. apply scoreTurn_drift.
    + intro w. apply (overStageLeads_returns "score" _ _ [st_enriched]). reflexivity.
  - split.
    + unfold OutputStage_execute.
      eapply driftBy_bind; [apply driftBy_quiet; auto with quiet | intros [allLeads | m |]];
        try drift_leaf.
      destruct (filter _ allLeads); [drift_leaf |].
      eapply driftBy_bind; [apply driftBy_quiet; auto with quiet | intro].
      eapply driftBy_bind; [apply forEach_drift; intro; apply outputTurn_drift | intro].
      drift_leaf.
    + intro w. unfold OutputStage_execute, getLeadsForStage.
      change (statusMap "output") with (OwnEntry [st_scored]).
      rewrite !bind_run. cbn [ret fst snd].
      destruct (filter _ _); [reflexivity |]. rewrite !bind_run. reflexivity.
Qed.

(** X18. A run of the filter, enrich, score or output stage on a fresh
    stage object returns a result. When the result reports success, that
    is, when [execute] did not throw (for the output stage: the files
    could be written), every processed lead is either passed or failed
    (processed = passed + failed), no error is listed, and the last
    statement against the table of runs completes the run with exactly the
    counters of the result. *)
Theorem lead_stage_result_settled (cfg : Config) (c : StageCall) (newRunId : string)
    (w0 : World) :
  decidesEveryLead c = true ->
  this w0 = newStage ->
  exists res,
    fst (runCall cfg c newRunId w0) = Returned res
    /\ (success res = true ->
        res_errors res = []
        /\ res_processed res = res_passed res + res_failed res
        /\ exists finishedAt log,
             runLog (snd (runCall cfg c newRunId w0))
             = (log ++ [RunComplete newRunId finishedAt
                          (res_processed res) (res_passed res) (res_failed res)])%list).
Proof.
  intros Hc Hfresh. destruct (executeOf_decides cfg c Hc) as [Hdrift Hret].
  unfold runCall, runStage. rewrite !bind_run.
  change (fst (runService_start newRunId (stageNameOf c) w0)) with newRunId.
  set (w1 := snd (writeThis (setRun (Some newRunId))
                    (snd (runService_start newRunId (stageNameOf c) w0)))).
  assert (H1 : drift (this w1) = 0 /\ errors (this w1) = []).
  { unfold w1, runService_start. rewrite !bind_run. cbn. rewrite Hfresh. auto. }
  rewrite (Hret w1). destruct (Hdrift w1) as [Hd [He _]].
  set (w2 := snd (executeOf cfg c w1)) in *.
  rewrite !bind_run. cbn [readThis ret fst snd].
  unfold runService_complete. rewrite !bind_run.
  cbn [dateNow writeRun fst snd this runLog].
  eexists. split; [reflexivity |]. intros _.
  cbn [resultOf success res_errors res_processed res_passed res_failed].
  destruct H1 as [H1 H1e]. rewrite H1 in Hd. rewrite H1e in He.
  unfold drift in Hd.
  split; [exact He |]. split; [lia |]. eexists _, _. reflexivity.
Qed.

Lemma lead_stage_result_settled_witness :
  exists res,
    fst (runCall DEFAULT_CONFIG (CallScore (Js.Val 10)) "run_y"
           (sampleWorld [exhaustedRow])) = Returned res
    /\ (success res = true ->
        res_errors res = []
        /\ res_processed res = res_passed res + res_failed res
        /\ exists finishedAt log,
             runLog (snd (runCall DEFAULT_CONFIG (CallScore (Js.Val 10)) "run_y"
                            (sampleWorld [exhaustedRow])))
             = (log ++ [RunComplete "run_y" finishedAt
                          (res_processed res) (res_passed res) (res_failed res)])%list).
Proof.
  apply (lead_stage_result_settled DEFAULT_CONFIG (CallScore (Js.Val 10)) "run_y"
           (sampleWorld [exhaustedRow])); reflexivity.
Defined.

(* ================================================================== *)
(** * The discover stage and its limit *)

Lemma reached_spec (l n : Z) : l <> 0 -> reached (Js.Val l) n = (l <=? n).
Proof.
  intro H. unfold reached. destruct (l =? 0) eqn:E; [apply Z.eqb_eq in E; lia |].
  reflexivity.
Qed.

Lemma this_addBulk (records : list RawBusinessData) (w : World) :
  this (snd (addBulk records w)) = this w
  /\ fst (addBulk records w) = Z.of_nat (List.length records).
Proof. split; reflexivity. Qed.

Lemma counts_recordError (message : string) (w : World) :
  passed (this (snd (recordError message w))) = passed (this w)
  /\ processed (this (snd (recordError message w))) = processed (this w).
Proof.
  unfold recordError. rewrite !bind_run. rewrite this_updateProgress.
  unfold incFailed. cbn. auto.
Qed.

(** The pending batch is stored: the total and [passed] grow by its
    length. *)
Lemma flush_counts (batch : list RawBusinessData) (total : Z) (w : World) :
  let m := match batch with
           | [] => ret total
           | _ => count <- addBulk batch ;; addPassed count ;;; ret (total + count)
           end in
  fst (m w) = total + Z.of_nat (List.length batch)
  /\ passed (this (snd (m w))) = passed (this w) + Z.of_nat (List.length batch)
  /\ processed (this (snd (m w))) = processed (this w).
Proof.
  cbv zeta. destruct batch as [| b batch].
  - cbn. repeat split; lia.
  - rewrite !bind_run. cbn. repeat split; lia.
Qed.

Lemma sourceLoop_bound (cfg : Config) (l : Z) (steps : list GenStep) :
  l <> 0 ->
  forall (batch : list RawBusinessData) (total : Z) (w : World),
    total + Z.of_nat (List.length batch) < l ->
    let r := sourceLoop cfg (Js.Val l) steps batch total w in
    total <= fst r <= l
    /\ passed (this (snd r)) = passed (this w) + (fst r - total)
    /\ fst r - total <= processed (this (snd r)) - processed (this w)
                        + Z.of_nat (List.length batch).
Proof.
  intro Hl. induction steps as [| step steps IH]; intros batch total w Hlt; cbv zeta.
  - cbn [sourceLoop].
    destruct (flush_counts batch total w) as [H1 [H2 H3]].
    rewrite H1, H2, H3. lia.
  - destruct step as [business | message].
    + cbn [sourceLoop]. rewrite !bind_run.
      set (w1 := snd (incProcessed w)).
      assert (Hw1 : passed (this w1) = passed (this w)
                    /\ processed (this w1) = processed (this w) + 1) by (split; reflexivity).
      destruct Hw1 as [Hpa1 Hp1].
      set (batch1 := (batch ++ [business])%list).
      assert (Hlen1 : Z.of_nat (List.length batch1) = Z.of_nat (List.length batch) + 1).
      { unfold batch1. rewrite length_app. cbn [List.length]. lia. }
      set (st := (if pipeline_batchSize cfg <=? Z.of_nat (List.length batch1)
                  then count <- addBulk batch1 ;; addPassed count ;;; updateProgress ;;;
                       ret ([], total + count)
                  else ret (batch1, total)) w1).
      assert (Hst : snd (fst st) + Z.of_nat (List.length (fst (fst st)))
                    = total + Z.of_nat (List.length batch) + 1
                    /\ total <= snd (fst st)
                    /\ passed (this (snd st)) = passed (this w) + (snd (fst st) - total)
                    /\ processed (this (snd st)) = processed (this w) + 1).
      { unfold st. destruct (pipeline_batchSize cfg <=? Z.of_nat (List.length batch1)).
        - rewrite !bind_run. cbn [ret fst snd]. rewrite this_updateProgress.
          cbn [addBulk addPassed writeThis bind dateNow ret fst snd this passed processed
               setPassed List.length].
          rewrite Hpa1, Hp1. lia.
        - cbn [ret fst snd]. rewrite Hpa1, Hp1. lia. }
      destruct Hst as [Hsum [Hle [Hpa Hp]]].
      destruct st as [[batch2 total2] w2]. cbn [fst snd] in *.
      rewrite (reached_spec l _ Hl).
      destruct (l <=? total2 + Z.of_nat (List.length batch2)) eqn:Er.
      * apply Z.leb_le in Er.
        destruct (flush_counts batch2 total2 w2) as [H1 [H2 H3]].
        cbv zeta in H1, H2, H3. rewrite H1, H2, H3. lia.
      * apply Z.leb_gt in Er.
        specialize (IH batch2 total2 w2 Er). cbv zeta in IH.
        destruct IH as [[I1 I2] [I3 I4]]. lia.
    + cbn [sourceLoop]. rewrite bind_run. cbn [ret fst snd].
      destruct (counts_recordError message w) as [H1 H2]. rewrite H1, H2. lia.
Qed.

Lemma sourcesLoop_bound (cfg : Config) (handlers : string -> option SourceHandler) (l : Z)
    (srcs : list SourceConfig) :
  l <> 0 ->
  forall (total : Z) (w : World),
    0 <= total <= Z.max 0 l ->
    passed (this (snd (sourcesLoop cfg handlers (Js.Val l) srcs total w)))
      - passed (this w) <= Z.max 0 l - total
    /\ passed (this (snd (sourcesLoop cfg handlers (Js.Val l) srcs total w)))
         - passed (this w)
       <= processed (this (snd (sourcesLoop cfg handlers (Js.Val l) srcs total w)))
          - processed (this w)
    /\ passed (this w)
       <= passed (this (snd (sourcesLoop cfg handlers (Js.Val l) srcs total w))).
Proof.
  intro Hl. induction srcs as [| source rest IH]; intros total w Ht.
  - cbn. lia.
  - cbn [sourcesLoop]. rewrite (reached_spec l _ Hl).
    destruct (l <=? total) eqn:Er; [cbn; lia |].
    apply Z.leb_gt in Er.
    destruct (handlers (src_type source)) as [handler |]; [| apply IH; exact Ht].
    replace (l =? 0) with false by (symmetry; apply Z.eqb_neq; exact Hl).
    rewrite bind_run.
    assert (Hstart : total + Z.of_nat (List.length (@nil RawBusinessData)) < l)
      by (cbn; lia).
    pose proof (sourceLoop_bound cfg l (handler source (Js.Val (l - total))) Hl
                  [] total w Hstart) as Hs.
    cbv zeta in Hs. cbn [List.length Z.of_nat] in Hs.
    destruct Hs as [[S1 S2] [S3 S4]].
    set (r := sourceLoop cfg (Js.Val l) (handler source (Js.Val (l - total))) [] total w) in *.
    assert (Ht' : 0 <= fst r <= Z.max 0 l) by lia.
    destruct (IH (fst r) (snd r) Ht') as [I1 [I2 I3]]. lia.
Qed.

(** X19. With a limit in force (the limit given, or else the configured
    maximum of leads per run, when not zero), a run of the discover stage
    stores at most that many records, over all sources together and
    whatever the source handlers yield or throw; with a negative limit it
    stores none. It never counts more records as passed than it counted as
    processed. *)
Theorem discover_stores_at_most_limit (cfg : Config)
    (handlers : string -> option SourceHandler) (sourceName : Js.opt string)
    (limit : Js.opt Z) (l : Z) (w : World) :
  stageLimit cfg limit = Js.Val l ->
  l <> 0 ->
  let w' := snd (DiscoverStage_execute cfg handlers sourceName limit w) in
  passed (this w) <= passed (this w') <= passed (this w) + Z.max 0 l
  /\ passed (this w') - passed (this w) <= processed (this w') - processed (this w).
Proof.
  intros Hlim Hl. cbv zeta. unfold DiscoverStage_execute. cbv zeta.
  rewrite bind_run. cbn [ret snd]. rewrite Hlim.
  match goal with
  | |- context [sourcesLoop cfg handlers (Js.Val l) ?srcs 0 w] =>
      destruct (sourcesLoop_bound cfg handlers l srcs Hl 0 w) as [H1 [H2 H3]]
  end; lia.
Qed.

Lemma discover_stores_at_most_limit_witness :
  passed (this (sampleWorld []))
  <= passed (this (snd (DiscoverStage_execute sampleSources sampleHandlers Js.Undefined
                          (Js.Val 5) (sampleWorld []))))
  <= passed (this (sampleWorld [])) + Z.max 0 5
  /\ passed (this (snd (DiscoverStage_execute sampleSources sampleHandlers Js.Undefined
                          (Js.Val 5) (sampleWorld []))))
     - passed (this (sampleWorld []))
     <= processed (this (snd (DiscoverStage_execute sampleSources sampleHandlers
                                Js.Undefined (Js.Val 5) (sampleWorld []))))
        - processed (this (sampleWorld [])).
Proof.
  apply (discover_stores_at_most_limit sampleSources sampleHandlers Js.Undefined
           (Js.Val 5) 5 (sampleWorld [])).
  - reflexivity.
  - lia.
Defined.

(* ================================================================== *)
(** * Phone numbers, retries and the rate limiter *)

Lemma filter_isDigit_all (l : list ascii) : Forall (fun c => isDigit c = true) (filter isDigit l).
Proof.
  apply Forall_forall. intros c Hc. apply filter_In in Hc. apply Hc.
Qed.

Lemma filter_isDigit_id (l : list ascii) :
  Forall (fun c => isDigit c = true) l -> filter isDigit l = l.
Proof.
  induction 1 as [| c l Hc Hl IH]; [reflexivity |].
  cbn [filter]. rewrite Hc, IH. reflexivity.
Qed.

(** X20. [normalizePhone] is idempotent, and its result is either the text
    it was given or a plus sign, the country code 1 and exactly ten digits:
    a number with ten digits, or with eleven digits of which the first is
    1, comes out in that form whatever its punctuation. *)
Theorem normalizePhone_canonical (phone : string) :
  normalizePhone (normalizePhone phone) = normalizePhone phone
  /\ (normalizePhone phone = phone
      \/ exists ds, List.length ds = 10%nat
                    /\ Forall (fun c => isDigit c = true) ds
                    /\ normalizePhone phone
                       = string_of_list_ascii ("+"%char :: "1"%char :: ds))
  /\ forall other,
       filter isDigit (list_ascii_of_string other)
       = filter isDigit (list_ascii_of_string phone) ->
       List.length (filter isDigit (list_ascii_of_string phone)) = 10%nat ->
       normalizePhone other = normalizePhone phone.
Proof.
  pose proof (filter_isDigit_all (list_ascii_of_string phone)) as Hall.
  assert (Hdef : normalizePhone phone
                 = let digits := filter isDigit (list_ascii_of_string phone) in
                   if Nat.eqb (List.length digits) 10 then
                     string_of_list_ascii ("+"%char :: "1"%char :: digits)
                   else if Nat.eqb (List.length digits) 11
                           && Js.startsWith (list_ascii_of_string "1") digits then
                     string_of_list_ascii ("+"%char :: digits)
                   else phone) by reflexivity.
  cbv zeta in Hdef.
  set (ds := filter isDigit (list_ascii_of_string phone)) in *.
  assert (Hthird : forall other,
            filter isDigit (list_ascii_of_string other) = ds ->
            List.length ds = 10%nat ->
            normalizePhone other = normalizePhone phone).
  { intros other Hsame Hlen. rewrite Hdef. unfold normalizePhone. cbv zeta.
    rewrite Hsame, Hlen. reflexivity. }
  destruct (Nat.eqb (List.length ds) 10) eqn:E10.
  - apply Nat.eqb_eq in E10.
    split; [| split; [right; exists ds; auto | exact Hthird]].
    rewrite Hdef. unfold normalizePhone. cbv zeta.
    rewrite list_ascii_of_string_of_list_ascii. cbn [filter].
    change (isDigit "+"%char) with false. change (isDigit "1"%char) with true.
    cbv iota. rewrite (filter_isDigit_id ds Hall).
    cbn [List.length]. rewrite E10. reflexivity.
  - destruct (Nat.eqb (List.length ds) 11
              && Js.startsWith (list_ascii_of_string "1") ds) eqn:E11.
    + apply andb_prop in E11. destruct E11 as [E11 Hs].
      split; [| split; [| exact Hthird]].
      * rewrite Hdef. unfold normalizePhone. cbv zeta.
        rewrite list_ascii_of_string_of_list_ascii. cbn [filter].
        change (isDigit "+"%char) with false. cbv iota.
        rewrite (filter_isDigit_id ds Hall). rewrite E10, E11, Hs. reflexivity.
      * apply Nat.eqb_eq in E11.
        right. destruct ds as [| d ds']; [discriminate |].
        cbn [Js.startsWith list_ascii_of_string] in Hs.
        apply andb_prop in Hs. destruct Hs as [Hd _]. apply Ascii.eqb_eq in Hd. subst d.
        exists ds'. inversion Hall; subst. cbn [List.length] in E11.
        split; [lia | split; [assumption | exact Hdef]].
    + split; [| split; [left; exact Hdef | exact Hthird]].
      rewrite Hdef. exact Hdef.
Qed.

Lemma retryFrom_success {T E} (fn : nat -> Attempt T E) (maxRetries baseDelay : Z)
    (k : nat) (v : T) :
  fn k = Succeeds v ->
  Z.of_nat k <= maxRetries ->
  forall (fuel attempt : nat) (lastError : option E) (slept : list Z),
    (forall i, (attempt <= i < k)%nat -> exists e, fn i = Fails e) ->
    (attempt <= k)%nat -> (k - attempt < fuel)%nat ->
    retryFrom fuel fn maxRetries baseDelay attempt lastError slept
    = {| outcome := Succeeds v; calls := S k;
         delays := (slept ++ map (fun i => baseDelay * 2 ^ Z.of_nat i)
                               (seq attempt (k - attempt)))%list |}.
Proof.
  intros Hk Hmax. induction fuel as [| f IH]; intros attempt lastError slept Hfail Hle Hfuel;
    [lia |].
  cbn [retryFrom]. destruct (Nat.eq_dec attempt k) as [-> | Hne].
  - rewrite Hk, Nat.sub_diag. cbn [seq map]. rewrite app_nil_r. reflexivity.
  - destruct (Hfail attempt) as [e He]; [lia |]. rewrite He.
    replace (Z.of_nat attempt <? maxRetries) with true by (symmetry; apply Z.ltb_lt; lia).
    rewrite IH; [| intros i Hi; apply Hfail; lia | lia | lia].
    replace (k - attempt)%nat with (S (k - S attempt)) by lia.
    cbn [seq map]. rewrite <- app_assoc. reflexivity.
Qed.

Lemma retryFrom_exhausted {T E} (fn : nat -> Attempt T E) (errs : nat -> E)
    (maxRetries baseDelay : Z) :
  (forall i, Z.of_nat i <= maxRetries -> fn i = Fails (errs i)) ->
  forall (fuel attempt : nat) (lastError : option E) (slept : list Z),
    Z.of_nat attempt + Z.of_nat fuel = maxRetries + 1 ->
    retryFrom fuel fn maxRetries baseDelay attempt lastError slept
    = {| outcome := Fails (match fuel with
                           | O => lastError
                           | S _ => Some (errs (Z.to_nat maxRetries))
                           end);
         calls := (attempt + fuel)%nat;
         delays := (slept ++ map (fun i => baseDelay * 2 ^ Z.of_nat i)
                               (seq attempt (fuel - 1)))%list |}.
Proof.
  intro Hfail. induction fuel as [| f IH]; intros attempt lastError slept Hsum.
  - cbn [retryFrom Nat.sub seq map]. rewrite app_nil_r, Nat.add_0_r. reflexivity.
  - cbn [retryFrom]. rewrite (Hfail attempt) by lia.
    rewrite IH by lia. replace (attempt + S f)%nat with (S attempt + f)%nat by lia.
    destruct f as [| f'].
    + replace (Z.of_nat attempt <? maxRetries) with false
        by (symmetry; apply Z.ltb_ge; lia).
      cbn [Nat.sub seq map]. rewrite !app_nil_r.
      replace (Z.to_nat maxRetries) with attempt by lia. reflexivity.
    + replace (Z.of_nat attempt <? maxRetries) with true
        by (symmetry; apply Z.ltb_lt; lia).
      cbn [Nat.sub seq map]. rewrite Nat.sub_0_r, <- app_assoc. reflexivity.
Qed.

Lemma sum_doubling (baseDelay : Z) (k : nat) :
  fold_right Z.add 0 (map (fun i => baseDelay * 2 ^ Z.of_nat i) (seq 0 k))
  = baseDelay * (2 ^ Z.of_nat k - 1).
Proof.
  induction k as [| k IH]; [cbn; lia |].
  rewrite seq_S, map_app, fold_right_app. cbn [map fold_right Nat.add].
  assert (Hgen : forall l a, fold_right Z.add a l = fold_right Z.add 0 l + a).
  { induction l as [| x l IHl]; intro a; cbn [fold_right]; [lia |]. rewrite IHl. lia. }
  rewrite Hgen, IH. rewrite Nat2Z.inj_succ, Z.pow_succ_r by lia. lia.
Qed.

(** X21. [retry] hands back the first success: when the calls before the
    [k]-th throw and the [k]-th returns, with [k] at most the number of
    retries, the result is that value after exactly [k + 1] calls; between
    the calls it slept the base delay doubled each time, in all the base
    delay times [2^k - 1]. *)
Theorem retry_returns_first_success {T E} (fn : nat -> Attempt T E)
    (maxRetries baseDelay : Z) (k : nat) (v : T) :
  (forall i, (i < k)%nat -> exists e, fn i = Fails e) ->
  fn k = Succeeds v ->
  Z.of_nat k <= maxRetries ->
  outcome (retry fn maxRetries baseDelay) = Succeeds v
  /\ calls (retry fn maxRetries baseDelay) = S k
  /\ delays (retry fn maxRetries baseDelay)
     = map (fun i => baseDelay * 2 ^ Z.of_nat i) (seq 0 k)
  /\ fold_right Z.add 0 (delays (retry fn maxRetries baseDelay))
     = baseDelay * (2 ^ Z.of_nat k - 1).
Proof.
  intros Hfail Hk Hmax. unfold retry.
  rewrite (retryFrom_success fn maxRetries baseDelay k v Hk Hmax);
    [| intros i Hi; apply Hfail; lia | lia | lia].
  cbn [outcome calls delays app]. rewrite Nat.sub_0_r.
  repeat split. apply sum_doubling.
Qed.

Lemma retry_returns_first_success_witness :
  outcome (retry (fun n => if (n <? 2)%nat then Fails "ETIMEDOUT" else Succeeds 7%Z)
             3 1000) = Succeeds 7%Z
  /\ calls (retry (fun n => if (n <? 2)%nat then Fails "ETIMEDOUT" else Succeeds 7%Z)
              3 1000) = 3%nat
  /\ delays (retry (fun n => if (n <? 2)%nat then Fails "ETIMEDOUT" else Succeeds 7%Z)
               3 1000)
     = map (fun i => 1000 * 2 ^ Z.of_nat i) (seq 0 2)
  /\ fold_right Z.add 0
       (delays (retry (fun n => if (n <? 2)%nat then Fails "ETIMEDOUT" else Succeeds 7%Z)
                  3 1000))
     = 1000 * (2 ^ Z.of_nat 2 - 1).
Proof.
  apply (retry_returns_first_success
           (fun n => if (n <? 2)%nat then Fails "ETIMEDOUT" else Succeeds 7%Z) 3 1000 2 7).
  - intros i Hi. exists "ETIMEDOUT". destruct i as [| [| i]]; [reflexivity | reflexivity | lia].
  - reflexivity.
  - lia.
Defined.

(** X22. [retry] gives up after [maxRetries + 1] calls: when every call
    throws, it throws the error of the last call, having slept after every
    call but the last; with a negative number of retries it calls nothing
    and throws [null]. *)
Theorem retry_gives_up_with_last_error {T E} (fn : nat -> Attempt T E) (errs : nat -> E)
    (maxRetries baseDelay : Z) :
  (forall i, Z.of_nat i <= maxRetries -> fn i = Fails (errs i)) ->
  outcome (retry fn maxRetries baseDelay)
  = Fails (if maxRetries <? 0 then None else Some (errs (Z.to_nat maxRetries)))
  /\ calls (retry fn maxRetries baseDelay) = Z.to_nat (maxRetries + 1)
  /\ delays (retry fn maxRetries baseDelay)
     = map (fun i => baseDelay * 2 ^ Z.of_nat i) (seq 0 (Z.to_nat maxRetries)).
Proof.
  intro Hfail. unfold retry.
  destruct (maxRetries <? 0) eqn:Eneg.
  - apply Z.ltb_lt in Eneg.
    replace (Z.to_nat (maxRetries + 1)) with 0%nat by lia.
    replace (Z.to_nat maxRetries) with 0%nat by lia. cbn. auto.
  - apply Z.ltb_ge in Eneg.
    rewrite (retryFrom_exhausted fn errs maxRetries baseDelay Hfail) by lia.
    cbn [outcome calls delays app Nat.add].
    replace (Z.to_nat (maxRetries + 1)) with (S (Z.to_nat maxRetries)) by lia.
    cbn [Nat.sub]. rewrite Nat.sub_0_r. auto.
Qed.

Lemma retry_gives_up_with_last_error_witness :
  outcome (retry (fun n : nat => @Fails Z nat n) 2 1000)
  = Fails (if 2 <? 0 then None else Some (Z.to_nat 2))
  /\ calls (retry (fun n : nat => @Fails Z nat n) 2 1000) = Z.to_nat (2 + 1)
  /\ delays (retry (fun n : nat => @Fails Z nat n) 2 1000)
     = map (fun i => 1000 * 2 ^ Z.of_nat i) (seq 0 (Z.to_nat 2)).
Proof.
  apply (retry_gives_up_with_last_error (fun n : nat => @Fails Z nat n) (fun n => n) 2 1000).
  intros i Hi. reflexivity.
Defined.

Lemma filter_length_le {A} (p : A -> bool) (l : list A) :
  (List.length (filter p l) <= List.length l)%nat.
Proof.
  induction l as [| x l IH]; cbn [filter List.length]; [lia |].
  destruct (p x); cbn [List.length]; lia.
Qed.

(** X23. A rate limiter that allows at least one request per window and
    whose queue is not over its maximum grants a request in at most two
    passes, provided a sleep lasts at least the time asked: at once when
    fewer than the maximum of grants lie within the window, else after one
    sleep. After the grant the queue holds the time of the grant, is again
    not over the maximum, and every time in it lies within one window
    before the grant. *)
Theorem acquire_grants_within_two_passes (readings : nat -> Z) (n : nat) (l : RateLimiter) :
  1 <= maxRequests l ->
  0 < windowMs l ->
  Z.of_nat (List.length (queue l)) <= maxRequests l ->
  sleepsLongEnough readings n l ->
  exists grantedAt l',
    acquire 2 readings n l = Some (grantedAt, l')
    /\ (grantedAt = readings n \/ grantedAt = readings (S n))
    /\ maxRequests l' = maxRequests l /\ windowMs l' = windowMs l
    /\ Z.of_nat (List.length (queue l')) <= maxRequests l'
    /\ In grantedAt (queue l')
    /\ forall time, In time (queue l') -> grantedAt - time < windowMs l.
Proof.
  intros Hmax Hwin Hlen Hsleep.
  assert (Hgrant : forall now q,
            Z.of_nat (List.length (filter (fun time => now - time <? windowMs l) q))
            < maxRequests l ->
            exists l',
              acquireOnce now {| maxRequests := maxRequests l; windowMs := windowMs l;
                                 queue := q |} = Granted l'
              /\ maxRequests l' = maxRequests l /\ windowMs l' = windowMs l
              /\ Z.of_nat (List.length (queue l')) <= maxRequests l'
              /\ In now (queue l')
              /\ forall time, In time (queue l') -> now - time < windowMs l).
  { intros now q Hq. unfold acquireOnce. cbn [maxRequests windowMs queue].
    destruct (maxRequests l <=? _) eqn:E; [apply Z.leb_le in E; lia |].
    eexists. split; [reflexivity |]. cbn [maxRequests windowMs queue].
    split; [reflexivity |]. split; [reflexivity |].
    split; [rewrite length_app; cbn [List.length]; lia |].
    split; [apply in_or_app; right; left; reflexivity |].
    intros time Ht. apply in_app_or in Ht. destruct Ht as [Ht | [<- | []]]; [| lia].
    apply filter_In in Ht. destruct Ht as [_ Ht]. apply Z.ltb_lt in Ht. exact Ht. }
  assert (Hl : l = {| maxRequests := maxRequests l; windowMs := windowMs l;
                      queue := queue l |}) by (destruct l; reflexivity).
  set (kept := filter (fun time => readings n - time <? windowMs l) (queue l)).
  destruct (Z_lt_le_dec (Z.of_nat (List.length kept)) (maxRequests l)) as [Hfree | Hfull].
  - destruct (Hgrant (readings n) (queue l) Hfree) as [l' [Hg Hrest]].
    rewrite <- Hl in Hg.
    exists (readings n), l'. cbn [acquire]. rewrite Hg. split; [reflexivity |].
    split; [left; reflexivity | exact Hrest].
  - assert (Hstep : acquireOnce (readings n) l
                    = Sleeps (match kept with
                              | oldestTime :: _ =>
                                  Some (windowMs l - (readings n - oldestTime) + 100)
                              | [] => None
                              end)
                             {| maxRequests := maxRequests l; windowMs := windowMs l;
                                queue := kept |}).
    { unfold acquireOnce. fold kept.
      destruct (maxRequests l <=? Z.of_nat (List.length kept)) eqn:E;
        [reflexivity | apply Z.leb_gt in E; lia]. }
    destruct kept as [| oldest rest] eqn:Ek; [cbn [List.length] in Hfull; lia |].
    pose proof (Hsleep _ _ Hstep) as Hlate.
    assert (Hkeptlen : Z.of_nat (List.length (oldest :: rest)) <= maxRequests l).
    { rewrite <- Ek. unfold kept.
      pose proof (filter_length_le (fun time => readings n - time <? windowMs l) (queue l)).
      lia. }
    assert (Hfree : Z.of_nat (List.length
                      (filter (fun time => readings (S n) - time <? windowMs l)
                              (oldest :: rest))) < maxRequests l).
    { cbn [filter].
      replace (readings (S n) - oldest <? windowMs l) with false
        by (symmetry; apply Z.ltb_ge; lia).
      pose proof (filter_length_le (fun time => readings (S n) - time <? windowMs l) rest).
      cbn [List.length] in Hkeptlen. lia. }
    destruct (Hgrant (readings (S n)) (oldest :: rest) Hfree) as [l' [Hg Hrest]].
    exists (readings (S n)), l'. cbn [acquire]. rewrite Hstep, Hg.
    split; [reflexivity |]. split; [right; reflexivity | exact Hrest].
Qed.

Lemma acquire_grants_within_two_passes_witness :
  exists grantedAt l',
    acquire 2 (fun n => 1000 + 70000 * Z.of_nat n) 0
      {| maxRequests := 1; windowMs := 60000; queue := [500] |} = Some (grantedAt, l')
    /\ (grantedAt = 1000 \/ grantedAt = 71000)
    /\ maxRequests l' = 1 /\ windowMs l' = 60000
    /\ Z.of_nat (List.length (queue l')) <= maxRequests l'
    /\ In grantedAt (queue l')
    /\ forall time, In time (queue l') -> grantedAt - time < 60000.
Proof.
  apply (acquire_grants_within_two_passes (fun n => 1000 + 70000 * Z.of_nat n) 0
           {| maxRequests := 1; windowMs := 60000; queue := [500] |}).
  - cbn. lia.
  - cbn. lia.
  - cbn. lia.
  - intros waitTime l' H. vm_compute in H. injection H as <- _. vm_compute. discriminate.
Defined.

(** X24. A rate limiter whose maximum is zero or negative never grants a
    request: every pass of [acquire] ends in a sleep and another pass,
    however many passes are made. *)
Theorem acquire_never_grants_without_capacity (readings : nat -> Z) (l : RateLimiter) :
  maxRequests l <= 0 ->
  forall fuel n, acquire fuel readings n l = None.
Proof.
  intros Hmax fuel. revert l Hmax.
  induction fuel as [| f IH]; intros l Hmax n; [reflexivity |].
  cbn [acquire]. unfold acquireOnce.
  destruct (maxRequests l <=? _) eqn:E; [| apply Z.leb_gt in E; lia].
  apply IH. exact Hmax.
Qed.

Lemma acquire_never_grants_without_capacity_witness :
  acquire 5 (fun n => 1000 * Z.of_nat n) 0
    {| maxRequests := 0; windowMs := 60000; queue := [] |} = None.
Proof.
  apply (acquire_never_grants_without_capacity (fun n => 1000 * Z.of_nat n)
           {| maxRequests := 0; windowMs := 60000; queue := [] |}).
  cbn. lia.
Defined.

(* ================================================================== *)
(** * Canonical names *)

Lemma lowerChar_not_upper (c : ascii) : Js.isUpper (Js.lowerChar c) = false.
Proof. destruct c as [[] [] [] [] [] [] [] []]; reflexivity. Qed.

Lemma lowerChar_idem (c : ascii) : Js.lowerChar (Js.lowerChar c) = Js.lowerChar c.
Proof. destruct c as [[] [] [] [] [] [] [] []]; reflexivity. Qed.

Lemma keepChar_canonical (c : ascii) :
  keepChar c = true -> Js.isUpper c = false -> Js.isSpace c = false ->
  canonicalChar c = true.
Proof. destruct c as [[] [] [] [] [] [] [] []]; cbn; intros; congruence. Qed.

Lemma wordChar_not_space (c : ascii) : Js.isWordChar c = true -> Js.isSpace c = false.
Proof. destruct c as [[] [] [] [] [] [] [] []]; cbn; intros; congruence. Qed.

Lemma toLowerCase_idem (s : string) : Js.toLowerCase (Js.toLowerCase s) = Js.toLowerCase s.
Proof.
  unfold Js.toLowerCase. rewrite list_ascii_of_string_of_list_ascii, map_map. f_equal.
  apply map_ext. apply lowerChar_idem.
Qed.

Lemma collapseSpaces_canonical (l : list ascii) (inRun : bool) :
  Forall (fun c => keepChar c = true /\ Js.isUpper c = false) l ->
  Forall (fun c => canonicalChar c = true) (collapseSpaces inRun l).
Proof.
  intro H. revert inRun. induction H as [| c l [Hk Hu] Hl IH]; intro inRun;
    cbn [collapseSpaces]; [constructor |].
  destruct (Js.isSpace c) eqn:Es.
  - destruct inRun; [apply IH | constructor; [reflexivity | apply IH]].
  - constructor; [apply keepChar_canonical; assumption | apply IH].
Qed.

Lemma dropSuffixWords_Forall (P : ascii -> Prop) (l : list ascii) :
  forall cur, Forall P cur -> Forall P l -> Forall P (dropSuffixWords cur l).
Proof.
  induction l as [| c l IH]; intros cur Hcur Hl; cbn [dropSuffixWords].
  - destruct (isSuffixWord (rev cur)); [constructor | apply Forall_rev; exact Hcur].
  - inversion Hl as [| ? ? Hc Hl']; subst.
    destruct (Js.isWordChar c).
    + apply IH; [constructor; assumption | exact Hl'].
    + apply Forall_app. split.
      * destruct (isSuffixWord (rev cur)); [constructor | apply Forall_rev; exact Hcur].
      * constructor; [exact Hc | apply IH; [constructor | exact Hl']].
Qed.

Lemma dropSpaces_Forall (P : ascii -> Prop) (l : list ascii) :
  Forall P l -> Forall P (Js.dropSpaces l).
Proof.
  induction 1 as [| c l Hc Hl IH]; cbn [Js.dropSpaces]; [constructor |].
  destruct (Js.isSpace c); [exact IH | constructor; assumption].
Qed.

Lemma trimChars_Forall (P : ascii -> Prop) (l : list ascii) :
  Forall P l -> Forall P (Js.trimChars l).
Proof.
  intro H. unfold Js.trimChars.
  apply Forall_rev, dropSpaces_Forall, Forall_rev, dropSpaces_Forall. exact H.
Qed.

Lemma dropSpaces_head (l : list ascii) (c : ascii) (r : list ascii) :
  Js.dropSpaces l = c :: r -> Js.isSpace c = false.
Proof.
  induction l as [| x l IH]; cbn [Js.dropSpaces]; [discriminate |].
  destruct (Js.isSpace x) eqn:E; [exact IH |].
  intro H. injection H as <- _. exact E.
Qed.

Lemma dropSpaces_suffix (l : list ascii) :
  exists pre, l = (pre ++ Js.dropSpaces l)%list /\ Forall (fun c => Js.isSpace c = true) pre.
Proof.
  induction l as [| x l [pre [IH Hpre]]]; [exists []; split; [reflexivity | constructor] |].
  cbn [Js.dropSpaces]. destruct (Js.isSpace x) eqn:E.
  - exists (x :: pre). split; [cbn; f_equal; exact IH | constructor; assumption].
  - exists []. split; [reflexivity | constructor].
Qed.

Lemma trimChars_ends (l : list ascii) :
  (forall c rest, Js.trimChars l = c :: rest -> Js.isSpace c = false)
  /\ (forall c init, Js.trimChars l = (init ++ [c])%list -> Js.isSpace c = false).
Proof.
  unfold Js.trimChars. set (A := Js.dropSpaces l). set (B := Js.dropSpaces (rev A)).
  split.
  - intros c rest H.
    assert (HB : B = (rev rest ++ [c])%list).
    { rewrite <- (rev_involutive B), H. reflexivity. }
    destruct (dropSpaces_suffix (rev A)) as [pre [Hpre _]]. fold B in Hpre.
    assert (HA : A = c :: rev (pre ++ rev rest)).
    { rewrite <- (rev_involutive A), Hpre, HB, app_assoc, rev_app_distr. reflexivity. }
    exact (dropSpaces_head l c _ HA).
  - intros c init H.
    assert (HB : B = c :: rev init).
    { rewrite <- (rev_involutive B), H, rev_app_distr. reflexivity. }
    exact (dropSpaces_head (rev A) c _ HB).
Qed.

Lemma wordsFrom_word (w : list ascii) :
  Forall (fun c => Js.isWordChar c = true) w ->
  forall cur,
    wordsFrom cur w = [(rev cur ++ w)%list]
    /\ forall sep rest, Js.isWordChar sep = false ->
         wordsFrom cur (w ++ sep :: rest) = (rev cur ++ w)%list :: wordsFrom [] rest.
Proof.
  induction 1 as [| c w Hc Hw IH]; intro cur.
  - cbn [wordsFrom app]. rewrite app_nil_r. split; [reflexivity |].
    intros sep rest Hs. rewrite Hs. reflexivity.
  - cbn [wordsFrom app]. rewrite Hc. destruct (IH (c :: cur)) as [H1 H2].
    cbn [rev] in H1, H2. rewrite <- app_assoc in H1. cbn [app] in H1.
    split; [exact H1 |]. intros sep rest Hs. rewrite (H2 sep rest Hs).
    rewrite <- app_assoc. reflexivity.
Qed.

Lemma wordsFrom_dropSuffixWords (l : list ascii) :
  forall cur,
    Forall (fun c => Js.isWordChar c = true) cur ->
    wordsFrom [] (dropSuffixWords cur l)
    = map (fun w => if isSuffixWord w then [] else w) (wordsFrom cur l).
Proof.
  induction l as [| c l IH]; intros cur Hcur.
  - cbn [dropSuffixWords wordsFrom map].
    destruct (isSuffixWord (rev cur)); [reflexivity |].
    apply (wordsFrom_word (rev cur) (Forall_rev Hcur) []).
  - cbn [dropSuffixWords wordsFrom]. destruct (Js.isWordChar c) eqn:Ec.
    + apply IH. constructor; assumption.
    + cbn [map]. rewrite <- (IH [] (Forall_nil _)).
      destruct (isSuffixWord (rev cur)).
      * cbn [app wordsFrom]. rewrite Ec. reflexivity.
      * destruct (wordsFrom_word (rev cur) (Forall_rev Hcur) []) as [_ H2].
        rewrite (H2 c _ Ec). reflexivity.
Qed.

Lemma wordsFrom_dropSpaces (l : list ascii) (w : list ascii) :
  In w (wordsFrom [] (Js.dropSpaces l)) -> In w (wordsFrom [] l).
Proof.
  induction l as [| c l IH]; cbn [Js.dropSpaces]; [auto |].
  destruct (Js.isSpace c) eqn:Es; [| auto].
  intro H. cbn [wordsFrom].
  destruct (Js.isWordChar c) eqn:Ew.
  - apply wordChar_not_space in Ew. congruence.
  - right. apply IH. exact H.
Qed.

Lemma wordsFrom_app_spaces (sp : list ascii) :
  Forall (fun c => Js.isSpace c = true) sp ->
  forall (a cur : list ascii) (w : list ascii),
    In w (wordsFrom cur a) -> In w (wordsFrom cur (a ++ sp)).
Proof.
  intros Hsp a. induction a as [| c a IH]; intros cur w H.
  - cbn [app]. cbn [wordsFrom] in H. destruct H as [<- | []].
    destruct Hsp as [| s sp Hs _]; [left; reflexivity |].
    cbn [wordsFrom]. destruct (Js.isWordChar s) eqn:Ew.
    + apply wordChar_not_space in Ew. congruence.
    + left. reflexivity.
  - cbn [app wordsFrom] in *. destruct (Js.isWordChar c).
    + apply IH. exact H.
    + destruct H as [<- | H]; [left; reflexivity | right; apply IH; exact H].
Qed.

Lemma wordsFrom_trimChars (l : list ascii) (w : list ascii) :
  In w (wordsFrom [] (Js.trimChars l)) -> In w (wordsFrom [] l).
Proof.
  intro H. apply wordsFrom_dropSpaces.
  set (A := Js.dropSpaces l) in *. unfold Js.trimChars in H. fold A in H.
  destruct (dropSpaces_suffix (rev A)) as [pre [Hpre Hsp]].
  assert (HA : A = (rev (Js.dropSpaces (rev A)) ++ rev pre)%list).
  { rewrite <- (rev_involutive A) at 1. rewrite Hpre at 1. apply rev_app_distr. }
  rewrite HA. apply wordsFrom_app_spaces; [apply Forall_rev; exact Hsp | exact H].
Qed.

(** X25. For a business name of ASCII characters: the canonical name
    consists of lower-case letters, digits, underscores and spaces only; it
    neither starts nor ends with white space; none of its words is one of
    the listed company words (llc, inc, corp, ltd, co, company, the); and
    it does not depend on the case of the name. *)
Theorem canonicalizeName_shape (name : string) :
  asciiText name = true ->
  Forall (fun c => canonicalChar c = true) (list_ascii_of_string (canonicalizeName name))
  /\ (forall c rest, list_ascii_of_string (canonicalizeName name) = c :: rest ->
                     Js.isSpace c = false)
  /\ (forall c init, list_ascii_of_string (canonicalizeName name) = (init ++ [c])%list ->
                     Js.isSpace c = false)
  /\ (forall w, In w (wordsOf (canonicalizeName name)) -> isSuffixWord w = false)
  /\ canonicalizeName (Js.toLowerCase name) = canonicalizeName name.
Proof.
  intros _.
  unfold wordsOf, canonicalizeName. cbv zeta. rewrite !list_ascii_of_string_of_list_ascii.
  set (lowered := list_ascii_of_string (Js.toLowerCase name)).
  set (spaced := collapseSpaces false (filter keepChar lowered)).
  assert (Hspaced : Forall (fun c => canonicalChar c = true) spaced).
  { apply collapseSpaces_canonical. apply Forall_forall. intros c Hc.
    apply filter_In in Hc. destruct Hc as [Hin Hk]. split; [exact Hk |].
    unfold lowered, Js.toLowerCase in Hin.
    rewrite list_ascii_of_string_of_list_ascii in Hin.
    apply in_map_iff in Hin. destruct Hin as [x [<- _]]. apply lowerChar_not_upper. }
  split; [| split; [| split; [| split]]].
  - apply trimChars_Forall. apply dropSuffixWords_Forall; [constructor | exact Hspaced].
  - apply (proj1 (trimChars_ends _)).
  - apply (proj2 (trimChars_ends _)).
  - intros w Hw. apply wordsFrom_trimChars in Hw.
    rewrite (wordsFrom_dropSuffixWords spaced [] (Forall_nil _)) in Hw.
    apply in_map_iff in Hw. destruct Hw as [x [<- _]].
    destruct (isSuffixWord x) eqn:E; [reflexivity | exact E].
  - rewrite toLowerCase_idem. reflexivity.
Qed.

Lemma canonicalizeName_shape_witness :
  canonicalizeName "The Pro-Plumbing Co., LLC" = "proplumbing"
  /\ (forall w, In w (wordsOf (canonicalizeName "The Pro-Plumbing Co., LLC")) ->
                isSuffixWord w = false)
  /\ canonicalizeName (Js.toLowerCase "The Pro-Plumbing Co., LLC")
     = canonicalizeName "The Pro-Plumbing Co., LLC".
Proof.
  destruct (canonicalizeName_shape "The Pro-Plumbing Co., LLC" eq_refl)
    as [_ [_ [_ [H4 H5]]]].
  split; [vm_compute; reflexivity |]. split; [exact H4 | exact H5].
Defined.

(* ================================================================== *)
(** * The CSV file of the output stage *)

Lemma chars_append (a b : string) :
  list_ascii_of_string (String.append a b)
  = (list_ascii_of_string a ++ list_ascii_of_string b)%list.
Proof. induction a as [| c a IH]; cbn; [reflexivity | rewrite IH; reflexivity]. Qed.

Lemma chars_join (sep : string) (l : list string) :
  list_ascii_of_string (Js.join sep l)
  = joinChars (list_ascii_of_string sep) (map list_ascii_of_string l).
Proof.
  induction l as [| x l IH]; [reflexivity |].
  destruct l as [| y l]; [reflexivity |].
  change (Js.join sep (x :: y :: l))
    with (String.append x (String.append sep (Js.join sep (y :: l)))).
  rewrite !chars_append, IH. reflexivity.
Qed.

Lemma readCsv_plain (v : list ascii) :
  needsQuotes v = false ->
  forall acc row rows tail,
    readCsv CsvPlain acc row rows (v ++ tail) = readCsv CsvPlain (rev v ++ acc) row rows tail.
Proof.
  induction v as [| c v IH]; intros Hv acc row rows tail; [reflexivity |].
  cbn [needsQuotes existsb] in Hv. apply orb_false_elim in Hv. destruct Hv as [Hc Hv].
  apply orb_false_elim in Hc. destruct Hc as [Hc Hn].
  apply orb_false_elim in Hc. destruct Hc as [Hc Hq].
  cbn [app readCsv]. rewrite Hc, Hn, Hq.
  rewrite (IH Hv). cbn [rev]. rewrite <- app_assoc. reflexivity.
Qed.

Lemma readCsv_quoted (v : list ascii) :
  forall acc row rows tail,
    readCsv CsvQuoted acc row rows (doubleQuotes v ++ quoteChar :: tail)
    = readCsv CsvAfterQuote (rev v ++ acc) row rows tail.
Proof.
  induction v as [| c v IH]; intros acc row rows tail.
  - cbn [doubleQuotes flat_map app readCsv rev]. rewrite Ascii.eqb_refl. reflexivity.
  - unfold doubleQuotes in *. cbn [flat_map].
    destruct (Ascii.eqb c quoteChar) eqn:Ec.
    + apply Ascii.eqb_eq in Ec. subst c. cbn [app readCsv].
      rewrite Ascii.eqb_refl.
      change (Ascii.eqb quoteChar commaChar) with false.
      change (Ascii.eqb quoteChar newlineChar) with false. cbv iota.
      rewrite IH. cbn [rev]. rewrite <- app_assoc. reflexivity.
    + cbn [app readCsv]. rewrite Ec. rewrite IH. cbn [rev]. rewrite <- app_assoc.
      reflexivity.
Qed.

(** What may follow a field: the end of the text, a comma or a line feed. *)
Lemma readCsv_after_quote (fld : list ascii) (row : list string) (rows : list (list string))
    (tail : list ascii) :
  (tail = [] \/ exists c rest,
      tail = c :: rest /\ (Ascii.eqb c commaChar || Ascii.eqb c newlineChar = true)) ->
  readCsv CsvAfterQuote fld row rows tail = readCsv CsvPlain fld row rows tail.
Proof.
  intros [-> | [c [rest [-> Hc]]]]; [reflexivity |].
  cbn [readCsv]. destruct (Ascii.eqb c commaChar); [reflexivity |].
  cbn [orb] in Hc. rewrite Hc. reflexivity.
Qed.

Lemma readCsv_cell (v : list ascii) (row : list string) (rows : list (list string))
    (tail : list ascii) :
  (tail = [] \/ exists c rest,
      tail = c :: rest /\ (Ascii.eqb c commaChar || Ascii.eqb c newlineChar = true)) ->
  readCsv CsvPlain [] row rows (escapeCsvText v ++ tail)
  = readCsv CsvPlain (rev v) row rows tail.
Proof.
  intro Htail. unfold escapeCsvText. destruct (needsQuotes v) eqn:E.
  - cbn [app readCsv].
    change (Ascii.eqb quoteChar commaChar) with false.
    change (Ascii.eqb quoteChar newlineChar) with false.
    rewrite Ascii.eqb_refl. cbv iota.
    rewrite <- app_assoc. cbn [app]. rewrite readCsv_quoted, app_nil_r.
    apply readCsv_after_quote. exact Htail.
  - rewrite (readCsv_plain v E), app_nil_r. reflexivity.
Qed.

Lemma readCsv_record (vs : list (list ascii)) :
  vs <> [] ->
  forall (row : list string) (rows : list (list string)) (tail : list ascii),
    (tail = [] \/ exists rest, tail = newlineChar :: rest) ->
    readCsv CsvPlain [] row rows
      (joinChars [commaChar] (map escapeCsvText vs) ++ tail)
    = match tail with
      | [] => rev ((rev row ++ map string_of_list_ascii vs)%list :: rows)
      | _ :: rest =>
          readCsv CsvPlain [] [] ((rev row ++ map string_of_list_ascii vs)%list :: rows) rest
      end.
Proof.
  induction vs as [| v vs IH]; intros Hne row rows tail Htail; [contradiction |].
  destruct vs as [| v2 vs].
  - cbn [map joinChars]. rewrite readCsv_cell.
    + destruct Htail as [-> | [rest ->]].
      * cbn [readCsv rev map]. rewrite rev_involutive. reflexivity.
      * cbn [readCsv]. change (Ascii.eqb newlineChar commaChar) with false.
        rewrite Ascii.eqb_refl. cbv iota. cbn [rev map]. rewrite rev_involutive.
        reflexivity.
    + destruct Htail as [-> | [rest ->]]; [left; reflexivity |].
      right. exists newlineChar, rest. split; [reflexivity |].
      rewrite Ascii.eqb_refl. apply orb_true_r.
  - change (joinChars [commaChar] (map escapeCsvText (v :: v2 :: vs)))
      with (escapeCsvText v ++ [commaChar]
            ++ joinChars [commaChar] (map escapeCsvText (v2 :: vs)))%list.
    rewrite <- !app_assoc. rewrite readCsv_cell.
    + cbn [app readCsv]. rewrite Ascii.eqb_refl. rewrite rev_involutive.
      rewrite (IH ltac:(discriminate) _ rows tail Htail).
      cbn [rev map]. rewrite <- !app_assoc. cbn [app].
      destruct tail; reflexivity.
    + right. eexists _, _. split; [reflexivity |]. rewrite Ascii.eqb_refl. reflexivity.
Qed.

Lemma readCsv_records (ls : list (list (list ascii))) :
  ls <> [] ->
  Forall (fun vs => vs <> []) ls ->
  forall rows,
    readCsv CsvPlain [] [] rows
      (joinChars [newlineChar]
         (map (fun vs => joinChars [commaChar] (map escapeCsvText vs)) ls))
    = (rev rows ++ map (map string_of_list_ascii) ls)%list.
Proof.
  induction ls as [| vs ls IH]; intros Hne Hall rows; [contradiction |].
  inversion Hall as [| ? ? Hvs Hls]; subst.
  destruct ls as [| vs2 ls].
  - cbn [map joinChars].
    pose proof (readCsv_record vs Hvs [] rows [] (or_introl eq_refl)) as H.
    rewrite app_nil_r in H. rewrite H. cbn [rev app]. reflexivity.
  - change (joinChars [newlineChar]
              (map (fun vs => joinChars [commaChar] (map escapeCsvText vs))
                   (vs :: vs2 :: ls)))
      with (joinChars [commaChar] (map escapeCsvText vs)
            ++ newlineChar
               :: joinChars [newlineChar]
                    (map (fun vs => joinChars [commaChar] (map escapeCsvText vs))
                         (vs2 :: ls)))%list.
    rewrite (readCsv_record vs Hvs [] rows _ (or_intror (ex_intro _ _ eq_refl))).
    rewrite (IH ltac:(discriminate) Hls). cbn [rev app map].
    rewrite <- app_assoc. reflexivity.
Qed.

Lemma escapeCsvText_plain (s : string) :
  plainText s = true -> escapeCsvText (list_ascii_of_string s) = list_ascii_of_string s.
Proof.
  unfold plainText, escapeCsvText. intro H. apply negb_true_iff in H. rewrite H.
  reflexivity.
Qed.

(** X26. The CSV text of the output stage reads back: when there is at
    least one column and no column name holds a comma, a quote or a line
    feed, a reader of comma-separated text finds in the file the header
    and then, for every lead in order, exactly the texts of its values,
    whatever commas, quotes and line feeds the values hold. *)
Theorem writeCsv_reads_back (rt : Runtime) (fields : list string)
    (includeAngles includeReasons : bool) (leads : list Lead) :
  csvHeaders fields includeAngles includeReasons <> [] ->
  forallb plainText (csvHeaders fields includeAngles includeReasons) = true ->
  parseCsv (writeCsv rt fields includeAngles includeReasons leads)
  = csvHeaders fields includeAngles includeReasons
    :: map (fun lead =>
              map (fun fld => cellText rt (OutputStage_getFieldValue rt lead fld))
                  (csvHeaders fields includeAngles includeReasons))
           leads.
Proof.
  intros Hne Hplain. unfold parseCsv, writeCsv. cbv zeta.
  set (headers := csvHeaders fields includeAngles includeReasons) in *.
  rewrite chars_join. cbn [list_ascii_of_string map].
  change [newlineChar] with [newlineChar].
  set (cells := fun lead : Lead =>
                  map (fun fld => list_ascii_of_string
                                    (cellText rt (OutputStage_getFieldValue rt lead fld)))
                      headers).
  assert (Hhead : list_ascii_of_string (Js.join "," headers)
                  = joinChars [commaChar]
                      (map escapeCsvText (map list_ascii_of_string headers))).
  { rewrite chars_join. cbn [list_ascii_of_string]. f_equal.
    rewrite map_map. apply map_ext_in. intros h Hh. symmetry.
    apply escapeCsvText_plain. exact (proj1 (forallb_forall _ _) Hplain h Hh). }
  assert (Hrows : map list_ascii_of_string
                    (map (fun lead =>
                            Js.join "," (map (fun fld =>
                                                escapeCsvValue rt
                                                  (OutputStage_getFieldValue rt lead fld))
                                             headers))
                         leads)
                  = map (fun vs => joinChars [commaChar] (map escapeCsvText vs))
                        (map cells leads)).
  { rewrite !map_map. apply map_ext. intro lead. rewrite chars_join.
    cbn [list_ascii_of_string]. f_equal. unfold cells. rewrite !map_map.
    apply map_ext. intro fld. unfold escapeCsvValue.
    apply list_ascii_of_string_of_list_ascii. }
  rewrite Hhead, Hrows.
  change (joinChars [commaChar] (map escapeCsvText (map list_ascii_of_string headers))
          :: map (fun vs => joinChars [commaChar] (map escapeCsvText vs)) (map cells leads))
    with (map (fun vs => joinChars [commaChar] (map escapeCsvText vs))
              (map list_ascii_of_string headers :: map cells leads)).
  rewrite readCsv_records.
  - cbn [rev app map]. f_equal.
    + rewrite map_map. rewrite <- (map_id headers) at 2. apply map_ext.
      apply string_of_list_ascii_of_string.
    + rewrite map_map. apply map_ext. intro lead. unfold cells. rewrite map_map.
      apply map_ext. intro fld. apply string_of_list_ascii_of_string.
  - discriminate.
  - constructor.
    + destruct headers; [contradiction | discriminate].
    + apply Forall_forall. intros vs Hvs. apply in_map_iff in Hvs.
      destruct Hvs as [lead [<- _]]. unfold cells.
      destruct headers; [contradiction | discriminate].
Qed.

Lemma writeCsv_reads_back_witness :
  parseCsv (writeCsv sampleRuntime ["businessName"; "city"] true false
              [rowToLead (scoredRow "a1" "Acme, Austin" 70)])
  = csvHeaders ["businessName"; "city"] true false
    :: map (fun lead =>
              map (fun fld => cellText sampleRuntime
                                (OutputStage_getFieldValue sampleRuntime lead fld))
                  (csvHeaders ["businessName"; "city"] true false))
           [rowToLead (scoredRow "a1" "Acme, Austin" 70)].
Proof.
  apply (writeCsv_reads_back sampleRuntime ["businessName"; "city"] true false
           [rowToLead (scoredRow "a1" "Acme, Austin" 70)]).
  - vm_compute. discriminate.
  - vm_compute. reflexivity.
Defined.

(* ================================================================== *)
(** * The row of a run *)

Lemma replayRuns_app (tbl : list RunRow) (a b : list RunWrite) :
  replayRuns tbl (a ++ b) = replayRuns (replayRuns tbl a) b.
Proof. unfold replayRuns. apply fold_left_app. Qed.

Lemma applyRunWrite_keeps_id (x : RunWrite) (tbl : list RunRow) (id : string) :
  In id (map run_id tbl) -> In id (map run_id (applyRunWrite x tbl)).
Proof.
  intro H.
  assert (Hupd : forall id' f, (forall r, run_id (f r) = run_id r) ->
                               map run_id (updateRun id' f tbl) = map run_id tbl).
  { intros id' f Hf. unfold updateRun. rewrite map_map. apply map_ext. intro r.
    destruct (String.eqb (run_id r) id'); [apply Hf | reflexivity]. }
  destruct x; cbn [applyRunWrite].
  - rewrite map_app. apply in_or_app. left. exact H.
  - rewrite Hupd by reflexivity. exact H.
  - rewrite Hupd by reflexivity. exact H.
  - rewrite Hupd by reflexivity. exact H.
Qed.

Lemma replayRuns_keeps_id (log : list RunWrite) (tbl : list RunRow) (id : string) :
  In id (map run_id tbl) -> In id (map run_id (replayRuns tbl log)).
Proof.
  revert tbl. induction log as [| x log IH]; intros tbl H; [exact H |].
  cbn [replayRuns fold_left]. apply IH. apply applyRunWrite_keeps_id. exact H.
Qed.

(** After the statement that completes a run, the run is found completed
    and is not among the running ones. *)
Lemma completed_row (id : string) (now p pa f : Z) (tbl : list RunRow) :
  In id (map run_id tbl) ->
  (exists row,
      runById id (applyRunWrite (RunComplete id now p pa f) tbl) = Some row
      /\ run_id row = id
      /\ run_status row = run_completed /\ completed_at row = Some now
      /\ leads_processed row = p /\ leads_passed row = pa /\ leads_failed row = f)
  /\ ~ In id (map run_id (getRunning (applyRunWrite (RunComplete id now p pa f) tbl))).
Proof.
  intro Hin. cbn [applyRunWrite]. unfold runById, getRunning, updateRun. split.
  - induction tbl as [| r tbl IH]; [destruct Hin |].
    cbn [map find]. destruct (String.eqb (run_id r) id) eqn:E.
    + cbn [run_id]. rewrite E. eexists. split; [reflexivity |].
      cbn. apply String.eqb_eq in E. auto 10.
    + rewrite E. apply IH. destruct Hin as [Hr | Hin]; [| exact Hin].
      cbn in Hr. subst id. rewrite String.eqb_refl in E. discriminate.
  - intro H. apply in_map_iff in H. destruct H as [row [Hid Hrow]].
    apply filter_In in Hrow. destruct Hrow as [Hrow Hst].
    apply in_map_iff in Hrow. destruct Hrow as [r [Hr _]].
    destruct (String.eqb (run_id r) id) eqn:E.
    + subst row. cbn in Hst. discriminate.
    + subst row. rewrite Hid, String.eqb_refl in E. discriminate.
Qed.

(** After the statement that fails a run, the run is found failed, with
    the message, and is not among the running ones. *)
Lemma failed_row (id : string) (now p : Z) (message : string) (tbl : list RunRow) :
  In id (map run_id tbl) ->
  (exists row,
      runById id (applyRunWrite (RunFail id now message p) tbl) = Some row
      /\ run_id row = id
      /\ run_status row = run_failed /\ completed_at row = Some now
      /\ leads_processed row = p /\ error_message row = Some message)
  /\ ~ In id (map run_id (getRunning (applyRunWrite (RunFail id now message p) tbl))).
Proof.
  intro Hin. cbn [applyRunWrite]. unfold runById, getRunning, updateRun. split.
  - induction tbl as [| r tbl IH]; [destruct Hin |].
    cbn [map find]. destruct (String.eqb (run_id r) id) eqn:E.
    + cbn [run_id]. rewrite E. eexists. split; [reflexivity |].
      cbn. apply String.eqb_eq in E. auto 10.
    + rewrite E. apply IH. destruct Hin as [Hr | Hin]; [| exact Hin].
      cbn in Hr. subst id. rewrite String.eqb_refl in E. discriminate.
  - intro H. apply in_map_iff in H. destruct H as [row [Hid Hrow]].
    apply filter_In in Hrow. destruct Hrow as [Hrow Hst].
    apply in_map_iff in Hrow. destruct Hrow as [r [Hr _]].
    destruct (String.eqb (run_id r) id) eqn:E.
    + subst row. cbn in Hst. discriminate.
    + subst row. rewrite Hid, String.eqb_refl in E. discriminate.
Qed.

(** The [execute] of every stage of this development only adds
    statements to the table of runs. *)
Lemma executeOf_appends (cfg : Config) (c : StageCall) (newRunId : string) (w0 : World) :
  this w0 = newStage ->
  exists seg,
    runLog (snd (executeOf cfg c (started (stageNameOf c) newRunId w0)))
    = (runLog (started (stageNameOf c) newRunId w0) ++ seg)%list.
Proof.
  intro Hfresh. set (w1 := started (stageNameOf c) newRunId w0).
  assert (HI : Inv (runLog w1) 0 (negb (isDiscover c)) w1).
  { exists []. unfold w1, started, runService_start. rewrite !bind_run. cbn.
    rewrite Hfresh. cbn.
    rewrite app_nil_r. split; [reflexivity |].
    split; [unfold le3; cbn; lia |]. split; [constructor |]. split; [lia | reflexivity]. }
  destruct (executeOf_inv cfg c (runLog w1) w1 HI) as [seg [Hlog _]].
  exists seg. exact Hlog.
Qed.

(** X27. [runStage] never leaves its run running, whatever [execute]
    does short of not coming back: provided [execute] only adds statements
    to the table of runs, a call that returns has closed the row of its
    run. When [execute] returned, the result reports success and the row is
    completed, with a completion time and exactly the counters of the
    result; when [execute] threw, the result reports failure and lists the
    message, and the row is failed, with a completion time, the message
    and the processed count of the result. In both cases the run is not
    among those that [getRunning] lists. *)
Theorem runStage_closes_its_run (stageName newRunId : string)
    (execute : M (Completion unit)) (w0 : World) (res : StageResult) :
  (exists seg,
      runLog (snd (execute (started stageName newRunId w0)))
      = (runLog (started stageName newRunId w0) ++ seg)%list) ->
  fst (runStage stageName newRunId execute w0) = Returned res ->
  let tbl := runsTable (runLog (snd (runStage stageName newRunId execute w0))) in
  (exists row finishedAt,
      runById newRunId tbl = Some row
      /\ completed_at row = Some finishedAt
      /\ leads_processed row = res_processed res
      /\ ((success res = true
           /\ fst (execute (started stageName newRunId w0)) = Returned tt
           /\ run_status row = run_completed
           /\ leads_passed row = res_passed res
           /\ leads_failed row = res_failed res)
          \/ (exists message,
                success res = false
                /\ fst (execute (started stageName newRunId w0)) = Thrown message
                /\ run_status row = run_failed
                /\ error_message row = Some message
                /\ In message (res_errors res))))
  /\ ~ In newRunId (map run_id (getRunning tbl)).
Proof.
  intros [seg Hlog2] Hres. cbv zeta.
  unfold runStage in *. rewrite !bind_run in *.
  change (fst (runService_start newRunId stageName w0)) with newRunId in *.
  fold (started stageName newRunId w0) in *.
  set (w1 := started stageName newRunId w0) in *.
  assert (Hlog1 : runLog w1
                  = (runLog w0 ++ [RunStart newRunId stageName
                                     (clock w0 (S (ticks w0)))])%list) by reflexivity.
  set (w2 := snd (execute w1)) in *.
  assert (Hin : In newRunId
                  (map run_id
                     (replayRuns
                        (applyRunWrite (RunStart newRunId stageName (clock w0 (S (ticks w0))))
                           (replayRuns [] (runLog w0))) seg))).
  { apply replayRuns_keeps_id. cbn [applyRunWrite]. rewrite map_app.
    apply in_or_app. right. left. reflexivity. }
  destruct (fst (execute w1)) as [[] | m |].
  - rewrite !bind_run in *. cbn [readThis ret fst snd] in *.
    unfold runService_complete in *. rewrite !bind_run in *.
    cbn [dateNow writeRun fst snd this runLog] in *.
    injection Hres as <-. cbn [resultOf success res_processed res_passed res_failed].
    rewrite Hlog2, Hlog1. unfold runsTable.
    rewrite !replayRuns_app.
    change (replayRuns ?t [?x]) with (applyRunWrite x t).
    destruct (completed_row newRunId (clock w2 (ticks w2)) (processed (this w2))
                (passed (this w2)) (failed (this w2)) _ Hin)
      as [[row [H1 [_ [H2 [H3 [H4 [H5 H6]]]]]]] Hnot].
    split; [| exact Hnot].
    exists row, (clock w2 (ticks w2)).
    split; [exact H1 |]. split; [exact H3 |]. split; [exact H4 |].
    left. auto.
  - rewrite !bind_run in *. cbn [readThis writeThis ret fst snd] in *.
    unfold runService_fail in *. rewrite !bind_run in *.
    cbn [dateNow writeRun fst snd this runLog] in *.
    injection Hres as <-.
    cbn [resultOf success res_processed res_passed res_failed res_errors].
    rewrite Hlog2, Hlog1. unfold runsTable.
    rewrite !replayRuns_app.
    change (replayRuns ?t [?x]) with (applyRunWrite x t).
    destruct (failed_row newRunId (clock w2 (ticks w2))
                (processed (pushError m (this w2))) m _ Hin)
      as [[row [H1 [_ [H2 [H3 [H4 H5]]]]]] Hnot].
    split; [| exact Hnot].
    exists row, (clock w2 (ticks w2)).
    split; [exact H1 |]. split; [exact H3 |]. split; [exact H4 |].
    right. exists m. split; [reflexivity |]. split; [reflexivity |].
    split; [exact H2 |]. split; [exact H5 |].
    unfold pushError. cbn [errors]. apply in_or_app. right. left. reflexivity.
  - discriminate.
Qed.

Lemma runStage_closes_its_run_witness :
  (exists row finishedAt,
      runById "run_z"
        (runsTable (runLog (snd (runStage "output" "run_z" failingExecute
                                   (sampleWorld [])))))
      = Some row
      /\ completed_at row = Some finishedAt
      /\ run_status row = run_failed
      /\ error_message row = Some "EACCES: permission denied, mkdir")
  /\ ~ In "run_z"
         (map run_id
            (getRunning
               (runsTable (runLog (snd (runStage "output" "run_z" failingExecute
                                          (sampleWorld []))))))).
Proof.
  destruct (runStage_closes_its_run "output" "run_z" failingExecute (sampleWorld [])
              (resultOf false
                 (this (snd (runStage "output" "run_z" failingExecute (sampleWorld [])))))
              (ex_intro _ [] eq_refl) eq_refl)
    as [[row [finishedAt [H1 [H2 [_ H4]]]]] Hnot].
  split; [| exact Hnot].
  exists row, finishedAt. split; [exact H1 |]. split; [exact H2 |].
  destruct H4 as [[_ [Habs _]] | [m [_ [Hm [Hst [Herr _]]]]]]; [discriminate Habs |].
  injection Hm as <-. split; [exact Hst | exact Herr].
Defined.

(* ================================================================== *)
(** * The staging table *)

Lemma markProcessedBulk_rows (ids : list Z) (s : Staging) :
  staged (markProcessedBulk ids s)
  = map (fun r => if existsb (Z.eqb (stg_id r)) ids then setProcessedFlag r else r)
        (staged s).
Proof.
  unfold markProcessedBulk. cbn [staged]. generalize (staged s) as rows.
  induction ids as [| id ids IH]; intro rows.
  - cbn [fold_left existsb]. rewrite map_id. reflexivity.
  - cbn [fold_left]. rewrite IH, map_map. apply map_ext. intro r.
    cbn [existsb]. destruct (stg_id r =? id) eqn:E.
    + cbn [orb setProcessedFlag stg_id].
      destruct (existsb (Z.eqb (stg_id r)) ids); reflexivity.
    + reflexivity.
Qed.

Lemma insertByTime_In (x r : StagedRow) (l : list StagedRow) :
  In x (insertByTime r l) <-> x = r \/ In x l.
Proof.
  induction l as [| y l IH]; cbn [insertByTime In].
  - intuition.
  - destruct (stg_discovered_at r <=? stg_discovered_at y); cbn [In].
    + intuition.
    + rewrite IH. intuition.
Qed.

Lemma sortByTime_In (x : StagedRow) (l : list StagedRow) :
  In x (sortByTime l) <-> In x l.
Proof.
  induction l as [| y l IH]; cbn [sortByTime fold_right In]; [tauto |].
  fold (sortByTime l). rewrite insertByTime_In, IH. intuition.
Qed.

Lemma insertByTime_sorted (r : StagedRow) (l : list StagedRow) :
  oldestFirst (map rowToRawDiscovery l) ->
  oldestFirst (map rowToRawDiscovery (insertByTime r l)).
Proof.
  induction l as [| y l IH]; intro H; cbn [insertByTime map oldestFirst].
  - split; [constructor | exact I].
  - cbn [map oldestFirst] in H. destruct H as [Hy Hl].
    destruct (stg_discovered_at r <=? stg_discovered_at y) eqn:E.
    + apply Z.leb_le in E. cbn [map oldestFirst]. split; [| split; assumption].
      constructor; [exact E |].
      eapply Forall_impl; [| exact Hy]. intros d Hd. cbn in *. lia.
    + apply Z.leb_gt in E. cbn [map oldestFirst]. split; [| apply IH; exact Hl].
      apply Forall_forall. intros d Hd. apply in_map_iff in Hd.
      destruct Hd as [x [<- Hx]]. apply (proj1 (insertByTime_In _ _ _)) in Hx.
      destruct Hx as [-> | Hx]; [cbn; lia |].
      exact (proj1 (Forall_forall _ _) Hy _ (in_map rowToRawDiscovery _ _ Hx)).
Qed.

Lemma sortByTime_sorted (l : list StagedRow) :
  oldestFirst (map rowToRawDiscovery (sortByTime l)).
Proof.
  induction l as [| y l IH]; [exact I |].
  cbn [sortByTime fold_right]. apply insertByTime_sorted. exact IH.
Qed.

Lemma oldestFirst_firstn (n : nat) (l : list RawDiscovery) :
  oldestFirst l -> oldestFirst (firstn n l).
Proof.
  revert n. induction l as [| d l IH]; intros [| n] H; cbn [firstn oldestFirst]; auto.
  cbn [oldestFirst] in H. destruct H as [Hd Hl]. split; [| apply IH; exact Hl].
  apply Forall_forall. intros d' Hd'.
  apply (proj1 (Forall_forall _ _) Hd).
  rewrite <- (firstn_skipn n l). apply in_or_app. left. exact Hd'.
Qed.

Lemma oldestFirst_applyLimit (limit : Js.opt Z) (l : list StagedRow) :
  oldestFirst (map rowToRawDiscovery l) ->
  oldestFirst (map rowToRawDiscovery (applyLimit limit l)).
Proof.
  intro H. unfold applyLimit. destruct limit as [| | n]; auto.
  destruct (n <=? 0); auto. rewrite <- firstn_map. apply oldestFirst_firstn. exact H.
Qed.

(** X28. What [getUnprocessed] hands out and what [markProcessedBulk] then
    closes. Every discovery returned is a row that is not processed, of the
    run asked for when one is given; they come oldest first, and no more
    than a positive limit. Once their ids are marked, no call of
    [getUnprocessed] returns any of them again; no row is deleted, and a
    row outside the batch keeps its flag. *)
Theorem getUnprocessed_then_mark (runId : Js.opt string) (limit : Js.opt Z) (s : Staging) :
  (forall d, In d (getUnprocessed runId limit s) ->
     rd_processed d = false
     /\ (Js.truthyStr runId = true -> rd_runId d = Js.orStr runId "")
     /\ exists r, In r (staged s) /\ rowToRawDiscovery r = d)
  /\ oldestFirst (getUnprocessed runId limit s)
  /\ (forall n, limit = Js.Val n -> 0 < n ->
        (List.length (getUnprocessed runId limit s) <= Z.to_nat n)%nat)
  /\ (forall d runId' limit',
        In d (getUnprocessed runId limit s) ->
        ~ In (rd_id d)
             (map rd_id
                (getUnprocessed runId' limit'
                   (markProcessedBulk (map rd_id (getUnprocessed runId limit s)) s))))
  /\ Forall2 (fun r r' =>
                stg_id r' = stg_id r /\ stg_raw_data r' = stg_raw_data r
                /\ stg_processed r'
                   = (stg_processed r
                      || existsb (Z.eqb (stg_id r))
                                 (map rd_id (getUnprocessed runId limit s))))
             (staged s)
             (staged (markProcessedBulk (map rd_id (getUnprocessed runId limit s)) s)).
Proof.
  set (batch := getUnprocessed runId limit s).
  assert (Hrow : forall d, In d batch ->
            exists r, In r (staged s) /\ awaiting runId r = true /\ rowToRawDiscovery r = d).
  { intros d Hd. unfold batch, getUnprocessed in Hd. apply in_map_iff in Hd.
    destruct Hd as [r [<- Hr]]. apply applyLimit_incl in Hr. apply (proj1 (sortByTime_In _ _)) in Hr.
    apply filter_In in Hr. destruct Hr as [Hin Haw]. eauto. }
  split; [| split; [| split; [| split]]].
  - intros d Hd. destruct (Hrow d Hd) as [r [Hin [Haw <-]]].
    unfold awaiting in Haw. apply andb_prop in Haw. destruct Haw as [Hp Hrun].
    cbn [rowToRawDiscovery rd_processed rd_runId].
    split; [apply negb_true_iff; exact Hp |]. split; [| eauto].
    intro Ht. rewrite Ht in Hrun. apply String.eqb_eq. exact Hrun.
  - unfold batch, getUnprocessed. apply oldestFirst_applyLimit, sortByTime_sorted.
  - intros n -> Hn. unfold batch, getUnprocessed, applyLimit. rewrite length_map.
    destruct (n <=? 0) eqn:E; [apply Z.leb_le in E; lia |].
    rewrite length_firstn. lia.
  - intros d runId' limit' Hd Hagain.
    apply in_map_iff in Hagain. destruct Hagain as [d' [Hid Hd']].
    unfold getUnprocessed in Hd'. apply in_map_iff in Hd'.
    destruct Hd' as [r' [<- Hr']]. apply applyLimit_incl in Hr'.
    apply (proj1 (sortByTime_In _ _)) in Hr'. apply filter_In in Hr'. destruct Hr' as [Hin' Haw'].
    rewrite markProcessedBulk_rows in Hin'. apply in_map_iff in Hin'.
    destruct Hin' as [r [Hr Hin]]. cbn [rowToRawDiscovery rd_id] in Hid.
    assert (Hex : existsb (Z.eqb (stg_id r)) (map rd_id batch) = true).
    { apply existsb_exists. exists (rd_id d). split; [apply in_map; exact Hd |].
      apply Z.eqb_eq. rewrite <- Hid, <- Hr.
      destruct (existsb (Z.eqb (stg_id r)) (map rd_id batch)); reflexivity. }
    rewrite Hex in Hr. subst r'. unfold awaiting in Haw'. cbn in Haw'. discriminate.
  - rewrite markProcessedBulk_rows. apply Forall2_map_self. intros r _.
    destruct (existsb (Z.eqb (stg_id r)) (map rd_id batch)); cbn.
    + rewrite orb_true_r. auto.
    + rewrite orb_false_r. auto.
Qed.

Lemma stagedFrom_rows (now : Z) (runId source : string) (records : list RawBusinessData) :
  forall id,
    List.length (stagedFrom id now runId source records) = List.length records
    /\ Forall (fun r => id <= stg_id r < id + Z.of_nat (List.length records)
                        /\ awaiting Js.Undefined r = true
                        /\ stg_run_id r = runId /\ stg_source r = source
                        /\ stg_discovered_at r = now)
              (stagedFrom id now runId source records)
    /\ map stg_raw_data (stagedFrom id now runId source records) = records
    /\ NoDup (map stg_id (stagedFrom id now runId source records)).
Proof.
  induction records as [| item records IH]; intro id.
  - cbn. repeat split; constructor.
  - destruct (IH (id + 1)) as [H1 [H2 [H3 H4]]].
    cbn [stagedFrom List.length map]. split; [f_equal; exact H1 |].
    split; [| split; [f_equal; exact H3 |]].
    + constructor; [cbn; repeat split; lia |].
      eapply Forall_impl; [| exact H2]. cbn beta. intros r [Hr Hrest].
      split; [lia | exact Hrest].
    + constructor; [| exact H4]. cbn [stg_id]. intro Hin. apply in_map_iff in Hin.
      destruct Hin as [r [Hid Hr]].
      pose proof (proj1 (Forall_forall _ _) H2 r Hr) as Hrange.
      cbn beta in Hrange. lia.
Qed.

(** X29. What [addBulk] stages: it answers the number of records given;
    the records become rows that are not processed, under fresh ids after
    every id in use, so that distinct ids stay distinct; the number of
    unprocessed rows grows by the number of records, and
    [getUnprocessed] for that run, without a limit, lists every one of
    them. *)
Theorem stagingAddBulk_stages_all (now : Z) (runId source : string)
    (records : list RawBusinessData) (s : Staging) :
  Forall (fun r => stg_id r < nextId s) (staged s) ->
  NoDup (map stg_id (staged s)) ->
  fst (stagingAddBulk now runId source records s) = Z.of_nat (List.length records)
  /\ Forall (fun r => stg_id r < nextId (snd (stagingAddBulk now runId source records s)))
            (staged (snd (stagingAddBulk now runId source records s)))
  /\ NoDup (map stg_id (staged (snd (stagingAddBulk now runId source records s))))
  /\ countUnprocessed Js.Undefined (snd (stagingAddBulk now runId source records s))
     = countUnprocessed Js.Undefined s + Z.of_nat (List.length records)
  /\ forall item, In item records ->
       exists d,
         In d (getUnprocessed (Js.Val runId) Js.Undefined
                 (snd (stagingAddBulk now runId source records s)))
         /\ rd_rawData d = item /\ rd_source d = source /\ rd_discoveredAt d = now
         /\ rd_processed d = false.
Proof.
  intros Hids Hnd. cbn [stagingAddBulk fst snd staged nextId].
  destruct (stagedFrom_rows now runId source records (nextId s)) as [H1 [H2 [H3 H4]]].
  split; [reflexivity |].
  split; [| split; [| split]].
  - apply Forall_app. split.
    + eapply Forall_impl; [| exact Hids]. cbn beta. intros r Hr. lia.
    + eapply Forall_impl; [| exact H2]. cbn beta. intros r [Hr _]. lia.
  - rewrite map_app. apply NoDup_app.
    + exact Hnd.
    + exact H4.
    + intros id Hold Hnew. apply in_map_iff in Hold. destruct Hold as [r [<- Hr]].
      apply in_map_iff in Hnew. destruct Hnew as [r' [Hid Hr']].
      pose proof (proj1 (Forall_forall _ _) Hids r Hr) as Hlt.
      pose proof (proj1 (Forall_forall _ _) H2 r' Hr') as Hrange.
      cbn beta in Hlt, Hrange. lia.
  - unfold countUnprocessed. cbn [staged]. rewrite filter_app, length_app.
    assert (Hall : filter (awaiting Js.Undefined)
                     (stagedFrom (nextId s) now runId source records)
                   = stagedFrom (nextId s) now runId source records).
    { apply forallb_filter_id. apply forallb_forall. intros r Hr.
      apply (proj1 (Forall_forall _ _) H2 r Hr). }
    rewrite Hall, H1. lia.
  - intros item Hitem. rewrite <- H3 in Hitem. apply in_map_iff in Hitem.
    destruct Hitem as [r [Hraw Hr]].
    pose proof (proj1 (Forall_forall _ _) H2 r Hr) as [_ [Haw [Hrun [Hsrc Htime]]]].
    exists (rowToRawDiscovery r). split.
    + unfold getUnprocessed. apply in_map. cbn [applyLimit staged].
      apply sortByTime_In. apply filter_In. split; [apply in_or_app; right; exact Hr |].
      unfold awaiting in *. apply andb_prop in Haw. destruct Haw as [Hp _].
      rewrite Hp. cbn [andb Js.truthyStr Js.orStr].
      destruct (String.eqb runId ""); cbn [negb]; [reflexivity |].
      rewrite Hrun. apply String.eqb_refl.
    + cbn [rowToRawDiscovery rd_rawData rd_source rd_discoveredAt rd_processed].
      unfold awaiting in Haw. apply andb_prop in Haw. destruct Haw as [Hp _].
      apply negb_true_iff in Hp. auto.
Qed.

Lemma stagingAddBulk_stages_all_witness :
  fst (stagingAddBulk 1700000000000 "run_a" "yelp" [sampleRaw]
         {| staged := []; nextId := 1 |}) = Z.of_nat (List.length [sampleRaw])
  /\ Forall (fun r => stg_id r < nextId (snd (stagingAddBulk 1700000000000 "run_a" "yelp"
                                               [sampleRaw] {| staged := []; nextId := 1 |})))
            (staged (snd (stagingAddBulk 1700000000000 "run_a" "yelp" [sampleRaw]
                            {| staged := []; nextId := 1 |})))
  /\ NoDup (map stg_id (staged (snd (stagingAddBulk 1700000000000 "run_a" "yelp" [sampleRaw]
                                       {| staged := []; nextId := 1 |}))))
  /\ countUnprocessed Js.Undefined (snd (stagingAddBulk 1700000000000 "run_a" "yelp"
                                           [sampleRaw] {| staged := []; nextId := 1 |}))
     = countUnprocessed Js.Undefined {| staged := []; nextId := 1 |}
       + Z.of_nat (List.length [sampleRaw])
  /\ forall item, In item [sampleRaw] ->
       exists d,
         In d (getUnprocessed (Js.Val "run_a") Js.Undefined
                 (snd (stagingAddBulk 1700000000000 "run_a" "yelp" [sampleRaw]
                         {| staged := []; nextId := 1 |})))
         /\ rd_rawData d = item /\ rd_source d = "yelp"
         /\ rd_discoveredAt d = 1700000000000
         /\ rd_processed d = false.
Proof.
  apply (stagingAddBulk_stages_all 1700000000000 "run_a" "yelp" [sampleRaw]
           {| staged := []; nextId := 1 |}).
  - constructor.
  - constructor.
Defined.

(* ================================================================== *)
(** * The refresh stage: the sweep of expired cooldowns *)

Lemma ids_split (id : string) (rows : list Row) :
  NoDup (map lead_id rows) -> In id (map lead_id rows) ->
  exists pre r0 post,
    rows = (pre ++ r0 :: post)%list /\ lead_id r0 = id
    /\ (forall x, In x pre -> lead_id x <> id)
    /\ (forall x, In x post -> lead_id x <> id).
Proof.
  induction rows as [| r rows IH]; intros Hnd Hin; [destruct Hin |].
  cbn [map] in *. inversion Hnd as [| ? ? Hnin Hnd']; subst.
  destruct (String.eqb (lead_id r) id) eqn:E.
  - apply String.eqb_eq in E. exists [], r, rows. split; [reflexivity |].
    split; [exact E |]. split; [intros x [] |].
    intros x Hx He. apply Hnin. rewrite E, <- He. apply in_map. exact Hx.
  - destruct Hin as [Hr | Hin]; [rewrite Hr, String.eqb_refl in E; discriminate |].
    destruct (IH Hnd' Hin) as [pre [r0 [post [-> [H1 [H2 H3]]]]]].
    exists (r :: pre), r0, post. split; [reflexivity |]. split; [exact H1 |].
    split; [| exact H3].
    intros x [<- | Hx]; [| apply H2; exact Hx].
    intro He. rewrite He, String.eqb_refl in E. discriminate.
Qed.

Lemma updateWhereId_at (id : string) (f : Row -> Row) (pre post : list Row) (r0 : Row) :
  lead_id r0 = id ->
  (forall x, In x pre -> lead_id x <> id) ->
  (forall x, In x post -> lead_id x <> id) ->
  updateWhereId id f (pre ++ r0 :: post) = (pre ++ f r0 :: post)%list
  /\ selectById id (pre ++ r0 :: post) = Some r0.
Proof.
  intros H0 Hpre Hpost.
  assert (Hsame : forall l, (forall x, In x l -> lead_id x <> id) ->
                            updateWhereId id f l = l /\ selectById id l = None).
  { induction l as [| x l IHl]; intro Hl; [split; reflexivity |].
    destruct IHl as [I1 I2]; [intros y Hy; apply Hl; right; exact Hy |].
    unfold updateWhereId, selectById in *. cbn [map find].
    destruct (String.eqb (lead_id x) id) eqn:E.
    - apply String.eqb_eq in E. exfalso. exact (Hl x (or_introl eq_refl) E).
    - rewrite I1, I2. split; reflexivity. }
  destruct (Hsame pre Hpre) as [P1 P2]. destruct (Hsame post Hpost) as [Q1 _].
  split.
  - unfold updateWhereId in *. rewrite map_app. cbn [map].
    rewrite P1, Q1, H0, String.eqb_refl. reflexivity.
  - unfold selectById in *. clear P1 Q1.
    induction pre as [| x pre IHp]; cbn [app find].
    + rewrite H0, String.eqb_refl. reflexivity.
    + cbn [find] in P2. destruct (String.eqb (lead_id x) id); [discriminate |].
      apply IHp; [intros y Hy; apply Hpre; right; exact Hy | exact P2].
Qed.

Lemma upsertAssign_clears_cooldown (id : string) (now : Z) (r : Row) :
  upsertAssign (mergeLead (rowToLead r) (idWithCooldownUntil id Js.Undefined) now) r
  = set_updated_at now (set_last_seen_at now (set_cooldown_until None r)).
Proof.
  destruct r. unfold upsertAssign, mergeLead, rowToLead, set_updated_at, set_last_seen_at,
    set_cooldown_until. cbn. rewrite !toSql_ofSql.
  destruct enrichment_data0, score_reasons0; reflexivity.
Qed.

(** One turn of the sweep on the lead stored as [r0]. *)
Lemma expiredTurn_step (cfg : Config) (lead : Lead) (w : World)
    (pre post : list Row) (r0 : Row) :
  leads w = (pre ++ r0 :: post)%list ->
  lead_id r0 = leadId lead ->
  (forall x, In x pre -> lead_id x <> leadId lead) ->
  (forall x, In x post -> lead_id x <> leadId lead) ->
  reentryStatus lead = st_enriched ->
  exists r',
    leads (snd (expiredTurn cfg lead w)) = (pre ++ r' :: post)%list
    /\ releasedRow cfg r0 r'
    /\ processed (this (snd (expiredTurn cfg lead w))) = processed (this w) + 1
    /\ passed (this (snd (expiredTurn cfg lead w))) = passed (this w) + 1
    /\ failed (this (snd (expiredTurn cfg lead w))) = failed (this w).
Proof.
  intros Hrows Hid Hpre Hpost Hstatus.
  unfold expiredTurn. cbv zeta. rewrite Hstatus. rewrite !bind_run.
  set (w1 := snd (incProcessed w)).
  assert (Hl1 : leads w1 = (pre ++ r0 :: post)%list) by exact Hrows.
  (* the upsert *)
  pose proof (upsert_leads (idWithCooldownUntil (leadId lead) Js.Undefined) w1) as HL.
  destruct (upsert_ticks (idWithCooldownUntil (leadId lead) Js.Undefined) w1)
    as [_ [_ [Hthis2 _]]].
  cbn [p_leadId idWithCooldownUntil] in HL.
  rewrite Hl1 in HL.
  destruct (updateWhereId_at (leadId lead)
              (upsertAssign (mergeLead (rowToLead r0)
                               (idWithCooldownUntil (leadId lead) Js.Undefined)
                               (clock w1 (ticks w1))))
              pre post r0 Hid Hpre Hpost) as [Hupd Hsel].
  rewrite Hsel, Hupd, upsertAssign_clears_cooldown in HL.
  set (w2 := snd (upsert (idWithCooldownUntil (leadId lead) Js.Undefined) w1)) in *.
  set (ra := set_updated_at (clock w1 (ticks w1))
               (set_last_seen_at (clock w1 (ticks w1)) (set_cooldown_until None r0))) in *.
  (* the optional reset of the angles *)
  set (w3 := snd ((if refresh_resetExhaustedAngles cfg
                   then updateAngles (leadId lead) [] [] else ret tt) w2)).
  assert (H3 : exists rb,
             leads w3 = (pre ++ rb :: post)%list /\ this w3 = this w2
             /\ lead_id rb = leadId lead
             /\ exists updated,
                  rb = set_updated_at updated
                         (set_last_seen_at (clock w1 (ticks w1))
                            (set_cooldown_until None
                               (if refresh_resetExhaustedAngles cfg
                                then set_exhausted_angles [] (set_active_angles [] r0)
                                else r0)))).
  { unfold w3. destruct (refresh_resetExhaustedAngles cfg).
    - unfold updateAngles. rewrite bind_run. cbn [dateNow writeLeads fst snd leads this].
      rewrite HL.
      destruct (updateWhereId_at (leadId lead)
                  (fun r => set_updated_at (clock w2 (ticks w2))
                              (set_exhausted_angles [] (set_active_angles [] r)))
                  pre post ra Hid Hpre Hpost) as [Hupd2 _].
      rewrite Hupd2. eexists. split; [reflexivity |]. split; [reflexivity |].
      split; [exact Hid |]. exists (clock w2 (ticks w2)). destruct r0; reflexivity.
    - cbn [ret snd]. exists ra. split; [exact HL |]. split; [reflexivity |].
      split; [exact Hid |]. exists (clock w1 (ticks w1)). reflexivity. }
  destruct H3 as [rb [Hl3 [Hthis3 [Hidb [updated Hrb]]]]].
  clearbody w3.
  unfold updateStatus, incPassed. rewrite !bind_run.
  cbn [dateNow writeLeads writeThis fst snd leads this processed passed failed setPassed].
  rewrite Hl3.
  destruct (updateWhereId_at (leadId lead)
              (fun r => set_updated_at (clock w3 (ticks w3)) (set_status st_enriched r))
              pre post rb Hidb Hpre Hpost) as [Hupd3 _].
  rewrite Hupd3, Hthis3, Hthis2.
  eexists. split; [reflexivity |]. split; [| cbn; auto].
  exists (clock w1 (ticks w1)), (clock w3 (ticks w3)). rewrite Hrb.
  destruct (refresh_resetExhaustedAngles cfg); destruct r0; reflexivity.
Qed.

Lemma Forall2_impl_In {A B} (R R2 : A -> B -> Prop) (a : list A) (b : list B) :
  Forall2 R a b -> (forall x y, In x a -> R x y -> R2 x y) -> Forall2 R2 a b.
Proof.
  induction 1 as [| x y a b Hxy Hab IH]; intro Himp; constructor.
  - apply Himp; [left; reflexivity | exact Hxy].
  - apply IH. intros x' y' Hin. apply Himp. right. exact Hin.
Qed.

Lemma Forall2_eq_refl {A} (l : list A) : Forall2 (fun r r' => r' = r) l l.
Proof. induction l; constructor; auto. Qed.

Lemma releasedRow_keeps_id (cfg : Config) (r r' : Row) :
  releasedRow cfg r r' -> lead_id r' = lead_id r.
Proof.
  intros [s [u ->]]. destruct (refresh_resetExhaustedAngles cfg); reflexivity.
Qed.

Lemma expiredTurns_steps (cfg : Config) (ls : list Lead) :
  forall w,
    NoDup (map lead_id (leads w)) ->
    NoDup (map leadId ls) ->
    (forall l, In l ls ->
       In (leadId l) (map lead_id (leads w)) /\ reentryStatus l = st_enriched) ->
    Forall2 (sweptRow cfg (map leadId ls)) (leads w)
            (leads (snd (forEach ls (expiredTurn cfg) w)))
    /\ processed (this (snd (forEach ls (expiredTurn cfg) w)))
       = processed (this w) + Z.of_nat (List.length ls)
    /\ passed (this (snd (forEach ls (expiredTurn cfg) w)))
       = passed (this w) + Z.of_nat (List.length ls)
    /\ failed (this (snd (forEach ls (expiredTurn cfg) w))) = failed (this w).
Proof.
  induction ls as [| l ls IH]; intros w Hnd Hls Hall.
  - cbn [forEach ret snd map List.length]. split; [| lia].
    eapply Forall2_impl_In; [apply Forall2_eq_refl |].
    intros x y _ ->. unfold sweptRow. reflexivity.
  - cbn [map] in Hls. inversion Hls as [| ? ? Hfresh Hls']; subst.
    destruct (Hall l (or_introl eq_refl)) as [Hin Hst].
    destruct (ids_split (leadId l) (leads w) Hnd Hin) as [pre [r0 [post [Hrows [Hid [Hpre Hpost]]]]]].
    destruct (expiredTurn_step cfg l w pre post r0 Hrows Hid Hpre Hpost Hst)
      as [r' [Hl1 [Hrel [Hp1 [Hpa1 Hf1]]]]].
    cbn [forEach]. rewrite bind_run.
    set (w1 := snd (expiredTurn cfg l w)) in *.
    assert (Hids1 : map lead_id (leads w1) = map lead_id (leads w)).
    { rewrite Hl1, Hrows, !map_app. cbn [map].
      rewrite (releasedRow_keeps_id cfg r0 r' Hrel). reflexivity. }
    destruct (IH w1) as [H2 [Hp2 [Hpa2 Hf2]]].
    + rewrite Hids1. exact Hnd.
    + exact Hls'.
    + intros l' Hl'. rewrite Hids1. apply Hall. right. exact Hl'.
    + split; [| rewrite Hp2, Hpa2, Hf2, Hp1, Hpa1, Hf1; cbn [List.length]; lia].
      rewrite Hl1 in H2. rewrite Hrows.
      apply Forall2_app_inv_l in H2.
      destruct H2 as [e1 [e23 [H21 [H22 ->]]]].
      inversion H22 as [| ? e' ? e2 Hr' H23]; subst.
      apply Forall2_app; [| constructor].
      * eapply Forall2_impl_In; [exact H21 |].
        intros x y Hx Hxy. unfold sweptRow in *. cbn [map existsb].
        replace (String.eqb (lead_id x) (leadId l)) with false; [exact Hxy |].
        symmetry. apply String.eqb_neq. apply Hpre. exact Hx.
      * unfold sweptRow in *. cbn [map existsb]. rewrite Hid, String.eqb_refl.
        cbn [orb].
        replace (existsb (String.eqb (lead_id r')) (map leadId ls)) with false in Hr'.
        -- subst e'. exact Hrel.
        -- symmetry. apply not_true_is_false. intro He. apply existsb_eqb_In in He.
           rewrite (releasedRow_keeps_id cfg r0 r' Hrel), Hid in He. contradiction.
      * eapply Forall2_impl_In; [exact H23 |].
        intros x y Hx Hxy. unfold sweptRow in *. cbn [map existsb].
        replace (String.eqb (lead_id x) (leadId l)) with false; [exact Hxy |].
        symmetry. apply String.eqb_neq. apply Hpost. exact Hx.
Qed.

Lemma insertByCooldown_In (r x : Row) (l : list Row) :
  In x (insertByCooldown r l) <-> x = r \/ In x l.
Proof.
  induction l as [| y l IH]; cbn [insertByCooldown].
  - cbn. intuition.
  - destruct (cooldownLe r y); cbn [In]; [intuition |].
    rewrite IH. intuition.
Qed.

Lemma sortByCooldown_In (x : Row) (l : list Row) :
  In x (sortByCooldown l) <-> In x l.
Proof.
  unfold sortByCooldown. induction l as [| y l IH]; cbn [fold_right]; [reflexivity |].
  rewrite insertByCooldown_In, IH. cbn [In]. intuition.
Qed.

Lemma NoDup_ids_sortByCooldown (rows : list Row) :
  NoDup (map lead_id rows) -> NoDup (map lead_id (sortByCooldown rows)).
Proof.
  unfold sortByCooldown.
  induction rows as [| r rows IH]; intro H; cbn [fold_right map] in *; [constructor |].
  inversion H as [| ? ? Hnin Hnd]; subst. specialize (IH Hnd).
  assert (Hfresh : ~ In (lead_id r) (map lead_id (fold_right insertByCooldown [] rows))).
  { intro Hin. apply Hnin. apply in_map_iff in Hin. destruct Hin as [x [Hx Hin]].
    apply (proj1 (sortByCooldown_In x rows)) in Hin. apply in_map_iff. exists x. tauto. }
  revert IH Hfresh. generalize (fold_right insertByCooldown [] rows) as l.
  induction l as [| y l IHl]; intros Hl Hfresh; cbn [insertByCooldown map].
  - constructor; [intros [] | constructor].
  - destruct (cooldownLe r y); cbn [map].
    + constructor; assumption.
    + cbn [map] in Hl, Hfresh. inversion Hl as [| ? ? Hy Hl']; subst.
      constructor.
      * intro Hin. apply in_map_iff in Hin. destruct Hin as [x [Hx Hin]].
        apply insertByCooldown_In in Hin. destruct Hin as [-> | Hin].
        -- apply Hfresh. left. symmetry. exact Hx.
        -- apply Hy. apply in_map_iff. exists x. tauto.
      * apply IHl; [exact Hl' |]. intro Hin. apply Hfresh. right. exact Hin.
Qed.

(** The rows come out of [sortByCooldown] in the order of the index. *)
Lemma sortByCooldown_sorted (rows : list Row) :
  byCooldown (sortByCooldown rows).
Proof.
  assert (Htot : forall a b, cooldownLe a b = false -> cooldownLe b a = true).
  { intros a b. unfold cooldownLe.
    destruct (cooldown_until a), (cooldown_until b); try discriminate; auto.
    intro H. apply Z.leb_gt in H. apply Z.leb_le. lia. }
  assert (Htrans : forall a b c, cooldownLe a b = true -> cooldownLe b c = true ->
                                 cooldownLe a c = true).
  { intros a b c. unfold cooldownLe.
    destruct (cooldown_until a), (cooldown_until b), (cooldown_until c);
      try discriminate; auto.
    intros H1 H2. apply Z.leb_le in H1, H2. apply Z.leb_le. lia. }
  unfold sortByCooldown.
  induction rows as [| r rows IH]; cbn [fold_right]; [exact I |].
  revert IH. generalize (fold_right insertByCooldown [] rows) as l.
  induction l as [| y l IHl]; intro Hs; cbn [insertByCooldown].
  - split; [constructor | exact I].
  - destruct Hs as [Hy Hs'].
    destruct (cooldownLe r y) eqn:E.
    + split; [| split; assumption]. constructor; [exact E |].
      eapply Forall_impl; [| exact Hy]. intros z Hz. exact (Htrans _ _ _ E Hz).
    + cbn [byCooldown]. split; [| apply IHl; exact Hs'].
      apply Forall_forall. intros z Hz. apply insertByCooldown_In in Hz.
      destruct Hz as [-> | Hz]; [apply Htot; exact E |].
      exact (proj1 (Forall_forall _ _) Hy z Hz).
Qed.

(** X30. The sweep of expired cooldowns, on a table with distinct ids,
    takes the leads whose cooldown lies before the clock reading, whatever
    their status, in the order of their cooldown times and within the
    limit, and returns their ids in that order. Each of them is released:
    no cooldown, status enriched, the angle lists emptied when the
    configuration asks for it, every other column but the two stamps as it
    was. Every other row is left exactly as it was. Each lead taken counts
    as processed and as passed. *)
Theorem expired_sweep_releases (cfg : Config) (limit : Js.opt Z) (w : World) :
  NoDup (map lead_id (leads w)) ->
  fst (processExpiredCooldowns cfg limit w)
  = map lead_id
      (applyLimit limit
         (sortByCooldown (filter (cooldownExpired (clock w (ticks w))) (leads w))))
  /\ byCooldown
       (sortByCooldown (filter (cooldownExpired (clock w (ticks w))) (leads w)))
  /\ Forall2 (sweptRow cfg (fst (processExpiredCooldowns cfg limit w)))
             (leads w) (leads (snd (processExpiredCooldowns cfg limit w)))
  /\ processed (this (snd (processExpiredCooldowns cfg limit w)))
     = processed (this w)
       + Z.of_nat (List.length (fst (processExpiredCooldowns cfg limit w)))
  /\ passed (this (snd (processExpiredCooldowns cfg limit w)))
     = passed (this w)
       + Z.of_nat (List.length (fst (processExpiredCooldowns cfg limit w)))
  /\ failed (this (snd (processExpiredCooldowns cfg limit w))) = failed (this w).
Proof.
  intro Hnd. unfold processExpiredCooldowns, getExpiredCooldowns. rewrite !bind_run.
  cbn [dateNow readLeads ret fst snd leads].
  set (chosen := applyLimit limit
                   (sortByCooldown (filter (cooldownExpired (clock w (ticks w))) (leads w)))).
  set (w1 := {| leads := leads w; runLog := runLog w; this := this w;
                ticks := S (ticks w); clock := clock w |}).
  assert (Hids : map leadId (map rowToLead chosen) = map lead_id chosen).
  { rewrite map_map. reflexivity. }
  rewrite Hids.
  destruct (expiredTurns_steps cfg (map rowToLead chosen) w1) as [H2 [Hp [Hpa Hf]]].
  - exact Hnd.
  - rewrite Hids. apply NoDup_ids_applyLimit, NoDup_ids_sortByCooldown, NoDup_ids_filter.
    exact Hnd.
  - intros l Hl. apply in_map_iff in Hl. destruct Hl as [r [<- Hr]].
    split; [| apply reentryStatus_of_row].
    cbn [rowToLead leadId w1 leads]. apply in_map.
    apply applyLimit_incl in Hr. apply (proj1 (sortByCooldown_In _ _)) in Hr.
    apply filter_In in Hr. apply Hr.
  - rewrite Hids in H2. rewrite !length_map in *.
    split; [reflexivity |]. split; [apply sortByCooldown_sorted |].
    split; [exact H2 |]. auto.
Qed.

Lemma expired_sweep_releases_witness :
  fst (processExpiredCooldowns DEFAULT_CONFIG (Js.Val 2) (sampleWorld sweepRows))
  = ["b2"; "c3"]
  /\ Forall2 (sweptRow DEFAULT_CONFIG ["b2"; "c3"]) sweepRows
             (leads (snd (processExpiredCooldowns DEFAULT_CONFIG (Js.Val 2)
                            (sampleWorld sweepRows))))
  /\ processed (this (snd (processExpiredCooldowns DEFAULT_CONFIG (Js.Val 2)
                            (sampleWorld sweepRows)))) = 2
  /\ passed (this (snd (processExpiredCooldowns DEFAULT_CONFIG (Js.Val 2)
                         (sampleWorld sweepRows)))) = 2.
Proof.
  assert (Hnd : NoDup (map lead_id (leads (sampleWorld sweepRows)))).
  { cbn [sampleWorld leads sweepRows map]. repeat constructor; cbn; intuition discriminate. }
  destruct (expired_sweep_releases DEFAULT_CONFIG (Js.Val 2) (sampleWorld sweepRows) Hnd)
    as [H1 [_ [H2 [H3 [H4 _]]]]].
  assert (E : fst (processExpiredCooldowns DEFAULT_CONFIG (Js.Val 2) (sampleWorld sweepRows))
              = ["b2"; "c3"]) by (rewrite H1; vm_compute; reflexivity).
  rewrite E in H2, H3, H4.
  split; [exact E |]. split; [exact H2 |]. split; [exact H3 | exact H4].
Defined.

(* ================================================================== *)
(** * Leads past enrichment hold enrichment data

    A lead reaches the status enriched only through [enrichLead], which
    stores enrichment data first; the score and output stages take leads
    at enriched and scored, and only they set a cooldown; nothing clears
    the data. So in every table the stages build from an empty one, a
    lead that holds a cooldown holds enrichment data. *)

Lemma movesRows_bind (P Q R : list Row -> Prop) {A B} (m : M A) (k : A -> M B) :
  movesRows P Q m -> (forall a, movesRows Q R (k a)) -> movesRows P R (bind m k).
Proof. intros Hm Hk w H. rewrite bind_run. apply Hk. apply Hm. exact H. Qed.

Lemma movesRows_weaken (P P' Q Q' : list Row -> Prop) {A} (m : M A) :
  (forall rows, P' rows -> P rows) -> (forall rows, Q rows -> Q' rows) ->
  movesRows P Q m -> movesRows P' Q' m.
Proof. intros HP HQ Hm w H. apply HQ. apply Hm. apply HP. exact H. Qed.

Lemma keepsRows_ret (P : list Row -> Prop) {A} (a : A) : keepsRows P (ret a).
Proof. intros w H. exact H. Qed.

Lemma keepsRows_bind (P : list Row -> Prop) {A B} (m : M A) (k : A -> M B) :
  keepsRows P m -> (forall a, keepsRows P (k a)) -> keepsRows P (bind m k).
Proof. apply movesRows_bind. Qed.

Lemma keepsRows_dateNow (P : list Row -> Prop) : keepsRows P dateNow.
Proof. intros w H. exact H. Qed.

Lemma keepsRows_readLeads (P : list Row -> Prop) : keepsRows P readLeads.
Proof. intros w H. exact H. Qed.

Lemma keepsRows_readThis (P : list Row -> Prop) : keepsRows P readThis.
Proof. intros w H. exact H. Qed.

Lemma keepsRows_writeThis (P : list Row -> Prop) (f : StageObj -> StageObj) :
  keepsRows P (writeThis f).
Proof. intros w H. exact H. Qed.

Lemma keepsRows_writeRun (P : list Row -> Prop) (x : RunWrite) : keepsRows P (writeRun x).
Proof. intros w H. exact H. Qed.

Lemma keepsRows_writeLeads (P : list Row -> Prop) (f : list Row -> list Row) :
  (forall rows, P rows -> P (f rows)) -> keepsRows P (writeLeads f).
Proof. intros Hf w H. apply Hf. exact H. Qed.

Lemma keepsRows_forEach (P : list Row -> Prop) {A} (xs : list A) (body : A -> M unit) :
  (forall x, keepsRows P (body x)) -> keepsRows P (forEach xs body).
Proof.
  intro Hb. induction xs as [| x xs IH]; cbn [forEach].
  - apply keepsRows_ret.
  - apply keepsRows_bind; [apply Hb | intro; exact IH].
Qed.

Lemma keepsRows_and (P Q : list Row -> Prop) {A} (m : M A) :
  keepsRows P m -> keepsRows Q m -> keepsRows (fun rows => P rows /\ Q rows) m.
Proof. intros HP HQ w [H1 H2]. split; [apply HP | apply HQ]; assumption. Qed.

Ltac rows_tac :=
  repeat first
    [ apply keepsRows_ret
    | apply keepsRows_dateNow
    | apply keepsRows_readLeads
    | apply keepsRows_readThis
    | apply keepsRows_writeThis
    | apply keepsRows_writeRun
    | assumption
    | apply keepsRows_bind; [| intro]
    | match goal with
      | |- keepsRows _ (match ?x with _ => _ end) => destruct x
      end ].

(** The parts of a stage that do not write to the table. *)
Lemma keepsRows_counters (P : list Row -> Prop) :
  keepsRows P incProcessed /\ keepsRows P incPassed /\ keepsRows P incFailed
  /\ keepsRows P updateProgress /\ (forall n, keepsRows P (progressEvery n))
  /\ (forall m, keepsRows P (recordError m)) /\ (forall c, keepsRows P (addPassed c))
  /\ (forall b, keepsRows P (addBulk b)) /\ keepsRows P getRunId
  /\ (forall id, keepsRows P (getById id)).
Proof.
  assert (Hup : keepsRows P updateProgress).
  { unfold updateProgress, runService_updateProgress. rows_tac. }
  repeat split; try intro;
    unfold incProcessed, incPassed, incFailed, progressEvery, recordError, addPassed,
      addBulk, getRunId, getById;
    rows_tac.
Qed.

Lemma keepsRows_scoreLead (P : list Row -> Prop) (cfg : Config) (lead : Lead) :
  keepsRows P (scoreLead cfg lead).
Proof.
  intros w H. rewrite (proj1 (scoreLead_frame cfg lead w)). exact H.
Qed.

Lemma keepsRows_getLeadsForStage (P : list Row -> Prop) (stage : string)
    (limit : Js.opt Z) :
  keepsRows P (getLeadsForStage stage limit).
Proof. unfold getLeadsForStage. rows_tac. Qed.

(** ** One [UPDATE ... WHERE lead_id = ?] *)

Lemma In_updateWhereId (id : string) (f : Row -> Row) (rows : list Row) (r' : Row) :
  In r' (updateWhereId id f rows) ->
  exists r, In r rows
            /\ ((lead_id r = id /\ r' = f r) \/ (lead_id r <> id /\ r' = r)).
Proof.
  unfold updateWhereId. intro H. apply in_map_iff in H. destruct H as [r [Hr Hin]].
  exists r. split; [exact Hin |].
  destruct (String.eqb (lead_id r) id) eqn:E.
  - apply String.eqb_eq in E. left. auto.
  - apply String.eqb_neq in E. right. auto.
Qed.

Lemma stored_member (rows : list Row) (r : Row) : In r rows -> stored (lead_id r) rows.
Proof. intro H. unfold stored. apply in_map. exact H. Qed.

Lemma stored_update (id' id : string) (f : Row -> Row) (rows : list Row) :
  (forall r, lead_id (f r) = lead_id r) ->
  stored id' rows -> stored id' (updateWhereId id f rows).
Proof. intros Hid H. unfold stored. rewrite (updateWhereId_ids id f Hid). exact H. Qed.

(** The data stay under every id when the statement loses none. *)
Lemma dataUnder_update (id' id : string) (f : Row -> Row) (rows : list Row) :
  (forall r, lead_id (f r) = lead_id r) ->
  (forall r, In r rows -> lead_id r = id ->
             dataUnder id rows -> enrichment_data (f r) <> None) ->
  dataUnder id' rows -> dataUnder id' (updateWhereId id f rows).
Proof.
  intros Hid Hdata [Hs H]. split; [apply stored_update; assumption |].
  intros r' Hr' Hid'.
  apply In_updateWhereId in Hr'. destruct Hr' as [r [Hin [[He ->] | [Hne ->]]]].
  - rewrite Hid in Hid'. apply (Hdata r Hin He).
    rewrite He in Hid'. subst id'. split; assumption.
  - exact (H r Hin Hid').
Qed.

(** A statement that moves no lead past enrichment. *)
Lemma dataBacked_update_plain (id : string) (f : Row -> Row) (rows : list Row) :
  (forall r, lead_id (f r) = lead_id r) ->
  (forall r, In r rows -> lead_id r = id ->
             dataUnder id rows -> enrichment_data (f r) <> None) ->
  (forall r, In r rows -> lead_id r = id -> pastEnrich (f r) -> dataUnder id rows) ->
  dataBacked rows -> dataBacked (updateWhereId id f rows).
Proof.
  intros Hid Hdata Hpast H r' Hr' Hp.
  apply dataUnder_update; [exact Hid | exact Hdata |].
  apply In_updateWhereId in Hr'. destruct Hr' as [r [Hin [[He ->] | [Hne ->]]]].
  - rewrite Hid, He. exact (Hpast r Hin He Hp).
  - exact (H r Hin Hp).
Qed.

(** A statement on a lead that holds data. *)
Lemma dataBacked_update_held (id : string) (f : Row -> Row) (rows : list Row) :
  (forall r, lead_id (f r) = lead_id r) ->
  (forall r, enrichment_data r <> None -> enrichment_data (f r) <> None) ->
  dataBacked rows /\ dataUnder id rows ->
  dataBacked (updateWhereId id f rows) /\ dataUnder id (updateWhereId id f rows).
Proof.
  intros Hid Hdata [H Hu].
  assert (Hkeep : forall id', dataUnder id' rows ->
                              dataUnder id' (updateWhereId id f rows)).
  { intros id' H'. apply dataUnder_update; [exact Hid | | exact H'].
    intros r Hin He _. apply Hdata. exact (proj2 Hu r Hin He). }
  split; [| apply Hkeep; exact Hu].
  apply dataBacked_update_plain; [exact Hid | | | exact H].
  - intros r Hin He _. apply Hdata. exact (proj2 Hu r Hin He).
  - intros r Hin He _. exact Hu.
Qed.

(** A statement that stores data. *)
Lemma dataBacked_update_fills (id : string) (f : Row -> Row) (rows : list Row) :
  (forall r, lead_id (f r) = lead_id r) ->
  (forall r, enrichment_data (f r) <> None) ->
  dataBacked rows /\ stored id rows ->
  dataBacked (updateWhereId id f rows) /\ dataUnder id (updateWhereId id f rows).
Proof.
  intros Hid Hdata [H Hs].
  assert (Hu : dataUnder id (updateWhereId id f rows)).
  { split; [apply stored_update; assumption |].
    intros r' Hr' Hid'.
    apply In_updateWhereId in Hr'. destruct Hr' as [r [Hin [[He ->] | [Hne ->]]]].
    - apply Hdata.
    - contradiction. }
  split; [| exact Hu].
  intros r' Hr' Hp.
  apply In_updateWhereId in Hr'. destruct Hr' as [r [Hin [[He ->] | [Hne ->]]]].
  - rewrite Hid, He. exact Hu.
  - apply dataUnder_update; [exact Hid | intros; apply Hdata |]. exact (H r Hin Hp).
Qed.

(** ** The statements of the lead service *)

Ltac row_facts :=
  intros;
  repeat match goal with
         | r : Row |- _ => destruct r
         end;
  cbn in *; try assumption; try reflexivity; try tauto.

Lemma movesRows_stamp (P Q : list Row -> Prop) (id : string) (F : Z -> Row -> Row) :
  (forall now rows, P rows -> Q (updateWhereId id (F now) rows)) ->
  movesRows P Q (now <- dateNow ;; writeLeads (updateWhereId id (F now))).
Proof.
  intros HF w H. rewrite bind_run. cbn [dateNow writeLeads fst snd leads]. apply HF. exact H.
Qed.

(** A statement that stamps the rows of one id and loses no data. *)
Definition losesNothing (F : Z -> Row -> Row) : Prop :=
  forall now r,
    lead_id (F now r) = lead_id r
    /\ (enrichment_data r <> None -> enrichment_data (F now r) <> None).

Lemma stamp_stored (id' id : string) (F : Z -> Row -> Row) :
  losesNothing F ->
  keepsRows (stored id') (now <- dateNow ;; writeLeads (updateWhereId id (F now))).
Proof.
  intro HF. apply movesRows_stamp. intros now rows H.
  apply stored_update; [intro r; apply HF | exact H].
Qed.

Lemma stamp_under (id' id : string) (F : Z -> Row -> Row) :
  losesNothing F ->
  keepsRows (dataUnder id') (now <- dateNow ;; writeLeads (updateWhereId id (F now))).
Proof.
  intro HF. apply movesRows_stamp. intros now rows H.
  apply dataUnder_update; [intro r; apply HF | | exact H].
  intros r Hin He Hu. apply HF. exact (proj2 Hu r Hin He).
Qed.

Lemma stamp_held (id : string) (F : Z -> Row -> Row) :
  losesNothing F ->
  keepsRows (fun rows => dataBacked rows /\ dataUnder id rows)
    (now <- dateNow ;; writeLeads (updateWhereId id (F now))).
Proof.
  intro HF. apply movesRows_stamp. intros now rows H.
  apply dataBacked_update_held; [intro r; apply HF | intro r; apply HF | exact H].
Qed.

Lemma stamp_plain (id : string) (F : Z -> Row -> Row) :
  losesNothing F ->
  (forall now r, pastEnrich (F now r) -> pastEnrich r) ->
  keepsRows dataBacked (now <- dateNow ;; writeLeads (updateWhereId id (F now))).
Proof.
  intros HF Hpast. apply movesRows_stamp. intros now rows H.
  apply dataBacked_update_plain; [intro r; apply HF | | | exact H].
  - intros r Hin He Hu. apply HF. exact (proj2 Hu r Hin He).
  - intros r Hin He Hp. rewrite <- He. exact (H r Hin (Hpast now r Hp)).
Qed.

Lemma losesNothing_writes :
  (forall s, losesNothing (fun now r => set_updated_at now (set_status s r)))
  /\ (forall reason,
        losesNothing (fun now r =>
          set_updated_at now (set_status st_excluded (set_excluded_reason (Some reason) r))))
  /\ (forall until,
        losesNothing (fun now r =>
          set_updated_at now (set_status st_cooldown (set_cooldown_until (Some until) r))))
  /\ (forall a e,
        losesNothing (fun now r =>
          set_updated_at now (set_exhausted_angles e (set_active_angles a r))))
  /\ (forall d,
        losesNothing (fun now r => set_updated_at now (set_enrichment_data (Some d) r)))
  /\ (forall sc rs,
        losesNothing (fun now r =>
          set_updated_at now (set_score_reasons (Some rs) (set_score (Some sc) r))))
  /\ losesNothing (fun now r =>
       set_updated_at now (set_last_output_at (Some now) (set_status st_output r)))
  /\ (forall fl,
        losesNothing (fun now r => set_updated_at now (set_enrichment_failures fl r))).
Proof.
  repeat split; intros; destruct r; cbn in *; try assumption; discriminate.
Qed.

Ltac stamp_with lem :=
  unfold updateStatus, exclude, setCooldown, updateAngles, updateEnrichment, updateScore,
    markOutput;
  apply lem; apply losesNothing_writes.

Ltac conj_each tac :=
  lazymatch goal with
  | |- _ /\ _ => split; [tac | conj_each tac]
  | _ => tac
  end.

Lemma addEnrichmentFailure_rows (P : list Row -> Prop) (id : string)
    (f : EnrichmentFailure) :
  (forall fl, keepsRows P
                (now <- dateNow ;;
                 writeLeads (updateWhereId id (fun r =>
                   set_updated_at now (set_enrichment_failures fl r))))) ->
  keepsRows P (addEnrichmentFailure id f).
Proof.
  intro H. unfold addEnrichmentFailure.
  apply keepsRows_bind; [apply keepsRows_counters |].
  intros [l |]; [apply H | apply keepsRows_ret].
Qed.

Ltac stamps_with lem :=
  conj_each ltac:(intros;
                  first [ stamp_with lem
                        | apply addEnrichmentFailure_rows; intro; stamp_with lem ]).

(** No statement of the service that a stage uses takes an id out of the
    table or data out of a row. *)
Lemma service_keeps_stored (id' id : string) :
  (forall s, keepsRows (stored id') (updateStatus id s))
  /\ (forall reason, keepsRows (stored id') (exclude id reason))
  /\ (forall until, keepsRows (stored id') (setCooldown id until))
  /\ (forall a e, keepsRows (stored id') (updateAngles id a e))
  /\ (forall d, keepsRows (stored id') (updateEnrichment id d))
  /\ (forall sc rs, keepsRows (stored id') (updateScore id sc rs))
  /\ keepsRows (stored id') (markOutput id)
  /\ (forall f, keepsRows (stored id') (addEnrichmentFailure id f)).
Proof.
  stamps_with stamp_stored.
Qed.

Lemma service_keeps_data (id' id : string) :
  (forall s, keepsRows (dataUnder id') (updateStatus id s))
  /\ (forall reason, keepsRows (dataUnder id') (exclude id reason))
  /\ (forall until, keepsRows (dataUnder id') (setCooldown id until))
  /\ (forall a e, keepsRows (dataUnder id') (updateAngles id a e))
  /\ (forall d, keepsRows (dataUnder id') (updateEnrichment id d))
  /\ (forall sc rs, keepsRows (dataUnder id') (updateScore id sc rs))
  /\ keepsRows (dataUnder id') (markOutput id)
  /\ (forall f, keepsRows (dataUnder id') (addEnrichmentFailure id f)).
Proof.
  stamps_with stamp_under.
Qed.

(** On a lead that holds data, every statement keeps the table backed. *)
Lemma service_on_held (id : string) :
  let held := fun rows => dataBacked rows /\ dataUnder id rows in
  (forall s, keepsRows held (updateStatus id s))
  /\ (forall reason, keepsRows held (exclude id reason))
  /\ (forall until, keepsRows held (setCooldown id until))
  /\ (forall a e, keepsRows held (updateAngles id a e))
  /\ (forall d, keepsRows held (updateEnrichment id d))
  /\ (forall sc rs, keepsRows held (updateScore id sc rs))
  /\ keepsRows held (markOutput id)
  /\ (forall f, keepsRows held (addEnrichmentFailure id f)).
Proof.
  cbv zeta.
  conj_each ltac:(intros;
                  first [ stamp_with stamp_held
                        | apply (addEnrichmentFailure_rows
                                   (fun rows => dataBacked rows /\ dataUnder id rows));
                          intro; stamp_with stamp_held ]).
Qed.

(** On any lead, the statements that move it to no status past
    enrichment and give it no cooldown keep the table backed. *)
Lemma service_plain (id : string) :
  (forall s, advancedStatus s = false -> keepsRows dataBacked (updateStatus id s))
  /\ (forall reason, keepsRows dataBacked (exclude id reason))
  /\ (forall f, keepsRows dataBacked (addEnrichmentFailure id f)).
Proof.
  split; [| split].
  - intros s Hs. unfold updateStatus. apply stamp_plain; [apply losesNothing_writes |].
    intros now r Hp. destruct r. unfold pastEnrich in *. cbn in *. rewrite Hs in Hp.
    destruct Hp as [Hp | Hp]; [discriminate | right; exact Hp].
  - intro reason. unfold exclude. apply stamp_plain; [apply losesNothing_writes |].
    intros now r Hp. destruct r. unfold pastEnrich in *. cbn in *.
    destruct Hp as [Hp | Hp]; [discriminate | right; exact Hp].
  - intro f. apply addEnrichmentFailure_rows. intro fl.
    apply stamp_plain; [apply losesNothing_writes |].
    intros now r Hp. destruct r. exact Hp.
Qed.

(** [updateEnrichment] on a stored lead: afterwards the lead holds data. *)
Lemma updateEnrichment_fills (id : string) (d : EnrichmentData) :
  movesRows (fun rows => dataBacked rows /\ stored id rows)
            (fun rows => dataBacked rows /\ dataUnder id rows)
            (updateEnrichment id d).
Proof.
  unfold updateEnrichment. apply movesRows_stamp. intros now rows H.
  apply dataBacked_update_fills; [| | exact H]; intro r; destruct r; cbn;
    [reflexivity | discriminate].
Qed.

(** ** [upsert] with a literal that only touches *)

Lemma touchOnly_literals (id : string) (v : Js.opt string) (raw : RawBusinessData)
    (source runId : string) :
  touchOnly (onlyId id) /\ touchOnly (idWithEmail id v) /\ touchOnly (idWithPhone id v)
  /\ touchOnly (idWithCooldownUntil id Js.Undefined)
  /\ touchOnly (partialOfRaw raw source runId).
Proof. unfold touchOnly. cbn. tauto. Qed.

Lemma upsert_shape (p : PartialLead) (w : World) :
  touchOnly p ->
  (exists r0 g,
      selectById (p_leadId p) (leads w) = Some r0
      /\ leads (snd (upsert p w)) = updateWhereId (p_leadId p) g (leads w)
      /\ (forall r, lead_id (g r) = lead_id r)
      /\ (forall r, enrichment_data (g r) = enrichment_data r0)
      /\ (forall r, pastEnrich (g r) -> pastEnrich r0))
  \/ (exists n,
        selectById (p_leadId p) (leads w) = None
        /\ leads (snd (upsert p w)) = (leads w ++ [n])%list
        /\ lead_id n = p_leadId p
        /\ ~ pastEnrich n).
Proof.
  intros [Hd [Hs Hc]]. rewrite upsert_leads.
  destruct (selectById (p_leadId p) (leads w)) as [r0 |] eqn:E.
  - left. eexists r0, _. split; [reflexivity |]. split; [reflexivity |].
    split; [intro r; reflexivity |]. split.
    + intro r. cbn. rewrite Hd. cbn. destruct (enrichment_data r0); reflexivity.
    + intros r Hp. unfold pastEnrich in *. cbn in Hp.
      destruct Hp as [Hp | Hp].
      * destruct Hs as [Hs | Hs]; rewrite Hs in Hp; cbn in Hp; [left; exact Hp | discriminate].
      * destruct Hc as [Hc | Hc]; rewrite Hc in Hp; cbn in Hp.
        -- rewrite toSql_ofSql in Hp. right. exact Hp.
        -- contradiction.
  - right. eexists. split; [reflexivity |]. split; [reflexivity |].
    split; [reflexivity |].
    unfold pastEnrich. cbn. intros [Hp | Hp].
    + destruct Hs as [Hs | Hs]; rewrite Hs in Hp; cbn in Hp; discriminate.
    + destruct Hc as [Hc | Hc]; rewrite Hc in Hp; cbn in Hp; contradiction.
Qed.

Lemma dataUnder_insert (id' : string) (rows : list Row) (n : Row) :
  selectById (lead_id n) rows = None ->
  dataUnder id' rows -> dataUnder id' (rows ++ [n]).
Proof.
  intros Hnew [Hs H]. split.
  - unfold stored in *. rewrite map_app. apply in_or_app. left. exact Hs.
  - intros r Hr Hid. apply in_app_or in Hr. destruct Hr as [Hr | [<- | []]].
    + exact (H r Hr Hid).
    + exfalso. apply (selectById_none _ _ Hnew). rewrite Hid. exact Hs.
Qed.

Lemma upsert_keeps_stored (p : PartialLead) (id' : string) :
  touchOnly p -> keepsRows (stored id') (upsert p).
Proof.
  intros Hp w H.
  destruct (upsert_shape p w Hp) as [[r0 [g [_ [-> [Hid _]]]]] | [n [_ [-> _]]]].
  - apply stored_update; assumption.
  - unfold stored in *. rewrite map_app. apply in_or_app. left. exact H.
Qed.

Lemma upsert_keeps_data (p : PartialLead) (id' : string) :
  touchOnly p -> keepsRows (dataUnder id') (upsert p).
Proof.
  intros Hp w H.
  destruct (upsert_shape p w Hp)
    as [[r0 [g [Hsel [-> [Hid [Hdata _]]]]]] | [n [Hsel [-> [Hn _]]]]].
  - apply dataUnder_update; [exact Hid | | exact H].
    intros r Hin He Hu. rewrite Hdata.
    destruct (selectById_some_id _ _ _ Hsel) as [H0 Hin0]. exact (proj2 Hu r0 Hin0 H0).
  - apply dataUnder_insert; [rewrite Hn; exact Hsel | exact H].
Qed.

Lemma upsert_plain (p : PartialLead) : touchOnly p -> keepsRows dataBacked (upsert p).
Proof.
  intros Hp w H.
  destruct (upsert_shape p w Hp)
    as [[r0 [g [Hsel [-> [Hid [Hdata Hpast]]]]]] | [n [Hsel [-> [Hn Hnot]]]]].
  - destruct (selectById_some_id _ _ _ Hsel) as [H0 Hin0].
    apply dataBacked_update_plain; [exact Hid | | | exact H].
    + intros r Hin He Hu. rewrite Hdata. exact (proj2 Hu r0 Hin0 H0).
    + intros r Hin He Hp'. rewrite <- H0. exact (H r0 Hin0 (Hpast r Hp')).
  - intros r Hr Hp'. apply in_app_or in Hr. destruct Hr as [Hr | [<- | []]].
    + apply dataUnder_insert; [rewrite Hn; exact Hsel | exact (H r Hr Hp')].
    + contradiction.
Qed.

Lemma upsert_on_held (p : PartialLead) (id : string) :
  touchOnly p ->
  keepsRows (fun rows => dataBacked rows /\ dataUnder id rows) (upsert p).
Proof.
  intro Hp. apply keepsRows_and; [apply upsert_plain | apply upsert_keeps_data]; exact Hp.
Qed.

(** ** The turns of the stage loops *)

Ltac rows_auto :=
  repeat first
    [ match goal with
      | |- movesRows ?P ?P ?m => change (keepsRows P m)
      end
    | apply keepsRows_ret
    | apply keepsRows_dateNow
    | apply keepsRows_readLeads
    | apply keepsRows_readThis
    | apply keepsRows_writeThis
    | apply keepsRows_writeRun
    | solve [auto]
    | apply keepsRows_bind; [| intro]
    | match goal with
      | |- keepsRows _ (match ?x with _ => _ end) => destruct x
      | |- keepsRows _ (let (_, _) := ?x in _) => destruct x
      end ].

Ltac with_counters P :=
  destruct (keepsRows_counters P) as [? [? [? [? [? [? [? [? [? ?]]]]]]]]].

Lemma forEach_pending (Q : string -> list Row -> Prop) (turn : Lead -> M unit)
    (ls : list Lead) :
  (forall l, keepsRows (fun rows => dataBacked rows /\ Q (leadId l) rows) (turn l)) ->
  (forall l id, keepsRows (Q id) (turn l)) ->
  forall w, dataBacked (leads w) -> (forall l, In l ls -> Q (leadId l) (leads w)) ->
            dataBacked (leads (snd (forEach ls turn w))).
Proof.
  intros Hturn Hq. induction ls as [| l ls IH]; intros w Hb Hall; cbn [forEach].
  - exact Hb.
  - rewrite bind_run. apply IH.
    + exact (proj1 (Hturn l w (conj Hb (Hall l (or_introl eq_refl))))).
    + intros l' Hl'. apply (Hq l). apply Hall. right. exact Hl'.
Qed.

Lemma filterTurn_rows (rt : Runtime) (cfg : Config) (lead : Lead) :
  keepsRows dataBacked (filterTurn rt cfg lead).
Proof.
  with_counters dataBacked.
  destruct (service_plain (leadId lead)) as [Hst [Hex _]].
  pose proof (Hst st_filtered eq_refl).
  unfold filterTurn. cbv zeta. rows_auto.
Qed.

Lemma collectTurn_rows (runId : string) (seen : list string) (d : RawDiscovery) :
  keepsRows dataBacked (collectTurn runId seen d).
Proof.
  with_counters dataBacked.
  unfold collectTurn, createFromRaw. cbv zeta.
  match goal with
  | |- context [updateStatus ?id st_collected] =>
      destruct (service_plain id) as [Hst _]; pose proof (Hst st_collected eq_refl)
  end.
  pose proof (upsert_plain (partialOfRaw (rd_rawData d) (rd_source d) runId)
                (proj2 (proj2 (proj2 (proj2
                   (touchOnly_literals "" Js.Undefined (rd_rawData d) (rd_source d) runId)))))).
  rows_auto.
Qed.

Lemma signalTurn_rows (cfg : Config) (lead : Lead) :
  keepsRows dataBacked (signalTurn cfg lead).
Proof.
  with_counters dataBacked.
  pose proof (upsert_plain (onlyId (leadId lead))
                (proj1 (touchOnly_literals (leadId lead) Js.Undefined sampleRaw "" ""))).
  unfold signalTurn, checkSignalChanges. cbv iota. rows_auto.
Qed.

Lemma scoreTurn_rows (cfg : Config) (lead : Lead) :
  keepsRows (fun rows => dataBacked rows /\ dataUnder (leadId lead) rows)
    (scoreTurn cfg lead)
  /\ forall id', keepsRows (dataUnder id') (scoreTurn cfg lead).
Proof.
  split; [| intro id'].
  - with_counters (fun rows => dataBacked rows /\ dataUnder (leadId lead) rows).
    destruct (service_on_held (leadId lead)) as [? [? [? [? [? [? [? ?]]]]]]].
    pose proof (keepsRows_scoreLead
                  (fun rows => dataBacked rows /\ dataUnder (leadId lead) rows) cfg lead).
    unfold scoreTurn. cbv zeta. rows_auto.
  - with_counters (dataUnder id').
    destruct (service_keeps_data id' (leadId lead)) as [? [? [? [? [? [? [? ?]]]]]]].
    pose proof (keepsRows_scoreLead (dataUnder id') cfg lead).
    unfold scoreTurn. cbv zeta. rows_auto.
Qed.

Lemma outputTurn_rows (cfg : Config) (lead : Lead) :
  keepsRows (fun rows => dataBacked rows /\ dataUnder (leadId lead) rows)
    (outputTurn cfg lead)
  /\ forall id', keepsRows (dataUnder id') (outputTurn cfg lead).
Proof.
  split; [| intro id'].
  - with_counters (fun rows => dataBacked rows /\ dataUnder (leadId lead) rows).
    destruct (service_on_held (leadId lead)) as [? [? [? [? [? [? [? ?]]]]]]].
    unfold outputTurn. cbv zeta. rows_auto.
  - with_counters (dataUnder id').
    destruct (service_keeps_data id' (leadId lead)) as [? [? [? [? [? [? [? ?]]]]]]].
    unfold outputTurn. cbv zeta. rows_auto.
Qed.

Lemma expiredTurn_rows (cfg : Config) (lead : Lead) :
  keepsRows (fun rows => dataBacked rows /\ dataUnder (leadId lead) rows)
    (expiredTurn cfg lead)
  /\ forall id', keepsRows (dataUnder id') (expiredTurn cfg lead).
Proof.
  pose proof (proj1 (proj2 (proj2 (proj2
                (touchOnly_literals (leadId lead) Js.Undefined sampleRaw "" ""))))) as Ht.
  split; [| intro id'].
  - with_counters (fun rows => dataBacked rows /\ dataUnder (leadId lead) rows).
    destruct (service_on_held (leadId lead)) as [? [? [? [? [? [? [? ?]]]]]]].
    pose proof (upsert_on_held _ (leadId lead) Ht).
    unfold expiredTurn. cbv zeta. rows_auto.
  - with_counters (dataUnder id').
    destruct (service_keeps_data id' (leadId lead)) as [? [? [? [? [? [? [? ?]]]]]]].
    pose proof (upsert_keeps_data _ id' Ht).
    unfold expiredTurn. cbv zeta. rows_auto.
Qed.

(** [enrichLead] on a stored lead stores its data before it sets the
    status. *)
Lemma enrichLead_rows (scrape : string -> Scrape) (lead : Lead) :
  movesRows (fun rows => dataBacked rows /\ stored (leadId lead) rows)
            (fun rows => dataBacked rows /\ dataUnder (leadId lead) rows)
            (enrichLead scrape lead)
  /\ forall id', keepsRows (stored id') (enrichLead scrape lead).
Proof.
  split; [| intro id'].
  - unfold enrichLead. cbv zeta.
    eapply movesRows_bind;
      [| intro data; eapply movesRows_bind; [apply updateEnrichment_fills |]].
    + with_counters (fun rows => dataBacked rows /\ stored (leadId lead) rows).
      assert (Hf : forall f, keepsRows (fun rows => dataBacked rows /\ stored (leadId lead) rows)
                               (addEnrichmentFailure (leadId lead) f)).
      { intro f. apply keepsRows_and; [apply service_plain | apply service_keeps_stored]. }
      rows_auto.
    + intros _.
      with_counters (fun rows => dataBacked rows /\ dataUnder (leadId lead) rows).
      destruct (service_on_held (leadId lead)) as [? [? [? [? [? [? [? ?]]]]]]].
      assert (He : forall v, keepsRows (fun rows => dataBacked rows /\ dataUnder (leadId lead) rows)
                               (upsert (idWithEmail (leadId lead) v))).
      { intro v. apply upsert_on_held.
        apply (touchOnly_literals (leadId lead) v sampleRaw "" ""). }
      assert (Hp : forall v, keepsRows (fun rows => dataBacked rows /\ dataUnder (leadId lead) rows)
                               (upsert (idWithPhone (leadId lead) v))).
      { intro v. apply upsert_on_held.
        apply (touchOnly_literals (leadId lead) v sampleRaw "" ""). }
      rows_auto.
  - with_counters (stored id').
    destruct (service_keeps_stored id' (leadId lead)) as [? [? [? [? [? [? [? ?]]]]]]].
    assert (He : forall v, keepsRows (stored id') (upsert (idWithEmail (leadId lead) v))).
    { intro v. apply upsert_keeps_stored.
      apply (touchOnly_literals (leadId lead) v sampleRaw "" ""). }
    assert (Hp : forall v, keepsRows (stored id') (upsert (idWithPhone (leadId lead) v))).
    { intro v. apply upsert_keeps_stored.
      apply (touchOnly_literals (leadId lead) v sampleRaw "" ""). }
    unfold enrichLead. cbv zeta. rows_auto.
Qed.

Lemma enrichTurn_rows (scrape : string -> Scrape) (lead : Lead) :
  keepsRows (fun rows => dataBacked rows /\ stored (leadId lead) rows)
    (enrichTurn scrape lead)
  /\ forall id', keepsRows (stored id') (enrichTurn scrape lead).
Proof.
  destruct (enrichLead_rows scrape lead) as [Hm Hs].
  split; [| intro id'].
  - with_counters (fun rows => dataBacked rows /\ stored (leadId lead) rows).
    assert (He : keepsRows (fun rows => dataBacked rows /\ stored (leadId lead) rows)
                   (enrichLead scrape lead)).
    { eapply movesRows_weaken; [| | exact Hm]; cbv beta; [tauto |].
      intros rows [Hb Hu]. split; [exact Hb | exact (proj1 Hu)]. }
    unfold enrichTurn. rows_auto.
  - with_counters (stored id'). pose proof (Hs id'). unfold enrichTurn. rows_auto.
Qed.

(** ** The stages *)

Lemma selected_rows (stage : string) (limit : Js.opt Z) (w : World)
    (selected : list Lead) (l : Lead) :
  fst (getLeadsForStage stage limit w) = Returned selected ->
  In l selected ->
  exists r statuses,
    statusMap stage = OwnEntry statuses
    /\ In r (leads w) /\ l = rowToLead r /\ In (status_ r) statuses.
Proof.
  unfold getLeadsForStage. intros Hsel Hl.
  destruct (statusMap stage) as [statuses | |] eqn:Hmap; cbn in Hsel.
  - injection Hsel as <-. apply in_map_iff in Hl. destruct Hl as [r [<- Hr]].
    apply applyLimit_incl in Hr. apply filter_In in Hr. destruct Hr as [Hr He].
    apply stageEligible_spec in He. exists r, statuses. tauto.
  - discriminate.
  - injection Hsel as <-. destruct Hl.
Qed.

Lemma getLeadsForStage_leads (stage : string) (limit : Js.opt Z) (w : World) :
  leads (snd (getLeadsForStage stage limit w)) = leads w.
Proof.
  exact (keepsRows_getLeadsForStage (fun rows => rows = leads w) stage limit w eq_refl).
Qed.

Lemma overStageLeads_rows (Q : string -> list Row -> Prop) (stage : string)
    (limit : Js.opt Z) (turn : Lead -> M unit) :
  (forall l, keepsRows (fun rows => dataBacked rows /\ Q (leadId l) rows) (turn l)) ->
  (forall l id, keepsRows (Q id) (turn l)) ->
  (forall statuses r rows,
      statusMap stage = OwnEntry statuses -> dataBacked rows -> In r rows ->
      In (status_ r) statuses -> Q (lead_id r) rows) ->
  keepsRows dataBacked (overStageLeads stage limit turn).
Proof.
  intros Hturn Hq Hsel w Hb. unfold overStageLeads. rewrite bind_run.
  pose proof (getLeadsForStage_leads stage limit w) as Hl.
  destruct (fst (getLeadsForStage stage limit w)) as [selected | m |] eqn:E;
    cbn [ret snd]; [| rewrite Hl; exact Hb | rewrite Hl; exact Hb].
  rewrite bind_run. cbn [ret snd].
  apply forEach_pending with (Q := Q); [exact Hturn | exact Hq | rewrite Hl; exact Hb |].
  intros l Hin. rewrite Hl.
  destruct (selected_rows stage limit w selected l E Hin)
    as [r [statuses [Hmap [Hr [-> Hst]]]]].
  exact (Hsel statuses r (leads w) Hmap Hb Hr Hst).
Qed.

Lemma advanced_holds_data (rows : list Row) (r : Row) :
  dataBacked rows -> In r rows -> pastEnrich r -> dataUnder (lead_id r) rows.
Proof. intros H Hr Hp. exact (H r Hr Hp). Qed.

Lemma sourceLoop_rows (P : list Row -> Prop) (cfg : Config) (limit : Js.opt Z)
    (steps : list GenStep) :
  forall batch total, keepsRows P (sourceLoop cfg limit steps batch total).
Proof.
  with_counters P.
  induction steps as [| step steps IH]; intros batch total; cbn [sourceLoop]; cbv zeta.
  - rows_auto.
  - destruct step as [business | message]; rows_auto.
Qed.

Lemma sourcesLoop_rows (P : list Row -> Prop) (cfg : Config)
    (handlers : string -> option SourceHandler) (limit : Js.opt Z)
    (srcs : list SourceConfig) :
  forall total, keepsRows P (sourcesLoop cfg handlers limit srcs total).
Proof.
  induction srcs as [| source srcs IH]; intro total; cbn [sourcesLoop]; cbv zeta.
  - apply keepsRows_ret.
  - pose proof (sourceLoop_rows P cfg limit). rows_auto.
Qed.

Lemma collectBatch_rows (runId : string) (batch : list RawDiscovery) :
  forall seen, keepsRows dataBacked (collectBatch runId seen batch).
Proof.
  induction batch as [| d batch IH]; intro seen; cbn [collectBatch].
  - apply keepsRows_ret.
  - apply keepsRows_bind; [apply collectTurn_rows | intro; apply IH].
Qed.

Lemma collectBatches_rows (runId : string) (batches : list (list RawDiscovery)) :
  forall seen, keepsRows dataBacked (collectBatches runId seen batches).
Proof.
  with_counters dataBacked.
  induction batches as [| b batches IH]; intro seen; cbn [collectBatches].
  - apply keepsRows_ret.
  - pose proof (collectBatch_rows runId b). rows_auto.
Qed.

Lemma processExpiredCooldowns_rows (cfg : Config) (limit : Js.opt Z) :
  keepsRows dataBacked (processExpiredCooldowns cfg limit).
Proof.
  intros w Hb. unfold processExpiredCooldowns, getExpiredCooldowns. rewrite !bind_run.
  cbn [dateNow readLeads ret fst snd leads].
  apply forEach_pending with (Q := dataUnder).
  - intro l. apply expiredTurn_rows.
  - intros l id. apply expiredTurn_rows.
  - exact Hb.
  - intros l Hl. cbn [leads]. apply in_map_iff in Hl. destruct Hl as [r [<- Hr]].
    apply applyLimit_incl in Hr. apply (proj1 (sortByCooldown_In _ _)) in Hr.
    apply filter_In in Hr. destruct Hr as [Hr He].
    apply (advanced_holds_data _ r Hb Hr). right.
    unfold cooldownExpired in He. destruct (cooldown_until r); [discriminate | discriminate].
Qed.

Lemma processSignalChanges_rows (cfg : Config) (limit : Js.opt Z) :
  keepsRows dataBacked (processSignalChanges cfg limit).
Proof.
  unfold processSignalChanges. cbv zeta.
  pose proof (fun xs => keepsRows_forEach dataBacked xs (signalTurn cfg)
                          (signalTurn_rows cfg)).
  rows_auto.
Qed.

(** Every [execute] keeps the table backed. *)
Lemma executeOf_rows (cfg : Config) (c : StageCall) : keepsRows dataBacked (executeOf cfg c).
Proof.
  destruct c; cbn [executeOf].
  - unfold DiscoverStage_execute. cbv zeta.
    pose proof (sourcesLoop_rows dataBacked cfg handlers (stageLimit cfg limit)).
    rows_auto.
  - unfold CollectStage_execute. with_counters dataBacked.
    pose proof (collectBatches_rows).
    destruct (chunk discoveries (pipeline_batchSize cfg)); rows_auto.
  - unfold FilterStage_execute.
    apply overStageLeads_rows with (Q := fun _ _ => True).
    + intro l. apply keepsRows_and; [apply filterTurn_rows | intros w H; exact I].
    + intros l id w H. exact I.
    + intros; exact I.
  - unfold EnrichStage_execute.
    apply overStageLeads_rows with (Q := stored).
    + intro l. apply enrichTurn_rows.
    + intros l id. apply enrichTurn_rows.
    + intros statuses r rows _ _ Hr _. apply stored_member. exact Hr.
  - unfold ScoreStage_execute.
    apply overStageLeads_rows with (Q := dataUnder).
    + intro l. apply scoreTurn_rows.
    + intros l id. apply scoreTurn_rows.
    + intros statuses r rows Hmap Hb Hr Hst. injection Hmap as <-.
      apply (advanced_holds_data _ r Hb Hr). left.
      destruct Hst as [<- | []]. reflexivity.
  - intros w Hb. unfold OutputStage_execute. rewrite bind_run.
    pose proof (getLeadsForStage_leads "output" (stageLimit cfg limit) w) as Hl.
    destruct (fst (getLeadsForStage "output" (stageLimit cfg limit) w))
      as [allLeads | m |] eqn:E; cbn [ret snd]; [| rewrite Hl; exact Hb | rewrite Hl; exact Hb].
    destruct (filter (meetsMinScore (outputMinScore cfg minScore)) allLeads)
      as [| l0 ls] eqn:Ef; [cbn [ret snd]; rewrite Hl; exact Hb |].
    rewrite !bind_run. cbn [ret snd].
    apply forEach_pending with (Q := dataUnder).
    + intro l. apply outputTurn_rows.
    + intros l id. apply outputTurn_rows.
    + cbn [dateNow snd leads]. rewrite Hl. exact Hb.
    + intros l Hin. cbn [dateNow snd leads]. rewrite Hl.
      rewrite <- Ef in Hin. apply filter_In in Hin. destruct Hin as [Hin _].
      destruct (selected_rows "output" _ w allLeads l E Hin)
        as [r [statuses [Hmap [Hr [-> Hst]]]]].
      injection Hmap as <-.
      apply (advanced_holds_data _ r Hb Hr). left.
      destruct Hst as [<- | []]. reflexivity.
  - unfold RefreshStage_execute.
    pose proof (processExpiredCooldowns_rows cfg (stageLimit cfg limit)).
    pose proof (processSignalChanges_rows cfg (stageLimit cfg limit)).
    rows_auto.
Qed.

(** Every stage run keeps the table backed, and so does every sequence
    of runs; the empty table is backed. *)
Lemma runCall_rows (cfg : Config) (c : StageCall) (newRunId : string) :
  keepsRows dataBacked (runCall cfg c newRunId).
Proof.
  pose proof (executeOf_rows cfg c).
  unfold runCall, runStage, runService_start, runService_complete, runService_fail.
  rows_auto.
Qed.

Lemma runCalls_rows (cfg : Config) (calls : list (StageCall * string)) :
  forall w, dataBacked (leads w) -> dataBacked (leads (runCalls cfg calls w)).
Proof.
  induction calls as [| [c newRunId] calls IH]; intros w H; cbn [runCalls]; [exact H |].
  apply IH. apply (runCall_rows cfg c newRunId (withNewStage w)). exact H.
Qed.

Lemma dataBacked_nil : dataBacked [].
Proof. intros r []. Qed.

(** In a table the stages built from an empty one, a lead that holds a
    cooldown holds enrichment data. *)
Lemma cooldown_holds_data (cfg : Config) (calls : list (StageCall * string)) (w0 : World) :
  leads w0 = [] ->
  forall r, In r (leads (runCalls cfg calls w0)) ->
            cooldown_until r <> None -> enrichment_data r <> None.
Proof.
  intros H0 r Hr Hc.
  assert (Hb : dataBacked (leads (runCalls cfg calls w0))).
  { apply runCalls_rows. rewrite H0. apply dataBacked_nil. }
  exact (proj2 (Hb r Hr (or_intror Hc)) r Hr eq_refl).
Qed.

(** ** The status a swept lead resumes at *)

Lemma specReentryStatus_of_data (r : Row) :
  enrichment_data r <> None -> specReentryStatus r = st_enriched.
Proof.
  unfold specReentryStatus, hasEnrichment. intro H.
  destruct (enrichment_data r) as [e |]; [reflexivity | contradiction].
Qed.

Lemma releasedRow_resumed (cfg : Config) (r r' : Row) :
  enrichment_data r <> None ->
  releasedRow cfg r r' ->
  lead_id r' = lead_id r /\ cooldown_until r' = None /\ status_ r' = specReentryStatus r.
Proof.
  intros Hd [seen [updated ->]]. rewrite (specReentryStatus_of_data r Hd).
  destruct (refresh_resetExhaustedAngles cfg); auto.
Qed.


